(** * Excel_Lite: the formula engine, embedded in Rocq

    A shallow embedding of the recalculation core of the spreadsheet:
    - [lib/a1.ts]        A1 notation utilities,
    - [lib/graph.ts]     the dependency graph,
    - [lib/evaluator.ts] the AST evaluator,
    - [lib/parser.ts]    the tokenizer and the recursive-descent parser,
    - [lib/fill.ts]      the reference adjuster used by the fill handle.

    Part I holds the definitions, translated function by function from the
    TypeScript sources; Part II holds the properties proved about them. *)

From Stdlib Require Import ZArith String Ascii List Lia Classical_Prop Sorted.
From Stdlib Require Import DecimalString DecimalZ DecimalPos.
From Stdlib Require Import PrimFloat SpecFloat FloatOps Uint63.
From stdpp Require Import base list strings gmap relations.

Open Scope string_scope.
Set Warnings "-register-all,-clear-no-such-hyp".

(* ===================================================================== *)
(** * Part I: the embedding                                               *)
(* ===================================================================== *)

(** ** JavaScript [Set<string>]

    A JavaScript [Set] iterates in insertion order and holds each element
    once.  It is modelled by the list of its elements in insertion order. *)
Module JSSet.

Definition t := list string.

Definition empty : list string := [].

  (** [s.has(x)] *)
Definition has (x : string) (s : list string) : bool := bool_decide (x ∈ s).

  (** [s.add(x)]: appended at the end unless already present. *)
Definition add (x : string) (s : list string) : list string :=
    if has x s then s else s ++ [x].

  (** [s.delete(x)] *)
Definition delete (x : string) (s : list string) : list string :=
    filter (λ y, y ≠ x) s.

  (** [new Set(array)] *)
Definition of_list (l : list string) : list string :=
    foldl (λ s x, add x s) empty l.

  (** [s.size] *)
Definition size (s : list string) : nat := length s.

End JSSet.

(** ** JavaScript [Map<string, V>]

    A JavaScript [Map] iterates in insertion order and holds one entry
    per key; setting a key that is present replaces its value in place. *)
Module JSMap.
Section WithValues.
Context {V : Type}.

Definition empty : list (string * V) := [].

(** [m.get(k)] *)
Fixpoint get (k : string) (m : list (string * V)) : option V :=
  match m with
  | [] => None
  | (k', v) :: m => if String.eqb k' k then Some v else get k m
  end.

(** [m.set(k, v)] *)
Fixpoint set (k : string) (v : V) (m : list (string * V)) : list (string * V) :=
  match m with
  | [] => [(k, v)]
  | (k', v') :: m =>
      if String.eqb k' k then (k, v) :: m else (k', v') :: set k v m
  end.

End WithValues.
End JSMap.

(** ** The dependency graph ([lib/graph.ts]) *)
Module Graph.
Local Open Scope list_scope.

  (** [interface GraphNode] *)
Record GraphNode := mkNode {
    key : string;
    dependencies : list string;   (* cells this cell depends on *)
    dependents : list string      (* cells that depend on this cell *)
  }.

  (** [private nodes = new Map<string, GraphNode>()] *)
Abbreviation Graph := (gmap string GraphNode).

Definition set_dependents (f : list string → list string) (n : GraphNode) : GraphNode :=
    {| key := key n; dependencies := dependencies n; dependents := f (dependents n) |}.

Definition set_dependencies (f : list string → list string) (n : GraphNode) : GraphNode :=
    {| key := key n; dependencies := f (dependencies n); dependents := dependents n |}.

  (** The loop shared by [updateCell] and [removeCell]:
<<
      for (const dep of node.dependencies) {
        const depNode = this.nodes.get(dep);
        if (depNode) depNode.dependents.delete(key);
      }
>> *)
Definition detach_from_dependencies (k : string) (deps : list string) (g : Graph) : Graph :=
    foldl (λ g dep, alter (set_dependents (JSSet.delete k)) dep g) g deps.

  (** The second loop of [removeCell]:
<<
      for (const dependent of node.dependents) {
        const dependentNode = this.nodes.get(dependent);
        if (dependentNode) dependentNode.dependencies.delete(key);
      }
>> *)
Definition detach_from_dependents (k : string) (ds : list string) (g : Graph) : Graph :=
    foldl (λ g d, alter (set_dependencies (JSSet.delete k)) d g) g ds.

  (** The last loop of [updateCell]:
<<
      for (const dep of dependencies) {
        let depNode = this.nodes.get(dep);
        if (!depNode) { depNode = { key: dep, ... empty sets }; this.nodes.set(dep, depNode); }
        depNode.dependents.add(key);
      }
>> *)
Definition attach_step (k : string) (g : Graph) (dep : string) : Graph :=
    let depNode :=
      match g !! dep with
      | Some n => n
      | None => mkNode dep JSSet.empty JSSet.empty
      end in
    <[dep := set_dependents (JSSet.add k) depNode]> g.

Definition attach_to_dependencies (k : string) (deps : list string) (g : Graph) : Graph :=
    foldl (attach_step k) g deps.

  (** [updateCell(key, dependencies)].  The new node shares the [dependents]
      set object of the old node, so it is read after the first loop, which
      may have deleted [key] from it (a cell that depended on itself). *)
Definition updateCell (k : string) (deps : list string) (g : Graph) : Graph :=
    let g1 :=
      match g !! k with
      | Some oldNode => detach_from_dependencies k (dependencies oldNode) g
      | None => g
      end in
    let node :=
      {| key := k;
         dependencies := JSSet.of_list deps;
         dependents := match g1 !! k with
                       | Some oldNode => dependents oldNode
                       | None => JSSet.empty
                       end |} in
    attach_to_dependencies k deps (<[k := node]> g1).

  (** [removeCell(key)] *)
Definition removeCell (k : string) (g : Graph) : Graph :=
    match g !! k with
    | None => g
    | Some node =>
        let g1 := detach_from_dependencies k (dependencies node) g in
        let live := match g1 !! k with Some n => dependents n | None => [] end in
        let g2 := detach_from_dependents k live g1 in
        delete k g2
    end.

  (** The [while (queue.length > 0)] loop of [getAffectedCells].  Every
      iteration takes one step of [fuel]; [None] stands for a loop that has
      not finished within the fuel. *)
Fixpoint affected_loop (fuel : nat) (g : Graph)
      (affected queue visited : list string) : option (list string) :=
    match fuel with
    | O => None
    | S fuel =>
        match queue with
        | [] => Some affected
        | current :: queue =>
            if JSSet.has current visited
            then affected_loop fuel g affected queue visited
            else
              let visited := JSSet.add current visited in
              match g !! current with
              | None => affected_loop fuel g affected queue visited
              | Some node =>
                  (* for (const dependent of node.dependents)
                       { affected.add(dependent); queue.push(dependent); } *)
                  let affected := foldl (λ s d, JSSet.add d s) affected (dependents node) in
                  let queue := queue ++ dependents node in
                  affected_loop fuel g affected queue visited
              end
        end
    end.

  (** The number of entries of all [dependents] sets: every queue entry but
      the first is pushed while one of them is iterated. *)
Definition total_dependents (g : Graph) : nat :=
    sum_list ((λ kv, length (dependents kv.2)) <$> map_to_list g).

  (** [getAffectedCells(key)] *)
Definition getAffectedCells (g : Graph) (k : string) : option (list string) :=
    affected_loop (S (S (total_dependents g))) g JSSet.empty [k] JSSet.empty.

  (** Entries of the [inDegree] map are JavaScript numbers:
      [inDegree.get(dependent)! - 1] is [NaN] when the map has no entry. *)
Inductive degree := Deg (z : Z) | DegNaN.

Definition degree_pred (d : option degree) : degree :=
    match d with
    | Some (Deg z) => Deg (z - 1)
    | Some DegNaN | None => DegNaN
    end.

  (** [degree === 0] *)
Definition degree_is_zero (d : degree) : bool :=
    match d with Deg z => (z =? 0)%Z | DegNaN => false end.

  (** The first loop of [getTopologicalOrder], one key at a time:
<<
      const node = this.nodes.get(key);
      if (!node) continue;
      let degree = 0;
      for (const dep of node.dependencies) if (keys.has(dep)) degree++;
      inDegree.set(key, degree);
      if (degree === 0) queue.push(key);
>> *)
Definition init_step (g : Graph) (keys : list string)
      (st : gmap string degree * list string) (k : string)
      : gmap string degree * list string :=
    let '(inDegree, queue) := st in
    match g !! k with
    | None => st
    | Some node =>
        let degree :=
          foldl (λ degree dep, if JSSet.has dep keys then (degree + 1)%Z else degree)
                0%Z (dependencies node) in
        (<[k := Deg degree]> inDegree,
         if (degree =? 0)%Z then queue ++ [k] else queue)
    end.

  (** The inner loop of Kahn's algorithm, one dependent at a time:
<<
      if (!keys.has(dependent)) continue;
      const degree = inDegree.get(dependent)! - 1;
      inDegree.set(dependent, degree);
      if (degree === 0) queue.push(dependent);
>> *)
Definition relax_step (keys : list string)
      (st : gmap string degree * list string) (dependent : string)
      : gmap string degree * list string :=
    let '(inDegree, queue) := st in
    if JSSet.has dependent keys then
      let degree := degree_pred (inDegree !! dependent) in
      (<[dependent := degree]> inDegree,
       if degree_is_zero degree then queue ++ [dependent] else queue)
    else st.

  (** The [while (queue.length > 0)] loop of [getTopologicalOrder]. *)
Fixpoint kahn_loop (fuel : nat) (g : Graph) (keys : list string)
      (inDegree : gmap string degree) (queue result : list string)
      : option (list string) :=
    match fuel with
    | O => None
    | S fuel =>
        match queue with
        | [] => Some result
        | current :: queue =>
            let result := result ++ [current] in
            match g !! current with
            | None => kahn_loop fuel g keys inDegree queue result
            | Some node =>
                let '(inDegree, queue) :=
                  foldl (relax_step keys) (inDegree, queue) (dependents node) in
                kahn_loop fuel g keys inDegree queue result
            end
        end
    end.

  (** [getTopologicalOrder(keys)].  The outer [option] is the fuel of the
      loop; the inner one is the [string[] | null] of the source, [None]
      being the cycle signal. *)
Definition getTopologicalOrder (g : Graph) (keys : list string)
      : option (option (list string)) :=
    let '(inDegree, queue) := foldl (init_step g keys) (∅, []) keys in
    match kahn_loop (S (length keys)) g keys inDegree queue [] with
    | None => None
    | Some result =>
        if bool_decide (length result ≠ JSSet.size keys)
        then Some None   (* Cycle detected *)
        else Some (Some result)
    end.

  (** [getRecalcOrder(changedKeys)] *)
Definition getRecalcOrder (g : Graph) (changedKeys : list string)
      : option (list string) :=
    affected ← foldl (λ acc k,
                  affected ← acc;
                  deps ← getAffectedCells g k;
                  Some (foldl (λ s d, JSSet.add d s) affected deps))
               (Some JSSet.empty) changedKeys;
    order ← getTopologicalOrder g affected;
    Some (match order with Some o => o | None => affected end).

  (** The [for (const dep of node.dependencies)] loop of the [dfs] closure
      of [hasCycle], given the closure itself for the nested calls.  A
      result holds what [dfs] returned and the two sets as they are then;
      [None] stands for a call that has not finished within its fuel. *)
Fixpoint dfs_loop
      (dfs : string → list string → list string → option (bool * list string * list string))
      (deps visited recursionStack : list string)
      : option (bool * list string * list string) :=
    match deps with
    | [] => Some (false, visited, recursionStack)
    | dep :: deps =>
        if negb (JSSet.has dep visited) then
          match dfs dep visited recursionStack with
          | Some (false, visited, recursionStack) =>
              dfs_loop dfs deps visited recursionStack
          | other => other          (* [return true], or out of fuel *)
          end
        else if JSSet.has dep recursionStack then
          Some (true, visited, recursionStack)   (* Cycle detected *)
        else dfs_loop dfs deps visited recursionStack
    end.

  (** The [dfs] closure of [hasCycle]; [fuel] bounds the depth of the
      recursion. *)
Fixpoint dfs (fuel : nat) (g : Graph) (current : string)
      (visited recursionStack : list string)
      : option (bool * list string * list string) :=
    match fuel with
    | O => None
    | S fuel =>
        let visited := JSSet.add current visited in
        let recursionStack := JSSet.add current recursionStack in
        let deps :=
          match g !! current with
          | Some node => dependencies node
          | None => []
          end in
        match dfs_loop (dfs fuel g) deps visited recursionStack with
        | Some (false, visited, recursionStack) =>
            Some (false, visited, JSSet.delete current recursionStack)
        | other => other
        end
    end.

  (** The keys a search from [key] can come across: [key] and every
      recorded dependency. *)
Definition search_keys (g : Graph) (key : string) : gset string :=
    {[ key ]} ∪ ⋃ ((λ kv, list_to_set (dependencies kv.2)) <$> map_to_list g).

  (** [hasCycle(key)].  Every nested call of [dfs] visits a key not visited
      before, so the recursion is no deeper than the number of keys. *)
Definition hasCycle (g : Graph) (key : string) : option bool :=
    r ← dfs (S (size (search_keys g key))) g key JSSet.empty JSSet.empty;
    Some r.1.1.

  (** The loop of the [dfs] closure of [findCycle]: here the recursion
      stack is an array, searched with [includes], and every cell visited
      is also pushed on [path]. *)
Fixpoint find_loop
      (dfs : string → list string → list string → list string
             → option (bool * list string * list string * list string))
      (deps visited recursionStack path : list string)
      : option (bool * list string * list string * list string) :=
    match deps with
    | [] => Some (false, visited, recursionStack, path)
    | dep :: deps =>
        if negb (JSSet.has dep visited) then
          match dfs dep visited recursionStack path with
          | Some (false, visited, recursionStack, path) =>
              find_loop dfs deps visited recursionStack path
          | other => other
          end
        else if bool_decide (dep ∈ recursionStack) then
          Some (true, visited, recursionStack, path)    (* Found cycle *)
        else find_loop dfs deps visited recursionStack path
    end.

  (** The [dfs] closure of [findCycle]. *)
Fixpoint find_dfs (fuel : nat) (g : Graph) (current : string)
      (visited recursionStack path : list string)
      : option (bool * list string * list string * list string) :=
    match fuel with
    | O => None
    | S fuel =>
        let visited := JSSet.add current visited in
        let recursionStack := recursionStack ++ [current] in   (* push *)
        let path := path ++ [current] in                       (* push *)
        let deps :=
          match g !! current with
          | Some node => dependencies node
          | None => []
          end in
        match find_loop (find_dfs fuel g) deps visited recursionStack path with
        | Some (false, visited, recursionStack, path) =>
            Some (false, visited, removelast recursionStack, path)   (* pop *)
        | other => other
        end
    end.

  (** [findCycle(key)]: the [string[] | null] of the source inside the
      fuel option. *)
Definition findCycle (g : Graph) (key : string) : option (option (list string)) :=
    '(found, _, _, path) ←
      find_dfs (S (size (search_keys g key))) g key JSSet.empty [] [];
    Some (if found : bool then Some path else None).

  (** [getAllCyclicCells()], as the set of its elements. *)
Definition getAllCyclicCells (g : Graph) : option (gset string) :=
    foldl (λ cyclic key,
             cyclic ← cyclic;
             b ← hasCycle g key;
             Some (if b : bool then {[ key ]} ∪ cyclic else cyclic))
          (Some (∅ : gset string)) (map_to_list g).*1.

  (** [clear()] *)
Definition clear (g : Graph) : Graph := ∅.

  (** The graph states a host can reach: a fresh graph, then any sequence
      of the three mutations. *)
Inductive reachable : Graph → Prop :=
  | reachable_new : reachable ∅
  | reachable_updateCell g k deps :
      reachable g → reachable (updateCell k deps g)
  | reachable_removeCell g k :
      reachable g → reachable (removeCell k g)
  | reachable_clear g :
      reachable g → reachable (clear g).

  (** [b] is recorded as a dependency of [a]. *)
Definition depends_on (g : Graph) (a b : string) : Prop :=
    ∃ n, g !! a = Some n ∧ b ∈ dependencies n.

  (** [a] is recorded as a dependent of [b]. *)
Definition dependent_of (g : Graph) (b a : string) : Prop :=
    ∃ n, g !! b = Some n ∧ a ∈ dependents n.

  (** The dependency edges whose two ends both lie in a key set. *)
Definition depends_within (g : Graph) (keys : list string) (a b : string) : Prop :=
    a ∈ keys ∧ b ∈ keys ∧ depends_on g a b.

  (** [b] is listed before [a]. *)
Definition listed_before (order : list string) (b a : string) : Prop :=
    ∃ l1 l2, order = l1 ++ a :: l2 ∧ b ∈ l1.

End Graph.

(** ** Integers held in JavaScript numbers

    Row and column indices, loop counters and the numerals of cell
    references are numbers, that is doubles; the ones the engine computes
    with hold integers, and are modelled by [Z].  A double holds every
    integer up to [2^53] in magnitude; beyond, it keeps 53 significant
    bits. *)
Module JSNumber.

(** The integer [z] as a number stores it: the nearest double, ties to the
    even significand.  (Numbers large enough to become [Infinity], from
    [2^1024] on, are not modelled.) *)
Definition round (z : Z) : Z :=
  let a := Z.abs z in
  if (a <? 2 ^ 53)%Z then z
  else
    let e := (Z.log2 a - 52)%Z in          (* the last place is worth [2^e] *)
    let q := (a / 2 ^ e)%Z in              (* the 53 leading bits *)
    let r := (a mod 2 ^ e)%Z in
    let half := (2 ^ (e - 1))%Z in
    let q' :=
      if (r <? half)%Z then q
      else if (half <? r)%Z then (q + 1)%Z
      else if Z.even q then q else (q + 1)%Z in
    (Z.sgn z * (q' * 2 ^ e))%Z.

(** [i++] on a number that holds an integer: at [2^53], and at every
    double with an even significand beyond, it leaves the number as it
    is. *)
Definition incr (i : Z) : Z := round (i + 1).

(** The steps a loop [for (let i = from; i <= to; i++)] is given.  Each
    round either advances [i] by at least one or leaves it where it is
    for ever, so a loop that ends at all ends within [to - from + 1]
    rounds and the test that leaves it: running out of these steps stands
    for a loop that never ends. *)
Definition loop_fuel (from to : Z) : nat := S (Z.to_nat (to - from + 1)).

End JSNumber.

(** ** Characters and strings as the engine uses them

    Strings are sequences of code units; a code unit is modelled by an
    [ascii] (the Latin-1 range), which covers every character the
    tokenizer and the notation utilities distinguish. *)
Module Chars.

Definition code (c : ascii) : N := N_of_ascii c.

(** [/\d/] *)
Definition is_digit (c : ascii) : bool :=
  (48 <=? code c)%N && (code c <=? 57)%N.

(** [/[A-Za-z]/] (also [/[A-Z]/i]) *)
Definition is_letter (c : ascii) : bool :=
  ((65 <=? code c)%N && (code c <=? 90)%N)
  || ((97 <=? code c)%N && (code c <=? 122)%N).

(** [/[A-Za-z0-9_]/] *)
Definition is_ident_char (c : ascii) : bool :=
  is_letter c || is_digit c || Ascii.eqb c "_".

(** [/\s/] on the Latin-1 range: tab, line feed, vertical tab, form feed,
    carriage return, space and no-break space. *)
Definition is_space (c : ascii) : bool :=
  ((9 <=? code c)%N && (code c <=? 13)%N)
  || (code c =? 32)%N || (code c =? 160)%N.

(** [toUpperCase] on one letter of [A-Za-z]. *)
Definition to_upper (c : ascii) : ascii :=
  if ((97 <=? code c)%N && (code c <=? 122)%N)%bool
  then ascii_of_N (code c - 32) else c.

(** The double quote that delimits string literals. *)
Definition quote : ascii := ascii_of_N 34.

(** The longest prefix whose characters satisfy [p], and the rest. *)
Fixpoint span (p : ascii → bool) (s : string) : string * string :=
  match s with
  | String c s' =>
      if p c then let '(a, b) := span p s' in (String c a, b)
      else (EmptyString, s)
  | EmptyString => (EmptyString, EmptyString)
  end.

(** [s.replace(/\$/g, '')] *)
Fixpoint strip_dollars (s : string) : string :=
  match s with
  | String c s' =>
      if Ascii.eqb c "$" then strip_dollars s' else String c (strip_dollars s')
  | EmptyString => EmptyString
  end.

(** [s.toUpperCase()] on strings of letters. *)
Fixpoint upper (s : string) : string :=
  match s with
  | String c s' => String (to_upper c) (upper s')
  | EmptyString => EmptyString
  end.

(** The integer that a string of decimal digits denotes. *)
Definition digits_value (s : string) : Z :=
  match NilEmpty.uint_of_string s with
  | Some d => Z.of_uint d
  | None => 0
  end.

(** [parseInt(s, 10)] on a string of decimal digits (the only strings it is
    given: the [\d+] group of a matched pattern): the number nearest to
    the integer denoted. *)
Definition parseInt (s : string) : Z := JSNumber.round (digits_value s).

(** An integer converted to a string, as in [col + (row + 1)]. *)
Definition int_to_string (z : Z) : string :=
  NilZero.string_of_int (Z.to_int z).

End Chars.

(** ** A1 notation ([lib/a1.ts])

    Row and column indices are integers, modelled by [Z].  The numerals
    read by [parseInt], the [- 1] applied to them and the counters of the
    loops are rounded as the doubles of the source are; the other sums
    and products on indices are written exactly, which is what the source
    computes as long as the indices stay below [2^53] (column names of at
    most eleven letters). *)
Module A1.
Import Chars.

(** [type CellAddress = { col: number; row: number }] *)
Record CellAddress := mkAddr { col : Z; row : Z }.

(** [interface CellRef] *)
Record CellRef := mkRef { ref_col : Z; ref_row : Z; absCol : bool; absRow : bool }.

(** The loop of [colToLetter]:
<<
    while (num > 0) {
      const remainder = (num - 1) % 26;
      result = String.fromCharCode(65 + remainder) + result;
      num = Math.floor((num - 1) / 26);
    }
>> *)
Fixpoint colToLetter_loop (fuel : nat) (num : Z) (result : string) : string :=
  match fuel with
  | O => result
  | S fuel =>
      if (0 <? num)%Z then
        let remainder := Z.rem (num - 1) 26 in
        colToLetter_loop fuel ((num - 1) / 26)%Z
          (String (ascii_of_N (Z.to_N (65 + remainder))) result)
      else result
  end.

(** [colToLetter(col)]: [num] strictly decreases, so [num] iterations are
    enough. *)
Definition colToLetter (col : Z) : string :=
  colToLetter_loop (Z.to_nat (col + 1)) (col + 1) EmptyString.

(** The loop of [letterToCol]:
<<
    for (let i = 0; i < upper.length; i++) {
      const charCode = upper.charCodeAt(i) - 64;
      result = result * 26 + charCode;
    }
>> *)
Fixpoint letterToCol_loop (upper : string) (result : Z) : Z :=
  match upper with
  | String c rest => letterToCol_loop rest (result * 26 + (Z.of_N (code c) - 64))%Z
  | EmptyString => result
  end.

(** [letterToCol(letters)] *)
Definition letterToCol (letters : string) : Z :=
  (letterToCol_loop (upper letters) 0 - 1)%Z.

(** [addressToA1(addr)] *)
Definition addressToA1 (addr : CellAddress) : string :=
  colToLetter (col addr) ++ int_to_string (row addr + 1).

(** [a1ToAddress(a1)], with the pattern [/^([A-Z]+)(\d+)$/i]. *)
Definition a1ToAddress (a1 : string) : option CellAddress :=
  let '(letters, rest) := span is_letter a1 in
  let '(digits, rest') := span is_digit rest in
  if (String.length letters =? 0)%nat || (String.length digits =? 0)%nat
     || negb (String.length rest' =? 0)%nat
  then None
  else
    let col := letterToCol letters in
    let row := JSNumber.round (parseInt digits - 1) in
    if (row <? 0)%Z || (col <? 0)%Z then None
    else Some (mkAddr col row).

(** An optional [$] at the head of a string. *)
Definition opt_dollar (s : string) : bool * string :=
  match s with
  | String c s' => if Ascii.eqb c "$" then (true, s') else (false, s)
  | EmptyString => (false, s)
  end.

(** [parseCellRef(ref)], with the pattern [/^(\$?)([A-Z]+)(\$?)(\d+)$/i]. *)
Definition parseCellRef (ref : string) : option CellRef :=
  let '(absCol, s1) := opt_dollar ref in
  let '(colLetter, s2) := span is_letter s1 in
  let '(absRow, s3) := opt_dollar s2 in
  let '(rowNum, s4) := span is_digit s3 in
  if (String.length colLetter =? 0)%nat || (String.length rowNum =? 0)%nat
     || negb (String.length s4 =? 0)%nat
  then None
  else
    let col := letterToCol colLetter in
    let row := JSNumber.round (parseInt rowNum - 1) in
    if (row <? 0)%Z || (col <? 0)%Z then None
    else Some (mkRef col row absCol absRow).

(** [cellRefToA1(ref)] *)
Definition cellRefToA1 (ref : CellRef) : string :=
  let colStr := (if absCol ref then "$" else "") ++ colToLetter (ref_col ref) in
  let rowStr := (if absRow ref then "$" else "") ++ int_to_string (ref_row ref + 1) in
  colStr ++ rowStr.

(** [adjustRefForFill(ref, deltaRow, deltaCol)] *)
Definition adjustRefForFill (ref : CellRef) (deltaRow deltaCol : Z) : CellRef :=
  {| ref_col := if absCol ref then ref_col ref else (ref_col ref + deltaCol)%Z;
     ref_row := if absRow ref then ref_row ref else (ref_row ref + deltaRow)%Z;
     absCol := absCol ref;
     absRow := absRow ref |}.

(** [cellKey(addr)]: the template string [r${addr.row}c${addr.col}]. *)
Definition cellKey (addr : CellAddress) : string :=
  "r" ++ int_to_string (row addr) ++ "c" ++ int_to_string (col addr).

(** [keyToAddress(key)], with the pattern [/^r(\d+)c(\d+)$/]. *)
Definition keyToAddress (key : string) : option CellAddress :=
  match key with
  | String c1 s1 =>
      if Ascii.eqb c1 "r" then
        let '(rowDigits, s2) := span is_digit s1 in
        match s2 with
        | String c2 s3 =>
            if Ascii.eqb c2 "c" then
              let '(colDigits, s4) := span is_digit s3 in
              if (String.length rowDigits =? 0)%nat
                 || (String.length colDigits =? 0)%nat
                 || negb (String.length s4 =? 0)%nat
              then None
              else Some {| row := parseInt rowDigits; col := parseInt colDigits |}
            else None
        | EmptyString => None
        end
      else None
  | EmptyString => None
  end.

(** [isValidAddress(addr, maxCols, maxRows)] *)
Definition isValidAddress (addr : CellAddress) (maxCols maxRows : Z) : bool :=
  (0 <=? col addr)%Z && (col addr <? maxCols)%Z
  && (0 <=? row addr)%Z && (row addr <? maxRows)%Z.

(** The inner loop of [getRangeCells], from the column reached:
    [for (let col = minCol; col <= maxCol; col++) cells.push({ row, col })].
    Each round takes one step of fuel. *)
Fixpoint cells_cols (fuel : nat) (row col maxCol : Z) (cells : list CellAddress)
    : option (list CellAddress) :=
  match fuel with
  | O => None
  | S fuel =>
      if (col <=? maxCol)%Z then
        cells_cols fuel row (JSNumber.incr col) maxCol
          (cells ++ [{| row := row; col := col |}])%list
      else Some cells
  end.

(** The outer loop, [for (let row = minRow; row <= maxRow; row++)], from
    the row reached. *)
Fixpoint cells_rows (fuel : nat) (row maxRow minCol maxCol : Z)
    (cells : list CellAddress) : option (list CellAddress) :=
  match fuel with
  | O => None
  | S fuel =>
      if (row <=? maxRow)%Z then
        cells ← cells_cols (JSNumber.loop_fuel minCol maxCol) row minCol maxCol cells;
        cells_rows fuel (JSNumber.incr row) maxRow minCol maxCol cells
      else Some cells
  end.

(** [getRangeCells(start, end)]: the cells pushed, in order; [None] when
    one of the loops never ends. *)
Definition getRangeCells (start end_ : CellAddress) : option (list CellAddress) :=
  let minRow := Z.min (row start) (row end_) in
  let maxRow := Z.max (row start) (row end_) in
  let minCol := Z.min (col start) (col end_) in
  let maxCol := Z.max (col start) (col end_) in
  cells_rows (JSNumber.loop_fuel minRow maxRow) minRow maxRow minCol maxCol [].

End A1.

(** ** JavaScript numbers

    The engine computes with the host's double-precision numbers and a few
    of its library functions.  They are kept abstract: every property below
    holds whatever the host's arithmetic is. *)
Class Natives (num : Type) := {
  num_zero : num;                        (* the literal [0] *)
  num_add : num → num → num;             (* [a + b] *)
  num_sub : num → num → num;             (* [a - b] *)
  num_mul : num → num → num;             (* [a * b] *)
  num_div : num → num → num;             (* [a / b] *)
  num_pow : num → num → num;             (* [Math.pow(a, b)] *)
  num_is_zero : num → bool;              (* [a === 0] *)
  num_isNaN : num → bool;                (* [isNaN(a)] *)
  num_min : list num → num;              (* [Math.min(...values)] *)
  num_max : list num → num;              (* [Math.max(...values)] *)
  num_of_nat : nat → num;                (* [values.length] as a number *)
  parseFloat : string → num;             (* [parseFloat(s)] *)
  num_toString : num → string            (* [a.toString()] *)
}.

(** ** A concrete host for running examples

    [Natives] instantiated with the kernel's IEEE 754 binary64 numbers:
    [+ - * /], [=== 0] and [isNaN] are the double-precision operations
    themselves.  The library functions are small executable stand-ins that
    agree with JavaScript on the inputs the examples use: [parseFloat] on
    plain decimal literals (sign, digits, one decimal point), [toString] on
    integers and on [NaN], [Math.pow] on non-negative integer exponents.
    Every theorem of Part II is proved for an arbitrary instance; this one
    only serves to evaluate the definitions on concrete inputs. *)
Module Double.
Import Chars.

Definition of_Z (z : Z) : float :=
  if (z <? 0)%Z then PrimFloat.opp (PrimFloat.of_uint63 (Uint63.of_Z (- z)))
  else PrimFloat.of_uint63 (Uint63.of_Z z).

(** The integer a double denotes, when it denotes one. *)
Definition to_Z (f : float) : option Z :=
  match Prim2SF f with
  | S754_zero _ => Some 0%Z
  | S754_finite s m e =>
      let magnitude :=
        if (0 <=? e)%Z then Some (Z.pos m * 2 ^ e)%Z
        else if (Z.pos m mod 2 ^ (- e) =? 0)%Z then Some (Z.pos m / 2 ^ (- e))%Z
        else None in
      (λ z, if s then (- z)%Z else z) <$> magnitude
  | _ => None
  end.

Definition isNaN (f : float) : bool := negb (PrimFloat.eqb f f).

Definition pow (x y : float) : float :=
  match to_Z y with
  | Some n =>
      if (0 <=? n)%Z then Nat.iter (Z.to_nat n) (PrimFloat.mul x) PrimFloat.one
      else PrimFloat.nan
  | None => PrimFloat.nan
  end.

Definition min_list (l : list float) : float :=
  foldl (λ acc v,
           if isNaN acc || isNaN v then PrimFloat.nan
           else if PrimFloat.ltb v acc then v else acc)
        PrimFloat.infinity l.

Definition max_list (l : list float) : float :=
  foldl (λ acc v,
           if isNaN acc || isNaN v then PrimFloat.nan
           else if PrimFloat.ltb acc v then v else acc)
        PrimFloat.neg_infinity l.

Fixpoint skip_spaces (s : string) : string :=
  match s with
  | String c s' => if is_space c then skip_spaces s' else s
  | EmptyString => s
  end.

Definition parse_float (s : string) : float :=
  let s := skip_spaces s in
  let '(negative, s) :=
    match s with
    | String c s' =>
        if Ascii.eqb c "-" then (true, s')
        else if Ascii.eqb c "+" then (false, s') else (false, s)
    | EmptyString => (false, s)
    end in
  let '(int_part, s) := span is_digit s in
  let frac_part :=
    match s with
    | String c s' => if Ascii.eqb c "." then fst (span is_digit s') else EmptyString
    | EmptyString => EmptyString
    end in
  if (String.length int_part + String.length frac_part =? 0)%nat then PrimFloat.nan
  else
    let mantissa := parseInt (int_part ++ frac_part) in
    let magnitude :=
      PrimFloat.div (of_Z mantissa) (of_Z (10 ^ Z.of_nat (String.length frac_part))) in
    if negative then PrimFloat.opp magnitude else magnitude.

Definition to_string (f : float) : string :=
  if isNaN f then "NaN"
  else match to_Z f with
       | Some z => int_to_string z
       | None => if PrimFloat.ltb f PrimFloat.zero then "-Infinity" else "Infinity"
       end.

#[export] Instance natives : Natives float := {|
  num_zero := PrimFloat.zero;
  num_add := PrimFloat.add;
  num_sub := PrimFloat.sub;
  num_mul := PrimFloat.mul;
  num_div := PrimFloat.div;
  num_pow := pow;
  num_is_zero := λ x, PrimFloat.eqb x PrimFloat.zero;
  num_isNaN := isNaN;
  num_min := min_list;
  num_max := max_list;
  num_of_nat := λ n, of_Z (Z.of_nat n);
  parseFloat := parse_float;
  num_toString := to_string
|}.

End Double.

(** ** The syntax tree ([types/sheet.ts]) *)
Module Sheet.
Section WithNumbers.
Variable num : Type.

(** [interface ASTNode], one constructor per [ASTNodeType]. *)
Inductive ASTNode :=
| Number (value : num)
| String_ (value : string)
| CellRef (cellRef : string)
| RangeRef (start end_ : string)
| BinaryOp (operator : string) (left right : ASTNode)
| UnaryOp (operator : string) (operand : ASTNode)
| FunctionCall (name : string) (args : list ASTNode).

(** [interface EvalResult] *)
Record EvalResult := mkResult {
  value : option num;
  text : option string;
  error : option string;
  usedRefs : list string
}.

End WithNumbers.
Arguments Number {num}.
Arguments String_ {num}.
Arguments CellRef {num}.
Arguments RangeRef {num}.
Arguments BinaryOp {num}.
Arguments UnaryOp {num}.
Arguments FunctionCall {num}.
Arguments mkResult {num}.
Arguments value {num}.
Arguments text {num}.
Arguments error {num}.
Arguments usedRefs {num}.
End Sheet.

(** ** The evaluator ([lib/evaluator.ts]) *)
Module Evaluator.
Import Chars A1 Sheet.
Section WithNatives.
Context {num : Type} `{NT : Natives num}.

(** What a cell holds, as the lookup reports it: [number | string]. *)
Inductive scalar :=
| SNum (n : num)
| SStr (s : string).

(** What [evaluate] returns: a number, a string, or for a range the array
    of the values found ([return values as any]). *)
Inductive jsval :=
| VNum (n : num)
| VStr (s : string)
| VArr (values : list scalar).

Definition value_of_scalar (v : scalar) : jsval :=
  match v with SNum n => VNum n | SStr s => VStr s end.

(** What can be thrown: an [EvalError] with its message, or anything else. *)
Inductive thrown :=
| EvalError (message : string)
| OtherError.

(** How a call ends: it returns, it throws, or it never returns. *)
Inductive outcome (A : Type) :=
| Ret (a : A)
| Throw (e : thrown)
| Diverge.
Arguments Ret {A} a.
Arguments Throw {A} e.
Arguments Diverge {A}.

(** [type CellGetter = (ref: string) => number | string | undefined]; like
    any call, the lookup may also throw, or not return. *)
Definition CellGetter := string → outcome (option scalar).

(** A method of the [Evaluator] class: it reads and extends [usedRefs],
    and returns, throws or runs for ever.  What was added to [usedRefs]
    before a throw stays there. *)
Definition M (A : Type) := list string → outcome A * list string.

Definition ret {A} (a : A) : M A := λ refs, (Ret a, refs).
Definition throw {A} (e : thrown) : M A := λ refs, (Throw e, refs).
Definition diverge {A} : M A := λ refs, (Diverge, refs).
Definition bind {A B} (m : M A) (k : A → M B) : M B :=
  λ refs,
    match m refs with
    | (Ret a, refs') => k a refs'
    | (Throw e, refs') => (Throw e, refs')
    | (Diverge, refs') => (Diverge, refs')
    end.

(** [this.usedRefs.add(ref)] *)
Definition addRef (ref : string) : M unit := λ refs, (Ret tt, JSSet.add ref refs).

(** [this.getCellValue(ref)] *)
Definition getCell (getCellValue : CellGetter) (ref : string) : M (option scalar) :=
  λ refs, (getCellValue ref, refs).

#[local] Instance M_ret : MRet M := @ret.
#[local] Instance M_bind : MBind M := λ A B k m, bind m k.

(** [toNumber(value)] *)
Definition toNumber (v : jsval) : M num :=
  match v with
  | VNum n => ret n
  | VStr s =>
      let n := parseFloat s in
      if num_isNaN n then throw (EvalError "#VALUE!") else ret n
  | VArr _ => throw (EvalError "#VALUE!")
  end.

(** [tryToNumber(value)] *)
Definition tryToNumber (v : scalar) : option num :=
  match v with
  | SNum n => Some n
  | SStr s =>
      let n := parseFloat s in
      if num_isNaN n then None else Some n
  end.

(** [addressToRef(addr)] *)
Definition addressToRef (addr : CellAddress) : string :=
  let col := String (ascii_of_N (Z.to_N (65 + Z.rem (col addr) 26))) EmptyString in
  col ++ int_to_string (row addr + 1).

(** The inner loop of the [RangeRef] case, from the column reached:
<<
    for (let col = minCol; col <= maxCol; col++) {
      const cellRef = this.addressToRef({ col, row });
      this.usedRefs.add(cellRef);
      const value = this.getCellValue(cellRef);
      if (value !== undefined) values.push(value);
    }
>>
    Each round takes one step of fuel. *)
Fixpoint range_cols (fuel : nat) (getCellValue : CellGetter) (row col maxCol : Z)
    (values : list scalar) : M (list scalar) :=
  match fuel with
  | O => diverge
  | S fuel =>
      if (col <=? maxCol)%Z then
        let cellRef := addressToRef (mkAddr col row) in
        addRef cellRef;;
        v ← getCell getCellValue cellRef;
        range_cols fuel getCellValue row (JSNumber.incr col) maxCol
          (match v with Some x => (values ++ [x])%list | None => values end)
      else ret values
  end.

(** The outer loop, [for (let row = minRow; row <= maxRow; row++)], from
    the row reached. *)
Fixpoint range_rows (fuel : nat) (getCellValue : CellGetter)
    (row maxRow minCol maxCol : Z) (values : list scalar) : M (list scalar) :=
  match fuel with
  | O => diverge
  | S fuel =>
      if (row <=? maxRow)%Z then
        values ← range_cols (JSNumber.loop_fuel minCol maxCol) getCellValue
                   row minCol maxCol values;
        range_rows fuel getCellValue (JSNumber.incr row) maxRow minCol maxCol values
      else ret values
  end.

(** The [RangeRef] case of [evaluate]. *)
Definition evaluate_range (getCellValue : CellGetter) (start end_ : string) : M jsval :=
  addRef start;;
  addRef end_;;
  match a1ToAddress (strip_dollars start), a1ToAddress (strip_dollars end_) with
  | Some startAddr, Some endAddr =>
      let minRow := Z.min (row startAddr) (row endAddr) in
      let maxRow := Z.max (row startAddr) (row endAddr) in
      let minCol := Z.min (col startAddr) (col endAddr) in
      let maxCol := Z.max (col startAddr) (col endAddr) in
      values ← range_rows (JSNumber.loop_fuel minRow maxRow) getCellValue
                 minRow maxRow minCol maxCol [];
      ret (VArr values)
  | _, _ => throw (EvalError "#REF!")
  end.

(** The [switch (node.operator)] of the [BinaryOp] case. *)
Definition apply_operator (operator : string) (leftNum rightNum : num) : M num :=
  if (operator =? "+")%string then ret (num_add leftNum rightNum)
  else if (operator =? "-")%string then ret (num_sub leftNum rightNum)
  else if (operator =? "*")%string then ret (num_mul leftNum rightNum)
  else if (operator =? "/")%string then
    if num_is_zero rightNum then throw (EvalError "#DIV/0!")
    else ret (num_div leftNum rightNum)
  else if (operator =? "^")%string then ret (num_pow leftNum rightNum)
  else throw (EvalError ("Unknown operator: " ++ operator)).

(** [values.reduce((sum, val) => sum + val, 0)] *)
Definition sum_values (values : list num) : num :=
  foldl num_add num_zero values.

(** The [switch (name)] of [evaluateFunction]. *)
Definition apply_function (name : string) (values : list num) : M num :=
  let average :=
    if (length values =? 0)%nat then num_zero
    else num_div (sum_values values) (num_of_nat (length values)) in
  if (name =? "SUM")%string then ret (sum_values values)
  else if (name =? "AVG")%string then ret average
  else if (name =? "MIN")%string then
    ret (if (length values =? 0)%nat then num_zero else num_min values)
  else if (name =? "MAX")%string then
    ret (if (length values =? 0)%nat then num_zero else num_max values)
  else if (name =? "COUNT")%string then ret (num_of_nat (length values))
  else if (name =? "AVERAGE")%string then ret average
  else throw (EvalError ("Unknown function: " ++ name)).

(** What one evaluated argument adds to the numeric list of
    [collectNumericValues]. *)
Definition push_numeric (result : jsval) (values : list num) : list num :=
  match result with
  | VArr l => (values ++ omap tryToNumber l)%list
  | VNum n => (values ++ [n])%list
  | VStr s =>
      match tryToNumber (SStr s) with
      | Some n => (values ++ [n])%list
      | None => values
      end
  end.

(** [evaluate(node)] *)
Fixpoint evaluate (getCellValue : CellGetter) (node : ASTNode num) : M jsval :=
  match node with
  | Number v => ret (VNum v)
  | String_ s => ret (VStr s)
  | CellRef ref =>
      addRef ref;;
      v ← getCell getCellValue ref;
      match v with
      | None => ret (VNum num_zero)          (* Empty cell *)
      | Some x => ret (value_of_scalar x)
      end
  | RangeRef start end_ => evaluate_range getCellValue start end_
  | BinaryOp operator left_ right_ =>
      l ← evaluate getCellValue left_;
      r ← evaluate getCellValue right_;
      leftNum ← toNumber l;
      rightNum ← toNumber r;
      n ← apply_operator operator leftNum rightNum;
      ret (VNum n)
  | UnaryOp _ _ => throw (EvalError "Unknown node type: UnaryOp")
  | FunctionCall name args =>
      (* evaluateFunction, with collectNumericValues as its loop *)
      let collect :=
        fix collect (args : list (ASTNode num)) (values : list num) : M (list num) :=
          match args with
          | [] => ret values
          | arg :: args =>
              result ← evaluate getCellValue arg;
              collect args (push_numeric result values)
          end in
      values ← collect args [];
      n ← apply_function name values;
      ret (VNum n)
  end.

(** The loop of [collectNumericValues(args)], from the values collected so
    far. *)
Fixpoint collect_loop (getCellValue : CellGetter) (args : list (ASTNode num))
    (values : list num) : M (list num) :=
  match args with
  | [] => ret values
  | arg :: args =>
      result ← evaluate getCellValue arg;
      collect_loop getCellValue args (push_numeric result values)
  end.

(** [collectNumericValues(args)] *)
Definition collectNumericValues (getCellValue : CellGetter) (args : list (ASTNode num))
    : M (list num) :=
  collect_loop getCellValue args [].

(** [evaluateFunction(name, args)] *)
Definition evaluateFunction (getCellValue : CellGetter) (name : string)
    (args : list (ASTNode num)) : M num :=
  values ← collectNumericValues getCellValue args;
  apply_function name values.

(** [evaluateFormula(ast, getCellValue)]: a fresh evaluator, the walk inside
    [try], and the result record built from what was returned or caught;
    [None] when the walk never returns. *)
Definition evaluateFormula (ast : ASTNode num) (getCellValue : CellGetter)
    : option (EvalResult num) :=
  match evaluate getCellValue ast JSSet.empty with
  | (Ret (VNum result), usedRefs) =>
      Some {| value := Some result; text := Some (num_toString result);
              error := None; usedRefs := usedRefs |}
  | (Ret (VStr result), usedRefs) =>
      Some {| value := None; text := Some result; error := None;
              usedRefs := usedRefs |}
  | (Ret (VArr _), usedRefs) =>
      Some {| value := None; text := None; error := Some "#VALUE!";
              usedRefs := usedRefs |}
  | (Throw (EvalError message), usedRefs) =>
      Some {| value := None; text := None; error := Some message;
              usedRefs := usedRefs |}
  | (Throw OtherError, usedRefs) =>
      Some {| value := None; text := None; error := Some "#ERROR!";
              usedRefs := usedRefs |}
  | (Diverge, _) => None
  end.

End WithNatives.
Arguments Ret {A} a.
Arguments Throw {A} e.
Arguments Diverge {A}.
End Evaluator.

(** ** The tokenizer and the parser ([lib/parser.ts]) *)
Module Parser.
Import Chars Sheet.

(** [type TokenType] *)
Inductive TokenType :=
| NUMBER | STRING | OPERATOR | LPAREN | RPAREN | COMMA | COLON
| CELL_REF | IDENTIFIER | EOF.

#[export] Instance TokenType_eq_dec : EqDecision TokenType.
Proof. solve_decision. Defined.

(** [interface Token] *)
Record Token := mkToken { tok_type : TokenType; tok_value : string; tok_pos : nat }.

(** [class ParseError], with its message and position. *)
Record ParseError := mkParseError { message : string; pos : nat }.

(** The name of a token type, as a template string prints it. *)
Definition type_name (t : TokenType) : string :=
  match t with
  | NUMBER => "NUMBER" | STRING => "STRING" | OPERATOR => "OPERATOR"
  | LPAREN => "LPAREN" | RPAREN => "RPAREN" | COMMA => "COMMA"
  | COLON => "COLON" | CELL_REF => "CELL_REF" | IDENTIFIER => "IDENTIFIER"
  | EOF => "EOF"
  end.

(** [haystack.includes(needle)] *)
Fixpoint includes (haystack needle : string) : bool :=
  String.prefix needle haystack
  || match haystack with
     | String _ rest => includes rest needle
     | EmptyString => false
     end.

(** *** Tokenizer *)

Fixpoint trim_start (s : string) : string :=
  match s with
  | String c s' => if is_space c then trim_start s' else s
  | EmptyString => s
  end.

Fixpoint trim_end (s : string) : string :=
  match s with
  | String c s' =>
      match trim_end s' with
      | EmptyString => if is_space c then EmptyString else String c EmptyString
      | t => String c t
      end
  | EmptyString => EmptyString
  end.

(** [s.trim()] *)
Definition trim (s : string) : string := trim_end (trim_start s).

(** The scanning loop of [readNumber]: digits, and at most one [.]. *)
Fixpoint number_run (hasDecimal : bool) (s : string) : string * string :=
  match s with
  | String c s' =>
      if is_digit c then
        let '(v, rest) := number_run hasDecimal s' in (String c v, rest)
      else if Ascii.eqb c "." && negb hasDecimal then
        let '(v, rest) := number_run true s' in (String c v, rest)
      else (EmptyString, s)
  | EmptyString => (EmptyString, EmptyString)
  end.

(** [readNumber()]: the text of the token and the input left. *)
Definition readNumber (input : string) : string * string :=
  match input with
  | String c s' =>
      if Ascii.eqb c "-" then
        let '(v, rest) := number_run false s' in (String c v, rest)
      else number_run false input
  | EmptyString => (EmptyString, EmptyString)
  end.

(** The loop of [readString()], after the opening quote: the characters up
    to the closing quote and the input after it, or [None] when the input
    ends first. *)
Fixpoint string_run (s : string) : option (string * string) :=
  match s with
  | String c s' =>
      if Ascii.eqb c quote then Some (EmptyString, s')
      else '(v, rest) ← string_run s'; Some (String c v, rest)
  | EmptyString => None
  end.

(** [remaining.match(/^(\$?)([A-Z]+)(\$?)(\d+)/i)]: the matched text and
    the input after it. *)
Definition match_cell_ref (remaining : string) : option (string * string) :=
  let '(d1, s1) :=
    match remaining with
    | String c s' => if Ascii.eqb c "$" then ("$", s') else ("", remaining)
    | EmptyString => ("", remaining)
    end in
  let '(letters, s2) := span is_letter s1 in
  let '(d2, s3) :=
    match s2 with
    | String c s' => if Ascii.eqb c "$" then ("$", s') else ("", s2)
    | EmptyString => ("", s2)
    end in
  let '(digits, s4) := span is_digit s3 in
  if (String.length letters =? 0)%nat || (String.length digits =? 0)%nat
  then None
  else Some (d1 ++ letters ++ d2 ++ digits, s4).

(** [readIdentifierOrCellRef()]: the token type, its text and the input
    left. *)
Definition readIdentifierOrCellRef (input : string) : TokenType * string * string :=
  match match_cell_ref input with
  | Some (v, rest) => (CELL_REF, v, rest)
  | None => let '(v, rest) := span is_ident_char input in (IDENTIFIER, v, rest)
  end.

(** The outcome of a loop that may throw a [ParseError]; [None] stands for
    a loop that has not finished within its fuel. *)
Definition push_token (t : Token) (r : option (ParseError + list Token))
    : option (ParseError + list Token) :=
  match r with
  | Some (inr ts) => Some (inr (t :: ts))
  | other => other
  end.

(** The [while (this.pos < this.input.length)] loop of [tokenize()], on the
    input still to scan and the position reached.  Each iteration takes
    one step of fuel. *)
Fixpoint tokenize_loop (fuel : nat) (input : string) (pos : nat)
    : option (ParseError + list Token) :=
  match fuel with
  | O => None
  | S fuel =>
      match input with
      | EmptyString => Some (inr [mkToken EOF "" pos])
      | String char rest =>
          let single (t : TokenType) :=
            push_token (mkToken t (String char EmptyString) pos)
                       (tokenize_loop fuel rest (S pos)) in
          let peek := match rest with String c _ => is_digit c | EmptyString => false end in
          if is_space char then tokenize_loop fuel rest (S pos)
          else if is_digit char || (Ascii.eqb char "-" && peek) then
            let '(v, rest') := readNumber input in
            push_token (mkToken NUMBER v pos)
                       (tokenize_loop fuel rest' (pos + String.length v))
          else if Ascii.eqb char quote then
            match string_run rest with
            | Some (v, rest') =>
                push_token (mkToken STRING v pos)
                           (tokenize_loop fuel rest' (pos + String.length v + 2))
            | None => Some (inl (mkParseError "Unterminated string" pos))
            end
          else if includes "+-*/^" (String char EmptyString) then single OPERATOR
          else if Ascii.eqb char "(" then single LPAREN
          else if Ascii.eqb char ")" then single RPAREN
          else if Ascii.eqb char "," then single COMMA
          else if Ascii.eqb char ":" then single COLON
          else if Ascii.eqb char "$" || is_letter char then
            let '(t, v, rest') := readIdentifierOrCellRef input in
            push_token (mkToken t v pos)
                       (tokenize_loop fuel rest' (pos + String.length v))
          else Some (inl (mkParseError
                            ("Unexpected character: " ++ String char EmptyString) pos))
      end
  end.

(** [new Tokenizer(input).tokenize()].  Every iteration but one consumes
    input, so the length of the input (and one more step for [EOF]) is
    enough fuel; a [$] that starts no cell reference yields an empty
    identifier and consumes nothing, and the loop never ends. *)
Definition tokenize (input : string) : option (ParseError + list Token) :=
  let input := trim input in
  tokenize_loop (S (String.length input)) input 0.

(** *** Parser *)
Section WithNatives.
Context {num : Type} `{NT : Natives num}.

(** What a parsing method does from a position: it returns a node and the
    position reached, throws, or runs out of fuel. *)
Inductive presult :=
| POk (node : ASTNode num) (pos : nat)
| PErr (e : ParseError)
| PFuel.

Section WithTokens.
Variable tokens : list Token.

(** [current()]: [this.tokens[this.pos] || this.tokens[this.tokens.length - 1]].
    (The token list is never empty: [tokenize] ends it with [EOF].) *)
Definition current (pos : nat) : Token :=
  match tokens !! pos with
  | Some t => t
  | None => List.last tokens (mkToken EOF "" 0)
  end.

Definition is_operator (pos : nat) (operators : string) : bool :=
  bool_decide (tok_type (current pos) = OPERATOR)
  && includes operators (tok_value (current pos)).

(** [consume(expected)] when [expected] is given. *)
Definition expect (expected : TokenType) (pos : nat) : ParseError + Token :=
  let token := current pos in
  if bool_decide (tok_type token = expected) then inr token
  else inl (mkParseError
              ("Expected " ++ type_name expected ++ ", got " ++ type_name (tok_type token))
              (tok_pos token)).

Fixpoint parseExpression (fuel : nat) (pos : nat) : presult :=
  match fuel with
  | O => PFuel
  | S fuel =>
      match parseTerm fuel pos with
      | POk left_ pos => expression_loop fuel left_ pos
      | other => other
      end
  end
(** [while (OPERATOR && '+-'.includes(value))] *)
with expression_loop (fuel : nat) (left_ : ASTNode num) (pos : nat) : presult :=
  match fuel with
  | O => PFuel
  | S fuel =>
      if is_operator pos "+-" then
        let operator := tok_value (current pos) in
        match parseTerm fuel (S pos) with
        | POk right_ pos => expression_loop fuel (BinaryOp operator left_ right_) pos
        | other => other
        end
      else POk left_ pos
  end
with parseTerm (fuel : nat) (pos : nat) : presult :=
  match fuel with
  | O => PFuel
  | S fuel =>
      match parseFactor fuel pos with
      | POk left_ pos => term_loop fuel left_ pos
      | other => other
      end
  end
(** [while (OPERATOR && '*/'.includes(value))] *)
with term_loop (fuel : nat) (left_ : ASTNode num) (pos : nat) : presult :=
  match fuel with
  | O => PFuel
  | S fuel =>
      if is_operator pos "*/" then
        let operator := tok_value (current pos) in
        match parseFactor fuel (S pos) with
        | POk right_ pos => term_loop fuel (BinaryOp operator left_ right_) pos
        | other => other
        end
      else POk left_ pos
  end
(** [parseFactor()], with [parsePower()] being [parsePrimary()]. *)
with parseFactor (fuel : nat) (pos : nat) : presult :=
  match fuel with
  | O => PFuel
  | S fuel =>
      match parsePrimary fuel pos with
      | POk left_ pos =>
          if bool_decide (tok_type (current pos) = OPERATOR)
             && String.eqb (tok_value (current pos)) "^"
          then
            match parseFactor fuel (S pos) with
            | POk right_ pos => POk (BinaryOp "^" left_ right_) pos
            | other => other
            end
          else POk left_ pos
      | other => other
      end
  end
with parsePrimary (fuel : nat) (pos : nat) : presult :=
  match fuel with
  | O => PFuel
  | S fuel =>
      let token := current pos in
      match tok_type token with
      | NUMBER => POk (Number (parseFloat (tok_value token))) (S pos)
      | STRING => POk (String_ (tok_value token)) (S pos)
      | LPAREN =>
          match parseExpression fuel (S pos) with
          | POk expr pos =>
              match expect RPAREN pos with
              | inr _ => POk expr (S pos)
              | inl e => PErr e
              end
          | other => other
          end
      | CELL_REF =>
          let cellRef := tok_value token in
          if bool_decide (tok_type (current (S pos)) = COLON) then
            match expect CELL_REF (S (S pos)) with
            | inr endTok => POk (RangeRef cellRef (tok_value endTok)) (S (S (S pos)))
            | inl e => PErr e
            end
          else POk (CellRef cellRef) (S pos)
      | IDENTIFIER =>
          let name := tok_value token in
          if bool_decide (tok_type (current (S pos)) = LPAREN) then
            let finish (args : list (ASTNode num)) (pos : nat) :=
              match expect RPAREN pos with
              | inr _ => POk (FunctionCall (upper name) args) (S pos)
              | inl e => PErr e
              end in
            if bool_decide (tok_type (current (S (S pos))) ≠ RPAREN) then
              match parseExpression fuel (S (S pos)) with
              | POk arg pos =>
                  match args_loop fuel [arg] pos with
                  | inr (args, pos) => finish args pos
                  | inl r => r
                  end
              | other => other
              end
            else finish [] (S (S pos))
          else PErr (mkParseError ("Unexpected identifier: " ++ name) (tok_pos token))
      | _ => PErr (mkParseError ("Unexpected token: " ++ tok_value token) (tok_pos token))
      end
  end
(** [while (this.current().type === 'COMMA')], collecting the arguments. *)
with args_loop (fuel : nat) (args : list (ASTNode num)) (pos : nat)
    : presult + (list (ASTNode num) * nat) :=
  match fuel with
  | O => inl PFuel
  | S fuel =>
      if bool_decide (tok_type (current pos) = COMMA) then
        match parseExpression fuel (S pos) with
        | POk arg pos => args_loop fuel (args ++ [arg])%list pos
        | other => inl other
        end
      else inr (args, pos)
  end.

(** [parse()], with the fuel the recursion needs at most on [tokens]. *)
Definition parse : presult :=
  match parseExpression (4 * length tokens + 4) 0 with
  | POk result pos =>
      if bool_decide (tok_type (current pos) ≠ EOF)
      then PErr (mkParseError ("Unexpected token: " ++ tok_value (current pos))
                              (tok_pos (current pos)))
      else POk result pos
  | other => other
  end.

End WithTokens.

(** [cleanFormula] of [parseFormula]: the trimmed formula without its
    leading [=]. *)
Definition cleanFormula (formula : string) : string :=
  match trim formula with
  | String c rest => if Ascii.eqb c "=" then rest else trim formula
  | EmptyString => trim formula
  end.

(** [parseFormula(formula)]: the tree, or the [ParseError] thrown; [None]
    when the tokenizer does not terminate. *)
Definition parseFormula (formula : string) : option (ParseError + ASTNode num) :=
  match tokenize (cleanFormula formula) with
  | None => None
  | Some (inl e) => Some (inl e)
  | Some (inr tokens) =>
      match parse tokens with
      | POk result _ => Some (inr result)
      | PErr e => Some (inl e)
      | PFuel => None
      end
  end.

End WithNatives.
End Parser.

(** ** The reference adjuster ([lib/fill.ts]) *)
Module Fill.
Import Chars A1 Sheet Parser.
Section WithNatives.
Context {num : Type} `{NT : Natives num}.

(** [adjustASTReferences(node, deltaRow, deltaCol)] *)
Fixpoint adjustASTReferences (node : ASTNode num) (deltaRow deltaCol : Z) : ASTNode num :=
  match node with
  | CellRef cellRef =>
      match parseCellRef cellRef with
      | None => node
      | Some ref => CellRef (cellRefToA1 (adjustRefForFill ref deltaRow deltaCol))
      end
  | RangeRef start end_ =>
      match parseCellRef start, parseCellRef end_ with
      | Some startRef, Some endRef =>
          RangeRef (cellRefToA1 (adjustRefForFill startRef deltaRow deltaCol))
                   (cellRefToA1 (adjustRefForFill endRef deltaRow deltaCol))
      | _, _ => node
      end
  | BinaryOp operator left_ right_ =>
      BinaryOp operator (adjustASTReferences left_ deltaRow deltaCol)
                        (adjustASTReferences right_ deltaRow deltaCol)
  | UnaryOp operator operand =>
      UnaryOp operator (adjustASTReferences operand deltaRow deltaCol)
  | FunctionCall name args =>
      FunctionCall name (map (λ arg, adjustASTReferences arg deltaRow deltaCol) args)
  | _ => node
  end.

(** The [opPrecedence] table: [opPrecedence[op] || 0].  (Operators are the
    five strings the parser produces; any other string counts 0.) *)
Definition opPrecedence (op : string) : nat :=
  if (op =? "^")%string then 3
  else if (op =? "*")%string then 2
  else if (op =? "/")%string then 2
  else if (op =? "+")%string then 1
  else if (op =? "-")%string then 1
  else 0.

(** [needsParentheses(operand, parentOp)] *)
Definition needsParentheses (operand : ASTNode num) (parentOp : string) : bool :=
  match operand with
  | BinaryOp operator _ _ =>
      (* Need parentheses if operand has lower precedence *)
      (opPrecedence operator <? opPrecedence parentOp)%nat
  | _ => false
  end.

(** [strings.join(',')] *)
Fixpoint join_commas (l : list string) : string :=
  match l with
  | [] => ""
  | [s] => s
  | s :: l => s ++ "," ++ join_commas l
  end.

(** [astToString(node)] *)
Fixpoint astToString (node : ASTNode num) : string :=
  match node with
  | Number v => num_toString v
  | String_ s => String quote s ++ String quote EmptyString
  | CellRef cellRef => cellRef
  | RangeRef start end_ => start ++ ":" ++ end_
  | BinaryOp operator left_ right_ =>
      let l := astToString left_ in
      let r := astToString right_ in
      let leftStr := if needsParentheses left_ operator then "(" ++ l ++ ")" else l in
      let rightStr := if needsParentheses right_ operator then "(" ++ r ++ ")" else r in
      leftStr ++ operator ++ rightStr
  | UnaryOp operator operand => operator ++ astToString operand
  | FunctionCall name args =>
      name ++ "(" ++ join_commas (map astToString args) ++ ")"
  end.

(** [adjustFormulaForFill(formula, deltaRow, deltaCol)]: the adjusted
    formula, or the formula itself when parsing throws. *)
Definition adjustFormulaForFill (formula : string) (deltaRow deltaCol : Z)
    : option string :=
  match parseFormula formula with
  | None => None
  | Some (inr ast) =>
      Some ("=" ++ astToString (adjustASTReferences ast deltaRow deltaCol))
  | Some (inl _) => Some formula
  end.





End WithNatives.
End Fill.

(** ** The formula engine ([hooks/useFormulaEngine.ts])

    The callbacks the hook returns are functions of the cell map and of
    the dependency graph the hook was given; the graph is an object they
    update in place, and is threaded through here. *)
Module Engine.
Import Chars A1 Sheet Evaluator Parser Graph.
Section WithNatives.
Context {num : Type} `{NT : Natives num}.

(** [type CellKind = 'empty' | 'text' | 'number' | 'formula' | 'error'] *)
Inductive CellKind := KEmpty | KText | KNumber | KFormula | KError.

#[export] Instance CellKind_eq_dec : EqDecision CellKind.
Proof. solve_decision. Defined.

(** [interface Cell]; an optional field that is absent is [None]. *)
Record Cell := mkCell {
  kind : CellKind;
  display : string;
  cell_value : option num;      (* [value?: number] *)
  raw : option string;          (* [raw?: string] *)
  cell_error : option string    (* [error?: string] *)
}.

(** A string used as a condition: defined and not empty. *)
Definition truthy (s : option string) : bool :=
  match s with
  | Some (String _ _) => true
  | _ => false
  end.

(** [getCellValue(ref)] *)
Definition getCellValue (cells : gmap string Cell) : CellGetter (num := num) :=
  λ ref,
    Ret match a1ToAddress (strip_dollars ref) with   (* Remove $ signs *)
        | None => None
        | Some addr =>
            match cells !! cellKey addr with
            | None => None
            | Some cell =>
                if bool_decide (kind cell = KEmpty) then None
                else if bool_decide (kind cell = KError) then None
                else if bool_decide (kind cell = KNumber) && bool_decide (is_Some (cell_value cell))
                then SNum <$> cell_value cell
                else if bool_decide (kind cell = KText) && truthy (raw cell)
                then SStr <$> raw cell
                else if bool_decide (kind cell = KFormula) && bool_decide (is_Some (cell_value cell))
                then SNum <$> cell_value cell
                else None
            end
        end.

(** The keys [processCell] records for the used references:
    [refAddr ? cellKey(refAddr) : ref]. *)
Definition usedKeys (usedRefs : list string) : list string :=
  map (λ ref, match a1ToAddress (strip_dollars ref) with
              | Some refAddr => cellKey refAddr
              | None => ref
              end) usedRefs.

(** [processCell(raw, addr)]: the cell, and the dependency graph as the
    call leaves it; [None] when the tokenizer or the evaluation does not
    terminate. *)
Definition processCell (cells : gmap string Cell) (dependencyGraph : Graph)
    (raw_ : string) (addr : CellAddress) : option (Cell * Graph) :=
  let trimmed := trim raw_ in
  match trimmed with
  | EmptyString =>                                          (* Empty cell *)
      Some ({| kind := KEmpty; display := ""; cell_value := None;
               raw := None; cell_error := None |}, dependencyGraph)
  | String c _ =>
      if Ascii.eqb c "=" then                               (* Formula *)
        match parseFormula trimmed with
        | None => None
        | Some (inl e) =>                                   (* catch *)
            Some ({| kind := KError; display := "#ERROR!"; cell_value := None;
                     raw := Some trimmed; cell_error := Some (message e) |},
                  dependencyGraph)
        | Some (inr ast) =>
            result ← evaluateFormula ast (getCellValue cells);
            let key := cellKey addr in
            let dependencyGraph :=
              updateCell key (usedKeys (usedRefs result)) dependencyGraph in
            match hasCycle dependencyGraph key with
            | None => None
            | Some true =>
                Some ({| kind := KError; display := "#CYCLE!"; cell_value := None;
                         raw := Some trimmed; cell_error := Some "#CYCLE!" |},
                      dependencyGraph)
            | Some false =>
                if truthy (error result) then
                  Some ({| kind := KError;
                           display := default "" (error result);
                           cell_value := None; raw := Some trimmed;
                           cell_error := error result |}, dependencyGraph)
                else
                  Some ({| kind := KFormula;
                           display :=
                             if truthy (text result) then default "" (text result)
                             else match value result with
                                  | Some v => num_toString v
                                  | None => ""
                                  end;
                           cell_value := value result; raw := Some trimmed;
                           cell_error := None |}, dependencyGraph)
            end
        end
      else
        let n := parseFloat trimmed in                      (* number or text *)
        if negb (num_isNaN n) && String.eqb trimmed (num_toString n) then
          Some ({| kind := KNumber; display := trimmed; cell_value := Some n;
                   raw := Some trimmed; cell_error := None |}, dependencyGraph)
        else
          Some ({| kind := KText; display := trimmed; cell_value := None;
                   raw := Some trimmed; cell_error := None |}, dependencyGraph)
  end.

End WithNatives.
Arguments Cell num : clear implicits.
End Engine.

(** ** The in-app clipboard ([lib/clipboard.ts]) *)
Module Clipboard.
Import Chars A1 Engine.
Section WithNumbers.
Variable num : Type.

(** The [range] field of [interface ClipboardData]. *)
Record Range := mkRange {
  startRow : Z;
  startCol : Z;
  endRow : Z;
  endCol : Z
}.

(** [interface ClipboardData]; [cells] is a [Map], kept in insertion
    order. *)
Record ClipboardData := mkClipboardData {
  cells : list (string * Cell num);
  range : Range
}.

(** [copyCells(cells, anchor, focus)]; [None] when [getRangeCells] does
    not return. *)
Definition copyCells (sheet : gmap string (Cell num)) (anchor focus : CellAddress)
    : option ClipboardData :=
  let minRow := Z.min (row anchor) (row focus) in
  let maxRow := Z.max (row anchor) (row focus) in
  let minCol := Z.min (col anchor) (col focus) in
  let maxCol := Z.max (col anchor) (col focus) in
  rangeCells ← getRangeCells {| row := minRow; col := minCol |}
                             {| row := maxRow; col := maxCol |};
  let copiedCells :=
    foldl (λ copiedCells addr,
             let key := cellKey addr in
             match sheet !! key with
             | Some cell => JSMap.set key cell copiedCells   (* { ...cell } *)
             | None => copiedCells
             end)
          JSMap.empty rangeCells in
  Some {| cells := copiedCells;
          range := {| startRow := minRow; startCol := minCol;
                      endRow := maxRow; endCol := maxCol |} |}.

(** [pasteCells(clipboardData, targetAnchor)].  The pattern matched
    against each key, and the two [parseInt] of its groups, are those of
    [keyToAddress]. *)
Definition pasteCells (clipboardData : ClipboardData) (targetAnchor : CellAddress)
    : list (string * string) :=
  let rowOffset := (row targetAnchor - startRow (range clipboardData))%Z in
  let colOffset := (col targetAnchor - startCol (range clipboardData))%Z in
  foldl (λ result entry,
           match keyToAddress entry.1 with
           | None => result                                  (* continue *)
           | Some orig =>
               let newRow := (row orig + rowOffset)%Z in
               let newCol := (col orig + colOffset)%Z in
               let newKey := "r" ++ int_to_string newRow ++ "c"
                             ++ int_to_string newCol in
               match raw entry.2 with                        (* if (cell.raw) *)
               | Some (String c r) => JSMap.set newKey (String c r) result
               | _ => result
               end
           end)
        JSMap.empty (cells clipboardData).

End WithNumbers.
Arguments mkRange : clear implicits.
Arguments cells {num}.
Arguments range {num}.
Arguments copyCells {num}.
Arguments pasteCells {num}.
End Clipboard.

(* ===================================================================== *)
(** * Part II: properties                                                 *)
(* ===================================================================== *)

(** ** Sets as insertion-ordered lists *)
Section JSSetFacts.
Import JSSet.

Lemma elem_of_add x y s : x ∈ add y s ↔ x = y ∨ x ∈ s.
  Proof.
    unfold add, has. case_bool_decide.
    - split; [auto | intros [->|]; auto].
    - rewrite elem_of_app, list_elem_of_singleton. tauto.
  Qed.

Lemma elem_of_delete x y s : x ∈ delete y s ↔ x ≠ y ∧ x ∈ s.
  Proof. unfold delete. rewrite list_elem_of_filter. tauto. Qed.

Lemma NoDup_add y s : NoDup s → NoDup (add y s).
  Proof.
    intros Hs. unfold add, has. case_bool_decide; [done|].
    apply NoDup_app. split_and!; [done| |apply NoDup_singleton].
    intros x Hx Hy. apply list_elem_of_singleton in Hy. by subst.
  Qed.

Lemma NoDup_delete y s : NoDup s → NoDup (delete y s).
  Proof. apply NoDup_filter. Qed.

Lemma delete_delete y s : delete y (delete y s) = delete y s.
  Proof.
    unfold delete. induction s as [|a s IH]; [done|].
    rewrite filter_cons. case_decide.
    - rewrite filter_cons. case_decide; [|done]. by rewrite IH.
    - done.
  Qed.

Lemma add_add y s : add y (add y s) = add y s.
  Proof.
    unfold add at 1. unfold has.
    rewrite bool_decide_eq_true_2; [done|]. apply elem_of_add. by left.
  Qed.

Lemma of_list_acc l : ∀ s,
    (∀ x, x ∈ foldl (λ s x, add x s) s l ↔ x ∈ s ∨ x ∈ l)
    ∧ (NoDup s → NoDup (foldl (λ s x, add x s) s l)).
  Proof.
    induction l as [|a l IH]; intros s; simpl.
    - split; [|done]. intros x. rewrite elem_of_nil. tauto.
    - destruct (IH (add a s)) as [IH1 IH2]. split.
      + intros x. rewrite IH1, elem_of_add, elem_of_cons. tauto.
      + intros Hs. by apply IH2, NoDup_add.
  Qed.

Lemma elem_of_of_list x l : x ∈ of_list l ↔ x ∈ l.
  Proof.
    unfold of_list. destruct (of_list_acc l empty) as [H _].
    rewrite H. unfold empty. rewrite elem_of_nil. tauto.
  Qed.

Lemma NoDup_of_list l : NoDup (of_list l).
  Proof. apply of_list_acc. apply NoDup_nil_2. Qed.

End JSSetFacts.

(** ** Integers held in numbers *)
Section JSNumberFacts.
Import JSNumber.
Local Open Scope Z_scope.

(** Up to [2^53] in magnitude an integer is stored as it is. *)
Lemma round_small (z : Z) : Z.abs z ≤ 2 ^ 53 → round z = z.
Proof.
  intros Hz. unfold round.
  destruct (Z.ltb_spec (Z.abs z) (2 ^ 53)) as [|Hge]; [done|].
  assert (Z.abs z = 2 ^ 53) as Habs by lia.
  destruct (Z.abs_spec z) as [[_ Heq]|[_ Heq]]; rewrite Heq in Habs.
  - by rewrite Habs.
  - replace z with (- 2 ^ 53) by lia. reflexivity.
Qed.

(** Below [2^53] the increment of a loop counter is exact; at [2^53] it
    is not. *)
Lemma incr_exact (i : Z) : - 2 ^ 53 ≤ i < 2 ^ 53 → incr i = i + 1.
Proof. intros Hi. unfold incr. apply round_small. lia. Qed.

Lemma incr_stuck : incr (2 ^ 53) = 2 ^ 53.
Proof. reflexivity. Qed.

Lemma round_nonneg (z : Z) : 0 ≤ z → 0 ≤ round z.
Proof.
  intros Hz. unfold round.
  destruct (Z.ltb_spec (Z.abs z) (2 ^ 53)) as [|Hbig]; [done|].
  cbv zeta. apply Z.mul_nonneg_nonneg; [lia|].
  apply Z.mul_nonneg_nonneg; [|apply Z.pow_nonneg; lia].
  assert (0 ≤ Z.abs z / 2 ^ (Z.log2 (Z.abs z) - 52)) as Hq.
  { apply Z.div_pos; [lia|]. apply Z.pow_pos_nonneg; [lia|].
    apply Z.log2_le_mono in Hbig. rewrite Z.log2_pow2 in Hbig; lia. }
  repeat destruct (_ <? _); try destruct (Z.even _); lia.
Qed.

Lemma incr_nonneg (i : Z) : 0 ≤ i → 0 ≤ incr i.
Proof. intros Hi. apply round_nonneg. lia. Qed.

End JSNumberFacts.

(** ** The dependency graph: both edge directions stay synchronized *)
Section GraphSymmetry.
Import Graph.

  (** Every stored set is duplicate free, and the two edge directions agree. *)
Local Ltac cons_contra :=
    exfalso;
    match goal with
    | H : ¬ (_ ∈ _ :: _) |- _ => apply H; apply elem_of_cons; by auto
    | H : _ ∈ _ :: _ |- _ => apply elem_of_cons in H; destruct H; by subst
    end.

Definition edge_symmetric (g : Graph) : Prop :=
    ∀ a b, depends_on g a b ↔ dependent_of g b a.

Lemma lookup_detach_from_dependencies k ds : ∀ (g : Graph) x,
    detach_from_dependencies k ds g !! x =
      if decide (x ∈ ds) then set_dependents (JSSet.delete k) <$> g !! x
      else g !! x.
  Proof.
    unfold detach_from_dependencies.
    induction ds as [|d ds IH]; intros g x; cbn [foldl].
    - rewrite decide_False; [done|]. apply not_elem_of_nil.
    - rewrite IH, lookup_alter.
      destruct (decide (x ∈ ds)) as [Hin|Hin], (decide (d = x)) as [Heq|Hne],
        (decide (x ∈ d :: ds)) as [Hin'|Hin']; subst;
        try done; try cons_contra.
      destruct (g !! x) as [n|]; simpl; [|done].
      unfold set_dependents; simpl. by rewrite delete_delete.
  Qed.

Lemma lookup_detach_from_dependents k ds : ∀ (g : Graph) x,
    detach_from_dependents k ds g !! x =
      if decide (x ∈ ds) then set_dependencies (JSSet.delete k) <$> g !! x
      else g !! x.
  Proof.
    unfold detach_from_dependents.
    induction ds as [|d ds IH]; intros g x; cbn [foldl].
    - rewrite decide_False; [done|]. apply not_elem_of_nil.
    - rewrite IH, lookup_alter.
      destruct (decide (x ∈ ds)) as [Hin|Hin], (decide (d = x)) as [Heq|Hne],
        (decide (x ∈ d :: ds)) as [Hin'|Hin']; subst;
        try done; try cons_contra.
      destruct (g !! x) as [n|]; simpl; [|done].
      unfold set_dependencies; simpl. by rewrite delete_delete.
  Qed.

Definition placeholder_or (g : Graph) (x : string) : GraphNode :=
    match g !! x with
    | Some n => n
    | None => mkNode x JSSet.empty JSSet.empty
    end.

Lemma lookup_attach_to_dependencies k ds : ∀ (g : Graph) x,
    attach_to_dependencies k ds g !! x =
      if decide (x ∈ ds)
      then Some (set_dependents (JSSet.add k) (placeholder_or g x))
      else g !! x.
  Proof.
    unfold attach_to_dependencies.
    induction ds as [|d ds IH]; intros g x; cbn [foldl].
    - rewrite decide_False; [done|]. apply not_elem_of_nil.
    - rewrite IH. unfold placeholder_or, attach_step.
      destruct (decide (x ∈ ds)) as [Hin|Hin], (decide (d = x)) as [Heq|Hne],
        (decide (x ∈ d :: ds)) as [Hin'|Hin']; subst;
        try cons_contra;
        rewrite ?lookup_insert_eq, ?lookup_insert_ne by done; try done.
      unfold set_dependents; simpl. by rewrite add_add.
  Qed.

Definition old_dependencies (k : string) (g : Graph) : list string :=
    match g !! k with Some n => dependencies n | None => [] end.

Lemma updateCell_unfold k deps g :
    updateCell k deps g =
      let g1 := detach_from_dependencies k (old_dependencies k g) g in
      attach_to_dependencies k deps
        (<[k := mkNode k (JSSet.of_list deps)
                  (match g1 !! k with Some n => dependents n | None => [] end)]> g1).
  Proof.
    unfold updateCell, old_dependencies. by destruct (g !! k).
  Qed.

Lemma lookup_updateCell_dependencies k deps g x :
    dependencies <$> updateCell k deps g !! x =
      if decide (x = k) then Some (JSSet.of_list deps)
      else if decide (x ∈ deps) then Some (default [] (dependencies <$> g !! x))
      else dependencies <$> g !! x.
  Proof.
    rewrite updateCell_unfold. cbv zeta.
    rewrite lookup_attach_to_dependencies. unfold placeholder_or.
    destruct (decide (x = k)) as [->|Hne].
    - rewrite lookup_insert_eq. by case_decide.
    - rewrite lookup_insert_ne by done.
      rewrite lookup_detach_from_dependencies.
      repeat case_decide; destruct (g !! x); done.
  Qed.

  (** The [dependents] set of [x] once [k] has been detached from its old
      dependencies. *)
Definition detached_dependents (k : string) (g : Graph) (x : string) : option (list string) :=
    (if decide (x ∈ old_dependencies k g) then JSSet.delete k else id)
      <$> (dependents <$> g !! x).

Lemma lookup_updateCell_dependents k deps g x :
    dependents <$> updateCell k deps g !! x =
      if decide (x ∈ deps)
      then Some (JSSet.add k (default [] (detached_dependents k g x)))
      else if decide (x = k) then Some (default [] (detached_dependents k g x))
      else detached_dependents k g x.
  Proof.
    rewrite updateCell_unfold. cbv zeta.
    rewrite lookup_attach_to_dependencies. unfold placeholder_or, detached_dependents.
    destruct (decide (x = k)) as [->|Hne].
    - rewrite lookup_insert_eq, lookup_detach_from_dependencies.
      repeat case_decide; destruct (g !! k); done.
    - rewrite lookup_insert_ne by done.
      rewrite lookup_detach_from_dependencies.
      repeat case_decide; destruct (g !! x); done.
  Qed.

Lemma depends_on_alt g a b :
    depends_on g a b ↔ ∃ l, dependencies <$> g !! a = Some l ∧ b ∈ l.
  Proof.
    unfold depends_on. split.
    - intros (n & -> & Hb). eauto.
    - intros (l & Hl & Hb). destruct (g !! a) as [n|]; simplify_eq/=. eauto.
  Qed.

Lemma dependent_of_alt g b a :
    dependent_of g b a ↔ ∃ l, dependents <$> g !! b = Some l ∧ a ∈ l.
  Proof.
    unfold dependent_of. split.
    - intros (n & -> & Hb). eauto.
    - intros (l & Hl & Hb). destruct (g !! b) as [n|]; simplify_eq/=. eauto.
  Qed.

Lemma updateCell_depends_on_self k deps g b :
    depends_on (updateCell k deps g) k b ↔ b ∈ deps.
  Proof.
    rewrite depends_on_alt, lookup_updateCell_dependencies, decide_True by done.
    split.
    - intros (l & ? & Hb); simplify_eq. by apply elem_of_of_list.
    - intros Hb. eexists; split; [done|]. by apply elem_of_of_list.
  Qed.

Lemma updateCell_depends_on_other k deps g a b :
    a ≠ k → depends_on (updateCell k deps g) a b ↔ depends_on g a b.
  Proof.
    intros Hne.
    rewrite !depends_on_alt, lookup_updateCell_dependencies, decide_False by done.
    case_decide; [|done].
    destruct (dependencies <$> g !! a) as [l|]; simpl; [done|].
    split; intros (l & ? & Hb); simplify_eq. by apply elem_of_nil in Hb.
  Qed.

Lemma updateCell_dependent_of_other k deps g b a :
    a ≠ k → dependent_of (updateCell k deps g) b a ↔ dependent_of g b a.
  Proof.
    intros Hne.
    rewrite !dependent_of_alt, lookup_updateCell_dependents.
    unfold detached_dependents.
    destruct (dependents <$> g !! b) as [l|]; simpl;
      repeat case_decide; split; intros (l' & ? & Hb); simplify_eq/=;
      try (by apply elem_of_nil in Hb);
      repeat (apply elem_of_add in Hb as [?|Hb]; [done|]);
      repeat (apply elem_of_delete in Hb as [_ Hb]);
      try (by apply elem_of_nil in Hb);
      eexists; (split; [done|]);
      rewrite ?elem_of_add, ?elem_of_delete; auto.
  Qed.

Lemma updateCell_dependent_of_self k deps g b :
    edge_symmetric g →
    dependent_of (updateCell k deps g) b k ↔ b ∈ deps.
  Proof.
    intros Hsym.
    rewrite dependent_of_alt, lookup_updateCell_dependents.
    destruct (decide (b ∈ deps)) as [Hin|Hin].
    - split; [done|]. intros _. eexists; split; [done|].
      apply elem_of_add. by left.
    - split; [|done]. intros (l & Hl & Hk). exfalso.
      assert (detached_dependents k g b = Some l ∨
              (detached_dependents k g b = None ∧ l = [])) as [Hd|[_ ->]].
      { destruct (detached_dependents k g b); case_decide; simplify_eq/=; auto. }
      2: by apply elem_of_nil in Hk.
      unfold detached_dependents in Hd.
      destruct (g !! b) as [n|] eqn:Hb; simplify_eq/=.
      destruct (decide (b ∈ old_dependencies k g)) as [Hold|Hold].
      + apply elem_of_delete in Hk as [? _]. done.
      + apply Hold. simpl in Hk.
        assert (depends_on g k b) as (n' & Hn' & Hb').
        { apply Hsym. by exists n. }
        unfold old_dependencies. by rewrite Hn'.
  Qed.

Lemma updateCell_symmetric k deps g :
    edge_symmetric g → edge_symmetric (updateCell k deps g).
  Proof.
    intros Hsym a b. destruct (decide (a = k)) as [->|Hne].
    - by rewrite updateCell_depends_on_self, updateCell_dependent_of_self.
    - rewrite updateCell_depends_on_other, updateCell_dependent_of_other by done.
      apply Hsym.
  Qed.

  (** The [dependents] of the node being removed, as the second loop of
      [removeCell] iterates them. *)
Definition live_dependents (k : string) (node : GraphNode) : list string :=
    (if decide (k ∈ dependencies node) then JSSet.delete k else id) (dependents node).

Lemma removeCell_unfold k g node :
    g !! k = Some node →
    removeCell k g =
      delete k (detach_from_dependents k (live_dependents k node)
                  (detach_from_dependencies k (dependencies node) g)).
  Proof.
    intros Hk. unfold removeCell, live_dependents. rewrite Hk.
    rewrite lookup_detach_from_dependencies, Hk. by case_decide.
  Qed.

Lemma lookup_removeCell_dependencies k g node x :
    g !! k = Some node →
    dependencies <$> removeCell k g !! x =
      if decide (x = k) then None
      else (if decide (x ∈ live_dependents k node) then JSSet.delete k else id)
             <$> (dependencies <$> g !! x).
  Proof.
    intros Hk. rewrite (removeCell_unfold _ _ _ Hk).
    destruct (decide (x = k)) as [->|Hne].
    - by rewrite lookup_delete_eq.
    - rewrite lookup_delete_ne by done.
      rewrite lookup_detach_from_dependents, lookup_detach_from_dependencies.
      repeat case_decide; destruct (g !! x); done.
  Qed.

Lemma lookup_removeCell_dependents k g node x :
    g !! k = Some node →
    dependents <$> removeCell k g !! x =
      if decide (x = k) then None
      else (if decide (x ∈ dependencies node) then JSSet.delete k else id)
             <$> (dependents <$> g !! x).
  Proof.
    intros Hk. rewrite (removeCell_unfold _ _ _ Hk).
    destruct (decide (x = k)) as [->|Hne].
    - by rewrite lookup_delete_eq.
    - rewrite lookup_delete_ne by done.
      rewrite lookup_detach_from_dependents, lookup_detach_from_dependencies.
      repeat case_decide; destruct (g !! x); done.
  Qed.

Lemma maybe_delete_other (P : Prop) `{Decision P} x k (o : option (list string)) :
    x ≠ k →
    (∃ l, (if decide P then JSSet.delete k else id) <$> o = Some l ∧ x ∈ l)
    ↔ (∃ l, o = Some l ∧ x ∈ l).
  Proof.
    intros Hne. destruct o as [l0|]; simpl.
    - split; intros (l & ? & Hin); simplify_eq; eexists; (split; [done|]).
      + destruct (decide P); simpl in Hin; [|done].
        by apply elem_of_delete in Hin as [_ ?].
      + destruct (decide P); simpl; [|done]. by apply elem_of_delete.
    - split; by intros (? & ? & ?).
  Qed.

Lemma removeCell_symmetric k g :
    edge_symmetric g → edge_symmetric (removeCell k g).
  Proof.
    intros Hsym. destruct (g !! k) as [node|] eqn:Hk.
    2: { unfold removeCell. by rewrite Hk. }
    intros a b.
    rewrite depends_on_alt, dependent_of_alt.
    rewrite (lookup_removeCell_dependencies _ _ _ _ Hk),
            (lookup_removeCell_dependents _ _ _ _ Hk).
    destruct (decide (a = k)) as [->|Ha].
    { split; [by intros (? & ? & ?)|]. intros (l & Hl & Hin). exfalso.
      case_decide; [done|].
      destruct (g !! b) as [nb|] eqn:Hb; simplify_eq/=.
      destruct (decide (b ∈ dependencies node)) as [Hd|Hd].
      - by apply elem_of_delete in Hin as [? _].
      - apply Hd. simpl in Hin.
        assert (depends_on g k b) as (n' & Hn' & Hb').
        { apply Hsym. by exists nb. }
        by simplify_eq. }
    destruct (decide (b = k)) as [->|Hb].
    { split; [|by intros (? & ? & ?)]. intros (l & Hl & Hin). exfalso.
      destruct (g !! a) as [na|] eqn:Hna; simplify_eq/=.
      destruct (decide (a ∈ live_dependents k node)) as [Hd|Hd].
      - by apply elem_of_delete in Hin as [? _].
      - apply Hd. simpl in Hin.
        assert (dependent_of g k a) as (n' & Hn' & Ha').
        { apply Hsym. by exists na. }
        simplify_eq. unfold live_dependents.
        case_decide; simpl; [|done]. by apply elem_of_delete. }
    rewrite !maybe_delete_other by done.
    rewrite <- depends_on_alt, <- dependent_of_alt. apply Hsym.
  Qed.

Lemma empty_symmetric : edge_symmetric (∅ : Graph).
  Proof.
    intros a b. unfold depends_on, dependent_of.
    split; intros (n & Hn & _); by rewrite lookup_empty in Hn.
  Qed.

Lemma reachable_symmetric g : reachable g → edge_symmetric g.
  Proof.
    induction 1 as [|g k deps _ IH|g k _ IH|g _ _].
    - apply empty_symmetric.
    - by apply updateCell_symmetric.
    - by apply removeCell_symmetric.
    - apply empty_symmetric.
  Qed.

  (** Every stored set lists its elements once. *)
Definition sets_nodup (g : Graph) : Prop :=
    ∀ x n, g !! x = Some n → NoDup (dependencies n) ∧ NoDup (dependents n).

Lemma NoDup_maybe_delete (P : Prop) `{Decision P} k (l : list string) :
    NoDup l → NoDup ((if decide P then JSSet.delete k else id) l).
  Proof. intros Hl. destruct (decide P); [by apply NoDup_delete|done]. Qed.

Lemma updateCell_sets_nodup k deps g :
    sets_nodup g → sets_nodup (updateCell k deps g).
  Proof.
    intros Hwf x n Hn.
    pose proof (lookup_updateCell_dependencies k deps g x) as Hdeps.
    pose proof (lookup_updateCell_dependents k deps g x) as Hdnts.
    rewrite Hn in Hdeps, Hdnts. simpl in Hdeps, Hdnts.
    unfold detached_dependents in Hdnts.
    destruct (g !! x) as [old|] eqn:Hx; simpl in *.
    - destruct (Hwf x old Hx) as [H1 H2]. split.
      + repeat case_decide; simplify_eq; rewrite ?Hdeps;
          auto using NoDup_of_list.
      + destruct (decide (x ∈ deps)), (decide (x = k)); simplify_eq;
          rewrite ?Hdnts; auto using NoDup_add, NoDup_maybe_delete.
    - split.
      + repeat case_decide; simplify_eq; rewrite ?Hdeps;
          auto using NoDup_of_list, NoDup_nil_2.
      + destruct (decide (x ∈ deps)), (decide (x = k)); simplify_eq;
          rewrite ?Hdnts; auto using NoDup_add, NoDup_nil_2.
  Qed.

Lemma removeCell_sets_nodup k g :
    sets_nodup g → sets_nodup (removeCell k g).
  Proof.
    intros Hwf. destruct (g !! k) as [node|] eqn:Hk.
    2: { unfold removeCell. by rewrite Hk. }
    intros x n Hn.
    pose proof (lookup_removeCell_dependencies k g node x Hk) as Hdeps.
    pose proof (lookup_removeCell_dependents k g node x Hk) as Hdnts.
    rewrite Hn in Hdeps, Hdnts. simpl in Hdeps, Hdnts.
    destruct (decide (x = k)); [done|].
    destruct (g !! x) as [old|] eqn:Hx; simplify_eq/=.
    destruct (Hwf x old Hx) as [H1 H2].
    rewrite Hdeps, Hdnts. split; by apply NoDup_maybe_delete.
  Qed.

Lemma reachable_sets_nodup g : reachable g → sets_nodup g.
  Proof.
    induction 1 as [|g k deps _ IH|g k _ IH|g _ _].
    - intros x n Hn. by rewrite lookup_empty in Hn.
    - by apply updateCell_sets_nodup.
    - by apply removeCell_sets_nodup.
    - intros x n Hn. unfold clear in Hn. by rewrite lookup_empty in Hn.
  Qed.

  (** C7. Edge symmetry is an invariant of the dependency graph: in every
      graph state reached from a fresh graph by [updateCell], [removeCell]
      and [clear], a key [a] has [b] in its [dependencies] set if and only
      if the node of [b] exists and has [a] in its [dependents] set. *)
Theorem edge_symmetry_invariant (g : Graph) :
    reachable g →
    ∀ a b : string,
      (∃ na, g !! a = Some na ∧ b ∈ dependencies na)
      ↔ (∃ nb, g !! b = Some nb ∧ a ∈ dependents nb).
  Proof. intros Hreach. by apply reachable_symmetric. Qed.

  (** The theorem at the graph of the first repository test. *)
Lemma edge_symmetry_invariant_example :
    reachable (updateCell "r0c0" ["r0c1"; "r0c2"] ∅)
    ∧ ((∃ na, updateCell "r0c0" ["r0c1"; "r0c2"] ∅ !! "r0c0" = Some na
              ∧ "r0c1" ∈ dependencies na)
       ↔ (∃ nb, updateCell "r0c0" ["r0c1"; "r0c2"] ∅ !! "r0c1" = Some nb
                ∧ "r0c0" ∈ dependents nb)).
  Proof.
    assert (reachable (updateCell "r0c0" ["r0c1"; "r0c2"] ∅)) as Hreach
      by (apply reachable_updateCell, reachable_new).
    split; [exact Hreach|].
    exact (edge_symmetry_invariant _ Hreach "r0c0" "r0c1").
  Defined.

End GraphSymmetry.

(** ** The dependency graph: affected cells *)
Section GraphAffected.
Import Graph.
Local Open Scope list_scope.

Definition dependents_weight (g : Graph) (x : string) : nat :=
    match g !! x with Some n => length (dependents n) | None => 0 end.

Lemma sum_list_Permutation (l k : list nat) :
    l ≡ₚ k → sum_list l = sum_list k.
  Proof. induction 1; simpl; lia. Qed.

Lemma total_dependents_insert (g : Graph) x n :
    g !! x = None →
    total_dependents (<[x := n]> g) = length (dependents n) + total_dependents g.
  Proof.
    intros Hx. unfold total_dependents.
    erewrite sum_list_Permutation.
    2: { apply fmap_Permutation, map_to_list_insert, Hx. }
    done.
  Qed.

Lemma visited_weight_bound (l : list string) : ∀ g : Graph,
    NoDup l → (sum_list (dependents_weight g <$> l) ≤ total_dependents g)%nat.
  Proof.
    induction l as [|x l IH]; intros g Hnd; csimpl; [lia|].
    apply NoDup_cons in Hnd as [Hx Hnd].
    assert (dependents_weight g <$> l = dependents_weight (delete x g) <$> l) as ->.
    { apply list_fmap_ext. intros i y Hy. unfold dependents_weight.
      rewrite lookup_delete_ne; [done|].
      intros ->. apply Hx. by eapply list_elem_of_lookup_2. }
    specialize (IH (delete x g) Hnd).
    unfold dependents_weight at 1. destruct (g !! x) as [n|] eqn:Hgx.
    - rewrite <- (insert_delete_id g x n Hgx) at 2.
      rewrite total_dependents_insert by apply lookup_delete_eq.
      by apply Nat.add_le_mono_l.
    - rewrite delete_id in IH |- * by done. exact IH.
  Qed.

Lemma affected_loop_terminates (g : Graph) fuel :
    ∀ affected queue visited,
      NoDup visited →
      (length queue + total_dependents g
         < fuel + sum_list (dependents_weight g <$> visited))%nat →
      ∃ r, affected_loop fuel g affected queue visited = Some r.
  Proof.
    induction fuel as [|fuel IH]; intros affected queue visited Hnd Hlt.
    - pose proof (visited_weight_bound visited g Hnd). lia.
    - destruct queue as [|current queue]; simpl; [eauto|].
      unfold JSSet.add. destruct (JSSet.has current visited) eqn:Hhas.
      + apply IH; [done|]. simpl in Hlt. lia.
      + assert (NoDup (visited ++ [current])) as Hnd'.
        { pose proof (NoDup_add current visited Hnd) as H.
          unfold JSSet.add in H. by rewrite Hhas in H. }
        assert (sum_list (dependents_weight g <$> visited ++ [current])
                = sum_list (dependents_weight g <$> visited)
                  + dependents_weight g current)%nat as Hsum.
        { rewrite fmap_app. simpl. generalize (dependents_weight g <$> visited).
          intros l. induction l; simpl; lia. }
        assert (dependents_weight g current
                = match g !! current with
                  | Some n => length (dependents n) | None => 0%nat end) as Hw
          by done.
        destruct (g !! current) as [node|].
        * apply IH; [done|]. rewrite Hsum, Hw, length_app. simpl in Hlt. lia.
        * apply IH; [done|]. rewrite Hsum, Hw. simpl in Hlt. lia.
  Qed.

Section Invariant.
Variable g : Graph.
Variable k : string.

    (** What the loop maintains: [affected] holds transitive dependents of
        [k] only, everything queued is [k] or affected, the dependents of a
        visited cell are all affected, and nothing affected is forgotten. *)
Definition affected_inv (affected queue visited : list string) : Prop :=
      NoDup affected
      ∧ (∀ y, y ∈ affected → tc (dependent_of g) k y)
      ∧ (∀ x, x ∈ queue → x = k ∨ x ∈ affected)
      ∧ (∀ x y, x ∈ visited → dependent_of g x y → y ∈ affected)
      ∧ (k ∈ queue ∨ k ∈ visited)
      ∧ (∀ y, y ∈ affected → y ∈ queue ∨ y ∈ visited).

Lemma affected_inv_closed affected visited y :
      affected_inv affected [] visited →
      tc (dependent_of g) k y → y ∈ affected.
    Proof.
      intros (_ & _ & _ & Hclosed & Hk & Hkept) Htc.
      assert (k ∈ visited) as Hkv.
      { destruct Hk as [Hk|]; [by apply elem_of_nil in Hk|done]. }
      assert (∀ x z, tc (dependent_of g) x z → x ∈ visited → z ∈ affected)
        as Haux; [|by eapply Haux].
      clear Htc Hkv Hk y. intros x y Htc.
      induction Htc as [x y Hxy|x z y Hxz _ IH]; intros Hx.
      - by eapply Hclosed.
      - apply IH. destruct (Hkept z) as [Hz|Hz]; [by eapply Hclosed| |done].
        by apply elem_of_nil in Hz.
    Qed.

Lemma affected_loop_inv fuel : ∀ affected queue visited r,
      affected_loop fuel g affected queue visited = Some r →
      affected_inv affected queue visited →
      NoDup r ∧ ∀ y, y ∈ r ↔ tc (dependent_of g) k y.
    Proof.
      induction fuel as [|fuel IH]; intros affected queue visited r Hrun Hinv;
        [done|].
      destruct queue as [|current queue]; simpl in Hrun.
      { simplify_eq. split; [apply Hinv|]. intros y. split; [apply Hinv|].
        by apply affected_inv_closed with visited. }
      destruct Hinv as (Hnd & Hsound & Hqueue & Hclosed & Hk & Hkept).
      destruct (JSSet.has current visited) eqn:Hhas.
      { apply bool_decide_eq_true in Hhas.
        apply (IH _ _ _ _ Hrun). split_and!; try done.
        - intros x Hx. apply Hqueue. by right.
        - destruct Hk as [Hk|Hk]; [|by right].
          apply elem_of_cons in Hk as [->|Hk]; [by right|by left].
        - intros y Hy. destruct (Hkept y Hy) as [Hq|Hv]; [|by right].
          apply elem_of_cons in Hq as [->|Hq]; [by right|by left]. }
      assert (∀ x, x ∈ JSSet.add current visited ↔ x = current ∨ x ∈ visited)
        as Hvis by (intros; apply elem_of_add).
      assert (current = k ∨ tc (dependent_of g) k current) as Hcur.
      { destruct (Hqueue current) as [?|?]; [by left|by left|right; auto]. }
      destruct (g !! current) as [node|] eqn:Hnode.
      - apply (IH _ _ _ _ Hrun).
        destruct (of_list_acc (dependents node) affected) as [Hmem Hnd'].
        split_and!.
        + by apply Hnd'.
        + intros y Hy. apply Hmem in Hy as [Hy|Hy]; [by apply Hsound|].
          assert (dependent_of g current y) as Hedge by (by exists node).
          destruct Hcur as [->|Hcur]; [by apply tc_once|].
          eapply tc_r; eauto.
        + intros x Hx. apply elem_of_app in Hx as [Hx|Hx].
          * destruct (Hqueue x) as [?|?]; [by right|by left|].
            right. apply Hmem. by left.
          * right. apply Hmem. by right.
        + intros x y Hx Hxy. apply Hmem. apply Hvis in Hx as [->|Hx].
          * right. destruct Hxy as (n & Hn & Hy). by simplify_eq.
          * left. by eapply Hclosed.
        + destruct Hk as [Hk|Hk]; [|right; apply Hvis; by right].
          apply elem_of_cons in Hk as [->|Hk].
          * right. apply Hvis. by left.
          * left. apply elem_of_app. by left.
        + intros y Hy. apply Hmem in Hy as [Hy|Hy].
          * destruct (Hkept y Hy) as [Hq|Hv]; [|right; apply Hvis; by right].
            apply elem_of_cons in Hq as [->|Hq].
            -- right. apply Hvis. by left.
            -- left. apply elem_of_app. by left.
          * left. apply elem_of_app. by right.
      - apply (IH _ _ _ _ Hrun). split_and!; try done.
        + intros x Hx. apply Hqueue. by right.
        + intros x y Hx Hxy. apply Hvis in Hx as [->|Hx]; [|by eapply Hclosed].
          destruct Hxy as (n & Hn & _). by simplify_eq.
        + destruct Hk as [Hk|Hk]; [|right; apply Hvis; by right].
          apply elem_of_cons in Hk as [->|Hk]; [|by left].
          right. apply Hvis. by left.
        + intros y Hy.
          destruct (Hkept y Hy) as [Hq|Hv]; [|right; apply Hvis; by right].
          apply elem_of_cons in Hq as [->|Hq]; [|by left].
          right. apply Hvis. by left.
    Qed.
End Invariant.

  (** C5 (as amended). For every graph state and every key,
      [getAffectedCells(key)] returns, each element exactly once, exactly
      the transitive closure of the dependents of [key]; [key] itself is in
      the result exactly when it is one of its own transitive dependents
      (it lies on a dependency cycle), and is left out otherwise. *)
Theorem getAffectedCells_transitive_dependents (g : Graph) (k : string) :
    ∃ r, getAffectedCells g k = Some r
         ∧ NoDup r
         ∧ (∀ y, y ∈ r ↔ tc (dependent_of g) k y)
         ∧ (k ∈ r ↔ tc (dependent_of g) k k).
  Proof.
    unfold getAffectedCells.
    destruct (affected_loop_terminates g (S (S (total_dependents g)))
                JSSet.empty [k] JSSet.empty) as [r Hr].
    { apply NoDup_nil_2. }
    { simpl. lia. }
    exists r. split; [done|].
    destruct (affected_loop_inv g k _ _ _ _ _ Hr) as [Hnd Hmem].
    { unfold affected_inv, JSSet.empty. split_and!.
      - apply NoDup_nil_2.
      - intros y Hy. by apply elem_of_nil in Hy.
      - intros x Hx. left. by apply list_elem_of_singleton in Hx.
      - intros x y Hx. by apply elem_of_nil in Hx.
      - left. by apply list_elem_of_singleton.
      - intros y Hy. by apply elem_of_nil in Hy. }
    split_and!; [done|done|apply Hmem].
  Qed.

  (** A cell that refers to itself is reported among its own affected
      cells: the start key is not filtered out of the result. *)
Lemma getAffectedCells_self_reference :
    getAffectedCells (updateCell "r0c0" ["r0c0"] ∅) "r0c0" = Some ["r0c0"].
  Proof. vm_compute. reflexivity. Qed.

  (** The graph tests of the repository, replayed. *)
Example test_gets_all_affected_cells :
    getAffectedCells
      (updateCell "r0c3" ["r0c2"]
         (updateCell "r0c2" ["r0c0"] (updateCell "r0c0" ["r0c1"] ∅))) "r0c1"
    = Some ["r0c0"; "r0c2"; "r0c3"].
  Proof. vm_compute. reflexivity. Qed.

Example test_removes_cell :
    getAffectedCells
      (removeCell "r0c0"
         (updateCell "r0c2" ["r0c0"] (updateCell "r0c0" ["r0c1"] ∅))) "r0c1"
    = Some [].
  Proof. vm_compute. reflexivity. Qed.

End GraphAffected.

(** ** The dependency graph: topological order *)
Section GraphTopological.
Import Graph.
Local Open Scope list_scope.

  (** *** List facts used by the counting argument *)

Lemma length_filter_ne (c : string) (l : list string) :
    NoDup l →
    length (filter (λ d, d ≠ c) l)
    = (length l - (if decide (c ∈ l) then 1 else 0))%nat.
  Proof.
    induction l as [|a l IH]; intros Hnd; [done|].
    apply NoDup_cons in Hnd as [Ha Hnd]. specialize (IH Hnd).
    rewrite filter_cons. destruct (decide (a ≠ c)) as [Hne|Heq].
    - simpl. rewrite IH.
      destruct (decide (c ∈ l)) as [Hc|Hc].
      + rewrite decide_True by (apply elem_of_cons; by right).
        destruct l; [by apply elem_of_nil in Hc|simpl; lia].
      + rewrite decide_False; [lia|].
        intros [->|?]%elem_of_cons; done.
    - apply dec_stable in Heq as ->.
      rewrite decide_True by (apply elem_of_cons; by left).
      rewrite IH, decide_False by done. simpl. lia.
  Qed.

Lemma filter_nil_iff (P : string → Prop) `{∀ x, Decision (P x)} (l : list string) :
    filter P l = [] ↔ ∀ x, x ∈ l → ¬ P x.
  Proof.
    induction l as [|a l IH].
    - split; [|done]. intros _ x Hx. by apply elem_of_nil in Hx.
    - rewrite filter_cons. destruct (decide (P a)) as [Ha|Ha].
      + split; [done|]. intros Hall. exfalso. apply (Hall a); [|done].
        apply elem_of_cons. by left.
      + rewrite IH. split.
        * intros Hall x [->|Hx]%elem_of_cons; auto.
        * intros Hall x Hx. apply Hall, elem_of_cons. by right.
  Qed.

Lemma filter_ext_elem_of (P Q : string → Prop)
      `{∀ x, Decision (P x)} `{∀ x, Decision (Q x)} (l : list string) :
    (∀ x, x ∈ l → P x ↔ Q x) → filter P l = filter Q l.
  Proof.
    induction l as [|a l IH]; intros Hext; [done|].
    rewrite !filter_cons, IH.
    - destruct (decide (P a)) as [Ha|Ha], (decide (Q a)) as [Hb|Hb]; try done;
        exfalso; [apply Hb|apply Ha]; apply (Hext a); try done;
        apply elem_of_cons; by left.
    - intros x Hx. apply Hext, elem_of_cons. by right.
  Qed.

Lemma count_has_filter (keys deps : list string) : ∀ z,
    foldl (λ degree dep, if JSSet.has dep keys then (degree + 1)%Z else degree) z deps
    = (z + Z.of_nat (length (filter (λ d, d ∈ keys) deps)))%Z.
  Proof.
    induction deps as [|d deps IH]; intros z; cbn [foldl].
    - simpl. lia.
    - rewrite IH, filter_cons. unfold JSSet.has.
      case_bool_decide.
      + rewrite decide_True by done. simpl length. lia.
      + rewrite decide_False by done. lia.
  Qed.

Section Kahn.
Variable g : Graph.
Variable keys : list string.
Hypothesis Hsym : edge_symmetric g.
Hypothesis Hwf : sets_nodup g.
Hypothesis Hkeys : NoDup keys.
Hypothesis Hknown : ∀ k, k ∈ keys → is_Some (g !! k).

    (** The dependencies of [x] that lie in the key set. *)
Definition deps_in (x : string) : list string :=
      filter (λ d, d ∈ keys) (old_dependencies x g).

    (** Those of them not emitted yet. *)
Definition remaining (result : list string) (x : string) : list string :=
      filter (λ d, d ∉ result) (deps_in x).

Lemma NoDup_deps_in x : NoDup (deps_in x).
    Proof.
      unfold deps_in, old_dependencies. apply NoDup_filter.
      destruct (g !! x) as [n|] eqn:Hx; [by eapply Hwf|apply NoDup_nil_2].
    Qed.

Lemma init_fold ks : ∀ (m : gmap string degree) (q : list string),
      (∀ k, k ∈ ks → is_Some (g !! k)) →
      ∃ m', foldl (init_step g keys) (m, q) ks
            = (m', q ++ filter (λ x, length (deps_in x) = 0%nat) ks)
          ∧ ∀ x, m' !! x = if decide (x ∈ ks)
                           then Some (Deg (Z.of_nat (length (deps_in x))))
                           else m !! x.
    Proof.
      induction ks as [|k ks IH]; intros m q Hks; cbn [foldl].
      - exists m. rewrite filter_nil, app_nil_r. split; [done|].
        intros x. rewrite decide_False; [done|apply not_elem_of_nil].
      - destruct (Hks k) as [node Hnode]; [apply elem_of_cons; by left|].
        unfold init_step at 2. rewrite Hnode, count_has_filter, Z.add_0_l.
        assert (filter (λ d, d ∈ keys) (dependencies node) = deps_in k) as ->.
        { unfold deps_in, old_dependencies. by rewrite Hnode. }
        edestruct IH as (m' & -> & Hm').
        { intros k' Hk'. apply Hks, elem_of_cons. by right. }
        exists m'. split.
        + f_equal. rewrite filter_cons.
          destruct (decide (length (deps_in k) = 0%nat)) as [Hz|Hz].
          * rewrite Hz. simpl. by rewrite <- app_assoc.
          * destruct (Z.eqb_spec (Z.of_nat (length (deps_in k))) 0); [lia|done].
        + intros x. rewrite Hm'.
          destruct (decide (x ∈ ks)) as [Hx|Hx], (decide (k = x)) as [Heq|Hne],
            (decide (x ∈ k :: ks)) as [Hx'|Hx']; subst;
            rewrite ?lookup_insert_eq, ?lookup_insert_ne by done; try done;
            exfalso; first [apply Hx'; apply elem_of_cons; by auto
                           |apply elem_of_cons in Hx' as [?|?]; by subst].
    Qed.

Lemma relax_fold ds : ∀ (m : gmap string degree) (q : list string),
      NoDup ds →
      ∃ m', foldl (relax_step keys) (m, q) ds
            = (m', q ++ filter (λ x, x ∈ keys
                                     ∧ degree_is_zero (degree_pred (m !! x)) = true) ds)
          ∧ ∀ x, m' !! x = if decide (x ∈ ds ∧ x ∈ keys)
                           then Some (degree_pred (m !! x))
                           else m !! x.
    Proof.
      induction ds as [|d ds IH]; intros m q Hnd; cbn [foldl].
      - exists m. rewrite filter_nil, app_nil_r. split; [done|].
        intros x. rewrite decide_False; [done|].
        intros [Hx _]. by apply elem_of_nil in Hx.
      - apply NoDup_cons in Hnd as [Hd Hnd].
        unfold relax_step at 2. unfold JSSet.has.
        destruct (decide (d ∈ keys)) as [Hdk|Hdk].
        + rewrite bool_decide_eq_true_2 by done.
          edestruct IH as (m' & -> & Hm'); [done|].
          exists m'. split.
          * f_equal. rewrite filter_cons.
            assert (filter (λ x, x ∈ keys ∧ degree_is_zero
                       (degree_pred (<[d:=degree_pred (m !! d)]> m !! x)) = true) ds
                    = filter (λ x, x ∈ keys ∧ degree_is_zero
                       (degree_pred (m !! x)) = true) ds) as ->.
            { apply filter_ext_elem_of. intros x Hx.
              rewrite lookup_insert_ne; [done|]. by intros ->. }
            destruct (degree_is_zero (degree_pred (m !! d))) eqn:Hz.
            -- rewrite decide_True by done. by rewrite <- app_assoc.
            -- rewrite decide_False; [done|]. intros [_ ?]. done.
          * intros x. rewrite Hm'.
            destruct (decide (d = x)) as [<-|Hne].
            -- rewrite decide_False by (by intros [? _]).
               rewrite lookup_insert_eq.
               rewrite decide_True; [done|]. split; [|done].
               apply elem_of_cons. by left.
            -- rewrite lookup_insert_ne by done.
               destruct (decide (x ∈ ds ∧ x ∈ keys)) as [[? ?]|Hn].
               ++ rewrite decide_True; [done|]. split; [|done].
                  apply elem_of_cons. by right.
               ++ rewrite decide_False; [done|].
                  intros [[?|?]%elem_of_cons ?]; [by subst|]. by apply Hn.
        + rewrite bool_decide_eq_false_2 by done.
          edestruct IH as (m' & -> & Hm'); [done|].
          exists m'. split.
          * f_equal. rewrite filter_cons, decide_False; [done|].
            by intros [? _].
          * intros x. rewrite Hm'.
            destruct (decide (x ∈ ds ∧ x ∈ keys)) as [[? ?]|Hn].
            -- rewrite decide_True; [done|]. split; [|done].
               apply elem_of_cons. by right.
            -- rewrite decide_False; [done|].
               intros [[?|?]%elem_of_cons ?]; [by subst|]. by apply Hn.
    Qed.

    (** Everything emitted comes after the dependencies it has in the key set. *)
Definition ordered (result : list string) : Prop :=
      ∀ l1 x l2, result = l1 ++ x :: l2 → ∀ d, d ∈ deps_in x → d ∈ l1.

    (** The invariant of Kahn's loop: the in-degree of a key counts its
        dependencies that are not emitted yet, and the keys emitted or
        queued are those whose count is zero. *)
Definition kahn_inv (m : gmap string degree) (queue result : list string) : Prop :=
      (∀ x, x ∈ keys → m !! x = Some (Deg (Z.of_nat (length (remaining result x)))))
      ∧ (∀ x, x ∈ result ++ queue ↔ x ∈ keys ∧ remaining result x = [])
      ∧ NoDup (result ++ queue)
      ∧ ordered result.

Lemma remaining_snoc result c x :
      remaining (result ++ [c]) x = filter (λ d, d ≠ c) (remaining result x).
    Proof.
      unfold remaining. rewrite list_filter_filter. apply list_filter_iff.
      intros d. rewrite elem_of_app, list_elem_of_singleton. tauto.
    Qed.

Lemma elem_of_remaining result c x :
      c ∈ keys → c ∉ result →
      c ∈ remaining result x ↔ c ∈ old_dependencies x g.
    Proof.
      intros Hc Hr. unfold remaining, deps_in.
      rewrite !list_elem_of_filter. tauto.
    Qed.

Lemma length_remaining_snoc result c x :
      c ∈ keys → c ∉ result →
      length (remaining (result ++ [c]) x)
      = (length (remaining result x)
         - (if decide (c ∈ old_dependencies x g) then 1 else 0))%nat.
    Proof.
      intros Hc Hr. rewrite remaining_snoc, length_filter_ne.
      2: { apply NoDup_filter, NoDup_deps_in. }
      pose proof (elem_of_remaining result c x Hc Hr).
      destruct (decide (c ∈ remaining result x)),
               (decide (c ∈ old_dependencies x g)); tauto.
    Qed.

Lemma dependents_iff_dependencies c node x :
      g !! c = Some node → x ∈ keys →
      x ∈ dependents node ↔ c ∈ old_dependencies x g.
    Proof.
      intros Hc Hx. destruct (Hknown x Hx) as [nx Hnx].
      unfold old_dependencies. rewrite Hnx. split.
      - intros Hin. destruct (Hsym x c) as [_ (n & Hn & Hd)]; [by exists node|].
        by simplify_eq.
      - intros Hin. destruct (Hsym x c) as [(n & Hn & Hd) _]; [by exists nx|].
        by simplify_eq.
    Qed.

Lemma kahn_inv_step m c q result node m' q' :
      kahn_inv m (c :: q) result →
      g !! c = Some node →
      foldl (relax_step keys) (m, q) (dependents node) = (m', q') →
      kahn_inv m' q' (result ++ [c]).
    Proof.
      intros (Hdeg & Hzero & Hnd & Hord) Hnode Hfold.
      destruct (relax_fold (dependents node) m q) as (m'' & Heq & Hm').
      { by eapply Hwf. }
      rewrite Hfold in Heq. injection Heq as <- ->.
      assert (c ∈ keys ∧ remaining result c = []) as [Hck Hc0].
      { apply Hzero, elem_of_app. right. apply elem_of_cons. by left. }
      assert (c ∉ result) as Hcr.
      { apply NoDup_app in Hnd as (_ & Hdisj & _). intros Hc.
        apply (Hdisj c Hc), elem_of_cons. by left. }
      (* the new in-degrees *)
      assert (∀ x, x ∈ keys →
                m' !! x = Some (Deg (Z.of_nat (length (remaining (result ++ [c]) x)))))
        as Hdeg'.
      { intros x Hx. rewrite Hm', (Hdeg x Hx), length_remaining_snoc by done.
        pose proof (dependents_iff_dependencies c node x Hnode Hx) as Hiff.
        pose proof (elem_of_remaining result c x Hck Hcr) as Hrem.
        destruct (decide (x ∈ dependents node ∧ x ∈ keys)) as [[Hd _]|Hn],
                 (decide (c ∈ old_dependencies x g)) as [Hc|Hc]; try tauto.
        - simpl. do 2 f_equal.
          apply Hrem in Hc. destruct (remaining result x); [by apply elem_of_nil in Hc|].
          simpl. lia.
        - do 3 f_equal. lia. }
      (* the keys that have just reached zero *)
      assert (∀ x, x ∈ filter (λ x, x ∈ keys
                    ∧ degree_is_zero (degree_pred (m !! x)) = true) (dependents node)
                ↔ x ∈ keys ∧ c ∈ old_dependencies x g
                  ∧ length (remaining result x) = 1%nat) as Hnew.
      { intros x. rewrite list_elem_of_filter. split.
        - intros [[Hx Hz] Hd]. rewrite (Hdeg x Hx) in Hz. simpl in Hz.
          split_and!; [done|by apply (dependents_iff_dependencies c node x)|].
          apply Z.eqb_eq in Hz. lia.
        - intros (Hx & Hc & Hlen). split_and!; [done| |].
          + rewrite (Hdeg x Hx), Hlen. done.
          + by apply (dependents_iff_dependencies c node x). }
      split_and!.
      - done.
      - intros x. rewrite <- app_assoc. simpl.
        rewrite elem_of_app, elem_of_cons, elem_of_app, Hnew.
        specialize (Hzero x). rewrite elem_of_app, elem_of_cons in Hzero.
        split.
        + intros Hx.
          assert ((x ∈ keys ∧ remaining result x = []) ∨
                  (x ∈ keys ∧ c ∈ old_dependencies x g
                   ∧ length (remaining result x) = 1%nat)) as [[Hk H0]|(Hk & Hc & H1)]
            by tauto.
          * split; [done|]. by rewrite remaining_snoc, H0.
          * split; [done|]. apply length_zero_iff_nil.
            rewrite length_remaining_snoc, H1, decide_True by done. done.
        + intros [Hk H0]. apply length_zero_iff_nil in H0.
          rewrite length_remaining_snoc in H0 by done.
          destruct (decide (c ∈ old_dependencies x g)) as [Hc|Hc].
          * destruct (decide (length (remaining result x) = 0%nat)) as [Hz|Hz].
            -- apply length_zero_iff_nil in Hz. tauto.
            -- right. right. right. split_and!; [done|done|lia].
          * assert (remaining result x = []) by (apply length_zero_iff_nil; lia).
            tauto.
      - rewrite <- app_assoc. simpl.
        apply NoDup_app in Hnd as (Hnd1 & Hdisj & Hnd2).
        apply NoDup_cons in Hnd2 as [Hcq Hnd2].
        apply NoDup_app. split_and!; [done| |].
        + intros x Hx. rewrite elem_of_cons, elem_of_app, Hnew.
          intros [->|[Hq|(Hk & Hc & H1)]]; [done| |].
          * apply (Hdisj x Hx), elem_of_cons. by right.
          * destruct (Hzero x) as [[_ H0] _]; [apply elem_of_app; by left|].
            by rewrite H0 in H1.
        + apply NoDup_cons. split.
          * rewrite elem_of_app, Hnew. intros [?|(_ & _ & H1)]; [done|].
            by rewrite Hc0 in H1.
          * apply NoDup_app. split_and!; [done| |].
            -- intros x Hx. rewrite Hnew. intros (Hk & Hc & H1).
               destruct (Hzero x) as [[_ H0] _].
               { apply elem_of_app. right. apply elem_of_cons. by right. }
               by rewrite H0 in H1.
            -- apply NoDup_filter. by eapply Hwf.
      - intros l1 x l2 Heq d Hd.
        destruct l2 as [|y l2 _] using rev_ind.
        + apply app_inj_tail in Heq as [<- <-].
          apply dec_stable. intros Hn.
          assert (d ∈ remaining result c) as Hrem.
          { unfold remaining. apply list_elem_of_filter. done. }
          rewrite Hc0 in Hrem. by apply elem_of_nil in Hrem.
        + rewrite app_comm_cons, app_assoc in Heq.
          apply app_inj_tail in Heq as [Heq _]. by eapply Hord.
    Qed.

Lemma remaining_nil x : remaining [] x = deps_in x.
    Proof.
      unfold remaining. induction (deps_in x) as [|d l IH]; [done|].
      rewrite filter_cons, decide_True by apply not_elem_of_nil. by rewrite IH.
    Qed.

Lemma kahn_inv_init m0 q0 :
      foldl (init_step g keys) (∅, []) keys = (m0, q0) → kahn_inv m0 q0 [].
    Proof.
      intros Hfold.
      destruct (init_fold keys ∅ [] Hknown) as (m' & Heq & Hm').
      rewrite Hfold in Heq. injection Heq as <- ->.
      unfold kahn_inv. rewrite !app_nil_l.
      split_and!.
      - intros x Hx. by rewrite Hm', decide_True, remaining_nil.
      - intros x. rewrite list_elem_of_filter, remaining_nil.
        rewrite <- length_zero_iff_nil. tauto.
      - by apply NoDup_filter.
      - intros l1 x l2 Heq. by destruct l1.
    Qed.

Lemma kahn_inv_length m q result :
      kahn_inv m q result → (length result + length q ≤ length keys)%nat.
    Proof.
      intros (_ & Hzero & Hnd & _). rewrite <- length_app.
      apply submseteq_length, NoDup_submseteq; [done|].
      intros x Hx. by apply Hzero.
    Qed.

Lemma kahn_loop_spec fuel : ∀ m q result,
      kahn_inv m q result →
      (length keys < fuel + length result)%nat →
      ∃ r m', kahn_loop fuel g keys m q result = Some r ∧ kahn_inv m' [] r.
    Proof.
      induction fuel as [|fuel IH]; intros m q result Hinv Hlt.
      - pose proof (kahn_inv_length _ _ _ Hinv). lia.
      - destruct q as [|c q]; simpl; [by eauto|].
        assert (c ∈ keys) as Hc.
        { destruct Hinv as (_ & Hzero & _). apply Hzero, elem_of_app.
          right. apply elem_of_cons. by left. }
        destruct (Hknown c Hc) as [node Hnode]. rewrite Hnode.
        destruct (foldl (relax_step keys) (m, q) (dependents node))
          as [m' q'] eqn:Hfold.
        apply (IH m' q').
        + by eapply kahn_inv_step.
        + rewrite length_app. simpl. lia.
    Qed.

Lemma depends_within_deps_in a b :
      depends_within g keys a b → b ∈ deps_in a.
    Proof.
      intros (_ & Hb & n & Hn & Hin). unfold deps_in, old_dependencies.
      rewrite Hn. by apply list_elem_of_filter.
    Qed.

Lemma ordered_tc r x y :
      ordered r → tc (depends_within g keys) x y →
      ∀ l1 l2, r = l1 ++ x :: l2 → y ∈ l1.
    Proof.
      intros Hord Htc. induction Htc as [x y Hxy|x z y Hxz _ IH]; intros l1 l2 Heq.
      - eapply Hord; [done|]. by apply depends_within_deps_in.
      - assert (z ∈ l1) as Hz.
        { eapply Hord; [done|]. by apply depends_within_deps_in. }
        apply list_elem_of_split in Hz as (la & lb & ->).
        apply elem_of_app. left. apply (IH la (lb ++ x :: l2)).
        rewrite Heq, <- app_assoc. done.
    Qed.

Lemma ordered_acyclic r x :
      NoDup r → ordered r → (∀ k, k ∈ keys → k ∈ r) →
      ¬ tc (depends_within g keys) x x.
    Proof.
      intros Hnd Hord Hall Htc.
      assert (x ∈ keys) as Hx.
      { inversion Htc as [? ? (? & _)|? ? ? (? & _)]; done. }
      apply Hall, list_elem_of_split in Hx as (l1 & l2 & ->).
      pose proof (ordered_tc _ _ _ Hord Htc l1 l2 eq_refl) as Hin.
      apply NoDup_app in Hnd as (_ & Hdisj & _).
      apply (Hdisj x Hin), elem_of_cons. by left.
    Qed.

    (** When the loop stops short of a key, every key left over still waits
        for one that is left over too: following these edges never ends. *)
Lemma stuck_has_cycle m r x :
      kahn_inv m [] r → x ∈ keys → x ∉ r →
      ∃ y, tc (depends_within g keys) y y.
    Proof.
      intros (_ & Hzero & _ & _) Hx Hr.
      apply NNPP. intros Hnone.
      assert (∀ y, ¬ tc (depends_within g keys) y y) as Hirr.
      { intros y Hy. apply Hnone. eauto. }
      assert (∀ y, sn (depends_within g keys) y) as Hsn.
      { intros y. apply tc_finite_sn; [exact Hirr|].
        exists keys. intros z Hz. induction Hz as [? ? (_ & ? & _)|]; done. }
      specialize (Hsn x). induction Hsn as [x _ IH].
      assert (remaining r x ≠ []) as Hrem.
      { intros H0. apply Hr. rewrite <- (app_nil_r r). by apply Hzero. }
      destruct (remaining r x) as [|d l] eqn:Hd; [done|].
      assert (d ∈ remaining r x) as Hin by (rewrite Hd; apply elem_of_cons; by left).
      unfold remaining, deps_in in Hin.
      apply list_elem_of_filter in Hin as [Hdr Hin].
      apply list_elem_of_filter in Hin as [Hdk Hin].
      apply (IH d); [|done|done].
      split_and!; [done|done|].
      unfold old_dependencies in Hin.
      destruct (g !! x) as [n|] eqn:Hn; [by exists n|by apply elem_of_nil in Hin].
    Qed.

End Kahn.

Lemma getTopologicalOrder_spec (g : Graph) (keys : list string) :
    edge_symmetric g → sets_nodup g → NoDup keys →
    (∀ k, k ∈ keys → is_Some (g !! k)) →
    ∃ res, getTopologicalOrder g keys = Some res
      ∧ (∀ order, res = Some order →
           order ≡ₚ keys
           ∧ ∀ a b, depends_within g keys a b → listed_before order b a)
      ∧ (res = None ↔ ∃ x, tc (depends_within g keys) x x).
  Proof.
    intros Hsym Hwf Hkeys Hknown. unfold getTopologicalOrder.
    destruct (foldl (init_step g keys) (∅, []) keys) as [m0 q0] eqn:Hinit.
    destruct (kahn_loop_spec g keys Hsym Hwf Hknown (S (length keys)) m0 q0 [])
      as (r & m' & -> & Hinv).
    { by apply kahn_inv_init. }
    { simpl. lia. }
    pose proof (kahn_inv_length g keys _ _ _ Hinv) as Hlen.
    destruct Hinv as (Hdeg & Hzero & Hnd & Hord).
    rewrite app_nil_r in Hnd. unfold JSSet.size.
    assert (r ⊆+ keys) as Hsub.
    { apply NoDup_submseteq; [done|]. intros x Hx. apply Hzero.
      by rewrite app_nil_r. }
    case_bool_decide as Hne.
    - eexists. split; [done|]. split; [done|]. split; [intros _|done].
      destruct (decide (Forall (λ x, x ∈ r) keys)) as [Hall|Hex].
      + exfalso. apply Hne.
        assert (keys ⊆+ r) as Hsub'.
        { apply NoDup_submseteq; [done|]. by apply Forall_forall. }
        apply submseteq_length in Hsub, Hsub'. lia.
      + apply not_Forall_Exists in Hex; [|apply _].
        apply Exists_exists in Hex as (x & Hx & Hxr).
        eapply stuck_has_cycle with (m := m') (r := r) (x := x); try done.
        split_and!; try done. by rewrite app_nil_r.
    - assert (r ≡ₚ keys) as Hperm.
      { apply submseteq_length_Permutation; [done|lia]. }
      eexists. split; [done|]. split.
      + intros order [= <-]. split; [done|].
        intros a b Hab.
        assert (a ∈ r) as Ha by (rewrite Hperm; apply Hab).
        apply list_elem_of_split in Ha as (l1 & l2 & ->).
        exists l1, l2. split; [done|].
        eapply Hord; [done|]. by apply depends_within_deps_in.
      + split; [done|]. intros [x Hx]. exfalso.
        eapply ordered_acyclic with (r := r); try done.
        intros k Hk. by rewrite Hperm.
  Qed.

  (** C4 (as amended). For every reachable graph and every key set whose
      keys all have a node in the graph, [getTopologicalOrder] returns the
      full ordered sequence (every key of the subset exactly once, each
      after the dependencies it has in the subset) when the dependency
      edges of the subset are acyclic, and returns the null cycle signal
      if and only if the subset contains a dependency cycle confined to
      it. *)
Theorem getTopologicalOrder_known_keys (g : Graph) (keys : list string) :
    reachable g →
    NoDup keys →
    (∀ k, k ∈ keys → is_Some (g !! k)) →
    ∃ res, getTopologicalOrder g keys = Some res
      ∧ (∀ order, res = Some order →
           order ≡ₚ keys
           ∧ ∀ a b, depends_within g keys a b → listed_before order b a)
      ∧ ((¬ ∃ x, tc (depends_within g keys) x x) → ∃ order, res = Some order)
      ∧ (res = None ↔ ∃ x, tc (depends_within g keys) x x).
  Proof.
    intros Hreach Hkeys Hknown.
    destruct (getTopologicalOrder_spec g keys) as (res & Hres & Hord & Hcyc);
      auto using reachable_symmetric, reachable_sets_nodup.
    exists res. split_and!; try done.
    intros Hacyc. destruct res as [order|]; [by eexists|].
    exfalso. by apply Hacyc, Hcyc.
  Qed.

Example test_topological_order :
    getTopologicalOrder
      (updateCell "r0c2" ["r0c0"; "r0c1"] (updateCell "r0c0" ["r0c1"] ∅))
      ["r0c0"; "r0c1"; "r0c2"]
    = Some (Some ["r0c1"; "r0c0"; "r0c2"]).
  Proof. vm_compute. reflexivity. Qed.

Example test_topological_order_cycle :
    getTopologicalOrder
      (updateCell "r0c1" ["r0c0"] (updateCell "r0c0" ["r0c1"] ∅))
      ["r0c0"; "r0c1"]
    = Some None.
  Proof. vm_compute. reflexivity. Qed.

Example test_recalc_order :
    getRecalcOrder
      (updateCell "r0c3" ["r0c2"]
         (updateCell "r0c2" ["r0c0"] (updateCell "r0c0" ["r0c1"] ∅))) ["r0c1"]
    = Some ["r0c0"; "r0c2"; "r0c3"].
  Proof. vm_compute. reflexivity. Qed.

  (** A key without a node is skipped by both loops but still counted by
      [keys.size]: the cycle signal is returned without any cycle. *)
Lemma getTopologicalOrder_unknown_key :
    getTopologicalOrder ∅ ["r0c0"] = Some None.
  Proof. vm_compute. reflexivity. Qed.

  (** The theorem at the graph and key set of the repository test. *)
Lemma getTopologicalOrder_known_keys_example :
    let g := updateCell "r0c2" ["r0c0"; "r0c1"] (updateCell "r0c0" ["r0c1"] ∅) in
    let keys := ["r0c0"; "r0c1"; "r0c2"] in
    reachable g
    ∧ NoDup keys
    ∧ (∃ res, getTopologicalOrder g keys = Some res
         ∧ (∀ order, res = Some order →
              order ≡ₚ keys
              ∧ ∀ a b, depends_within g keys a b → listed_before order b a)
         ∧ ((¬ ∃ x, tc (depends_within g keys) x x) → ∃ order, res = Some order)
         ∧ (res = None ↔ ∃ x, tc (depends_within g keys) x x)).
  Proof.
    cbv zeta.
    assert (reachable (updateCell "r0c2" ["r0c0"; "r0c1"]
                         (updateCell "r0c0" ["r0c1"] ∅))) as Hreach
      by (do 2 apply reachable_updateCell; apply reachable_new).
    assert (NoDup ["r0c0"; "r0c1"; "r0c2"]) as Hnd
      by (apply (bool_decide_unpack _); vm_compute; exact I).
    split; [exact Hreach|]. split; [exact Hnd|].
    apply (getTopologicalOrder_known_keys _ _ Hreach Hnd).
    intros k Hk.
    repeat (apply elem_of_cons in Hk as [->|Hk];
            [eexists; vm_compute; reflexivity|]).
    by apply elem_of_nil in Hk.
  Defined.

End GraphTopological.

(** ** A1 notation: examples from the repository tests *)
Section A1Examples.
Import A1.

Example colToLetter_examples :
  colToLetter 0 = "A" ∧ colToLetter 25 = "Z" ∧ colToLetter 26 = "AA"
  ∧ colToLetter 701 = "ZZ" ∧ colToLetter 702 = "AAA".
Proof. vm_compute. auto. Qed.

Example letterToCol_examples :
  letterToCol "A" = 0%Z ∧ letterToCol "z" = 25%Z ∧ letterToCol "AA" = 26%Z.
Proof. vm_compute. auto. Qed.

Example a1ToAddress_examples :
  a1ToAddress "B12" = Some (mkAddr 1 11)
  ∧ a1ToAddress "A0" = None ∧ a1ToAddress "$A1" = None
  ∧ a1ToAddress "A1B" = None ∧ a1ToAddress "12" = None.
Proof. vm_compute. auto. Qed.

Example parseCellRef_examples :
  parseCellRef "$A$1" = Some (mkRef 0 0 true true)
  ∧ parseCellRef "A$1" = Some (mkRef 0 0 false true)
  ∧ parseCellRef "b7" = Some (mkRef 1 6 false false)
  ∧ parseCellRef "A$" = None.
Proof. vm_compute. auto. Qed.

Example cellRefToA1_examples :
  cellRefToA1 (mkRef 0 0 true true) = "$A$1"
  ∧ cellRefToA1 (adjustRefForFill (mkRef 1 1 false false) 3 0) = "B5"
  ∧ cellRefToA1 (adjustRefForFill (mkRef 0 0 false false) (-2) 0) = "A-1".
Proof. vm_compute. auto. Qed.

End A1Examples.

(** ** The example host, on the literals of the repository tests *)
Section DoubleExamples.

Example double_parse_print :
  Double.to_string (Double.parse_float "42") = "42"
  ∧ Double.to_string (Double.parse_float "-3") = "-3"
  ∧ Double.to_string (PrimFloat.mul (Double.parse_float "2.5") (Double.parse_float "4")) = "10"
  ∧ Double.isNaN (Double.parse_float "abc") = true
  ∧ Double.to_string (Double.pow (Double.parse_float "2") (Double.parse_float "3")) = "8".
Proof. vm_compute. auto. Qed.

End DoubleExamples.

(** ** The evaluator *)
Section EvaluatorProps.
Import Chars A1 Sheet Evaluator.
Context {num : Type} `{NT : Natives num}.
Implicit Types (g getCellValue : CellGetter (num := num)).
Local Open Scope list_scope.

Ltac unfold_M :=
  unfold mbind, M_bind, bind, mret, M_ret, ret, throw, diverge, addRef, getCell in *.

(** The loop inlined in the [FunctionCall] case is [collectNumericValues]. *)
Lemma evaluate_FunctionCall g name args refs :
  evaluate g (FunctionCall name args) refs
  = bind (evaluateFunction g name args) (λ n, ret (VNum n)) refs.
Proof.
  unfold evaluateFunction, collectNumericValues. cbn [evaluate]. unfold_M.
  generalize (@nil num). revert refs.
  induction args as [|arg args IH]; intros refs values.
  - cbn [collect_loop]. unfold_M.
    by destruct (apply_function name values refs) as [[?|?|] ?].
  - cbn [collect_loop]. unfold_M.
    destruct (evaluate g arg refs) as [[v|e|] refs1]; [|done|done].
    apply IH.
Qed.

(** *** The loops over a range

    As long as the indices stay below [2^53] every increment is exact, and
    the two loops visit the cells of the rectangle row by row. *)

(** The cells of a rectangle, row by row. *)
Definition range_cells (minRow maxRow minCol maxCol : Z) : list CellAddress :=
  r ← seqZ minRow (maxRow - minRow + 1);
  c ← seqZ minCol (maxCol - minCol + 1);
  [mkAddr c r].

(** The body of the loops, run on a list of cells. *)
Fixpoint range_loop (getCellValue : CellGetter) (cells : list CellAddress)
    (values : list (scalar (num := num))) : M (list (scalar (num := num))) :=
  match cells with
  | [] => ret values
  | addr :: cells =>
      let cellRef := addressToRef addr in
      bind (addRef cellRef) (λ _,
      bind (getCell getCellValue cellRef) (λ v,
      range_loop getCellValue cells
        (match v with Some x => (values ++ [x])%list | None => values end)))
  end.

Lemma bind_singleton {A B} (f : A → B) (l : list A) :
  l ≫= (λ x, [f x]) = f <$> l.
Proof. induction l as [|x l IH]; [done|]. by rewrite bind_cons, IH. Qed.

Lemma range_loop_app g (l1 l2 : list CellAddress) : ∀ values refs,
  range_loop g (l1 ++ l2) values refs
  = bind (range_loop g l1 values) (λ vs, range_loop g l2 vs) refs.
Proof.
  induction l1 as [|a l1 IH]; intros values refs; [done|].
  cbn [app range_loop]. unfold bind at 1 2 4 5. unfold addRef, getCell.
  destruct (g (addressToRef a)) as [v|e|]; [apply IH|done|done].
Qed.

Lemma range_cols_spec g (row maxCol : Z) (k : nat) : ∀ fuel col values refs,
  (k < fuel)%nat → (- 2 ^ 53 ≤ col)%Z → (col + Z.of_nat k = maxCol + 1)%Z →
  (maxCol < 2 ^ 53)%Z →
  range_cols fuel g row col maxCol values refs
  = range_loop g ((λ c, mkAddr c row) <$> seqZ col (Z.of_nat k)) values refs.
Proof.
  induction k as [|k IH]; intros fuel col values refs Hfuel Hlo Hk Hhi;
    (destruct fuel as [|fuel]; [lia|]); cbn [range_cols].
  - destruct (Z.leb_spec col maxCol); [lia|]. done.
  - destruct (Z.leb_spec col maxCol); [|lia].
    rewrite seqZ_cons by lia. cbn [fmap list_fmap range_loop]. unfold_M.
    destruct (g (addressToRef (mkAddr col row))) as [v|e|]; [|done|done].
    rewrite incr_exact by lia.
    replace (Z.pred (Z.of_nat (S k))) with (Z.of_nat k) by lia.
    replace (Z.succ col) with (col + 1)%Z by lia.
    apply IH; lia.
Qed.

Lemma range_rows_spec g (maxRow minCol maxCol : Z) (k : nat) :
  ∀ fuel row values refs,
  (k < fuel)%nat → (- 2 ^ 53 ≤ row)%Z → (row + Z.of_nat k = maxRow + 1)%Z →
  (maxRow < 2 ^ 53)%Z →
  (- 2 ^ 53 ≤ minCol ≤ maxCol + 1)%Z → (maxCol < 2 ^ 53)%Z →
  range_rows fuel g row maxRow minCol maxCol values refs
  = range_loop g (range_cells row maxRow minCol maxCol) values refs.
Proof.
  induction k as [|k IH]; intros fuel row values refs Hfuel Hlo Hk Hhi Hcol Hchi;
    (destruct fuel as [|fuel]; [lia|]); cbn [range_rows]; unfold range_cells.
  - destruct (Z.leb_spec row maxRow); [lia|].
    by replace (maxRow - row + 1)%Z with 0%Z by lia.
  - destruct (Z.leb_spec row maxRow); [|lia].
    rewrite (seqZ_cons row) by lia. rewrite bind_cons, bind_singleton.
    rewrite range_loop_app. unfold mbind, M_bind, bind.
    rewrite (range_cols_spec g row maxCol (Z.to_nat (maxCol - minCol + 1)));
      [|unfold JSNumber.loop_fuel; lia|lia|lia|lia].
    rewrite Z2Nat.id by lia.
    destruct (range_loop g _ values refs) as [[vs|e|] refs1]; [|done|done].
    rewrite incr_exact by lia.
    rewrite (IH fuel (row + 1)%Z) by lia. unfold range_cells.
    replace (Z.succ row) with (row + 1)%Z by lia.
    by replace (Z.pred (maxRow - row + 1)) with (maxRow - (row + 1) + 1)%Z by lia.
Qed.

(** Both corners of every range of the formula that parses lie below
    row and column [2^53]. *)
Definition corner_ok (a : CellAddress) : Prop :=
  (col a < 2 ^ 53)%Z ∧ (row a < 2 ^ 53)%Z.

Fixpoint ranges_bounded (node : ASTNode num) : Prop :=
  match node with
  | RangeRef start end_ =>
      ∀ startAddr endAddr,
        a1ToAddress (strip_dollars start) = Some startAddr →
        a1ToAddress (strip_dollars end_) = Some endAddr →
        corner_ok startAddr ∧ corner_ok endAddr
  | BinaryOp _ left_ right_ => ranges_bounded left_ ∧ ranges_bounded right_
  | FunctionCall _ args =>
      (fix all (l : list (ASTNode num)) : Prop :=
         match l with
         | [] => True
         | arg :: l => ranges_bounded arg ∧ all l
         end) args
  | _ => True
  end.

Lemma a1ToAddress_nonneg (a1 : string) (addr : CellAddress) :
  a1ToAddress a1 = Some addr → (0 ≤ col addr)%Z ∧ (0 ≤ row addr)%Z.
Proof.
  unfold a1ToAddress.
  destruct (span is_letter a1) as [letters rest].
  destruct (span is_digit rest) as [digits rest'].
  destruct (_ || _ || _); [done|].
  destruct (Z.ltb_spec (JSNumber.round (parseInt digits - 1)) 0); [done|].
  destruct (Z.ltb_spec (letterToCol letters) 0); [done|]. simpl.
  intros [= <-]. simpl. lia.
Qed.

(** Within these bounds, the [RangeRef] case runs its body on the cells
    of the rectangle. *)
Lemma evaluate_range_bounded g (start end_ : string) (startAddr endAddr : CellAddress)
    (refs : list string) :
  a1ToAddress (strip_dollars start) = Some startAddr →
  a1ToAddress (strip_dollars end_) = Some endAddr →
  corner_ok startAddr → corner_ok endAddr →
  evaluate_range g start end_ refs
  = bind (range_loop g
            (range_cells (Z.min (row startAddr) (row endAddr))
                         (Z.max (row startAddr) (row endAddr))
                         (Z.min (col startAddr) (col endAddr))
                         (Z.max (col startAddr) (col endAddr)))
            [])
         (λ values, ret (VArr values))
         (JSSet.add end_ (JSSet.add start refs)).
Proof.
  intros Hstart Hend [Hsc Hsr] [Hec Her].
  destruct (a1ToAddress_nonneg _ _ Hstart) as [? ?].
  destruct (a1ToAddress_nonneg _ _ Hend) as [? ?].
  unfold evaluate_range. unfold_M. rewrite Hstart, Hend.
  rewrite (range_rows_spec g _ _ _
             (Z.to_nat (Z.max (row startAddr) (row endAddr)
                        - Z.min (row startAddr) (row endAddr) + 1)));
    [done|unfold JSNumber.loop_fuel; lia|lia..].
Qed.

(** *** References only accumulate *)

Definition grows {A} (m : M A) : Prop :=
  ∀ refs x, x ∈ refs → x ∈ (m refs).2.

Lemma grows_ret {A} (a : A) : grows (ret a).
Proof. by intros refs x Hx. Qed.

Lemma grows_throw {A} e : grows (@throw A e).
Proof. by intros refs x Hx. Qed.

Lemma grows_diverge {A} : grows (@diverge A).
Proof. by intros refs x Hx. Qed.

Lemma grows_bind {A B} (m : M A) (k : A → M B) :
  grows m → (∀ a, grows (k a)) → grows (bind m k).
Proof.
  intros Hm Hk refs x Hx. unfold bind.
  specialize (Hm refs x Hx).
  destruct (m refs) as [[a|e|] refs1]; simpl in *; [by apply Hk|done|done].
Qed.

Lemma grows_addRef ref : grows (addRef ref).
Proof. intros refs x Hx. simpl. apply elem_of_add. by right. Qed.

Lemma grows_getCell (g : CellGetter (num := num)) ref : grows (getCell g ref).
Proof. by intros refs x Hx. Qed.

Lemma grows_toNumber v : grows (toNumber v).
Proof.
  destruct v; simpl; try apply grows_ret; try apply grows_throw.
  destruct (num_isNaN _); [apply grows_throw|apply grows_ret].
Qed.

Lemma grows_apply_operator op a b : grows (apply_operator op a b).
Proof.
  unfold apply_operator.
  repeat (destruct (_ =? _)%string; [try apply grows_ret|]);
    try apply grows_throw.
  destruct (num_is_zero b); [apply grows_throw|apply grows_ret].
Qed.

Lemma grows_apply_function name values : grows (apply_function name values).
Proof.
  unfold apply_function.
  repeat (destruct (_ =? _)%string; [apply grows_ret|]). apply grows_throw.
Qed.

Lemma grows_range_cols g row maxCol fuel : ∀ col values,
  grows (range_cols fuel g row col maxCol values).
Proof.
  induction fuel as [|fuel IH]; intros col values; cbn [range_cols].
  - apply grows_diverge.
  - destruct (col <=? maxCol)%Z; [|apply grows_ret].
    apply grows_bind; [apply grows_addRef|intros _].
    apply grows_bind; [apply grows_getCell|intros v]. apply IH.
Qed.

Lemma grows_range_rows g maxRow minCol maxCol fuel : ∀ row values,
  grows (range_rows fuel g row maxRow minCol maxCol values).
Proof.
  induction fuel as [|fuel IH]; intros row values; cbn [range_rows].
  - apply grows_diverge.
  - destruct (row <=? maxRow)%Z; [|apply grows_ret].
    apply grows_bind; [apply grows_range_cols|intros vs]. apply IH.
Qed.

Lemma grows_evaluate_range g start end_ : grows (evaluate_range g start end_).
Proof.
  unfold evaluate_range.
  apply grows_bind; [apply grows_addRef|intros _].
  apply grows_bind; [apply grows_addRef|intros _].
  destruct (a1ToAddress (strip_dollars start)),
    (a1ToAddress (strip_dollars end_)); try apply grows_throw.
  apply grows_bind; [apply grows_range_rows|intros; apply grows_ret].
Qed.

(** Induction over syntax trees, with the arguments of a call covered. *)
Lemma ASTNode_nested_ind (P : ASTNode num → Prop) :
  (∀ v, P (Number v)) →
  (∀ s, P (String_ s)) →
  (∀ ref, P (CellRef ref)) →
  (∀ start end_, P (RangeRef start end_)) →
  (∀ op l r, P l → P r → P (BinaryOp op l r)) →
  (∀ op e, P e → P (UnaryOp op e)) →
  (∀ name args, Forall P args → P (FunctionCall name args)) →
  ∀ node, P node.
Proof.
  intros HN HS HC HR HB HU HF.
  fix IH 1. intros [v|s|ref|start end_|op l r|op e|name args].
  - apply HN.
  - apply HS.
  - apply HC.
  - apply HR.
  - apply HB; apply IH.
  - apply HU; apply IH.
  - apply HF. induction args as [|a args IHargs]; constructor;
      [apply IH|exact IHargs].
Qed.

Lemma grows_collect_loop g args :
  Forall (λ node, grows (evaluate g node)) args →
  ∀ values, grows (collect_loop g args values).
Proof.
  induction 1 as [|arg args Harg _ IH]; intros values; cbn [collect_loop].
  - apply grows_ret.
  - apply grows_bind; [done|]. intros v. apply IH.
Qed.

Lemma grows_evaluate g node : grows (evaluate g node).
Proof.
  induction node as [v|s|ref|start end_|op l r IHl IHr|op e _|name args IH]
    using ASTNode_nested_ind.
  - apply grows_ret.
  - apply grows_ret.
  - cbn [evaluate].
    apply grows_bind; [apply grows_addRef|intros _].
    apply grows_bind; [apply grows_getCell|intros [x|]]; apply grows_ret.
  - apply grows_evaluate_range.
  - cbn [evaluate].
    apply grows_bind; [done|intros vl].
    apply grows_bind; [done|intros vr].
    apply grows_bind; [apply grows_toNumber|intros a].
    apply grows_bind; [apply grows_toNumber|intros b].
    apply grows_bind; [apply grows_apply_operator|intros n]. apply grows_ret.
  - apply grows_throw.
  - intros refs x Hx. rewrite evaluate_FunctionCall. revert refs x Hx.
    apply grows_bind; [|intros; apply grows_ret].
    apply grows_bind; [|intros; apply grows_apply_function].
    by apply grows_collect_loop.
Qed.

(** *** The evaluation ends *)

(** [m] returns or throws. *)
Definition ends {A} (m : M A) : Prop := ∀ refs, (m refs).1 ≠ Diverge.

Lemma ends_ret {A} (a : A) : ends (ret a).
Proof. by intros refs. Qed.

Lemma ends_throw {A} e : ends (@throw A e).
Proof. by intros refs. Qed.

Lemma ends_bind {A B} (m : M A) (k : A → M B) :
  ends m → (∀ a, ends (k a)) → ends (bind m k).
Proof.
  intros Hm Hk refs. unfold bind. specialize (Hm refs).
  destruct (m refs) as [[a|e|] refs1]; simpl in *; [apply Hk|done|done].
Qed.

Lemma ends_addRef ref : ends (addRef ref).
Proof. by intros refs. Qed.

Lemma ends_getCell g ref : g ref ≠ Diverge → ends (getCell g ref).
Proof. by intros Hg refs. Qed.

Lemma ends_toNumber v : ends (toNumber v).
Proof.
  destruct v; simpl; try apply ends_ret; try apply ends_throw.
  destruct (num_isNaN _); [apply ends_throw|apply ends_ret].
Qed.

Lemma ends_apply_operator op a b : ends (apply_operator op a b).
Proof.
  unfold apply_operator.
  repeat (destruct (_ =? _)%string; [try apply ends_ret|]);
    try apply ends_throw.
  destruct (num_is_zero b); [apply ends_throw|apply ends_ret].
Qed.

Lemma ends_apply_function name values : ends (apply_function name values).
Proof.
  unfold apply_function.
  repeat (destruct (_ =? _)%string; [apply ends_ret|]). apply ends_throw.
Qed.

Lemma ends_range_loop g cells :
  (∀ ref, g ref ≠ Diverge) → ∀ values, ends (range_loop g cells values).
Proof.
  intros Hg. induction cells as [|addr cells IH]; intros values; cbn [range_loop].
  - apply ends_ret.
  - apply ends_bind; [apply ends_addRef|intros _].
    apply ends_bind; [by apply ends_getCell|intros v]. apply IH.
Qed.

Lemma ends_collect_loop g args :
  Forall (λ node, ends (evaluate g node)) args →
  ∀ values, ends (collect_loop g args values).
Proof.
  induction 1 as [|arg args Harg _ IH]; intros values; cbn [collect_loop].
  - apply ends_ret.
  - apply ends_bind; [done|]. intros v. apply IH.
Qed.

Lemma ends_evaluate g node :
  (∀ ref, g ref ≠ Diverge) → ranges_bounded node → ends (evaluate g node).
Proof.
  intros Hg.
  induction node as [v|s|ref|start end_|op l r IHl IHr|op e _|name args IH]
    using ASTNode_nested_ind; intros Hb.
  - apply ends_ret.
  - apply ends_ret.
  - cbn [evaluate].
    apply ends_bind; [apply ends_addRef|intros _].
    apply ends_bind; [by apply ends_getCell|intros [x|]]; apply ends_ret.
  - intros refs. cbn [evaluate].
    destruct (a1ToAddress (strip_dollars start)) as [startAddr|] eqn:Hstart.
    2: { unfold evaluate_range. unfold_M. by rewrite Hstart. }
    destruct (a1ToAddress (strip_dollars end_)) as [endAddr|] eqn:Hend.
    2: { unfold evaluate_range. unfold_M. by rewrite Hstart, Hend. }
    destruct (Hb _ _ Hstart Hend) as [Hs He].
    rewrite (evaluate_range_bounded g start end_ startAddr endAddr) by done.
    apply (ends_bind (range_loop g _ []) (λ values, ret (VArr values)));
      [by apply ends_range_loop|intros; apply ends_ret].
  - destruct Hb as [Hl Hr]. cbn [evaluate].
    apply ends_bind; [by apply IHl|intros vl].
    apply ends_bind; [by apply IHr|intros vr].
    apply ends_bind; [apply ends_toNumber|intros a].
    apply ends_bind; [apply ends_toNumber|intros b].
    apply ends_bind; [apply ends_apply_operator|intros n]. apply ends_ret.
  - apply ends_throw.
  - intros refs. rewrite evaluate_FunctionCall. revert refs.
    apply ends_bind; [|intros; apply ends_ret].
    apply ends_bind; [|intros; apply ends_apply_function].
    apply ends_collect_loop. cbn [ranges_bounded] in Hb.
    induction IH as [|arg args Harg _ IHargs]; [constructor|].
    destruct Hb as [Ha Hargs]. constructor; [by apply Harg|by apply IHargs].
Qed.

(** *** Where a failure leaves the walk *)

(** The arguments of a call evaluated one after the other. *)
Fixpoint evaluate_all (g : CellGetter) (args : list (ASTNode num)) : M (list jsval) :=
  match args with
  | [] => ret []
  | arg :: args =>
      bind (evaluate g arg) (λ v,
      bind (evaluate_all g args) (λ vs, ret (v :: vs)))
  end.

(** The scalars an evaluated argument contributes to a function call. *)
Definition scalars_of (v : jsval (num := num)) : list scalar :=
  match v with
  | VNum n => [SNum n]
  | VStr s => [SStr s]
  | VArr l => l
  end.

(** The walk of [node], started with [refs] recorded, comes to evaluate
    [sub] with [refs'] recorded: [sub] is [node] itself, or it is reached
    inside an operand or an argument, once the operands and the arguments
    before it have returned. *)
Inductive reaches (g : CellGetter)
    : ASTNode num → list string → ASTNode num → list string → Prop :=
| reaches_here node refs : reaches g node refs node refs
| reaches_left op l r refs sub refs' :
    reaches g l refs sub refs' → reaches g (BinaryOp op l r) refs sub refs'
| reaches_right op l r refs v refs1 sub refs' :
    evaluate g l refs = (Ret v, refs1) →
    reaches g r refs1 sub refs' →
    reaches g (BinaryOp op l r) refs sub refs'
| reaches_arg name before arg after refs vs refs1 sub refs' :
    evaluate_all g before refs = (Ret vs, refs1) →
    reaches g arg refs1 sub refs' →
    reaches g (FunctionCall name (before ++ arg :: after)) refs sub refs'.

Lemma push_numeric_scalars v values :
  push_numeric v values = values ++ omap tryToNumber (scalars_of v).
Proof.
  destruct v as [n|s|l]; simpl; [done| |done].
  destruct (num_isNaN (parseFloat s)); simpl; [by rewrite app_nil_r|done].
Qed.

Lemma collect_loop_app g before : ∀ rest values refs vs refs1,
  evaluate_all g before refs = (Ret vs, refs1) →
  collect_loop g (before ++ rest) values refs
  = collect_loop g rest (values ++ omap tryToNumber (vs ≫= scalars_of)) refs1.
Proof.
  induction before as [|arg before IH]; intros rest values refs vs refs1 Hall;
    cbn [evaluate_all app collect_loop] in *; unfold_M.
  - simplify_eq. simpl. by rewrite app_nil_r.
  - destruct (evaluate g arg refs) as [[v|e|] refs0]; [|done|done].
    destruct (evaluate_all g before refs0) as [[vs'|e|] refs2] eqn:Hrest;
      [|done|done].
    simplify_eq. rewrite (IH _ _ _ _ _ Hrest), push_numeric_scalars.
    by rewrite bind_cons, omap_app, app_assoc.
Qed.

Lemma collect_loop_all g args : ∀ values refs vs refs',
  evaluate_all g args refs = (Ret vs, refs') →
  collect_loop g args values refs
  = (Ret (values ++ omap tryToNumber (vs ≫= scalars_of)), refs').
Proof.
  intros values refs vs refs' Hall.
  pose proof (collect_loop_app g args [] values refs vs refs' Hall) as Happ.
  by rewrite app_nil_r in Happ.
Qed.

(** What is thrown where the walk has come to is thrown by the whole
    walk, with the references recorded by then. *)
Lemma throw_propagates g node refs sub refs_sub :
  reaches g node refs sub refs_sub →
  ∀ e refs', evaluate g sub refs_sub = (Throw e, refs') →
             evaluate g node refs = (Throw e, refs').
Proof.
  induction 1 as [node refs|op l r refs sub refs0 _ IH
                  |op l r refs v refs1 sub refs0 Hl _ IH
                  |name before arg after refs vs refs1 sub refs0 Hall _ IH];
    intros e refs' Hsub.
  - done.
  - cbn [evaluate]. unfold_M. by rewrite (IH _ _ Hsub).
  - cbn [evaluate]. unfold_M. by rewrite Hl, (IH _ _ Hsub).
  - rewrite evaluate_FunctionCall. unfold evaluateFunction, collectNumericValues.
    unfold_M. rewrite (collect_loop_app g before _ _ _ _ _ Hall).
    cbn [collect_loop]. unfold_M. by rewrite (IH _ _ Hsub).
Qed.

Lemma reaches_grows g node refs sub refs_sub :
  reaches g node refs sub refs_sub → ∀ x, x ∈ refs → x ∈ refs_sub.
Proof.
  induction 1 as [node refs|op l r refs sub refs0 _ IH
                  |op l r refs v refs1 sub refs0 Hl _ IH
                  |name before arg after refs vs refs1 sub refs0 Hall _ IH];
    intros x Hx; [done|by apply IH| |].
  - apply IH. pose proof (grows_evaluate g l refs x Hx) as Hg.
    by rewrite Hl in Hg.
  - apply IH. clear IH. revert refs vs refs1 Hall Hx.
    induction before as [|b before IHb]; intros refs vs refs1 Hall Hx;
      cbn [evaluate_all] in Hall; unfold_M; [by simplify_eq|].
    pose proof (grows_evaluate g b refs x Hx) as Hg.
    destruct (evaluate g b refs) as [[v|e|] refs2]; [|done|done].
    destruct (evaluate_all g before refs2) as [[vs'|e|] refs3] eqn:Hrest;
      [|done|done].
    simplify_eq. by eapply IHb.
Qed.

(** With bounded ranges and a lookup that ends, [evaluateFormula]
    returns. *)
Lemma evaluateFormula_returns (ast : ASTNode num) (g : CellGetter) :
  (∀ ref, g ref ≠ Diverge) → ranges_bounded ast →
  ∃ r, evaluateFormula ast g = Some r.
Proof.
  intros Hg Hb. pose proof (ends_evaluate g ast Hg Hb []) as Hends.
  unfold evaluateFormula, JSSet.empty in *.
  destruct (evaluate g ast []) as [[[n|t|vs]|[message|]|] refs];
    simpl in Hends; [eauto..|done].
Qed.

(** The message [evaluateFormula] reports for what it caught. *)
Definition reported (e : thrown) : string :=
  match e with
  | EvalError message => message
  | OtherError => "#ERROR!"
  end.

(** C8 (as amended). For every syntax tree whose ranges have their corners
    below row and column [2^53], and every lookup that returns or throws,
    [evaluateFormula] returns a result record: whatever is thrown during
    the walk, by the evaluator or by the lookup, is caught.  In the
    record exactly one of value, text and error is the outcome, a numeric
    value carrying its decimal text as well; which one is decided by the
    formula: a number or a text literal gives itself, an operation or a
    function call gives a value or an error and never a text alone, a
    bare range gives an error.  The used references are those accumulated
    up to the return or the failure: when the walk fails at some
    sub-formula, wherever it stands, the record carries the message of
    what was thrown there and exactly the references recorded by then,
    those recorded before that sub-formula included. *)
Theorem evaluateFormula_total (ast : ASTNode num) (getCellValue : CellGetter) :
  (∀ ref, getCellValue ref ≠ Diverge) →
  ranges_bounded ast →
  ∃ r, evaluateFormula ast getCellValue = Some r
    ∧ ((∃ n, value r = Some n ∧ text r = Some (num_toString n) ∧ error r = None)
       ∨ (∃ s, value r = None ∧ text r = Some s ∧ error r = None)
       ∨ (∃ e, value r = None ∧ text r = None ∧ error r = Some e))
    ∧ (∀ v, ast = Number v →
         r = {| value := Some v; text := Some (num_toString v); error := None;
                usedRefs := [] |})
    ∧ (∀ s, ast = String_ s →
         r = {| value := None; text := Some s; error := None; usedRefs := [] |})
    ∧ (∀ op left_ right_, ast = BinaryOp op left_ right_ →
         is_Some (value r) ∨ is_Some (error r))
    ∧ (∀ name args, ast = FunctionCall name args →
         is_Some (value r) ∨ is_Some (error r))
    ∧ (∀ start end_, ast = RangeRef start end_ →
         is_Some (error r) ∧ start ∈ usedRefs r ∧ end_ ∈ usedRefs r)
    ∧ (∀ sub refs e refs',
         reaches getCellValue ast [] sub refs →
         evaluate getCellValue sub refs = (Throw e, refs') →
         error r = Some (reported e) ∧ usedRefs r = refs'
         ∧ ∀ x, x ∈ refs → x ∈ usedRefs r).
Proof.
  intros Hg Hb. pose proof (ends_evaluate getCellValue ast Hg Hb []) as Hends.
  assert (∀ node refs out refs', evaluate getCellValue node refs = (out, refs') →
            (∀ op l r, node = BinaryOp op l r →
                       (∃ n, out = Ret (VNum n)) ∨ (∃ e, out = Throw e) ∨ out = Diverge)
            ∧ (∀ name args, node = FunctionCall name args →
                       (∃ n, out = Ret (VNum n)) ∨ (∃ e, out = Throw e) ∨ out = Diverge))
    as Hkind.
  { intros node refs out refs' Heval. split.
    - intros op l r ->. cbn [evaluate] in Heval. unfold_M.
      destruct (evaluate getCellValue l refs) as [[vl|?|] refs1];
        [|simplify_eq; eauto..].
      destruct (evaluate getCellValue r refs1) as [[vr|?|] refs2];
        [|simplify_eq; eauto..].
      destruct (toNumber vl refs2) as [[a|?|] refs3]; [|simplify_eq; eauto..].
      destruct (toNumber vr refs3) as [[b|?|] refs4]; [|simplify_eq; eauto..].
      destruct (apply_operator op a b refs4) as [[n|?|] refs5]; simplify_eq; eauto.
    - intros name args ->. rewrite evaluate_FunctionCall in Heval.
      unfold evaluateFunction in Heval. unfold_M.
      destruct (collectNumericValues getCellValue args refs) as [[values|?|] refs1];
        [|simplify_eq; eauto..].
      destruct (apply_function name values refs1) as [[n|?|] refs2];
        simplify_eq; eauto. }
  unfold evaluateFormula, JSSet.empty in *.
  destruct (evaluate getCellValue ast []) as [out refs0] eqn:Heval.
  simpl in Hends.
  destruct (Hkind _ _ _ _ Heval) as [Hbin Hfun].
  assert (∀ sub refs e refs',
            reaches getCellValue ast [] sub refs →
            evaluate getCellValue sub refs = (Throw e, refs') →
            out = Throw e ∧ refs0 = refs' ∧ ∀ x, x ∈ refs → x ∈ refs0) as Hfail.
  { intros sub refs e refs' Hreach Hsub.
    pose proof (throw_propagates _ _ _ _ _ Hreach _ _ Hsub) as Hwhole.
    rewrite Heval in Hwhole. simplify_eq.
    split_and!; [done..|]. intros x Hx.
    pose proof (grows_evaluate getCellValue sub refs x Hx) as Hgrow.
    by rewrite Hsub in Hgrow. }
  assert (∀ start end_, ast = RangeRef start end_ →
            start ∈ refs0 ∧ end_ ∈ refs0 ∧ ∀ v, out = Ret v → ∃ l, v = VArr l)
    as Hrange.
  { intros start end_ ->. cbn [evaluate] in Heval. unfold evaluate_range in Heval.
    unfold_M.
    assert (start ∈ JSSet.add end_ (JSSet.add start [])
            ∧ end_ ∈ JSSet.add end_ (JSSet.add start [])) as [Hs He].
    { rewrite !elem_of_add. auto. }
    destruct (a1ToAddress (strip_dollars start)),
      (a1ToAddress (strip_dollars end_)); try (by simplify_eq).
    match type of Heval with
    | context [range_rows ?f ?g ?a ?b ?c ?d ?vs ?r] =>
        pose proof (grows_range_rows g b c d f a vs r) as Hgrow;
        destruct (range_rows f g a b c d vs r) as [[?|?|] ?]
    end; simplify_eq; simpl in Hgrow;
      (split_and!; [by apply Hgrow|by apply Hgrow|]); intros v Hv;
      simplify_eq; eauto. }
  destruct out as [[n|s|l]|[msg|]|]; [..|done]; eexists; (split; [done|]);
    cbn [value text error usedRefs].
  all: split; [eauto 10|].
  all: split; [intros v ->; cbn [evaluate] in Heval; unfold_M; by simplify_eq|].
  all: split; [intros s' ->; cbn [evaluate] in Heval; unfold_M; by simplify_eq|].
  all: split;
    [intros op l' r' Hast; destruct (Hbin _ _ _ Hast) as [[? ?]|[[? ?]|?]];
       simplify_eq; eauto|].
  all: split;
    [intros name args Hast; destruct (Hfun _ _ Hast) as [[? ?]|[[? ?]|?]];
       simplify_eq; eauto|].
  all: split;
    [intros start end_ Hast; destruct (Hrange _ _ Hast) as (? & ? & Harr);
       split_and!; try done;
       try (by destruct (Harr _ eq_refl)); eauto|].
  all: intros sub refs e refs' Hreach Hsub;
    destruct (Hfail _ _ _ _ Hreach Hsub) as (? & ? & ?); by simplify_eq.
Qed.

(** *** Empty cells *)

(** C1 (as amended). For every cell-reference node evaluated against a
    lookup that reports the cell absent, the evaluator treats the absent
    value as numeric zero, both when the reference is an operand of an
    arithmetic operation and when it is the whole formula: a bare
    reference to an empty cell evaluates to the number 0, with text
    rendering of 0, and records the reference. *)
Theorem empty_cell_is_zero (getCellValue : CellGetter) (ref : string) :
  getCellValue ref = Ret None →
  evaluateFormula (CellRef ref) getCellValue
  = Some {| value := Some num_zero; text := Some (num_toString num_zero);
            error := None; usedRefs := [ref] |}
  ∧ (∀ op e refs,
       evaluate getCellValue (BinaryOp op (CellRef ref) e) refs
       = evaluate getCellValue (BinaryOp op (Number num_zero) e) (JSSet.add ref refs))
  ∧ (∀ op e refs,
       (evaluate getCellValue (BinaryOp op e (CellRef ref)) refs).1
       = (evaluate getCellValue (BinaryOp op e (Number num_zero)) refs).1).
Proof.
  intros Habsent. split_and!.
  - unfold evaluateFormula. cbn [evaluate]. unfold_M. by rewrite Habsent.
  - intros op e refs. cbn [evaluate]. unfold_M. by rewrite Habsent.
  - intros op e refs. cbn [evaluate]. unfold_M.
    destruct (evaluate getCellValue e refs) as [[v|err|] refs1]; [|done|done].
    rewrite Habsent. cbn [toNumber]. unfold_M.
    destruct (toNumber v refs1) as [[a|err|] refs2] eqn:Ha.
    + assert (refs2 = refs1) as ->.
      { destruct v; simpl in Ha; unfold_M; try destruct (num_isNaN _);
          by simplify_eq. }
      assert (toNumber v (JSSet.add ref refs1) = (Ret a, JSSet.add ref refs1)) as ->.
      { destruct v; simpl in *; unfold_M; try destruct (num_isNaN _);
          by simplify_eq. }
      destruct op as [|c op]; [done|].
      unfold apply_operator.
      repeat (destruct (_ =? _)%string; [try done|]); try done.
      unfold_M. by destruct (num_is_zero num_zero).
    + assert (toNumber v (JSSet.add ref refs1) = (Throw err, JSSet.add ref refs1)) as ->.
      { destruct v; simpl in *; unfold_M; try destruct (num_isNaN _);
          by simplify_eq. }
      done.
    + destruct v; simpl in Ha; unfold_M; try destruct (num_isNaN _); done.
Qed.

(** *** Numeric coercion *)

(** The values that [toNumber] rejects. *)
Definition coercion_fails (v : jsval (num := num)) : Prop :=
  match v with
  | VNum _ => False
  | VStr s => num_isNaN (parseFloat s) = true
  | VArr _ => True
  end.

Lemma toNumber_fails v refs :
  coercion_fails v → toNumber v refs = (Throw (EvalError "#VALUE!"), refs).
Proof. destruct v; simpl; [done| |done]. by intros ->. Qed.

Lemma toNumber_refs v refs : (toNumber v refs).2 = refs.
Proof. destruct v; simpl; unfold_M; [done| |done]. by destruct (num_isNaN _). Qed.

Lemma tryToNumber_None x :
  tryToNumber x = None ↔ coercion_fails (value_of_scalar x).
Proof.
  destruct x as [n|s]; simpl; [done|].
  destruct (num_isNaN (parseFloat s)); split; done.
Qed.

(** [tryToNumber] is the coercion of [toNumber], with [null] for the
    error. *)
Lemma tryToNumber_toNumber x refs :
  toNumber (value_of_scalar x) refs
  = match tryToNumber x with
    | Some n => (Ret n, refs)
    | None => (Throw (EvalError "#VALUE!"), refs)
    end.
Proof.
  destruct x as [n|s]; simpl; [done|]. unfold_M.
  by destruct (num_isNaN (parseFloat s)).
Qed.

Lemma apply_function_aggregate name values refs :
  name ∈ ["SUM"; "AVG"; "AVERAGE"; "MIN"; "MAX"; "COUNT"] →
  ∃ n, apply_function name values refs = (Ret n, refs).
Proof.
  intros Hname.
  repeat (apply elem_of_cons in Hname as [->|Hname]; [by eexists|]).
  by apply elem_of_nil in Hname.
Qed.

Lemma binary_coercion_fails g op l r refs vl vr refs1 refs2 :
  evaluate g l refs = (Ret vl, refs1) →
  evaluate g r refs1 = (Ret vr, refs2) →
  coercion_fails vl ∨ coercion_fails vr →
  evaluate g (BinaryOp op l r) refs = (Throw (EvalError "#VALUE!"), refs2).
Proof.
  intros Hl Hr Hfail. cbn [evaluate]. unfold_M. rewrite Hl, Hr.
  destruct vl as [a|s|values]; cbn [toNumber]; unfold_M.
  - destruct Hfail as [[]|Hvr]. by rewrite (toNumber_fails vr refs2 Hvr).
  - destruct (num_isNaN (parseFloat s)) eqn:Hnan; [done|].
    destruct Hfail as [Hvl|Hvr]; [simpl in Hvl; congruence|].
    by rewrite (toNumber_fails vr refs2 Hvr).
  - done.
Qed.

(** C9. Numeric coercion failure depends on the context.  When an operand
    of a binary operation evaluates to a value that does not coerce to a
    number (a text with no numeric parse, or the array of a range), the
    operation throws [#VALUE!] and the evaluation of the whole formula
    aborts with that error, wherever in the formula the operation stands
    (also among the arguments of a function).  When the arguments of a
    function call are flattened, the numeric list is made of the values
    that pass the same coercion, in order: a value that fails it is left
    out and evaluation goes on, so that [COUNT] returns the number of the
    values that coerce, [SUM] their sum, and the call returns what the
    function makes of that list. *)
Theorem coercion_failure_by_context (getCellValue : CellGetter) :
  (∀ ast op l r refs vl vr refs1 refs2,
     reaches getCellValue ast [] (BinaryOp op l r) refs →
     evaluate getCellValue l refs = (Ret vl, refs1) →
     evaluate getCellValue r refs1 = (Ret vr, refs2) →
     coercion_fails vl ∨ coercion_fails vr →
     evaluate getCellValue (BinaryOp op l r) refs
     = (Throw (EvalError "#VALUE!"), refs2)
     ∧ evaluateFormula ast getCellValue
       = Some {| value := None; text := None; error := Some "#VALUE!";
                 usedRefs := refs2 |})
  ∧ (∀ x refs,
       toNumber (value_of_scalar x) refs
       = match tryToNumber x with
         | Some n => (Ret n, refs)
         | None => (Throw (EvalError "#VALUE!"), refs)
         end)
  ∧ (∀ name args refs vs refs',
       evaluate_all getCellValue args refs = (Ret vs, refs') →
       let numbers := omap tryToNumber (vs ≫= scalars_of) in
       (∀ n, n ∈ numbers
             ↔ ∃ x, x ∈ vs ≫= scalars_of
                    ∧ ¬ coercion_fails (value_of_scalar x)
                    ∧ tryToNumber x = Some n)
       ∧ evaluate getCellValue (FunctionCall name args) refs
         = bind (apply_function name numbers) (λ n, ret (VNum n)) refs'
       ∧ evaluate getCellValue (FunctionCall "COUNT" args) refs
         = (Ret (VNum (num_of_nat (length numbers))), refs')
       ∧ evaluate getCellValue (FunctionCall "SUM" args) refs
         = (Ret (VNum (foldl num_add num_zero numbers)), refs')
       ∧ (name ∈ ["SUM"; "AVG"; "AVERAGE"; "MIN"; "MAX"; "COUNT"] →
          ∃ n, evaluate getCellValue (FunctionCall name args) refs
               = (Ret (VNum n), refs'))).
Proof.
  split_and!.
  - intros ast op l r refs vl vr refs1 refs2 Hreach Hl Hr Hfail.
    pose proof (binary_coercion_fails _ op _ _ _ _ _ _ _ Hl Hr Hfail) as Hthrow.
    split; [done|]. unfold evaluateFormula, JSSet.empty.
    by rewrite (throw_propagates _ _ _ _ _ Hreach _ _ Hthrow).
  - apply tryToNumber_toNumber.
  - intros name args refs vs refs' Hall. cbv zeta.
    pose proof (collect_loop_all getCellValue args [] refs vs refs' Hall) as Hc.
    rewrite app_nil_l in Hc.
    assert (∀ name', evaluate getCellValue (FunctionCall name' args) refs
                     = bind (apply_function name'
                               (omap tryToNumber (vs ≫= scalars_of)))
                            (λ n, ret (VNum n)) refs') as Hcall.
    { intros name'. rewrite evaluate_FunctionCall.
      unfold evaluateFunction, collectNumericValues.
      unfold mbind, M_bind. unfold bind at 1 2. by rewrite Hc. }
    split_and!.
    + intros n. rewrite list_elem_of_omap. split.
      * intros (x & Hx & Hn). exists x. split_and!; [done| |done].
        intros Hf. apply tryToNumber_None in Hf. congruence.
      * intros (x & Hx & _ & Hn). eauto.
    + apply Hcall.
    + by rewrite Hcall.
    + by rewrite Hcall.
    + intros Hname. rewrite Hcall. unfold bind.
      destruct (apply_function_aggregate name
                  (omap tryToNumber (vs ≫= scalars_of)) refs' Hname) as [n ->].
      by exists n.
Qed.

End EvaluatorProps.

(** ** The evaluator on concrete sheets *)
Section EvaluatorExamples.
Import Chars A1 Sheet Evaluator Parser.
Local Open Scope list_scope.
#[local] Existing Instance Double.natives.

(** A lookup given by the cells that hold something, as in the
    repository's tests ([if (ref === 'A1') return 10; ... return undefined]). *)
Definition sheet_of (cells : list (string * scalar (num := float)))
    : CellGetter (num := float) :=
  λ ref, Ret (snd <$> List.find (λ p, String.eqb (fst p) ref) cells).

Definition num_lit (z : Z) : float := Double.of_Z z.

(** A formula that is just a reference to an empty cell produces the
    number 0. *)
Lemma bare_empty_reference_yields_zero :
  evaluateFormula (CellRef "A1") (sheet_of [])
  = Some {| value := Some (num_lit 0); text := Some "0"; error := None;
            usedRefs := ["A1"] |}.
Proof. vm_compute. reflexivity. Qed.

Lemma empty_cell_is_zero_example :
  sheet_of [] "A1" = Ret None
  ∧ evaluateFormula (CellRef "A1") (sheet_of [])
    = Some {| value := Some num_zero; text := Some (num_toString num_zero);
              error := None; usedRefs := ["A1"] |}.
Proof.
  split; [reflexivity|].
  exact (proj1 (empty_cell_is_zero (sheet_of []) "A1" eq_refl)).
Defined.

(** Row [9007199254740994] is index [2^53] once the numeral is read and 1
    subtracted; there [row++] leaves [row] as it is, and the loop over
    the rows of the range never ends: [evaluateFormula] does not return,
    on a formula that the parser accepts. *)
Lemma range_at_row_2_pow_53_never_ends :
  parseFormula "=SUM(A9007199254740994:A9007199254740994)"
  = Some (inr (FunctionCall "SUM"
                 [RangeRef "A9007199254740994" "A9007199254740994"]))
  ∧ a1ToAddress "A9007199254740994" = Some (mkAddr 0 (2 ^ 53))
  ∧ JSNumber.incr (2 ^ 53) = (2 ^ 53)%Z
  ∧ (∀ fuel values refs,
       (range_rows fuel (sheet_of []) (2 ^ 53) (2 ^ 53) 0 0 values refs).1
       = Diverge)
  ∧ evaluateFormula (RangeRef "A9007199254740994" "A9007199254740994") (sheet_of [])
    = None
  ∧ evaluateFormula
      (FunctionCall "SUM" [RangeRef "A9007199254740994" "A9007199254740994"])
      (sheet_of [])
    = None.
Proof.
  split_and!; [vm_compute; reflexivity..| |vm_compute; reflexivity
               |vm_compute; reflexivity].
  induction fuel as [|fuel IH]; intros values refs; [reflexivity|].
  cbn [range_rows]. change (2 ^ 53 <=? 2 ^ 53)%Z with true. cbv iota.
  change (JSNumber.incr (2 ^ 53)) with (2 ^ 53)%Z.
  unfold mbind, M_bind, bind.
  assert (∀ vs rs, ∃ rs',
            range_cols (JSNumber.loop_fuel 0 0) (sheet_of []) (2 ^ 53) 0 0 vs rs
            = (Ret vs, rs')) as Hcols.
  { intros vs rs. exists (JSSet.add (addressToRef (mkAddr 0 (2 ^ 53))) rs).
    change (JSNumber.loop_fuel 0 0) with 2%nat. cbn [range_cols].
    change (0 <=? 0)%Z with true. change (JSNumber.incr 0) with 1%Z.
    change (1 <=? 0)%Z with false. reflexivity. }
  destruct (Hcols values refs) as [refs' ->]. apply IH.
Qed.

(** The walk fails in the last argument of the call, after the left
    operand and the range before it were evaluated. *)
Lemma evaluateFormula_total_example :
  let g := sheet_of [("A1", SNum (num_lit 1)); ("B2", SStr "x")] in
  let ast :=
    BinaryOp "+" (CellRef "A1")
      (FunctionCall "SUM"
         [RangeRef "B1" "B2"; BinaryOp "/" (CellRef "C1") (Number (num_lit 0))]) in
  ∃ r, evaluateFormula ast g = Some r
       ∧ error r = Some "#DIV/0!"
       ∧ usedRefs r = ["A1"; "B1"; "B2"; "C1"]
       ∧ value r = None ∧ text r = None.
Proof.
  cbv zeta.
  destruct (evaluateFormula_total
              (BinaryOp "+" (CellRef "A1")
                 (FunctionCall "SUM"
                    [RangeRef "B1" "B2";
                     BinaryOp "/" (CellRef "C1") (Number (num_lit 0))]))
              (sheet_of [("A1", SNum (num_lit 1)); ("B2", SStr "x")]))
    as (r & Hr & Hone & _ & _ & _ & _ & _ & Hfail).
  - intros ref. unfold sheet_of. discriminate.
  - cbn [ranges_bounded]. split_and!; try exact I.
    intros startAddr endAddr Hs He. vm_compute in Hs, He.
    injection Hs as <-. injection He as <-. by vm_compute.
  - exists r. split; [exact Hr|].
    destruct (Hfail (BinaryOp "/" (CellRef "C1") (Number (num_lit 0)))
                ["A1"; "B1"; "B2"] (EvalError "#DIV/0!") ["A1"; "B1"; "B2"; "C1"])
      as (Herr & Hrefs & _).
    + eapply reaches_right; [vm_compute; reflexivity|].
      eapply (reaches_arg _ "SUM" [RangeRef "B1" "B2"]);
        [vm_compute; reflexivity|]. apply reaches_here.
    + vm_compute. reflexivity.
    + split_and!; [exact Herr|exact Hrefs|..];
        destruct Hone as [(n & _ & _ & He)|[(s & _ & _ & He)|(e & Hv & Ht & _)]];
        try (rewrite Herr in He; discriminate He); assumption.
Defined.

Lemma coercion_failure_by_context_example :
  let g := sheet_of [("A1", SStr "abc")] in
  evaluateFormula
    (FunctionCall "SUM"
       [Number (num_lit 1); BinaryOp "+" (CellRef "A1") (Number (num_lit 2))]) g
  = Some {| value := None; text := None; error := Some "#VALUE!";
            usedRefs := ["A1"] |}
  ∧ evaluate g (FunctionCall "COUNT"
                  [Number (num_lit 1); CellRef "A1"; Number (num_lit 2)]) []
    = (Ret (VNum (num_lit 2)), ["A1"])
  ∧ evaluate g (FunctionCall "SUM"
                  [Number (num_lit 1); CellRef "A1"; Number (num_lit 2)]) []
    = (Ret (VNum (num_lit 3)), ["A1"]).
Proof.
  cbv zeta.
  pose proof (coercion_failure_by_context (sheet_of [("A1", SStr "abc")]))
    as (Hop & _ & Hargs).
  split.
  - refine (proj2 (Hop _ "+" (CellRef "A1") (Number (num_lit 2)) []
                     (VStr "abc") (VNum (num_lit 2)) ["A1"] ["A1"] _ _ _ _)).
    + eapply (reaches_arg _ "SUM" [Number (num_lit 1)]);
        [vm_compute; reflexivity|]. apply reaches_here.
    + vm_compute. reflexivity.
    + vm_compute. reflexivity.
    + left. vm_compute. reflexivity.
  - destruct (Hargs "COUNT" [Number (num_lit 1); CellRef "A1"; Number (num_lit 2)] []
                [VNum (num_lit 1); VStr "abc"; VNum (num_lit 2)] ["A1"])
      as (_ & _ & Hcount & Hsum & _); [vm_compute; reflexivity|].
    split; [exact Hcount|exact Hsum].
Defined.

(** The evaluator tests of the repository that need no parsing. *)
Example test_evaluates_cell_references :
  evaluateFormula (BinaryOp "+" (CellRef "A1") (CellRef "B2"))
    (sheet_of [("A1", SNum (num_lit 10)); ("B2", SNum (num_lit 20))])
  = Some {| value := Some (num_lit 30); text := Some "30"; error := None;
            usedRefs := ["A1"; "B2"] |}.
Proof. vm_compute. reflexivity. Qed.

Example test_type_coercion :
  value <$> evaluateFormula (BinaryOp "+" (CellRef "A1") (Number (num_lit 2)))
              (sheet_of [("A1", SStr "3")])
  = Some (Some (num_lit 5)).
Proof. vm_compute. reflexivity. Qed.

Example test_division_by_zero :
  error <$> evaluateFormula (BinaryOp "/" (Number (num_lit 10)) (Number (num_lit 0)))
              (sheet_of [])
  = Some (Some "#DIV/0!").
Proof. vm_compute. reflexivity. Qed.

Example test_unknown_function :
  error <$> evaluateFormula (FunctionCall "UNKNOWN" [Number (num_lit 1)]) (sheet_of [])
  = Some (Some "Unknown function: UNKNOWN").
Proof. vm_compute. reflexivity. Qed.

Example test_sum_range :
  evaluateFormula (FunctionCall "SUM" [RangeRef "B2" "A1"])
    (sheet_of [("A1", SNum (num_lit 1)); ("B1", SStr "x"); ("B2", SNum (num_lit 4))])
  = Some {| value := Some (num_lit 5); text := Some "5"; error := None;
            usedRefs := ["B2"; "A1"; "B1"; "A2"] |}.
Proof. vm_compute. reflexivity. Qed.

(** Column 26 is [AA], but [addressToRef] keeps one letter: the range
    [AA1:AA1] records and reads the cell [A1]. *)
Lemma range_beyond_column_Z :
  evaluate (sheet_of [("A1", SNum (num_lit 7))]) (RangeRef "AA1" "AA1") []
  = (Ret (VArr [SNum (num_lit 7)]), ["AA1"; "A1"])
  ∧ a1ToAddress "AA1" = Some (mkAddr 26 0)
  ∧ addressToA1 (mkAddr 26 0) = "AA1"
  ∧ addressToRef (mkAddr 26 0) = "A1".
Proof. vm_compute. auto. Qed.

End EvaluatorExamples.

(** ** The tokenizer and the parser on the repository's tests *)
Section ParserExamples.
Import Chars A1 Sheet Evaluator Parser Fill.
Local Open Scope list_scope.
#[local] Existing Instance Double.natives.

Example test_tokenizes_negative_numbers :
  tokenize "-3.14" = Some (inr [mkToken NUMBER "-3.14" 0; mkToken EOF "" 5]).
Proof. vm_compute. reflexivity. Qed.

Example test_tokenizes_function_calls :
  tokenize "SUM(A1:A10)"
  = Some (inr [mkToken IDENTIFIER "SUM" 0; mkToken LPAREN "(" 3;
               mkToken CELL_REF "A1" 4; mkToken COLON ":" 6;
               mkToken CELL_REF "A10" 7; mkToken RPAREN ")" 10;
               mkToken EOF "" 11]).
Proof. vm_compute. reflexivity. Qed.

Example test_tokenizes_operators :
  tokenize "+ - * / ^"
  = Some (inr [mkToken OPERATOR "+" 0; mkToken OPERATOR "-" 2;
               mkToken OPERATOR "*" 4; mkToken OPERATOR "/" 6;
               mkToken OPERATOR "^" 8; mkToken EOF "" 9]).
Proof. vm_compute. reflexivity. Qed.

Example test_parses_precedence :
  parseFormula "1 + 2 * 3"
  = Some (inr (BinaryOp "+" (Number (num_lit 1))
                 (BinaryOp "*" (Number (num_lit 2)) (Number (num_lit 3))))).
Proof. vm_compute. reflexivity. Qed.

Example test_parses_exponentiation :
  parseFormula "2 ^ 3 ^ 2"
  = Some (inr (BinaryOp "^" (Number (num_lit 2))
                 (BinaryOp "^" (Number (num_lit 3)) (Number (num_lit 2))))).
Proof. vm_compute. reflexivity. Qed.

Example test_parses_nested_functions :
  parseFormula "=sum(AVG(A1:A5), MAX($B$1:B5))"
  = Some (inr (FunctionCall "SUM"
                 [FunctionCall "AVG" [RangeRef "A1" "A5"];
                  FunctionCall "MAX" [RangeRef "$B$1" "B5"]])).
Proof. vm_compute. reflexivity. Qed.

Example test_respects_parentheses :
  match parseFormula "(1 + 2) * 3" with
  | Some (inr ast) => value <$> evaluateFormula ast (sheet_of [])
  | _ => None
  end = Some (Some (num_lit 9)).
Proof. vm_compute. reflexivity. Qed.

Example test_fill :
  adjustFormulaForFill "=A1+B1" 1 0 = Some "=A2+B2"
  ∧ adjustFormulaForFill "=$A1+B1" 0 2 = Some "=$A1+D1"
  ∧ adjustFormulaForFill "=SUM($A1:B$2)" 2 1 = Some "=SUM($A3:C$2)"
  ∧ adjustFormulaForFill "=($A$1+B2)*C3" 1 1 = Some "=($A$1+C3)*D4"
  ∧ adjustFormulaForFill "=AVG(SUM(A1:A5),MAX(B1:B5))" 1 0
    = Some "=AVG(SUM(A2:A6),MAX(B2:B6))"
  ∧ adjustFormulaForFill "=INVALID(((" 1 1 = Some "=INVALID(((".
Proof. vm_compute. auto 10. Qed.

(** A [-] directly followed by a digit starts a number, also after an
    operand: the two operands then stand side by side and the parser stops
    at the second. *)
Example tokenizes_5_minus_3 :
  tokenize "5-3" = Some (inr [mkToken NUMBER "5" 0; mkToken NUMBER "-3" 1;
                              mkToken EOF "" 3])
  ∧ tokenize "A1-2" = Some (inr [mkToken CELL_REF "A1" 0; mkToken NUMBER "-2" 2;
                                 mkToken EOF "" 4])
  ∧ tokenize "5 - 3" = Some (inr [mkToken NUMBER "5" 0; mkToken OPERATOR "-" 2;
                                  mkToken NUMBER "3" 4; mkToken EOF "" 5]).
Proof. vm_compute. auto. Qed.

Example parses_5_minus_3 :
  parseFormula "5-3" = Some (inl (mkParseError "Unexpected token: -3" 1))
  ∧ parseFormula "A1-2" = Some (inl (mkParseError "Unexpected token: -2" 2))
  ∧ parseFormula "SUM(5-3)" = Some (inl (mkParseError "Expected RPAREN, got NUMBER" 5))
  ∧ parseFormula "5 - 3"
    = Some (inr (BinaryOp "-" (Number (num_lit 5)) (Number (num_lit 3)))).
Proof. vm_compute. auto. Qed.

(** Filling with a zero shift re-renders the formula: spaces are not kept. *)
Lemma zero_shift_drops_spaces :
  adjustFormulaForFill "=A1 + B1" 0 0 = Some "=A1+B1".
Proof. vm_compute. reflexivity. Qed.

(** The renderer puts no parentheses around a right operand of the same
    precedence: the rendering of [A1-(B1-C1)] parses as [(A1-B1)-C1]. *)
Lemma render_drops_right_parentheses :
  parseFormula "A1-(B1-C1)"
  = Some (inr (BinaryOp "-" (CellRef "A1") (BinaryOp "-" (CellRef "B1") (CellRef "C1"))))
  ∧ astToString (BinaryOp "-" (CellRef "A1")
                   (BinaryOp "-" (CellRef "B1") (CellRef "C1")))
    = "A1-B1-C1"
  ∧ parseFormula "A1-B1-C1"
    = Some (inr (BinaryOp "-" (BinaryOp "-" (CellRef "A1") (CellRef "B1")) (CellRef "C1")))
  ∧ adjustFormulaForFill "=A1-(B1-C1)" 1 0 = Some "=A2-B2-C2".
Proof. vm_compute. auto. Qed.

(** The rendering of a subtraction of a number does not parse at all. *)
Example render_of_subtraction_does_not_parse :
  parseFormula "A1 - 2"
  = Some (inr (BinaryOp "-" (CellRef "A1") (Number (num_lit 2))))
  ∧ astToString (BinaryOp "-" (CellRef "A1") (Number (num_lit 2))) = "A1-2"
  ∧ parseFormula "A1-2" = Some (inl (mkParseError "Unexpected token: -2" 2)).
Proof. vm_compute. auto. Qed.

(** A [$] that starts no cell reference is scanned as an empty identifier
    without moving on: the tokenizer never finishes, whatever the fuel. *)
Example tokenizer_stuck_on_dollar (fuel : nat) (pos : nat) :
  tokenize_loop fuel "$" pos = None.
Proof. induction fuel as [|fuel IH]; [done|]. simpl. by rewrite Nat.add_0_r, IH. Qed.

End ParserExamples.

(** ** A1 notation: rendering a parsed reference gives the reference back *)
Section A1RoundTrip.
Import Chars A1.

(** Every character of [s] satisfies [p]. *)
Fixpoint all_chars (p : ascii → bool) (s : string) : bool :=
  match s with
  | String c s' => p c && all_chars p s'
  | EmptyString => true
  end.

(** [/[A-Z]/] *)
Definition is_upper (c : ascii) : bool :=
  (65 <=? code c)%N && (code c <=? 90)%N.

Definition starts_with (p : ascii → bool) (s : string) : bool :=
  match s with
  | String c _ => p c
  | EmptyString => false
  end.

Lemma append_String c (s t : string) : String c s ++ t = String c (s ++ t).
Proof. reflexivity. Qed.

Lemma append_empty_l (t : string) : "" ++ t = t.
Proof. reflexivity. Qed.

Lemma append_empty_r (s : string) : s ++ "" = s.
Proof. induction s as [|c s IH]; [done|]. by rewrite append_String, IH. Qed.

Lemma append_assoc (s t u : string) : (s ++ t) ++ u = s ++ t ++ u.
Proof.
  induction s as [|c s IH]; [done|]. by rewrite !append_String, IH.
Qed.

Lemma all_chars_app p (s t : string) :
  all_chars p (s ++ t) = all_chars p s && all_chars p t.
Proof.
  induction s as [|c s IH]; [done|].
  rewrite append_String. simpl. by rewrite IH, andb_assoc.
Qed.

Lemma length_append (s t : string) :
  String.length (s ++ t) = (String.length s + String.length t)%nat.
Proof.
  induction s as [|c s IH]; [done|]. rewrite append_String. simpl. by rewrite IH.
Qed.

Lemma span_all p (s rest : string) :
  all_chars p s = true → starts_with p rest = false →
  span p (s ++ rest) = (s, rest).
Proof.
  intros Hs Hrest. induction s as [|c s IH]; simpl in *.
  - rewrite ?append_empty_l.
    destruct rest as [|c rest]; [done|]. simpl in *. by rewrite Hrest.
  - apply andb_prop in Hs as [Hc Hs].
    rewrite ?append_String. simpl. by rewrite Hc, IH.
Qed.

Lemma upper_of_upper (s : string) :
  all_chars is_upper s = true → upper s = s.
Proof.
  induction s as [|c s IH]; simpl; [done|].
  intros [Hc Hs]%andb_prop. rewrite IH by done. f_equal.
  unfold to_upper, is_upper in *.
  apply andb_prop in Hc as [_ Hc%N.leb_le].
  destruct (97 <=? code c)%N eqn:H97; [|done].
  apply N.leb_le in H97. lia.
Qed.

Lemma colToLetter_loop_zero fuel result :
  colToLetter_loop fuel 0 result = result.
Proof. by destruct fuel. Qed.

Lemma letterToCol_loop_bounds (s : string) : ∀ acc,
  all_chars is_upper s = true → (0 ≤ acc)%Z →
  (acc + Z.of_nat (String.length s) ≤ letterToCol_loop s acc)%Z.
Proof.
  induction s as [|c s IH]; intros acc Hs Hacc; simpl in *; [lia|].
  apply andb_prop in Hs as [Hc Hs]. unfold is_upper in Hc.
  apply andb_prop in Hc as [Hlo%N.leb_le Hhi%N.leb_le].
  specialize (IH (acc * 26 + (Z.of_N (code c) - 64))%Z Hs). lia.
Qed.

Lemma colToLetter_loop_letters (s : string) : ∀ acc fuel result,
  all_chars is_upper s = true → (0 ≤ acc)%Z →
  (String.length s ≤ fuel)%nat →
  colToLetter_loop fuel (letterToCol_loop s acc) result
  = colToLetter_loop (fuel - String.length s) acc (s ++ result).
Proof.
  induction s as [|c s IH]; intros acc fuel result Hs Hacc Hfuel; simpl in *.
  - by rewrite Nat.sub_0_r.
  - apply andb_prop in Hs as [Hc Hs]. unfold is_upper in Hc.
    apply andb_prop in Hc as [Hlo%N.leb_le Hhi%N.leb_le].
    rewrite IH by (done || lia).
    destruct (fuel - String.length s)%nat as [|k] eqn:Hk; [exfalso; lia|].
    replace (fuel - S (String.length s))%nat with k by lia.
    cbn [colToLetter_loop].
    set (d := (Z.of_N (code c) - 64)%Z).
    assert (1 ≤ d ≤ 26)%Z as Hd by (unfold d; lia).
    destruct (Z.ltb_spec 0 (acc * 26 + d)) as [_|?]; [|lia].
    rewrite Z.rem_mod_nonneg by lia.
    assert ((acc * 26 + d - 1) mod 26 = d - 1)%Z as ->
      by (symmetry; apply (Z.mod_unique_pos _ _ acc); lia).
    assert ((acc * 26 + d - 1) / 26 = acc)%Z as ->
      by (symmetry; apply (Z.div_unique_pos _ _ _ (d - 1)); lia).
    replace (Z.to_N (65 + (d - 1))) with (code c) by (unfold d; lia).
    unfold code. by rewrite ascii_N_embedding.
Qed.

Lemma colToLetter_letterToCol (letters : string) :
  all_chars is_upper letters = true →
  colToLetter (letterToCol letters) = letters.
Proof.
  intros Hs. unfold colToLetter, letterToCol.
  rewrite upper_of_upper by done.
  replace (letterToCol_loop letters 0 - 1 + 1)%Z
    with (letterToCol_loop letters 0) by lia.
  pose proof (letterToCol_loop_bounds letters 0 Hs ltac:(lia)) as Hb.
  rewrite colToLetter_loop_letters by (done || lia).
  rewrite colToLetter_loop_zero. apply append_empty_r.
Qed.

(** [/[1-9]/] *)
Definition is_nonzero_digit (c : ascii) : bool :=
  (49 <=? code c)%N && (code c <=? 57)%N.

(** A row number as [toString] prints it: digits, the first one not [0]. *)
Definition canonical_digits (s : string) : bool :=
  starts_with is_nonzero_digit s && all_chars is_digit s.

Definition dollar (absolute : bool) : string := if absolute then "$" else "".

(** A reference as [cellRefToA1] prints it: upper-case column letters and
    a row number without leading zeros, each with its optional [$].  At
    most eleven letters and a row number of at most [2^53] keep both
    indices among the integers that a number holds exactly. *)
Definition canonical_ref (s : string) : Prop :=
  ∃ (absC absR : bool) (letters digits : string),
    s = dollar absC ++ letters ++ dollar absR ++ digits
    ∧ starts_with is_upper letters = true
    ∧ all_chars is_upper letters = true
    ∧ canonical_digits digits = true
    ∧ (String.length letters ≤ 11)%nat
    ∧ (digits_value digits ≤ 2 ^ 53)%Z.

Lemma uint_of_char_digit c d :
  is_digit c = true → ∃ d', uint_of_char c (Some d) = Some d' ∧ d' ≠ Decimal.Nil
                            ∧ (is_nonzero_digit c = true → Decimal.unorm d' = d').
Proof.
  destruct c as [[] [] [] [] [] [] [] []]; vm_compute; try discriminate;
    intros _; eexists; (split; [reflexivity|]); (split; [discriminate|]);
    try discriminate; reflexivity.
Qed.

Lemma uint_of_string_digits (s : string) :
  all_chars is_digit s = true → ∃ d, NilEmpty.uint_of_string s = Some d.
Proof.
  induction s as [|c s IH]; simpl; [by eexists|].
  intros [Hc Hs]%andb_prop. destruct (IH Hs) as [d ->].
  destruct (uint_of_char_digit c d Hc) as (d' & -> & _). by eexists.
Qed.

Lemma int_to_string_digits_value (digits : string) :
  canonical_digits digits = true →
  int_to_string (digits_value digits) = digits ∧ (1 ≤ digits_value digits)%Z.
Proof.
  unfold canonical_digits. intros [Hfirst Hall]%andb_prop.
  destruct digits as [|c s]; [done|]. simpl in Hfirst, Hall.
  apply andb_prop in Hall as [Hc Hs].
  assert (∃ d, NilEmpty.uint_of_string (String c s) = Some d ∧ d ≠ Decimal.Nil
               ∧ Decimal.unorm d = d) as (d & Hd & Hnil & Hnorm).
  { simpl. destruct (uint_of_string_digits s Hs) as [d0 ->].
    destruct (uint_of_char_digit c d0 Hc) as (d' & -> & ? & Hn). eauto. }
  assert (int_to_string (digits_value (String c s)) = String c s) as Hround.
  { unfold int_to_string, digits_value. rewrite Hd.
    change (Z.of_uint d) with (Z.of_int (Decimal.Pos d)).
    rewrite DecimalZ.to_of. simpl. rewrite Hnorm.
    unfold NilZero.string_of_uint. destruct d; try done;
      by apply NilEmpty.sus. }
  split; [done|].
  assert (0 ≤ digits_value (String c s))%Z as Hnonneg.
  { unfold digits_value. rewrite Hd. unfold Z.of_uint. lia. }
  destruct (decide (digits_value (String c s) = 0%Z)) as [Hz|Hz]; [|lia].
  rewrite Hz in Hround. vm_compute in Hround.
  injection Hround as <- _. by vm_compute in Hfirst.
Qed.

Lemma int_to_string_parseInt (digits : string) :
  canonical_digits digits = true → (digits_value digits ≤ 2 ^ 53)%Z →
  int_to_string (parseInt digits) = digits
  ∧ (1 ≤ parseInt digits ≤ 2 ^ 53)%Z.
Proof.
  intros Hcanon Hsmall.
  destruct (int_to_string_digits_value digits Hcanon) as [Hround Hpos].
  unfold parseInt. rewrite round_small by lia. split; [done|lia].
Qed.

Lemma starts_with_weaken (p q : ascii → bool) (s : string) :
  (∀ c, p c = true → q c = false) → starts_with p s = true →
  starts_with q s = false.
Proof. intros Hpq. destruct s as [|c s]; simpl; [done|]. apply Hpq. Qed.

Lemma starts_with_append (p : ascii → bool) (s t : string) :
  starts_with p s = true → starts_with p (s ++ t) = true.
Proof. by destruct s. Qed.

Lemma all_chars_weaken (p q : ascii → bool) (s : string) :
  (∀ c, p c = true → q c = true) → all_chars p s = true → all_chars q s = true.
Proof.
  intros Hpq. induction s as [|c s IH]; simpl; [done|].
  intros [Hc Hs]%andb_prop. by rewrite (Hpq c Hc), IH.
Qed.

Lemma char_class_facts (c : ascii) :
  (is_upper c = true → is_letter c = true)
  ∧ (is_upper c = true → Ascii.eqb c "$" = false)
  ∧ (is_nonzero_digit c = true → is_digit c = true)
  ∧ (is_digit c = true → is_letter c = false)
  ∧ (is_digit c = true → Ascii.eqb c "$" = false).
Proof.
  destruct c as [[] [] [] [] [] [] [] []]; vm_compute; repeat split; congruence.
Qed.

Lemma opt_dollar_dollar (absolute : bool) (s : string) :
  starts_with (λ c, Ascii.eqb c "$") s = false →
  opt_dollar (dollar absolute ++ s) = (absolute, s).
Proof.
  intros Hs. destruct absolute; [done|].
  rewrite append_empty_l. destruct s as [|c s]; [done|].
  simpl in *. by rewrite Hs.
Qed.

(** Parsing a canonical reference and printing it gives it back. *)
Lemma parseCellRef_canonical (s : string) :
  canonical_ref s →
  ∃ ref, parseCellRef s = Some ref ∧ cellRefToA1 (adjustRefForFill ref 0 0) = s.
Proof.
  intros (absC & absR & letters & digits & -> & Hfirst & Hup & Hdig & _ & Hsmall).
  pose proof (int_to_string_parseInt digits Hdig Hsmall) as [Hround Hpos].
  assert (JSNumber.round (parseInt digits - 1) = parseInt digits - 1)%Z as Hrow
    by (apply round_small; lia).
  pose proof Hdig as [Hd1 Hdall]%andb_prop.
  assert (starts_with is_digit digits = true) as Hd1'.
  { destruct digits as [|c ?]; [done|]. simpl in *. by apply char_class_facts. }
  unfold parseCellRef.
  rewrite opt_dollar_dollar.
  2: { apply starts_with_weaken with is_upper; [apply char_class_facts|].
       by apply starts_with_append. }
  rewrite (span_all is_letter letters).
  2: { apply all_chars_weaken with is_upper; [apply char_class_facts|done]. }
  2: { destruct absR; [done|]. rewrite append_empty_l.
       apply starts_with_weaken with is_digit; [apply char_class_facts|done]. }
  rewrite opt_dollar_dollar.
  2: { apply starts_with_weaken with is_digit; [apply char_class_facts|done]. }
  assert (span is_digit digits = (digits, "")) as ->.
  { pose proof (span_all is_digit digits "" Hdall eq_refl) as Hspan.
    by rewrite append_empty_r in Hspan. }
  assert (String.length letters ≠ 0%nat) as Hl by (by destruct letters).
  assert (String.length digits ≠ 0%nat) as Hd by (by destruct digits).
  destruct (Nat.eqb_spec (String.length letters) 0); [done|].
  destruct (Nat.eqb_spec (String.length digits) 0); [done|]. simpl.
  pose proof (letterToCol_loop_bounds letters 0 Hup ltac:(lia)) as Hcol.
  assert (0 ≤ letterToCol letters)%Z as Hcol'.
  { unfold letterToCol. rewrite upper_of_upper by done.
    destruct letters; [done|]. simpl String.length in Hcol. lia. }
  rewrite Hrow.
  destruct (Z.ltb_spec (parseInt digits - 1) 0); [lia|].
  destruct (Z.ltb_spec (letterToCol letters) 0); [lia|]. simpl.
  eexists. split; [done|].
  unfold cellRefToA1, adjustRefForFill. simpl.
  replace (if absC then _ else _) with (letterToCol letters)
    by (destruct absC; lia).
  replace (if absR then _ else _) with (parseInt digits - 1)%Z
    by (destruct absR; lia).
  rewrite colToLetter_letterToCol by done.
  replace (parseInt digits - 1 + 1)%Z with (parseInt digits) by lia.
  rewrite Hround. fold (dollar absC). fold (dollar absR).
  by rewrite append_assoc.
Qed.

End A1RoundTrip.

(** ** The reference adjuster under a zero shift *)
Section FillProps.
Import Chars A1 Sheet Parser Fill.
Context {num : Type} `{NT : Natives num}.
Local Open Scope list_scope.

(** Every reference of the tree is written canonically. *)
Fixpoint refs_canonical (node : ASTNode num) : Prop :=
  match node with
  | CellRef cellRef => canonical_ref cellRef
  | RangeRef start end_ => canonical_ref start ∧ canonical_ref end_
  | BinaryOp _ left_ right_ => refs_canonical left_ ∧ refs_canonical right_
  | UnaryOp _ operand => refs_canonical operand
  | FunctionCall _ args =>
      (fix all (l : list (ASTNode num)) : Prop :=
         match l with
         | [] => True
         | arg :: l => refs_canonical arg ∧ all l
         end) args
  | _ => True
  end.

Lemma adjustASTReferences_zero (node : ASTNode num) :
  refs_canonical node → adjustASTReferences node 0 0 = node.
Proof.
  induction node as [v|s|ref|start end_|op l r IHl IHr|op e IHe|name args IH]
    using ASTNode_nested_ind; cbn [refs_canonical adjustASTReferences].
  - done.
  - done.
  - intros Hc. destruct (parseCellRef_canonical ref Hc) as (r & -> & ->). done.
  - intros [Hs He].
    destruct (parseCellRef_canonical start Hs) as (r1 & -> & ->).
    destruct (parseCellRef_canonical end_ He) as (r2 & -> & ->). done.
  - intros [Hl Hr]. by rewrite IHl, IHr.
  - intros He. by rewrite IHe.
  - intros Hall. f_equal.
    induction IH as [|arg args Harg _ IHargs]; [done|].
    destruct Hall as [Ha Hall]. cbn [map]. by rewrite Harg, IHargs.
Qed.

(** C2 (as amended). For every formula string [f], by what
    [parseFormula(f)] does.  When it throws a [ParseError],
    [adjustFormulaForFill(f, 0, 0)] returns [f] unchanged.  When it never
    returns (the tokenizer does not advance on a [$] that starts no
    reference), [adjustFormulaForFill(f, 0, 0)] never returns either.
    When it returns a tree whose references are all written canonically
    (upper-case column letters, at most eleven of them; a row number
    without leading zeros and at most [2^53]; each with its optional
    [$]), the zero shift leaves every reference of the tree unchanged,
    and the result is [=] followed by the renderer's text of the parsed
    tree (the spacing, letter case and optional [=] of [f] itself are not
    kept). *)
Theorem zero_shift_keeps_references (formula : string) :
  (∀ e, parseFormula formula = Some (inl e) →
        adjustFormulaForFill formula 0 0 = Some formula)
  ∧ (parseFormula formula = None → adjustFormulaForFill formula 0 0 = None)
  ∧ (∀ ast, parseFormula formula = Some (inr ast) →
        refs_canonical ast →
        adjustASTReferences ast 0 0 = ast
        ∧ adjustFormulaForFill formula 0 0 = Some ("=" +:+ astToString ast)).
Proof.
  split_and!.
  - intros e He. unfold adjustFormulaForFill. by rewrite He.
  - intros Hnone. unfold adjustFormulaForFill. by rewrite Hnone.
  - intros ast Hast Hcanon.
    pose proof (adjustASTReferences_zero ast Hcanon) as Hid.
    split; [done|]. unfold adjustFormulaForFill. by rewrite Hast, Hid.
Qed.

End FillProps.

(** ** The reference adjuster on concrete formulas *)
Section FillExamples.
Import Chars A1 Sheet Parser Fill.
Local Open Scope list_scope.
#[local] Existing Instance Double.natives.

Lemma zero_shift_keeps_references_example :
  let ast := BinaryOp "+" (CellRef "A1")
               (FunctionCall "SUM" [RangeRef "$B$2" "C$10"]) in
  parseFormula "a1 + sum($B$2:C$10)"
  = Some (inr (BinaryOp "+" (CellRef "a1")
                 (FunctionCall "SUM" [RangeRef "$B$2" "C$10"])))
  ∧ parseFormula "=A1 + sum($B$2:C$10)" = Some (inr ast)
  ∧ adjustFormulaForFill "=5-3" 0 0 = Some "=5-3"
  ∧ adjustFormulaForFill "=$" 0 0 = None
  ∧ adjustASTReferences ast 0 0 = ast
  ∧ adjustFormulaForFill "=A1 + sum($B$2:C$10)" 0 0
    = Some ("=" +:+ astToString ast).
Proof.
  cbv zeta. split; [vm_compute; reflexivity|].
  split; [vm_compute; reflexivity|].
  split.
  { refine (proj1 (zero_shift_keeps_references "=5-3")
              (mkParseError "Unexpected token: -3" 1) _).
    vm_compute. reflexivity. }
  split.
  { refine (proj1 (proj2 (zero_shift_keeps_references "=$")) _).
    vm_compute. reflexivity. }
  refine (proj2 (proj2 (zero_shift_keeps_references "=A1 + sum($B$2:C$10)")) _ _ _).
  - vm_compute. reflexivity.
  - cbn [refs_canonical]. split_and!; try exact I.
    + exists false, false, "A", "1". repeat split; try reflexivity; [simpl; lia|by vm_compute].
    + exists true, true, "B", "2". repeat split; try reflexivity; [simpl; lia|by vm_compute].
    + exists false, true, "C", "10". repeat split; try reflexivity; [simpl; lia|by vm_compute].
Defined.

(** Outside the canonical references the zero shift rewrites the
    reference itself: lower-case letters and leading zeros are not kept,
    and a row number that no number holds exactly comes back rounded. *)
Lemma zero_shift_rewrites_other_references :
  adjustFormulaForFill "=a1" 0 0 = Some "=A1"
  ∧ adjustFormulaForFill "=A01" 0 0 = Some "=A1"
  ∧ adjustFormulaForFill "=A9007199254740993" 0 0 = Some "=A9007199254740992".
Proof. vm_compute. auto. Qed.

End FillExamples.

(** ** The parser never accepts two operands side by side *)
Section ParserProps.
Import Chars Sheet Parser.
Context {num : Type} `{NT : Natives num}.
Local Open Scope list_scope.
Local Open Scope nat_scope.

(** The token types that end an operand. *)
Definition operand_end (t : TokenType) : bool :=
  match t with
  | NUMBER | STRING | CELL_REF | RPAREN => true
  | _ => false
  end.

(** Two operands side by side: a token that ends an operand, directly
    followed by a number. *)
Definition adjacent_operands (tokens : list Token) : Prop :=
  ∃ i t1 t2, tokens !! i = Some t1 ∧ tokens !! S i = Some t2
             ∧ operand_end (tok_type t1) = true ∧ tok_type t2 = NUMBER.

(** What [tokenize] returns: tokens other than [EOF], then one [EOF]. *)
Definition ends_with_EOF (tokens : list Token) : Prop :=
  ∃ ts eof, tokens = ts ++ [eof] ∧ tok_type eof = EOF
            ∧ Forall (λ t, tok_type t ≠ EOF) ts.

Lemma push_token_inr t r toks :
  push_token t r = Some (inr toks) →
  ∃ toks', r = Some (inr toks') ∧ toks = t :: toks'.
Proof.
  destruct r as [[e|toks']|]; simpl; intros; simplify_eq. eauto.
Qed.

Lemma ends_with_EOF_cons t toks :
  tok_type t ≠ EOF → ends_with_EOF toks → ends_with_EOF (t :: toks).
Proof.
  intros Ht (ts & eof & -> & Heof & Hall).
  exists (t :: ts), eof. split_and!; [done|done|by constructor].
Qed.

Lemma tokenize_loop_ends_with_EOF fuel : ∀ input pos toks,
  tokenize_loop fuel input pos = Some (inr toks) → ends_with_EOF toks.
Proof.
  induction fuel as [|fuel IH]; intros input pos toks Htok; [done|].
  cbn [tokenize_loop] in Htok.
  destruct input as [|char rest].
  { simplify_eq. exists [], (mkToken EOF "" pos). by split_and!. }
  repeat match type of Htok with
  | (if ?b then _ else _) = _ => destruct b
  | (let '(_, _) := ?p in _) = _ => destruct p as [? ?] eqn:?
  | match ?o with Some _ => _ | None => _ end = _ => destruct o as [[? ?]|] eqn:?
  | push_token _ _ = _ =>
      apply push_token_inr in Htok as (toks' & Htok & ->);
      apply ends_with_EOF_cons; [|by eapply IH]
  end; try done; try by eapply IH.
  unfold readIdentifierOrCellRef in *.
  destruct (match_cell_ref (String char rest)) as [[? ?]|];
    [|destruct (span is_ident_char (String char rest))]; by simplify_eq.
Qed.

Lemma tokenize_ends_with_EOF input toks :
  tokenize input = Some (inr toks) → ends_with_EOF toks.
Proof. apply tokenize_loop_ends_with_EOF. Qed.

Section Segments.
Variable ts : list Token.
Variable eof : Token.
Hypothesis Heof : tok_type eof = EOF.
Hypothesis Hts : Forall (λ t, tok_type t ≠ EOF) ts.

Let tokens := ts ++ [eof].
Let n := length ts.

Lemma current_lt pos :
  pos ≤ n → tok_type (current tokens pos) ≠ EOF → pos < n.
Proof.
  intros Hle Hne. destruct (decide (pos = n)) as [->|]; [|lia].
  exfalso. apply Hne. unfold current, tokens, n.
  by rewrite lookup_app_r, Nat.sub_diag.
Qed.

Lemma current_lookup pos t :
  tokens !! pos = Some t → current tokens pos = t.
Proof. intros H. unfold current. by rewrite H. Qed.

(** No two operands side by side among the tokens from [a] up to [b]. *)
Definition bad (i : nat) : Prop :=
  operand_end (tok_type (current tokens i)) = true
  ∧ tok_type (current tokens (S i)) = NUMBER.

Definition nobad (a b : nat) : Prop := ∀ i, a ≤ i → S i < b → ¬ bad i.

(** The tokens from [a] up to [b] were consumed by a parsing method. *)
Definition seg_ok (a b : nat) : Prop :=
  a < b ≤ n ∧ nobad a b
  ∧ operand_end (tok_type (current tokens (b - 1))) = true.

Lemma nobad_single a : nobad a (S a).
Proof. intros i ? ?. lia. Qed.

Lemma nobad_join a b c :
  nobad a b → nobad b c → (a < b → b < c → ¬ bad (b - 1)) → nobad a c.
Proof.
  intros Hab Hbc Hmid i Hai Hic.
  destruct (decide (S i < b)); [by apply Hab|].
  destruct (decide (b ≤ i)); [by apply Hbc|].
  replace i with (b - 1) by lia. apply Hmid; lia.
Qed.

(** Consuming one more token that is not a number. *)
Lemma nobad_snoc a b :
  nobad a b → tok_type (current tokens b) ≠ NUMBER → nobad a (S b).
Proof.
  intros Hab Hb. apply nobad_join with b; [done|apply nobad_single|].
  intros ? _ [_ Hnum]. apply Hb. by replace (S (b - 1)) with b in Hnum by lia.
Qed.

(** Consuming one more token after one that does not end an operand. *)
Lemma nobad_snoc_after a b :
  nobad a b → (a < b → operand_end (tok_type (current tokens (b - 1))) = false) →
  nobad a (S b).
Proof.
  intros Hab Hb. apply nobad_join with b; [done|apply nobad_single|].
  intros Hlt _ [Hend _]. by rewrite Hb in Hend.
Qed.

(** A segment, a token that neither is a number nor ends an operand, and
    another segment. *)
Lemma seg_ok_join a b c :
  seg_ok a b → seg_ok (S b) c →
  tok_type (current tokens b) ≠ NUMBER →
  operand_end (tok_type (current tokens b)) = false →
  seg_ok a c.
Proof.
  intros (Hab & Hnab & _) (Hbc & Hnbc & Hend) Hnum Hop.
  split; [lia|]. split; [|done].
  apply nobad_join with (S b); [by apply nobad_snoc|done|].
  intros _ _ [Hend' _]. replace (S b - 1) with b in Hend' by lia.
  by rewrite Hop in Hend'.
Qed.

(** A token that does not end an operand, a segment, and a closing token
    that ends an operand without being a number. *)
Lemma seg_ok_wrap a c :
  seg_ok (S a) c → a ≤ n →
  operand_end (tok_type (current tokens a)) = false →
  operand_end (tok_type (current tokens c)) = true →
  tok_type (current tokens c) ≠ NUMBER →
  c < n →
  seg_ok a (S c).
Proof.
  intros (Hac & Hnac & _) Ha Hopen Hclose Hnum Hc.
  split; [lia|]. split; [|by replace (S c - 1) with c by lia].
  apply nobad_snoc; [|done].
  apply nobad_join with (S a); [apply nobad_single|done|].
  intros _ _ [Hend _]. replace (S a - 1) with a in Hend by lia.
  by rewrite Hopen in Hend.
Qed.

(** What is proved of each parsing method by induction on the fuel: with
    fuel for the tokens left it does not run out, and what it consumes is
    a segment without two operands side by side. *)
Definition method_ok (c fuel : nat) (f : nat → @presult num) : Prop :=
  ∀ pos, pos ≤ n →
    (4 * (n - pos) + c ≤ fuel → f pos ≠ PFuel)
    ∧ (∀ ast pos', f pos = POk ast pos' → seg_ok pos pos').

Definition loop_ok (fuel : nat) (loop : ASTNode num → nat → @presult num) : Prop :=
  ∀ pos0 left_ pos, seg_ok pos0 pos →
    (4 * (n - pos) + 1 ≤ fuel → loop left_ pos ≠ PFuel)
    ∧ (∀ ast pos', loop left_ pos = POk ast pos' → seg_ok pos0 pos').

Definition args_ok (fuel : nat)
    (loop : list (ASTNode num) → nat → @presult num + (list (ASTNode num) * nat)) : Prop :=
  ∀ pos0 args pos, seg_ok pos0 pos →
    (4 * (n - pos) + 1 ≤ fuel → loop args pos ≠ inl PFuel)
    ∧ (∀ args' pos', loop args pos = inr (args', pos') → seg_ok pos0 pos')
    ∧ (∀ ast pos', loop args pos ≠ inl (POk ast pos')).

Lemma seg_ok_token pos :
  pos ≤ n → operand_end (tok_type (current tokens pos)) = true →
  seg_ok pos (S pos).
Proof.
  intros Hpos Hend.
  assert (pos < n).
  { apply current_lt; [done|]. intros Heq. by rewrite Heq in Hend. }
  split; [lia|]. split; [apply nobad_single|].
  by replace (S pos - 1) with pos by lia.
Qed.

Lemma is_operator_type pos ops :
  is_operator tokens pos ops = true → tok_type (current tokens pos) = OPERATOR.
Proof.
  unfold is_operator. intros [H _]%andb_prop. by apply bool_decide_eq_true in H.
Qed.

(** *** One unfolding of each parsing method *)

Lemma parseExpression_S fuel pos :
  parseExpression tokens (S fuel) pos
  = match parseTerm tokens fuel pos with
    | POk left_ pos => expression_loop tokens fuel left_ pos
    | other => other
    end.
Proof. reflexivity. Qed.

Lemma expression_loop_S fuel left_ pos :
  expression_loop tokens (S fuel) left_ pos
  = if is_operator tokens pos "+-"
    then match parseTerm tokens fuel (S pos) with
         | POk right_ pos' =>
             expression_loop tokens fuel
               (BinaryOp (tok_value (current tokens pos)) left_ right_) pos'
         | other => other
         end
    else POk left_ pos.
Proof. reflexivity. Qed.

Lemma parseTerm_S fuel pos :
  parseTerm tokens (S fuel) pos
  = match parseFactor tokens fuel pos with
    | POk left_ pos => term_loop tokens fuel left_ pos
    | other => other
    end.
Proof. reflexivity. Qed.

Lemma term_loop_S fuel left_ pos :
  term_loop tokens (S fuel) left_ pos
  = if is_operator tokens pos "*/"
    then match parseFactor tokens fuel (S pos) with
         | POk right_ pos' =>
             term_loop tokens fuel
               (BinaryOp (tok_value (current tokens pos)) left_ right_) pos'
         | other => other
         end
    else POk left_ pos.
Proof. reflexivity. Qed.

Lemma parseFactor_S fuel pos :
  parseFactor tokens (S fuel) pos
  = match parsePrimary tokens fuel pos with
    | POk left_ pos =>
        if bool_decide (tok_type (current tokens pos) = OPERATOR)
           && (tok_value (current tokens pos) =? "^")%string
        then match parseFactor tokens fuel (S pos) with
             | POk right_ pos => POk (BinaryOp "^" left_ right_) pos
             | other => other
             end
        else POk left_ pos
    | other => other
    end.
Proof. reflexivity. Qed.

Lemma args_loop_S fuel args pos :
  args_loop tokens (S fuel) args pos
  = if bool_decide (tok_type (current tokens pos) = COMMA)
    then match parseExpression tokens fuel (S pos) with
         | POk arg pos => args_loop tokens fuel (args ++ [arg]) pos
         | other => inl other
         end
    else inr (args, pos).
Proof. reflexivity. Qed.

Lemma parseExpression_step fuel :
  method_ok 3 fuel (parseTerm tokens fuel) →
  loop_ok fuel (expression_loop tokens fuel) →
  method_ok 4 (S fuel) (parseExpression tokens (S fuel)).
Proof.
  intros Hterm Hloop. unfold method_ok. intros pos Hpos.
  rewrite parseExpression_S.
  destruct (Hterm pos Hpos) as [Hfuel Hok].
  destruct (parseTerm tokens fuel pos) as [left_ p1|e|]; [|by split|].
  - pose proof (Hok _ _ eq_refl) as Hseg.
    destruct (Hloop pos left_ p1 Hseg) as [Hfuel' Hok'].
    split; [|done]. intros Hb. apply Hfuel'. destruct Hseg as [? _]. lia.
  - split; [|done]. intros Hb _. apply Hfuel; [lia|done].
Qed.

Lemma binary_loop_step fuel ops
    (method : nat → nat → @presult num) (loop : nat → ASTNode num → nat → @presult num) c :
  c ≤ 3 →
  (∀ left_ pos,
     loop (S fuel) left_ pos
     = if is_operator tokens pos ops
       then match method fuel (S pos) with
            | POk right_ pos' =>
                loop fuel (BinaryOp (tok_value (current tokens pos)) left_ right_) pos'
            | other => other
            end
       else POk left_ pos) →
  method_ok c fuel (method fuel) →
  loop_ok fuel (loop fuel) →
  loop_ok (S fuel) (loop (S fuel)).
Proof.
  intros Hc Heq Hmethod Hloop. unfold loop_ok. intros pos0 left_ pos Hseg.
  rewrite Heq.
  destruct (is_operator tokens pos ops) eqn:Hop; [|by split; [|intros; simplify_eq]].
  apply is_operator_type in Hop.
  assert (pos < n) as Hlt.
  { apply current_lt; [apply Hseg|]. by rewrite Hop. }
  destruct (Hmethod (S pos) ltac:(lia)) as [Hfuel Hok].
  destruct (method fuel (S pos)) as [right_ p1|e|]; [|by split|].
  - pose proof (Hok _ _ eq_refl) as Hseg1.
    assert (seg_ok pos0 p1) as Hseg'.
    { apply seg_ok_join with pos; try done; by rewrite Hop. }
    destruct (Hloop pos0 (BinaryOp (tok_value (current tokens pos)) left_ right_)
                p1 Hseg') as [Hfuel' Hok'].
    split; [|done]. intros Hb. apply Hfuel'. destruct Hseg1 as [? _]. lia.
  - split; [|done]. intros Hb _. apply Hfuel; [lia|done].
Qed.

Lemma parseTerm_step fuel :
  method_ok 2 fuel (parseFactor tokens fuel) →
  loop_ok fuel (term_loop tokens fuel) →
  method_ok 3 (S fuel) (parseTerm tokens (S fuel)).
Proof.
  intros Hfactor Hloop. unfold method_ok. intros pos Hpos. rewrite parseTerm_S.
  destruct (Hfactor pos Hpos) as [Hfuel Hok].
  destruct (parseFactor tokens fuel pos) as [left_ p1|e|]; [|by split|].
  - pose proof (Hok _ _ eq_refl) as Hseg.
    destruct (Hloop pos left_ p1 Hseg) as [Hfuel' Hok'].
    split; [|done]. intros Hb. apply Hfuel'. destruct Hseg as [? _]. lia.
  - split; [|done]. intros Hb _. apply Hfuel; [lia|done].
Qed.

Lemma parseFactor_step fuel :
  method_ok 1 fuel (parsePrimary tokens fuel) →
  method_ok 2 fuel (parseFactor tokens fuel) →
  method_ok 2 (S fuel) (parseFactor tokens (S fuel)).
Proof.
  intros Hprimary Hfactor. unfold method_ok. intros pos Hpos.
  rewrite parseFactor_S.
  destruct (Hprimary pos Hpos) as [Hfuel Hok].
  destruct (parsePrimary tokens fuel pos) as [left_ p1|e|]; [|by split|].
  2: { split; [|done]. intros Hb _. apply Hfuel; [lia|done]. }
  pose proof (Hok _ _ eq_refl) as Hseg.
  destruct (bool_decide (tok_type (current tokens p1) = OPERATOR)
            && (tok_value (current tokens p1) =? "^")%string) eqn:Hop;
    [|by split; [|intros; simplify_eq]].
  apply andb_prop in Hop as [Hop%bool_decide_eq_true _].
  assert (p1 < n) as Hlt.
  { apply current_lt; [apply Hseg|]. by rewrite Hop. }
  destruct (Hfactor (S p1) ltac:(lia)) as [Hfuel' Hok'].
  destruct (parseFactor tokens fuel (S p1)) as [right_ p2|e|]; [|by split|].
  - split; [done|]. intros ast pos' [= <- <-].
    apply seg_ok_join with p1; try done; [by eapply Hok'|by rewrite Hop..].
  - split; [|done]. intros Hb _. apply Hfuel'; [|done].
    destruct Hseg as [? _]. lia.
Qed.

Lemma parsePrimary_S fuel pos :
  parsePrimary tokens (S fuel) pos
  = let token := current tokens pos in
    match tok_type token with
    | NUMBER => POk (Number (parseFloat (tok_value token))) (S pos)
    | STRING => POk (String_ (tok_value token)) (S pos)
    | LPAREN =>
        match parseExpression tokens fuel (S pos) with
        | POk expr pos =>
            match expect tokens RPAREN pos with
            | inr _ => POk expr (S pos)
            | inl e => PErr e
            end
        | other => other
        end
    | CELL_REF =>
        if bool_decide (tok_type (current tokens (S pos)) = COLON) then
          match expect tokens CELL_REF (S (S pos)) with
          | inr endTok =>
              POk (RangeRef (tok_value token) (tok_value endTok)) (S (S (S pos)))
          | inl e => PErr e
          end
        else POk (CellRef (tok_value token)) (S pos)
    | IDENTIFIER =>
        if bool_decide (tok_type (current tokens (S pos)) = LPAREN) then
          let finish (args : list (ASTNode num)) (pos : nat) :=
            match expect tokens RPAREN pos with
            | inr _ => POk (FunctionCall (upper (tok_value token)) args) (S pos)
            | inl e => PErr e
            end in
          if bool_decide (tok_type (current tokens (S (S pos))) ≠ RPAREN) then
            match parseExpression tokens fuel (S (S pos)) with
            | POk arg pos =>
                match args_loop tokens fuel [arg] pos with
                | inr (args, pos) => finish args pos
                | inl r => r
                end
            | other => other
            end
          else finish [] (S (S pos))
        else PErr (mkParseError ("Unexpected identifier: " +:+ tok_value token)
                                (tok_pos token))
    | _ => PErr (mkParseError ("Unexpected token: " +:+ tok_value token)
                              (tok_pos token))
    end.
Proof. reflexivity. Qed.

Lemma expect_inr t pos tok :
  expect tokens t pos = inr tok → tok_type (current tokens pos) = t.
Proof.
  unfold expect. case_bool_decide; [done|]. by intros.
Qed.

Lemma args_loop_step fuel :
  method_ok 4 fuel (parseExpression tokens fuel) →
  args_ok fuel (args_loop tokens fuel) →
  args_ok (S fuel) (args_loop tokens (S fuel)).
Proof.
  intros Hexpr Hargs. unfold args_ok. intros pos0 args pos Hseg.
  rewrite args_loop_S.
  case_bool_decide as Hcomma; [|by split_and!; [|intros; simplify_eq|]].
  assert (pos < n) as Hlt.
  { apply current_lt; [apply Hseg|]. by rewrite Hcomma. }
  destruct (Hexpr (S pos) ltac:(lia)) as [Hfuel Hok].
  destruct (parseExpression tokens fuel (S pos)) as [arg p1|e|].
  - pose proof (Hok _ _ eq_refl) as Hseg1.
    assert (seg_ok pos0 p1) as Hseg'.
    { apply seg_ok_join with pos; try done; by rewrite Hcomma. }
    destruct (Hargs pos0 (args ++ [arg]) p1 Hseg') as (Hfuel' & Hok' & Hnok).
    split_and!; [|done|done]. intros Hb. apply Hfuel'.
    destruct Hseg1 as [? _]. lia.
  - by split_and!.
  - split_and!; [|done|done]. intros Hb _. apply Hfuel; [lia|done].
Qed.

Lemma parsePrimary_step fuel :
  method_ok 4 fuel (parseExpression tokens fuel) →
  args_ok fuel (args_loop tokens fuel) →
  method_ok 1 (S fuel) (parsePrimary tokens (S fuel)).
Proof.
  intros Hexpr Hargs. unfold method_ok. intros pos Hpos.
  rewrite parsePrimary_S. cbv zeta.
  destruct (tok_type (current tokens pos)) eqn:Hty; try by split.
  - (* NUMBER *)
    split; [done|]. intros ast pos' [= <- <-].
    apply seg_ok_token; [done|by rewrite Hty].
  - (* STRING *)
    split; [done|]. intros ast pos' [= <- <-].
    apply seg_ok_token; [done|by rewrite Hty].
  - (* LPAREN *)
    assert (pos < n) as Hlt by (apply current_lt; [done|by rewrite Hty]).
    destruct (Hexpr (S pos) ltac:(lia)) as [Hfuel Hok].
    destruct (parseExpression tokens fuel (S pos)) as [expr p1|e|]; [|by split|].
    2: { split; [|done]. intros Hb _. apply Hfuel; [lia|done]. }
    pose proof (Hok _ _ eq_refl) as Hseg.
    destruct (expect tokens RPAREN p1) as [e|tok] eqn:Hexp; [by split|].
    apply expect_inr in Hexp.
    split; [done|]. intros ast pos' [= <- <-].
    apply seg_ok_wrap; try done; try by rewrite ?Hty, ?Hexp.
    apply current_lt; [apply Hseg|by rewrite Hexp].
  - (* CELL_REF *)
    assert (pos < n) as Hlt by (apply current_lt; [done|by rewrite Hty]).
    case_bool_decide as Hcolon.
    + destruct (expect tokens CELL_REF (S (S pos))) as [e|tok] eqn:Hexp;
        [by split|].
      apply expect_inr in Hexp.
      assert (S pos < n) as Hlt1 by (apply current_lt; [lia|by rewrite Hcolon]).
      assert (S (S pos) < n) as Hlt2 by (apply current_lt; [lia|by rewrite Hexp]).
      split; [done|]. intros ast pos' [= <- <-].
      split; [lia|]. split.
      * apply nobad_snoc_after.
        -- apply nobad_snoc; [apply nobad_single|by rewrite Hcolon].
        -- intros _. replace (S (S pos) - 1) with (S pos) by lia.
           by rewrite Hcolon.
      * replace (S (S (S pos)) - 1) with (S (S pos)) by lia. by rewrite Hexp.
    + split; [done|]. intros ast pos' [= <- <-].
      apply seg_ok_token; [done|by rewrite Hty].
  - (* IDENTIFIER *)
    assert (pos < n) as Hlt by (apply current_lt; [done|by rewrite Hty]).
    case_bool_decide as Hlparen; [|by split].
    assert (S pos < n) as Hlt1 by (apply current_lt; [lia|by rewrite Hlparen]).
    assert (nobad pos (S (S pos))) as Hopen.
    { apply nobad_snoc; [apply nobad_single|by rewrite Hlparen]. }
    case_bool_decide as Hrparen.
    + destruct (Hexpr (S (S pos)) ltac:(lia)) as [Hfuel Hok].
      destruct (parseExpression tokens fuel (S (S pos))) as [arg p1|e|];
        [|by split|].
      2: { split; [|done]. intros Hb _. apply Hfuel; [lia|done]. }
      pose proof (Hok _ _ eq_refl) as Hseg.
      assert (seg_ok pos p1) as Hseg'.
      { destruct Hseg as (Hp1 & Hn1 & Hend). split; [lia|]. split; [|done].
        apply nobad_join with (S (S pos)); [done|done|].
        intros _ _ [Hend' _]. replace (S (S pos) - 1) with (S pos) in Hend' by lia.
        by rewrite Hlparen in Hend'. }
      destruct (Hargs pos [arg] p1 Hseg') as (Hfuel' & Hok' & Hnok).
      destruct (args_loop tokens fuel [arg] p1) as [r|[args p2]] eqn:Hloop.
      * destruct r as [ast0 q|e|].
        -- by destruct (Hnok ast0 q).
        -- by split.
        -- split; [|done]. intros Hb _. apply Hfuel'; [|done].
           destruct Hseg as [? _]. lia.
      * pose proof (Hok' _ _ eq_refl) as (Hp2 & Hn2 & Hend2).
        destruct (expect tokens RPAREN p2) as [e|tok] eqn:Hexp; [by split|].
        apply expect_inr in Hexp.
        assert (p2 < n) as Hlt2 by (apply current_lt; [lia|by rewrite Hexp]).
        split; [done|]. intros ast pos' [= <- <-].
        split; [lia|]. split.
        -- apply nobad_snoc; [done|by rewrite Hexp].
        -- replace (S p2 - 1) with p2 by lia. by rewrite Hexp.
    + unfold expect. rewrite bool_decide_eq_true_2 by done.
      assert (S (S pos) < n) as Hlt2 by (apply current_lt; [lia|by rewrite Hrparen]).
      split; [done|]. intros ast pos' [= <- <-].
      split; [lia|]. split.
      * apply nobad_snoc; [done|by rewrite Hrparen].
      * replace (S (S (S pos)) - 1) with (S (S pos)) by lia. by rewrite Hrparen.
Qed.

Definition all_ok (fuel : nat) : Prop :=
  method_ok 4 fuel (parseExpression tokens fuel)
  ∧ loop_ok fuel (expression_loop tokens fuel)
  ∧ method_ok 3 fuel (parseTerm tokens fuel)
  ∧ loop_ok fuel (term_loop tokens fuel)
  ∧ method_ok 2 fuel (parseFactor tokens fuel)
  ∧ method_ok 1 fuel (parsePrimary tokens fuel)
  ∧ args_ok fuel (args_loop tokens fuel).

Lemma parser_all_ok fuel : all_ok fuel.
Proof.
  induction fuel as [|fuel (He & Hel & Ht & Htl & Hf & Hp & Ha)].
  - unfold all_ok, method_ok, loop_ok, args_ok. split_and!; intros;
      (split_and!; [lia|done..]).
  - unfold all_ok. split_and!.
    + by apply parseExpression_step.
    + eapply (binary_loop_step fuel "+-" (parseTerm tokens) (expression_loop tokens));
        [reflexivity|apply expression_loop_S|done|done].
    + by apply parseTerm_step.
    + eapply (binary_loop_step fuel "*/" (parseFactor tokens) (term_loop tokens));
        [|apply term_loop_S|done|done]. lia.
    + by apply parseFactor_step.
    + by apply parsePrimary_step.
    + by apply args_loop_step.
Qed.

(** With two operands side by side among the tokens, [parse()] throws. *)
Lemma parse_adjacent_operands_segment :
  adjacent_operands tokens → ∃ e, parse tokens = PErr e.
Proof.
  intros (i & t1 & t2 & Ht1 & Ht2 & Hend & Hnum).
  assert (S i < n) as Hi.
  { apply lookup_lt_Some in Ht2 as Hlen. unfold tokens in Hlen.
    rewrite length_app in Hlen. simpl in Hlen.
    destruct (decide (S i = n)) as [Heq|]; [|unfold n; lia].
    exfalso. unfold tokens in Ht2.
    rewrite lookup_app_r in Ht2 by (fold n; lia).
    replace (S i - length ts) with 0 in Ht2 by (fold n; lia).
    simpl in Ht2. simplify_eq. by rewrite Heof in Hnum. }
  assert (bad i) as Hbad.
  { split; by erewrite current_lookup by done. }
  unfold parse.
  destruct (parser_all_ok (4 * length tokens + 4)) as (Hexpr & _).
  destruct (Hexpr 0 ltac:(lia)) as [Hfuel Hok].
  destruct (parseExpression tokens (4 * length tokens + 4) 0)
    as [ast pos'|e|]; [|by eexists|].
  2: { exfalso. apply Hfuel; [|done]. unfold tokens.
       rewrite length_app. simpl. fold n. lia. }
  case_bool_decide as Hlast; [by eexists|].
  destruct (Hok _ _ eq_refl) as (Hpos' & Hnobad & _).
  destruct (decide (pos' = n)) as [->|Hne].
  - exfalso. by apply (Hnobad i); [lia| |].
  - exfalso. assert (pos' < n) as Hlt by lia.
    destruct (lookup_lt_is_Some_2 ts pos' Hlt) as [t Ht].
    pose proof (proj1 (Forall_lookup _ _) Hts _ _ Ht) as Hne'. simpl in Hne'.
    apply Hne'. rewrite <- Hlast. symmetry. f_equal.
    apply current_lookup. unfold tokens. by rewrite lookup_app_l.
Qed.

End Segments.

Lemma parse_adjacent_operands toks :
  ends_with_EOF toks → adjacent_operands toks → ∃ e, parse toks = PErr e.
Proof.
  intros (ts & eof & -> & Heof & Hts). by apply parse_adjacent_operands_segment.
Qed.

(** *** A minus sign directly followed by a digit *)

(** Whatever the position and whatever came before, the loop of
    [tokenize()] reads a [-] directly followed by a digit as the start of
    a number. *)
Lemma minus_digit_starts_number fuel d rest pos :
  is_digit d = true →
  ∃ v rest',
    number_run false (String d rest) = (v, rest')
    ∧ tokenize_loop (S fuel) (String "-" (String d rest)) pos
      = push_token (mkToken NUMBER (String "-" v) pos)
          (tokenize_loop fuel rest' (pos + String.length (String "-" v))).
Proof.
  intros Hd. destruct (number_run false (String d rest)) as [v rest'] eqn:Hrun.
  exists v, rest'. split; [done|].
  cbn [tokenize_loop].
  change (is_space "-") with false. change (is_digit "-") with false.
  change (Ascii.eqb "-" "-") with true. rewrite Hd. cbn [orb andb].
  unfold readNumber. change (Ascii.eqb "-" "-") with true. cbv iota.
  by rewrite Hrun.
Qed.

(** A [-] followed by anything else is the operator. *)
Lemma minus_other_is_operator fuel c rest pos :
  is_digit c = false →
  tokenize_loop (S fuel) (String "-" (String c rest)) pos
  = push_token (mkToken OPERATOR "-" pos)
      (tokenize_loop fuel (String c rest) (S pos)).
Proof.
  intros Hc. cbn [tokenize_loop].
  change (is_space "-") with false. change (is_digit "-") with false.
  rewrite Hc. by rewrite andb_false_r.
Qed.

(** After an operand token, such a number makes two operands side by
    side. *)
Lemma operand_minus_digit_adjacent fuel t1 d rest pos toks :
  operand_end (tok_type t1) = true → is_digit d = true →
  push_token t1 (tokenize_loop (S fuel) (String "-" (String d rest)) pos)
  = Some (inr toks) →
  ∃ t2 toks', toks = t1 :: t2 :: toks' ∧ tok_type t2 = NUMBER
              ∧ tok_pos t2 = pos ∧ adjacent_operands toks.
Proof.
  intros Hend Hd Hpush.
  apply push_token_inr in Hpush as (toks1 & Hloop & ->).
  destruct (minus_digit_starts_number fuel d rest pos Hd)
    as (v & rest' & _ & Heq).
  rewrite Heq in Hloop.
  apply push_token_inr in Hloop as (toks2 & _ & ->).
  eexists _, toks2. split_and!; [done..|].
  by exists 0, t1, (mkToken NUMBER (String "-" v) pos).
Qed.

Lemma adjacent_operands_app pre toks :
  adjacent_operands toks → adjacent_operands (pre ++ toks).
Proof.
  intros (i & t1 & t2 & Ht1 & Ht2 & Hend & Hnum).
  exists (length pre + i), t1, t2. split_and!; [| |done..].
  - by rewrite lookup_app_r, Nat.add_comm, Nat.add_sub by lia.
  - rewrite lookup_app_r by lia.
    by replace (S (length pre + i) - length pre) with (S i) by lia.
Qed.

(** A formula whose tokens have two operands side by side is rejected. *)
Lemma parseFormula_adjacent_operands formula toks :
  tokenize (cleanFormula formula) = Some (inr toks) →
  adjacent_operands toks →
  ∃ e, parseFormula formula = Some (inl e).
Proof.
  intros Htok Hadj. unfold parseFormula. rewrite Htok.
  destruct (parse_adjacent_operands toks) as [e ->]; [|done|by eexists].
  by eapply tokenize_ends_with_EOF.
Qed.

(** An operand that is one token, then a number: the parser returns from
    [parseExpression] after the operand and [parse()] throws at the
    number. *)
Lemma parse_operand_then_number t1 t2 eof :
  tok_type t1 ∈ [NUMBER; STRING; CELL_REF] → tok_type t2 = NUMBER →
  parse [t1; t2; eof]
  = PErr (mkParseError ("Unexpected token: " +:+ tok_value t2) (tok_pos t2)).
Proof.
  intros Ht1 Ht2. destruct t1 as [ty1 v1 p1], t2 as [ty2 v2 p2].
  simpl in *. subst ty2.
  repeat (apply elem_of_cons in Ht1 as [->|Ht1]; [reflexivity|]).
  by apply elem_of_nil in Ht1.
Qed.

(** Two numbers with the operator between them are a subtraction. *)
Lemma parse_number_minus_number v1 p1 p v2 p2 eof :
  tok_type eof = EOF →
  parse [mkToken NUMBER v1 p1; mkToken OPERATOR "-" p; mkToken NUMBER v2 p2; eof]
  = POk (BinaryOp "-" (Number (parseFloat v1)) (Number (parseFloat v2))) 3.
Proof.
  intros Heof. destruct eof as [ty v q]. simpl in Heof. by subst ty.
Qed.

(** *** Formulas made of an operand, [-] and a number *)

Lemma digit_facts (d : ascii) :
  is_digit d = true →
  is_space d = false ∧ Ascii.eqb d "-" = false ∧ Ascii.eqb d "." = false
  ∧ Ascii.eqb d "=" = false.
Proof.
  destruct d as [[] [] [] [] [] [] [] []]; vm_compute; try discriminate; auto.
Qed.

Lemma letter_facts (c : ascii) :
  is_letter c = true →
  is_space c = false ∧ is_digit c = false ∧ Ascii.eqb c "-" = false
  ∧ Ascii.eqb c quote = false
  ∧ includes "+-*/^" (String c EmptyString) = false
  ∧ Ascii.eqb c "(" = false ∧ Ascii.eqb c ")" = false
  ∧ Ascii.eqb c "," = false ∧ Ascii.eqb c ":" = false
  ∧ Ascii.eqb c "$" = false ∧ Ascii.eqb c "=" = false.
Proof.
  destruct c as [[] [] [] [] [] [] [] []]; vm_compute; try discriminate;
    intros _; repeat split.
Qed.

(** A string of digits, and not the empty one. *)
Definition numeral (s : string) : Prop :=
  all_chars is_digit s = true ∧ s ≠ "".

(** A string of letters, and not the empty one. *)
Definition letters_only (s : string) : Prop :=
  all_chars is_letter s = true ∧ s ≠ "".

(** Neither a digit nor a decimal point comes first. *)
Definition ends_number (rest : string) : Prop :=
  starts_with (λ c, is_digit c || Ascii.eqb c ".") rest = false.

Lemma number_run_digits (a rest : string) : ∀ hasDecimal,
  all_chars is_digit a = true → ends_number rest →
  number_run hasDecimal (a +:+ rest) = (a, rest).
Proof.
  unfold ends_number.
  induction a as [|d a IH]; intros hasDecimal Ha Hrest.
  - rewrite append_empty_l. destruct rest as [|c rest]; [done|].
    simpl in *. apply orb_false_elim in Hrest as [-> ->]. done.
  - simpl in Ha. apply andb_prop in Ha as [Hd Ha].
    rewrite append_String. cbn [number_run]. rewrite Hd.
    by rewrite (IH hasDecimal Ha Hrest).
Qed.

(** The tokenizer reads a numeral as one number. *)
Lemma tokenize_loop_numeral fuel (a rest : string) pos :
  numeral a → ends_number rest →
  tokenize_loop (S fuel) (a +:+ rest) pos
  = push_token (mkToken NUMBER a pos)
      (tokenize_loop fuel rest (pos + String.length a)).
Proof.
  intros [Ha Hne] Hrest. destruct a as [|d a]; [done|].
  pose proof Ha as Hall. simpl in Ha. apply andb_prop in Ha as [Hd Ha].
  destruct (digit_facts d Hd) as (Hsp & Hminus & _).
  rewrite append_String. cbn [tokenize_loop]. rewrite Hsp, Hd. cbn [orb].
  unfold readNumber. rewrite Hminus.
  rewrite <- append_String. by rewrite (number_run_digits _ _ false Hall Hrest).
Qed.

(** The tokenizer reads letters followed by a numeral as one cell
    reference. *)
Lemma tokenize_loop_reference fuel (letters digits rest : string) pos :
  letters_only letters → numeral digits →
  starts_with is_digit rest = false →
  tokenize_loop (S fuel) (letters +:+ digits +:+ rest) pos
  = push_token (mkToken CELL_REF (letters +:+ digits) pos)
      (tokenize_loop fuel rest (pos + String.length (letters +:+ digits))).
Proof.
  intros [Hl Hlne] [Hd Hdne] Hrest.
  assert (starts_with is_digit (digits +:+ rest) = true) as Hdfirst.
  { destruct digits as [|d ds]; [done|]. simpl in *.
    by apply andb_prop in Hd as [-> _]. }
  assert (match_cell_ref (letters +:+ digits +:+ rest)
          = Some (letters +:+ digits, rest)) as Hmatch.
  { unfold match_cell_ref.
    assert (match letters +:+ digits +:+ rest with
            | String c s' =>
                if Ascii.eqb c "$" then ("$", s') else ("", letters +:+ digits +:+ rest)
            | EmptyString => ("", letters +:+ digits +:+ rest)
            end = ("", letters +:+ digits +:+ rest)) as ->.
    { destruct letters as [|c ls]; [done|]. rewrite append_String.
      simpl in Hl. apply andb_prop in Hl as [Hc _].
      destruct (letter_facts c Hc) as (_ & _ & _ & _ & _ & _ & _ & _ & _ & -> & _).
      done. }
    rewrite (span_all is_letter letters (digits +:+ rest) Hl).
    2: { destruct (digits +:+ rest) as [|c r]; [done|]. simpl in *.
         by apply char_class_facts. }
    assert (match digits +:+ rest with
            | String c s' => if Ascii.eqb c "$" then ("$", s') else ("", digits +:+ rest)
            | EmptyString => ("", digits +:+ rest)
            end = ("", digits +:+ rest)) as ->.
    { destruct (digits +:+ rest) as [|c r]; [done|]. simpl in *.
      by rewrite (proj2 (proj2 (proj2 (proj2 (char_class_facts c)))) Hdfirst). }
    rewrite (span_all is_digit digits rest Hd Hrest).
    destruct letters as [|c ls]; [done|]. destruct digits as [|d ds]; [done|].
    simpl. by rewrite !append_empty_l. }
  destruct letters as [|c ls]; [done|].
  pose proof Hl as Hall. simpl in Hl. apply andb_prop in Hl as [Hc _].
  destruct (letter_facts c Hc)
    as (Hsp & Hdig & Hminus & Hq & Hop & Hlp & Hrp & Hco & Hcl & Hdol & _).
  rewrite append_String in *. cbn [tokenize_loop].
  rewrite Hsp, Hdig, Hminus, Hq, Hop, Hlp, Hrp, Hco, Hcl, Hdol, Hc.
  cbn [orb andb]. unfold readIdentifierOrCellRef. by rewrite Hmatch.
Qed.

(** At the end of the input, [-] and a numeral are one number. *)
Lemma tokenize_loop_minus_numeral fuel (b : string) pos :
  numeral b →
  tokenize_loop (S (S fuel)) ("-" +:+ b) pos
  = Some (inr [mkToken NUMBER ("-" +:+ b) pos;
               mkToken EOF "" (pos + S (String.length b))]).
Proof.
  intros [Hb Hne]. destruct b as [|d b]; [done|].
  pose proof Hb as Hall. simpl in Hb. apply andb_prop in Hb as [Hd _].
  change ("-" +:+ String d b) with (String "-" (String d b)).
  destruct (minus_digit_starts_number (S fuel) d b pos Hd) as (v & rest & Hrun & ->).
  pose proof (number_run_digits (String d b) "" false Hall eq_refl) as Hrun'.
  rewrite append_empty_r in Hrun'. rewrite Hrun' in Hrun.
  injection Hrun as <- <-. done.
Qed.

Lemma all_chars_no_space (s : string) :
  all_chars (λ c, negb (is_space c)) s = true → s ≠ "" → trim s = s.
Proof.
  intros Hs Hne. unfold trim.
  assert (trim_start s = s) as ->.
  { destruct s as [|c s]; [done|]. simpl in *.
    apply andb_prop in Hs as [Hc _]. by destruct (is_space c). }
  clear Hne. induction s as [|c s IH]; [done|]. simpl in *.
  apply andb_prop in Hs as [Hc Hs]. rewrite (IH Hs).
  destruct s; [|done]. by destruct (is_space c).
Qed.

Lemma no_space_digits (s : string) :
  all_chars is_digit s = true → all_chars (λ c, negb (is_space c)) s = true.
Proof.
  apply all_chars_weaken. intros c Hc.
  by destruct (digit_facts c Hc) as (-> & _).
Qed.

Lemma no_space_letters (s : string) :
  all_chars is_letter s = true → all_chars (λ c, negb (is_space c)) s = true.
Proof.
  apply all_chars_weaken. intros c Hc.
  by destruct (letter_facts c Hc) as (-> & _).
Qed.

(** At the end of the input, a numeral is one number. *)
Lemma tokenize_loop_numeral_end fuel (b : string) pos :
  numeral b →
  tokenize_loop (S (S fuel)) b pos
  = Some (inr [mkToken NUMBER b pos; mkToken EOF "" (pos + String.length b)]).
Proof.
  intros Hb. pose proof (tokenize_loop_numeral (S fuel) b "" pos Hb eq_refl) as H.
  rewrite append_empty_r in H. by rewrite H.
Qed.

Lemma tokenize_loop_space fuel (rest : string) pos :
  tokenize_loop (S fuel) (String " " rest) pos = tokenize_loop fuel rest (S pos).
Proof. reflexivity. Qed.

(** A formula that is all of it an operand, [-] and a numeral is cleaned
    into itself. *)
Lemma cleanFormula_id (s : string) :
  all_chars (λ c, negb (is_space c)) s = true →
  starts_with (λ c, negb (Ascii.eqb c "=")) s = true →
  cleanFormula s = s ∧ trim s = s.
Proof.
  intros Hs Hfirst. assert (s ≠ "") as Hne by (by destruct s).
  pose proof (all_chars_no_space s Hs Hne) as Htrim.
  split; [|done]. unfold cleanFormula. rewrite Htrim.
  destruct s as [|c s]; [done|]. simpl in Hfirst. by destruct (Ascii.eqb c "=").
Qed.

(** [a-b], for two numerals: two numbers side by side, and the error of
    the trailing token. *)
Lemma parseFormula_numeral_minus_numeral (a b : string) :
  numeral a → numeral b →
  tokenize (a +:+ "-" +:+ b)
  = Some (inr [mkToken NUMBER a 0; mkToken NUMBER ("-" +:+ b) (String.length a);
               mkToken EOF "" (String.length a + S (String.length b))])
  ∧ parseFormula (a +:+ "-" +:+ b)
    = Some (inl (mkParseError ("Unexpected token: -" +:+ b) (String.length a))).
Proof.
  intros Ha Hb. pose proof Ha as [Hda Hane]. pose proof Hb as [Hdb Hbne].
  destruct (cleanFormula_id (a +:+ "-" +:+ b)) as [Hclean Htrim].
  { rewrite !all_chars_app, (no_space_digits a Hda), (no_space_digits b Hdb). done. }
  { destruct a as [|d a']; [done|]. rewrite append_String. simpl.
    simpl in Hda. apply andb_prop in Hda as [Hd _].
    by destruct (digit_facts d Hd) as (_ & _ & _ & ->). }
  assert (tokenize (a +:+ "-" +:+ b)
          = Some (inr [mkToken NUMBER a 0; mkToken NUMBER ("-" +:+ b) (String.length a);
                       mkToken EOF "" (String.length a + S (String.length b))]))
    as Htok.
  { unfold tokenize. rewrite Htrim, !length_append.
    assert (0 < String.length b) as Hlen by (destruct b; [done|simpl; lia]).
    replace (S (String.length a + (String.length "-" + String.length b)))
      with (S (S (S (String.length a + (String.length b - 1)))))
      by (simpl; lia).
    rewrite tokenize_loop_numeral; [|done|done].
    by rewrite tokenize_loop_minus_numeral. }
  split; [done|]. unfold parseFormula. rewrite Hclean, Htok.
  by rewrite parse_operand_then_number by (done || set_solver).
Qed.

(** [A1-2]: a cell reference, [-] and a numeral. *)
Lemma parseFormula_reference_minus_numeral (letters digits b : string) :
  letters_only letters → numeral digits → numeral b →
  tokenize (letters +:+ digits +:+ "-" +:+ b)
  = Some (inr [mkToken CELL_REF (letters +:+ digits) 0;
               mkToken NUMBER ("-" +:+ b) (String.length (letters +:+ digits));
               mkToken EOF ""
                 (String.length (letters +:+ digits) + S (String.length b))])
  ∧ parseFormula (letters +:+ digits +:+ "-" +:+ b)
    = Some (inl (mkParseError ("Unexpected token: -" +:+ b)
                   (String.length (letters +:+ digits)))).
Proof.
  intros Hl Hd Hb. pose proof Hl as [Hll Hlne]. pose proof Hd as [Hdd Hdne].
  pose proof Hb as [Hdb Hbne].
  destruct (cleanFormula_id (letters +:+ digits +:+ "-" +:+ b)) as [Hclean Htrim].
  { rewrite !all_chars_app, (no_space_letters _ Hll), (no_space_digits _ Hdd),
      (no_space_digits b Hdb). done. }
  { destruct letters as [|c ls]; [done|]. rewrite append_String. simpl.
    simpl in Hll. apply andb_prop in Hll as [Hc _].
    by destruct (letter_facts c Hc) as (_ & _ & _ & _ & _ & _ & _ & _ & _ & _ & ->). }
  assert (tokenize (letters +:+ digits +:+ "-" +:+ b)
          = Some (inr [mkToken CELL_REF (letters +:+ digits) 0;
                       mkToken NUMBER ("-" +:+ b) (String.length (letters +:+ digits));
                       mkToken EOF ""
                         (String.length (letters +:+ digits) + S (String.length b))]))
    as Htok.
  { unfold tokenize. rewrite Htrim, !length_append.
    assert (0 < String.length b) as Hlen by (destruct b; [done|simpl; lia]).
    replace (S (String.length letters
                + (String.length digits + (String.length "-" + String.length b))))
      with (S (S (S (String.length letters + String.length digits
                     + (String.length b - 1)))))
      by (simpl; lia).
    rewrite tokenize_loop_reference; [|done|done|done].
    rewrite tokenize_loop_minus_numeral by done.
    by rewrite !length_append. }
  split; [done|]. unfold parseFormula. rewrite Hclean, Htok.
  by rewrite parse_operand_then_number by (done || set_solver).
Qed.

(** [a - b], for two numerals: a subtraction. *)
Lemma parseFormula_numeral_spaced (a b : string) :
  numeral a → numeral b →
  parseFormula (a +:+ " - " +:+ b)
  = Some (inr (BinaryOp "-" (Number (parseFloat a)) (Number (parseFloat b)))).
Proof.
  intros Ha Hb. pose proof Ha as [Hda Hane]. pose proof Hb as [Hdb Hbne].
  assert (trim (a +:+ " - " +:+ b) = a +:+ " - " +:+ b) as Htrim.
  { unfold trim.
    assert (trim_start (a +:+ " - " +:+ b) = a +:+ " - " +:+ b) as ->.
    { destruct a as [|d a']; [done|]. rewrite append_String. simpl.
      simpl in Hda. apply andb_prop in Hda as [Hd _].
      by destruct (digit_facts d Hd) as (-> & _). }
    assert (∀ s, all_chars (λ c, negb (is_space c)) s = true → s ≠ "" →
                 ∀ t, trim_end (t +:+ s) = t +:+ s) as Hend.
    { intros s Hs Hne t. induction t as [|c t IH].
      - rewrite append_empty_l. clear Hne.
        induction s as [|c s IHs]; [done|]. simpl in *.
        apply andb_prop in Hs as [Hc Hs]. rewrite (IHs Hs).
        destruct s; [|done]. by destruct (is_space c).
      - rewrite append_String. simpl. rewrite IH.
        destruct (t +:+ s) eqn:Hts; [|done].
        destruct t; [|done]. rewrite append_empty_l in Hts. done. }
    rewrite <- !append_assoc.
    by rewrite (Hend b (no_space_digits b Hdb) Hbne). }
  assert (cleanFormula (a +:+ " - " +:+ b) = a +:+ " - " +:+ b) as Hclean.
  { unfold cleanFormula. rewrite Htrim.
    destruct a as [|d a']; [done|]. rewrite append_String.
    simpl in Hda. apply andb_prop in Hda as [Hd _].
    by destruct (digit_facts d Hd) as (_ & _ & _ & ->). }
  assert (tokenize (a +:+ " - " +:+ b)
          = Some (inr [mkToken NUMBER a 0;
                       mkToken OPERATOR "-" (S (String.length a));
                       mkToken NUMBER b (S (S (S (String.length a))));
                       mkToken EOF ""
                         (S (S (S (String.length a))) + String.length b)]))
    as Htok.
  { unfold tokenize. rewrite Htrim, !length_append.
    assert (0 < String.length b) as Hlen by (destruct b; [done|simpl; lia]).
    assert (0 < String.length a) as Hlen' by (destruct a; [done|simpl; lia]).
    replace (S (String.length a + (String.length " - " + String.length b)))
      with (S (S (S (S (S (S (String.length a - 1 + (String.length b - 1))))))))
      by (simpl; lia).
    rewrite tokenize_loop_numeral; [|done|done].
    change (" - " +:+ b) with (String " " (String "-" (String " " b))).
    rewrite tokenize_loop_space.
    rewrite (minus_other_is_operator _ " " b) by done.
    rewrite tokenize_loop_space.
    rewrite tokenize_loop_numeral_end by done.
    cbn [push_token]. by rewrite Nat.add_0_l. }
  unfold parseFormula. rewrite Hclean, Htok.
  by rewrite parse_number_minus_number.
Qed.

(** C10 (as amended). A [-] directly followed by a digit is read by the
    tokenizer as the start of a negative number, whatever the position and
    whatever precedes it.  So, when an operand token has just been pushed
    and the input left starts with [-] and a digit, the tokens are two
    operands side by side; and every formula that the tokenizer accepts
    and whose tokens hold an operand directly followed by a number is
    rejected by [parseFormula] with a [ParseError].  When the formula is
    a numeral or a cell reference, [-] and a numeral, as [5-3] and
    [A1-2], the error is the unexpected trailing token of [parse()], at
    the position of the [-]; elsewhere the parser fails earlier with
    another error.  With spaces the [-] is the operator, and two numerals
    with [ - ] between them parse as a subtraction. *)
Theorem minus_digit_after_operand :
  (∀ fuel d rest pos,
     is_digit d = true →
     ∃ v rest',
       number_run false (String d rest) = (v, rest')
       ∧ tokenize_loop (S fuel) (String "-" (String d rest)) pos
         = push_token (mkToken NUMBER (String "-" v) pos)
             (tokenize_loop fuel rest' (pos + String.length (String "-" v))))
  ∧ (∀ fuel t1 d rest pos toks,
       operand_end (tok_type t1) = true → is_digit d = true →
       push_token t1 (tokenize_loop (S fuel) (String "-" (String d rest)) pos)
       = Some (inr toks) →
       ∃ t2 toks', toks = t1 :: t2 :: toks' ∧ tok_type t2 = NUMBER
                   ∧ tok_pos t2 = pos ∧ adjacent_operands toks)
  ∧ (∀ formula toks,
       tokenize (cleanFormula formula) = Some (inr toks) →
       adjacent_operands toks →
       ∃ e, parseFormula formula = Some (inl e))
  ∧ (∀ a b,
       numeral a → numeral b →
       tokenize (a +:+ "-" +:+ b)
       = Some (inr [mkToken NUMBER a 0;
                    mkToken NUMBER ("-" +:+ b) (String.length a);
                    mkToken EOF "" (String.length a + S (String.length b))])
       ∧ parseFormula (a +:+ "-" +:+ b)
         = Some (inl (mkParseError ("Unexpected token: -" +:+ b) (String.length a))))
  ∧ (∀ letters digits b,
       letters_only letters → numeral digits → numeral b →
       tokenize (letters +:+ digits +:+ "-" +:+ b)
       = Some (inr [mkToken CELL_REF (letters +:+ digits) 0;
                    mkToken NUMBER ("-" +:+ b) (String.length (letters +:+ digits));
                    mkToken EOF ""
                      (String.length (letters +:+ digits) + S (String.length b))])
       ∧ parseFormula (letters +:+ digits +:+ "-" +:+ b)
         = Some (inl (mkParseError ("Unexpected token: -" +:+ b)
                        (String.length (letters +:+ digits)))))
  ∧ (∀ t1 t2 eof,
       tok_type t1 ∈ [NUMBER; STRING; CELL_REF] → tok_type t2 = NUMBER →
       parse [t1; t2; eof]
       = PErr (mkParseError ("Unexpected token: " +:+ tok_value t2) (tok_pos t2)))
  ∧ (∀ fuel c rest pos,
       is_digit c = false →
       tokenize_loop (S fuel) (String "-" (String c rest)) pos
       = push_token (mkToken OPERATOR "-" pos)
           (tokenize_loop fuel (String c rest) (S pos)))
  ∧ (∀ a b,
       numeral a → numeral b →
       parseFormula (a +:+ " - " +:+ b)
       = Some (inr (BinaryOp "-" (Number (parseFloat a)) (Number (parseFloat b))))).
Proof.
  split_and!.
  - apply minus_digit_starts_number.
  - apply operand_minus_digit_adjacent.
  - apply parseFormula_adjacent_operands.
  - apply parseFormula_numeral_minus_numeral.
  - apply parseFormula_reference_minus_numeral.
  - apply parse_operand_then_number.
  - apply minus_other_is_operator.
  - apply parseFormula_numeral_spaced.
Qed.

End ParserProps.

Section ParserPropsExamples.
Import Chars Sheet Parser.
#[local] Existing Instance Double.natives.
Local Open Scope list_scope.
Local Open Scope nat_scope.

(** Inside parentheses or among the arguments of a call the formula is
    rejected as well, but with the error of the missing parenthesis, not
    with the unexpected trailing token; and before a [$] that starts no
    reference the tokenizer never returns, so that nothing is rejected. *)
Lemma minus_digit_without_trailing_token_error :
  parseFormula (num := float) "(5-3)"
  = Some (inl (mkParseError "Expected RPAREN, got NUMBER" 2))
  ∧ parseFormula (num := float) "=SUM(A1-2, 3)"
    = Some (inl (mkParseError "Expected RPAREN, got NUMBER" 6))
  ∧ parseFormula (num := float) "5-3$" = None
  ∧ (∀ fuel pos, tokenize_loop fuel "$" pos = None).
Proof.
  split_and!; [vm_compute; reflexivity..|].
  induction fuel as [|fuel IH]; intros pos; [done|].
  simpl. by rewrite Nat.add_0_r, IH.
Qed.

Lemma minus_digit_after_operand_example :
  (∃ t2 toks',
     [mkToken CELL_REF "A1" 4; mkToken NUMBER "-2" 6; mkToken COMMA "," 8;
      mkToken NUMBER "3" 10; mkToken RPAREN ")" 11; mkToken EOF "" 12]
     = mkToken CELL_REF "A1" 4 :: t2 :: toks'
     ∧ tok_type t2 = NUMBER ∧ tok_pos t2 = 6
     ∧ adjacent_operands
         [mkToken CELL_REF "A1" 4; mkToken NUMBER "-2" 6; mkToken COMMA "," 8;
          mkToken NUMBER "3" 10; mkToken RPAREN ")" 11; mkToken EOF "" 12])
  ∧ (∃ e, parseFormula (num := float) "=SUM(A1-2, 3)" = Some (inl e))
  ∧ parseFormula (num := float) "5-3"
    = Some (inl (mkParseError "Unexpected token: -3" 1))
  ∧ parseFormula (num := float) "A1-2"
    = Some (inl (mkParseError "Unexpected token: -2" 2))
  ∧ parseFormula (num := float) "5 - 3"
    = Some (inr (BinaryOp "-" (Number (parseFloat "5")) (Number (parseFloat "3")))).
Proof.
  pose proof (minus_digit_after_operand (num := float))
    as (_ & Hadj & Hreject & Hnum & Href & _ & _ & Hspaced).
  split_and!.
  - refine (Hadj 8 (mkToken CELL_REF "A1" 4) "2"%char ", 3)" 6 _ eq_refl eq_refl _).
    vm_compute. reflexivity.
  - refine (Hreject "=SUM(A1-2, 3)"
              [mkToken IDENTIFIER "SUM" 0; mkToken LPAREN "(" 3;
               mkToken CELL_REF "A1" 4; mkToken NUMBER "-2" 6;
               mkToken COMMA "," 8; mkToken NUMBER "3" 10;
               mkToken RPAREN ")" 11; mkToken EOF "" 12] _ _).
    + vm_compute. reflexivity.
    + exists 2, (mkToken CELL_REF "A1" 4), (mkToken NUMBER "-2" 6).
      by split_and!.
  - destruct (Hnum "5" "3") as [_ H]; [by split..|].
    cbn [String.append String.length] in H. exact H.
  - destruct (Href "A" "1" "2") as [_ H]; [by split..|].
    cbn [String.append String.length] in H. exact H.
  - pose proof (Hspaced "5" "3") as H.
    cbn [String.append] in H. apply H; by split.
Defined.

End ParserPropsExamples.

(** ** A1 notation: the conversions and their inverses *)
Section A1Conversions.
Import Chars A1.

Lemma letterToCol_loop_app (s t : string) : ∀ acc,
  letterToCol_loop (s ++ t) acc = letterToCol_loop t (letterToCol_loop s acc).
Proof.
  induction s as [|c s IH]; intros acc; [done|].
  rewrite append_String. simpl. apply IH.
Qed.

(** What the loop of [colToLetter] puts before [result]: upper-case
    letters that [letterToCol] reads back as [num]. *)
Lemma colToLetter_loop_spec fuel : ∀ num result,
  (0 ≤ num)%Z → (Z.to_nat num ≤ fuel)%nat →
  ∃ s, colToLetter_loop fuel num result = s ++ result
       ∧ all_chars is_upper s = true
       ∧ letterToCol_loop s 0 = num
       ∧ ((0 < num)%Z → starts_with is_upper s = true).
Proof.
  induction fuel as [|fuel IH]; intros num result Hnum Hfuel.
  - exists "". replace num with 0%Z by lia. split_and!; [done..|lia].
  - cbn [colToLetter_loop].
    destruct (Z.ltb_spec 0 num) as [Hpos|?].
    2: { exists "". replace num with 0%Z by lia. split_and!; [done..|lia]. }
    rewrite Z.rem_mod_nonneg by lia.
    set (r := ((num - 1) mod 26)%Z). set (q := ((num - 1) / 26)%Z).
    assert (0 ≤ r < 26)%Z as Hr by (apply Z.mod_pos_bound; lia).
    assert (num - 1 = 26 * q + r)%Z as Hdiv by (apply Z.div_mod; lia).
    assert (0 ≤ q)%Z as Hq by (apply Z.div_pos; lia).
    set (ch := ascii_of_N (Z.to_N (65 + r))).
    assert (code ch = Z.to_N (65 + r)) as Hcode.
    { unfold code, ch. apply N_ascii_embedding. lia. }
    assert (is_upper ch = true) as Hup.
    { unfold is_upper. rewrite Hcode. apply andb_true_intro.
      split; apply N.leb_le; lia. }
    destruct (IH q (String ch result) Hq ltac:(lia)) as (s & -> & Hs & Hback & Hfirst).
    exists (s ++ String ch ""). split_and!.
    + by rewrite append_assoc.
    + rewrite all_chars_app, Hs. simpl. by rewrite Hup.
    + rewrite letterToCol_loop_app, Hback. simpl. rewrite Hcode. lia.
    + intros _. destruct (decide (q = 0%Z)) as [Hq0|Hq0].
      * destruct s as [|c s]; [done|]. simpl in Hs.
        apply andb_prop in Hs as [Hc _]. done.
      * apply starts_with_append, Hfirst. lia.
Qed.

Lemma colToLetter_spec (col : Z) :
  (0 ≤ col)%Z →
  all_chars is_upper (colToLetter col) = true
  ∧ starts_with is_upper (colToLetter col) = true
  ∧ letterToCol (colToLetter col) = col.
Proof.
  intros Hcol. unfold colToLetter, letterToCol.
  destruct (colToLetter_loop_spec (Z.to_nat (col + 1)) (col + 1) "")
    as (s & -> & Hs & Hback & Hfirst); [lia|lia|].
  rewrite append_empty_r. split_and!; [done|apply Hfirst; lia|].
  rewrite upper_of_upper by done. lia.
Qed.

Lemma string_of_uint_digits (d : Decimal.uint) :
  all_chars is_digit (NilEmpty.string_of_uint d) = true.
Proof. induction d; simpl; try done. Qed.

(** A non-negative integer prints as digits that [parseInt] reads back. *)
Lemma int_to_string_spec (z : Z) :
  (0 ≤ z)%Z →
  all_chars is_digit (int_to_string z) = true
  ∧ starts_with is_digit (int_to_string z) = true
  ∧ digits_value (int_to_string z) = z
  ∧ (z ≤ 2 ^ 53 → parseInt (int_to_string z) = z)%Z.
Proof.
  intros Hz.
  enough (all_chars is_digit (int_to_string z) = true
          ∧ starts_with is_digit (int_to_string z) = true
          ∧ digits_value (int_to_string z) = z) as (? & ? & Hval).
  { split_and!; [done..|]. intros Hsmall. unfold parseInt. rewrite Hval.
    apply round_small. lia. }
  unfold int_to_string, digits_value.
  destruct z as [|p|p]; [by vm_compute| |lia].
  cbn [Z.to_int NilZero.string_of_int]. unfold NilZero.string_of_uint.
  pose proof (DecimalPos.Unsigned.to_uint_nonnil p) as Hnil.
  assert (NilEmpty.string_of_uint (Pos.to_uint p)
          = match Pos.to_uint p with
            | Decimal.Nil => "0"
            | _ => NilEmpty.string_of_uint (Pos.to_uint p)
            end) as <- by (by destruct (Pos.to_uint p)).
  split_and!.
  - apply string_of_uint_digits.
  - destruct (Pos.to_uint p); done.
  - rewrite NilEmpty.usu. exact (DecimalZ.of_to (Z.pos p)).
Qed.

Lemma span_digits_then (digits rest : string) :
  all_chars is_digit digits = true → starts_with is_digit rest = false →
  span is_digit (digits ++ rest) = (digits, rest).
Proof. apply span_all. Qed.

Lemma is_digit_not_letter (s : string) :
  starts_with is_digit s = true → starts_with is_letter s = false.
Proof.
  apply starts_with_weaken. intros c. apply char_class_facts.
Qed.

Lemma length_nonzero (p : ascii → bool) (s : string) :
  starts_with p s = true → (String.length s =? 0)%nat = false.
Proof. by destruct s. Qed.

Lemma letterToCol_upper (letters : string) :
  letterToCol (upper letters) = letterToCol letters.
Proof.
  unfold letterToCol. f_equal. f_equal.
  induction letters as [|c s IH]; [done|]. simpl. rewrite IH. f_equal.
  unfold to_upper.
  destruct c as [[] [] [] [] [] [] [] []]; by vm_compute.
Qed.

Lemma upper_letters (letters : string) :
  all_chars is_letter letters = true → all_chars is_upper (upper letters) = true.
Proof.
  induction letters as [|c s IH]; [done|]. simpl.
  intros [Hc Hs]%andb_prop. rewrite IH by done. rewrite andb_true_r.
  revert Hc. clear. destruct c as [[] [] [] [] [] [] [] []]; by vm_compute.
Qed.

Lemma a1ToAddress_addressToA1 (addr : CellAddress) :
  (0 ≤ col addr)%Z → (0 ≤ row addr < 2 ^ 53)%Z →
  a1ToAddress (addressToA1 addr) = Some addr.
Proof.
  intros Hcol Hrow. destruct addr as [c r]. simpl in *.
  destruct (colToLetter_spec c Hcol) as (Hup & Hfirst & Hback).
  destruct (int_to_string_spec (r + 1)) as (Hdig & Hdfirst & _ & Hparse); [lia|].
  specialize (Hparse ltac:(lia)).
  unfold a1ToAddress, addressToA1. simpl.
  rewrite (span_all is_letter).
  2: { apply all_chars_weaken with is_upper; [apply char_class_facts|done]. }
  2: { by apply is_digit_not_letter. }
  pose proof (span_all is_digit (int_to_string (r + 1)) "" Hdig eq_refl) as Hspan.
  rewrite append_empty_r in Hspan. rewrite Hspan.
  rewrite (length_nonzero _ _ Hfirst), (length_nonzero _ _ Hdfirst). simpl.
  rewrite Hback, Hparse. rewrite round_small by lia.
  destruct (Z.ltb_spec (r + 1 - 1) 0); [lia|].
  destruct (Z.ltb_spec c 0); [lia|]. simpl.
  do 2 f_equal. lia.
Qed.

Lemma parseCellRef_cellRefToA1 (ref : CellRef) :
  (0 ≤ ref_col ref)%Z → (0 ≤ ref_row ref < 2 ^ 53)%Z →
  parseCellRef (cellRefToA1 ref) = Some ref.
Proof.
  intros Hcol Hrow. destruct ref as [c r absC absR]. simpl in *.
  destruct (colToLetter_spec c Hcol) as (Hup & Hfirst & Hback).
  destruct (int_to_string_spec (r + 1)) as (Hdig & Hdfirst & _ & Hparse); [lia|].
  specialize (Hparse ltac:(lia)).
  unfold parseCellRef, cellRefToA1. simpl.
  fold (dollar absC). fold (dollar absR). rewrite append_assoc.
  rewrite opt_dollar_dollar.
  2: { apply starts_with_weaken with is_upper; [apply char_class_facts|].
       by apply starts_with_append. }
  rewrite (span_all is_letter).
  2: { apply all_chars_weaken with is_upper; [apply char_class_facts|done]. }
  2: { destruct absR; [done|]. rewrite append_empty_l.
       by apply is_digit_not_letter. }
  rewrite opt_dollar_dollar.
  2: { apply starts_with_weaken with is_digit; [apply char_class_facts|done]. }
  pose proof (span_all is_digit (int_to_string (r + 1)) "" Hdig eq_refl) as Hspan.
  rewrite append_empty_r in Hspan. rewrite Hspan.
  rewrite (length_nonzero _ _ Hfirst), (length_nonzero _ _ Hdfirst). simpl.
  rewrite Hback, Hparse. rewrite round_small by lia.
  destruct (Z.ltb_spec (r + 1 - 1) 0); [lia|].
  destruct (Z.ltb_spec c 0); [lia|]. simpl.
  do 2 f_equal. lia.
Qed.

Lemma keyToAddress_cellKey (addr : CellAddress) :
  (0 ≤ col addr < 2 ^ 53)%Z → (0 ≤ row addr < 2 ^ 53)%Z →
  keyToAddress (cellKey addr) = Some addr.
Proof.
  intros Hcol Hrow. destruct addr as [c r]. simpl in *.
  destruct (int_to_string_spec c) as (Hcdig & Hcfirst & _ & Hcparse); [lia|].
  destruct (int_to_string_spec r) as (Hrdig & Hrfirst & _ & Hrparse); [lia|].
  specialize (Hcparse ltac:(lia)). specialize (Hrparse ltac:(lia)).
  unfold keyToAddress, cellKey. simpl. rewrite append_empty_l.
  rewrite (span_all is_digit) by done. rewrite append_String. simpl.
  rewrite append_empty_l.
  pose proof (span_all is_digit (int_to_string c) "" Hcdig eq_refl) as Hspan.
  rewrite append_empty_r in Hspan. rewrite Hspan.
  rewrite (length_nonzero _ _ Hcfirst), (length_nonzero _ _ Hrfirst). simpl.
  by rewrite Hcparse, Hrparse.
Qed.

Lemma length_bind_const {A B} (f : A → list B) (n : nat) (l : list A) :
  (∀ x, length (f x) = n) → length (l ≫= f) = (length l * n)%nat.
Proof.
  intros Hf. induction l as [|x l IH]; [done|].
  change ((x :: l) ≫= f) with (f x ++ (l ≫= f))%list.
  rewrite length_app, Hf, IH. simpl. lia.
Qed.

(** The cells of the rectangle spanned by two corners, row by row. *)
Definition rectangle (start end_ : CellAddress) : list CellAddress :=
  r ← seqZ (Z.min (row start) (row end_))
           (Z.max (row start) (row end_) - Z.min (row start) (row end_) + 1);
  c ← seqZ (Z.min (col start) (col end_))
           (Z.max (col start) (col end_) - Z.min (col start) (col end_) + 1);
  [{| row := r; col := c |}].

Lemma elem_of_rectangle (start end_ : CellAddress) (c r : Z) :
  {| col := c; row := r |} ∈ rectangle start end_
  ↔ (Z.min (row start) (row end_) ≤ r ≤ Z.max (row start) (row end_))%Z
    ∧ (Z.min (col start) (col end_) ≤ c ≤ Z.max (col start) (col end_))%Z.
Proof.
  unfold rectangle. rewrite list_elem_of_bind. split.
  - intros (r' & Hin & Hr). apply list_elem_of_bind in Hin as (c' & Hin & Hc).
    apply list_elem_of_singleton in Hin. injection Hin as -> ->.
    apply elem_of_seqZ in Hr, Hc. lia.
  - intros [Hr Hc]. exists r. split; [|apply elem_of_seqZ; lia].
    apply list_elem_of_bind. exists c. split; [|apply elem_of_seqZ; lia].
    by apply list_elem_of_singleton.
Qed.

(** X1. [colToLetter] and [letterToCol] are inverse on column indices:
    for every index from 0 on, [colToLetter] gives a non-empty string of
    upper-case letters, and [letterToCol] reads the index back from it. *)
Theorem colToLetter_round_trip (col : Z) :
  (0 ≤ col < 2 ^ 53)%Z →
  colToLetter col ≠ ""
  ∧ all_chars is_upper (colToLetter col) = true
  ∧ letterToCol (colToLetter col) = col.
Proof.
  intros [Hcol _]. destruct (colToLetter_spec col Hcol) as (Hup & Hfirst & Hback).
  split_and!; [|done..]. intros Heq. by rewrite Heq in Hfirst.
Qed.

Lemma colToLetter_round_trip_example :
  colToLetter 701 = "ZZ" ∧ colToLetter 702 ≠ ""
  ∧ all_chars is_upper (colToLetter 702) = true
  ∧ letterToCol (colToLetter 702) = 702%Z.
Proof.
  split; [reflexivity|]. apply (colToLetter_round_trip 702). lia.
Defined.

(** X2. [letterToCol] does not distinguish the case of the letters, and
    [colToLetter] gives back the upper-case spelling: for every string of
    letters, [colToLetter(letterToCol(s))] is [s] in upper case. *)
Theorem letterToCol_ignores_case (letters : string) :
  all_chars is_letter letters = true → (String.length letters ≤ 11)%nat →
  letterToCol (upper letters) = letterToCol letters
  ∧ colToLetter (letterToCol letters) = upper letters.
Proof.
  intros Hletters _. split; [apply letterToCol_upper|].
  rewrite <- letterToCol_upper.
  apply colToLetter_letterToCol. by apply upper_letters.
Qed.

Lemma letterToCol_ignores_case_example :
  letterToCol (upper "aZb") = letterToCol "aZb"
  ∧ colToLetter (letterToCol "aZb") = "AZB".
Proof. apply (letterToCol_ignores_case "aZb"); [reflexivity|simpl; lia]. Defined.

(** X3. [a1ToAddress] inverts [addressToA1]: the A1 text of an address
    with non-negative column and row parses back to that address. *)
Theorem a1ToAddress_round_trip (addr : CellAddress) :
  (0 ≤ col addr < 2 ^ 53)%Z → (0 ≤ row addr < 2 ^ 53)%Z →
  a1ToAddress (addressToA1 addr) = Some addr.
Proof. intros [? _] ?. by apply a1ToAddress_addressToA1. Qed.

Lemma a1ToAddress_round_trip_example :
  addressToA1 {| col := 27; row := 99 |} = "AB100"
  ∧ a1ToAddress (addressToA1 {| col := 27; row := 99 |})
    = Some {| col := 27; row := 99 |}.
Proof.
  split; [reflexivity|].
  apply (a1ToAddress_round_trip {| col := 27; row := 99 |}); simpl; lia.
Defined.

(** X4. [parseCellRef] inverts [cellRefToA1]: the text of a reference with
    non-negative column and row, with or without its [$] markers, parses
    back to the same column, row and markers. *)
Theorem parseCellRef_round_trip (ref : CellRef) :
  (0 ≤ ref_col ref < 2 ^ 53)%Z → (0 ≤ ref_row ref < 2 ^ 53)%Z →
  parseCellRef (cellRefToA1 ref) = Some ref.
Proof. intros [? _] ?. by apply parseCellRef_cellRefToA1. Qed.

Lemma parseCellRef_round_trip_example :
  cellRefToA1 (mkRef 28 6 true false) = "$AC7"
  ∧ parseCellRef (cellRefToA1 (mkRef 28 6 true false))
    = Some (mkRef 28 6 true false).
Proof.
  split; [reflexivity|].
  apply (parseCellRef_round_trip (mkRef 28 6 true false)); simpl; lia.
Defined.

(** X5. [keyToAddress] inverts [cellKey]: the storage key of an address
    with non-negative column and row parses back to that address. *)
Theorem keyToAddress_round_trip (addr : CellAddress) :
  (0 ≤ col addr < 2 ^ 53)%Z → (0 ≤ row addr < 2 ^ 53)%Z →
  keyToAddress (cellKey addr) = Some addr.
Proof. intros ? ?. by apply keyToAddress_cellKey. Qed.

Lemma keyToAddress_round_trip_example :
  cellKey {| col := 3; row := 120 |} = "r120c3"
  ∧ keyToAddress (cellKey {| col := 3; row := 120 |})
    = Some {| col := 3; row := 120 |}.
Proof.
  split; [reflexivity|].
  apply (keyToAddress_round_trip {| col := 3; row := 120 |}); simpl; lia.
Defined.

Lemma NoDup_rectangle (start end_ : CellAddress) :
  NoDup (rectangle start end_).
Proof.
  unfold rectangle. apply NoDup_bind; [| |apply NoDup_seqZ].
  - intros r1 r2 a _ _ H1 H2.
    apply list_elem_of_bind in H1 as (c1 & H1 & _).
    apply list_elem_of_bind in H2 as (c2 & H2 & _).
    apply list_elem_of_singleton in H1, H2. by simplify_eq.
  - intros r _. apply NoDup_bind; [| |apply NoDup_seqZ].
    + intros c1 c2 a _ _ H1 H2.
      apply list_elem_of_singleton in H1, H2. by simplify_eq.
    + intros c _. apply NoDup_singleton.
Qed.

Lemma length_rectangle (start end_ : CellAddress) :
  Z.of_nat (length (rectangle start end_))
  = ((Z.abs (row start - row end_) + 1) * (Z.abs (col start - col end_) + 1))%Z.
Proof.
  unfold rectangle.
  rewrite (length_bind_const _
             (Z.to_nat (Z.max (col start) (col end_)
                        - Z.min (col start) (col end_) + 1))).
  - rewrite length_seqZ. lia.
  - intros r. rewrite (length_bind_const _ 1%nat) by done.
    rewrite length_seqZ. lia.
Qed.

(** As long as the indices stay below [2^53] every increment is exact, and
    the loops of [getRangeCells] push the cells of the rectangle. *)
Lemma cells_cols_spec (row maxCol : Z) (k : nat) : ∀ fuel col cells,
  (k < fuel)%nat → (- 2 ^ 53 ≤ col)%Z → (col + Z.of_nat k = maxCol + 1)%Z →
  (maxCol < 2 ^ 53)%Z →
  cells_cols fuel row col maxCol cells
  = Some (cells ++ ((λ c, {| row := row; col := c |}) <$> seqZ col (Z.of_nat k)))%list.
Proof.
  induction k as [|k IH]; intros fuel col cells Hfuel Hlo Hk Hhi;
    (destruct fuel as [|fuel]; [lia|]); cbn [cells_cols].
  - destruct (Z.leb_spec col maxCol); [lia|]. simpl. by rewrite app_nil_r.
  - destruct (Z.leb_spec col maxCol); [|lia].
    rewrite incr_exact by lia. rewrite (IH fuel (col + 1)%Z) by lia.
    rewrite (seqZ_cons col) by lia. cbn [fmap list_fmap].
    replace (Z.pred (Z.of_nat (S k))) with (Z.of_nat k) by lia.
    replace (Z.succ col) with (col + 1)%Z by lia.
    by rewrite <- app_assoc.
Qed.

Lemma cells_rows_spec (maxRow minCol maxCol : Z) (k : nat) : ∀ fuel row cells,
  (k < fuel)%nat → (- 2 ^ 53 ≤ row)%Z → (row + Z.of_nat k = maxRow + 1)%Z →
  (maxRow < 2 ^ 53)%Z →
  (- 2 ^ 53 ≤ minCol ≤ maxCol + 1)%Z → (maxCol < 2 ^ 53)%Z →
  cells_rows fuel row maxRow minCol maxCol cells
  = Some (cells ++ (r ← seqZ row (maxRow - row + 1);
                    c ← seqZ minCol (maxCol - minCol + 1);
                    [{| row := r; col := c |}]))%list.
Proof.
  induction k as [|k IH]; intros fuel row cells Hfuel Hlo Hk Hhi Hcol Hchi;
    (destruct fuel as [|fuel]; [lia|]); cbn [cells_rows].
  - destruct (Z.leb_spec row maxRow); [lia|].
    replace (maxRow - row + 1)%Z with 0%Z by lia. simpl. by rewrite app_nil_r.
  - destruct (Z.leb_spec row maxRow); [|lia].
    rewrite (cells_cols_spec row maxCol (Z.to_nat (maxCol - minCol + 1)));
      [|unfold JSNumber.loop_fuel; lia|lia|lia|lia].
    rewrite Z2Nat.id by lia. cbn [mbind option_bind].
    rewrite incr_exact by lia. rewrite (IH fuel (row + 1)%Z) by lia.
    rewrite (seqZ_cons row) by lia. rewrite bind_cons.
    replace (Z.succ row) with (row + 1)%Z by lia.
    replace (Z.pred (maxRow - row + 1)) with (maxRow - (row + 1) + 1)%Z by lia.
    by rewrite <- app_assoc, (bind_singleton (λ c, {| row := row; col := c |})).
Qed.

(** An index of the sheet: a non-negative integer that a number holds
    exactly, and that [++] advances. *)
Definition index_ok (z : Z) : Prop := (0 ≤ z < 2 ^ 53)%Z.

Lemma getRangeCells_bounded (start end_ : CellAddress) :
  index_ok (row start) → index_ok (col start) →
  index_ok (row end_) → index_ok (col end_) →
  getRangeCells start end_ = Some (rectangle start end_).
Proof.
  unfold index_ok. intros Hsr Hsc Her Hec. unfold getRangeCells. cbv zeta.
  rewrite (cells_rows_spec _ _ _
             (Z.to_nat (Z.max (row start) (row end_)
                        - Z.min (row start) (row end_) + 1)));
    [done|unfold JSNumber.loop_fuel; lia|lia..].
Qed.

(** Whatever the indices, a loop that returns has pushed cells between 0
    and the upper corner only. *)
Lemma cells_cols_safe (row maxCol : Z) (fuel : nat) : ∀ col cells cells',
  cells_cols fuel row col maxCol cells = Some cells' → (0 ≤ col)%Z →
  ∀ a, a ∈ cells' →
       a ∈ cells ∨ (A1.row a = row ∧ 0 ≤ A1.col a ≤ maxCol)%Z.
Proof.
  induction fuel as [|fuel IH]; intros col cells cells' Hloop Hcol a Ha; [done|].
  cbn [cells_cols] in Hloop.
  destruct (Z.leb_spec col maxCol); [|simplify_eq; by left].
  destruct (IH _ _ _ Hloop (incr_nonneg col Hcol) a Ha) as [Hin|?]; [|by right].
  apply elem_of_app in Hin as [?|Hin]; [by left|].
  apply list_elem_of_singleton in Hin as ->. right. simpl. lia.
Qed.

Lemma cells_rows_safe (maxRow minCol maxCol : Z) (fuel : nat) : ∀ row cells cells',
  cells_rows fuel row maxRow minCol maxCol cells = Some cells' →
  (0 ≤ row)%Z → (0 ≤ minCol)%Z →
  ∀ a, a ∈ cells' →
       a ∈ cells ∨ (0 ≤ A1.row a ≤ maxRow ∧ 0 ≤ A1.col a ≤ maxCol)%Z.
Proof.
  induction fuel as [|fuel IH]; intros row cells cells' Hloop Hrow Hcol a Ha;
    [done|].
  cbn [cells_rows] in Hloop.
  destruct (Z.leb_spec row maxRow); [|simplify_eq; by left].
  destruct (cells_cols (JSNumber.loop_fuel minCol maxCol) row minCol maxCol cells)
    as [cells1|] eqn:Hcols; [|done]. cbn [mbind option_bind] in Hloop.
  destruct (IH _ _ _ Hloop (incr_nonneg row Hrow) Hcol a Ha) as [Hin|?];
    [|by right].
  destruct (cells_cols_safe _ _ _ _ _ _ Hcols Hcol a Hin) as [?|[? ?]];
    [by left|right; lia].
Qed.

(** X6. For two corners whose rows and columns are indices of a sheet
    (non-negative and below [2^53]), [getRangeCells] returns, and lists
    the inclusive rectangle spanned by the corners, whatever their order:
    a cell is listed exactly when its row and its column lie between
    those of the corners, no cell is listed twice, the list has
    (rows × columns) entries, and swapping the corners gives the same
    list. *)
Theorem getRangeCells_rectangle (start end_ : CellAddress) :
  (0 ≤ row start < 2 ^ 53)%Z → (0 ≤ col start < 2 ^ 53)%Z →
  (0 ≤ row end_ < 2 ^ 53)%Z → (0 ≤ col end_ < 2 ^ 53)%Z →
  ∃ cells,
    getRangeCells start end_ = Some cells
    ∧ (∀ c r,
         {| col := c; row := r |} ∈ cells
         ↔ (Z.min (row start) (row end_) ≤ r ≤ Z.max (row start) (row end_))%Z
           ∧ (Z.min (col start) (col end_) ≤ c ≤ Z.max (col start) (col end_))%Z)
    ∧ NoDup cells
    ∧ Z.of_nat (length cells)
      = ((Z.abs (row start - row end_) + 1) * (Z.abs (col start - col end_) + 1))%Z
    ∧ getRangeCells end_ start = Some cells.
Proof.
  intros Hsr Hsc Her Hec. exists (rectangle start end_). split_and!.
  - by apply getRangeCells_bounded.
  - apply elem_of_rectangle.
  - apply NoDup_rectangle.
  - apply length_rectangle.
  - rewrite getRangeCells_bounded by done. f_equal. unfold rectangle.
    by rewrite (Z.min_comm (row end_)), (Z.max_comm (row end_)),
      (Z.min_comm (col end_)), (Z.max_comm (col end_)).
Qed.

Lemma getRangeCells_rectangle_example :
  ∃ cells,
    getRangeCells {| col := 2; row := 1 |} {| col := 1; row := 0 |} = Some cells
    ∧ cells = [{| col := 1; row := 0 |}; {| col := 2; row := 0 |};
               {| col := 1; row := 1 |}; {| col := 2; row := 1 |}]
    ∧ NoDup cells
    ∧ getRangeCells {| col := 1; row := 0 |} {| col := 2; row := 1 |} = Some cells.
Proof.
  destruct (getRangeCells_rectangle {| col := 2; row := 1 |} {| col := 1; row := 0 |})
    as (cells & Hcells & _ & Hnd & _ & Hswap); [simpl; lia..|].
  exists cells. split_and!; [exact Hcells| |exact Hnd|exact Hswap].
  vm_compute in Hcells. by injection Hcells as <-.
Defined.

(** X7. A range between two corners that [isValidAddress] accepts stays
    on the sheet: every cell [getRangeCells] lists is accepted for the
    same bounds; and on a sheet of at most [2^53] rows and columns
    [getRangeCells] returns for such corners. *)
Theorem getRangeCells_within_bounds (start end_ : CellAddress)
    (maxCols maxRows : Z) :
  isValidAddress start maxCols maxRows = true →
  isValidAddress end_ maxCols maxRows = true →
  (∀ cells addr,
     getRangeCells start end_ = Some cells → addr ∈ cells →
     isValidAddress addr maxCols maxRows = true)
  ∧ ((maxCols ≤ 2 ^ 53)%Z → (maxRows ≤ 2 ^ 53)%Z →
     ∃ cells, getRangeCells start end_ = Some cells).
Proof.
  unfold isValidAddress.
  rewrite !andb_true_iff, !Z.leb_le, !Z.ltb_lt.
  intros Hstart Hend. split.
  - intros cells addr Hloop Hin. unfold getRangeCells in Hloop.
    rewrite !andb_true_iff, !Z.leb_le, !Z.ltb_lt.
    destruct (cells_rows_safe _ _ _ _ _ _ _ Hloop ltac:(lia) ltac:(lia) addr Hin)
      as [Hnil|?]; [by apply elem_of_nil in Hnil|lia].
  - intros Hcols Hrows. exists (rectangle start end_).
    apply getRangeCells_bounded; unfold index_ok; lia.
Qed.

Lemma getRangeCells_within_bounds_example :
  getRangeCells {| col := 2; row := 1 |} {| col := 1; row := 0 |}
  = Some [{| col := 1; row := 0 |}; {| col := 2; row := 0 |};
          {| col := 1; row := 1 |}; {| col := 2; row := 1 |}]
  ∧ isValidAddress {| col := 2; row := 0 |} 26 100 = true
  ∧ ∃ cells,
      getRangeCells {| col := 2; row := 1 |} {| col := 1; row := 0 |} = Some cells.
Proof.
  split; [reflexivity|].
  destruct (getRangeCells_within_bounds
              {| col := 2; row := 1 |} {| col := 1; row := 0 |} 26 100)
    as [Hin Hret]; [reflexivity|reflexivity|].
  split.
  - apply (Hin [{| col := 1; row := 0 |}; {| col := 2; row := 0 |};
                {| col := 1; row := 1 |}; {| col := 2; row := 1 |}]);
      [reflexivity|].
    apply elem_of_cons. right. apply elem_of_cons. by left.
  - apply Hret; lia.
Defined.

End A1Conversions.

(** ** The dependency graph: what the mutations record and the
    recalculation order *)
Section GraphOperations.
Import Graph.
Local Open Scope list_scope.

Lemma is_Some_fmap_dependencies (g : Graph) x :
  is_Some (dependencies <$> g !! x) ↔ is_Some (g !! x).
Proof. by rewrite fmap_is_Some. Qed.

Lemma updateCell_keeps_nodes k deps (g : Graph) x :
  is_Some (updateCell k deps g !! x) ↔ x = k ∨ x ∈ deps ∨ is_Some (g !! x).
Proof.
  rewrite <- !is_Some_fmap_dependencies, lookup_updateCell_dependencies.
  repeat case_decide; split; intros Hx; auto;
    try (by destruct Hx as [?|[?|?]]).
Qed.

Lemma removeCell_depends_on k (g : Graph) a b :
  edge_symmetric g →
  depends_on (removeCell k g) a b ↔ a ≠ k ∧ b ≠ k ∧ depends_on g a b.
Proof.
  intros Hsym. destruct (g !! k) as [node|] eqn:Hk.
  2: { unfold removeCell. rewrite Hk. split; [|by intros (_ & _ & ?)].
       intros Hab. split_and!; [| |done].
       - intros ->. destruct Hab as (n & Hn & _). by rewrite Hk in Hn.
       - intros ->. apply Hsym in Hab as (n & Hn & _). by rewrite Hk in Hn. }
  rewrite depends_on_alt, (lookup_removeCell_dependencies _ _ _ _ Hk).
  destruct (decide (a = k)) as [->|Ha].
  { split; [by intros (? & ? & ?)|]. by intros (? & _). }
  destruct (decide (b = k)) as [->|Hb].
  { split; [|by intros (_ & ? & _)]. intros (l & Hl & Hin). exfalso.
    destruct (g !! a) as [na|] eqn:Hna; simplify_eq/=.
    destruct (decide (a ∈ live_dependents k node)) as [Hd|Hd].
    - by apply elem_of_delete in Hin as [? _].
    - apply Hd. simpl in Hin.
      assert (dependent_of g k a) as (n' & Hn' & Ha').
      { apply Hsym. by exists na. }
      simplify_eq. unfold live_dependents.
      case_decide; simpl; [|done]. by apply elem_of_delete. }
  rewrite maybe_delete_other by done. rewrite <- depends_on_alt. naive_solver.
Qed.

Lemma removeCell_keeps_nodes k (g : Graph) x :
  is_Some (removeCell k g !! x) ↔ x ≠ k ∧ is_Some (g !! x).
Proof.
  destruct (g !! k) as [node|] eqn:Hk.
  - rewrite <- !is_Some_fmap_dependencies,
      (lookup_removeCell_dependencies _ _ _ _ Hk).
    case_decide; [split; [by intros []|by intros [? _]]|].
    rewrite !fmap_is_Some. naive_solver.
  - unfold removeCell. rewrite Hk. split; [|by intros [_ ?]].
    intros Hx. split; [|done]. intros ->. rewrite Hk in Hx. by destruct Hx.
Qed.

(** X8. [updateCell(key, dependencies)] replaces what [key] depends on by
    the given list and touches no other cell's dependencies; the cells
    that depend on others than [key] stay recorded; [key] and each of its
    dependencies have a node afterwards, and no node is lost. *)
Theorem updateCell_records_dependencies (g : Graph) (k : string) (deps : list string) :
  (∀ b, depends_on (updateCell k deps g) k b ↔ b ∈ deps)
  ∧ (∀ a b, a ≠ k → depends_on (updateCell k deps g) a b ↔ depends_on g a b)
  ∧ (∀ a b, a ≠ k → dependent_of (updateCell k deps g) b a ↔ dependent_of g b a)
  ∧ (∀ x, is_Some (updateCell k deps g !! x)
          ↔ x = k ∨ x ∈ deps ∨ is_Some (g !! x)).
Proof.
  split_and!.
  - apply updateCell_depends_on_self.
  - intros a b. apply updateCell_depends_on_other.
  - intros a b. apply updateCell_dependent_of_other.
  - apply updateCell_keeps_nodes.
Qed.

(** X9. In every reachable graph, [removeCell(key)] forgets the cell
    altogether: [key] has no node afterwards, the recorded edges are
    exactly the former edges that do not touch [key] (in both directions),
    and every other node is kept. *)
Theorem removeCell_forgets_cell (g : Graph) (k : string) :
  reachable g →
  removeCell k g !! k = None
  ∧ (∀ a b, depends_on (removeCell k g) a b
            ↔ a ≠ k ∧ b ≠ k ∧ depends_on g a b)
  ∧ (∀ a b, dependent_of (removeCell k g) b a
            ↔ a ≠ k ∧ b ≠ k ∧ dependent_of g b a)
  ∧ (∀ x, is_Some (removeCell k g !! x) ↔ x ≠ k ∧ is_Some (g !! x)).
Proof.
  intros Hreach. pose proof (reachable_symmetric g Hreach) as Hsym.
  pose proof (removeCell_symmetric k g Hsym) as Hsym'.
  split_and!.
  - apply eq_None_not_Some. rewrite removeCell_keeps_nodes. by intros [? _].
  - intros a b. by apply removeCell_depends_on.
  - intros a b. rewrite <- (Hsym' a b), <- (Hsym a b).
    by apply removeCell_depends_on.
  - apply removeCell_keeps_nodes.
Qed.

Lemma removeCell_forgets_cell_example :
  let g := updateCell "r0c2" ["r0c0"] (updateCell "r0c0" ["r0c1"] ∅) in
  removeCell "r0c0" g !! "r0c0" = None
  ∧ (∀ a b, depends_on (removeCell "r0c0" g) a b
            ↔ a ≠ "r0c0" ∧ b ≠ "r0c0" ∧ depends_on g a b)
  ∧ (∀ a b, dependent_of (removeCell "r0c0" g) b a
            ↔ a ≠ "r0c0" ∧ b ≠ "r0c0" ∧ dependent_of g b a)
  ∧ (∀ x, is_Some (removeCell "r0c0" g !! x) ↔ x ≠ "r0c0" ∧ is_Some (g !! x)).
Proof.
  cbv zeta. apply removeCell_forgets_cell.
  do 2 apply reachable_updateCell. apply reachable_new.
Defined.

(** The result of [getAffectedCells]: the transitive dependents, once
    each. *)
Lemma getAffectedCells_closure (g : Graph) (k : string) :
  ∃ r, getAffectedCells g k = Some r
       ∧ NoDup r ∧ (∀ y, y ∈ r ↔ tc (dependent_of g) k y).
Proof.
  unfold getAffectedCells.
  destruct (affected_loop_terminates g (S (S (total_dependents g)))
              JSSet.empty [k] JSSet.empty) as [r Hr].
  { apply NoDup_nil_2. }
  { simpl. lia. }
  exists r. split; [done|].
  destruct (affected_loop_inv g k _ _ _ _ _ Hr) as [Hnd Hmem]; [|done].
  unfold affected_inv, JSSet.empty. split_and!.
  - apply NoDup_nil_2.
  - intros y Hy. by apply elem_of_nil in Hy.
  - intros x Hx. left. by apply list_elem_of_singleton in Hx.
  - intros x y Hx. by apply elem_of_nil in Hx.
  - left. by apply list_elem_of_singleton.
  - intros y Hy. by apply elem_of_nil in Hy.
Qed.

Lemma fold_add_spec (ds : list string) : ∀ acc,
  NoDup acc →
  NoDup (foldl (λ s d, JSSet.add d s) acc ds)
  ∧ ∀ y, y ∈ foldl (λ s d, JSSet.add d s) acc ds ↔ y ∈ acc ∨ y ∈ ds.
Proof.
  induction ds as [|d ds IH]; intros acc Hnd; cbn [foldl].
  - split; [done|]. intros y. rewrite elem_of_nil. naive_solver.
  - destruct (IH (JSSet.add d acc) (NoDup_add d acc Hnd)) as [Hnd' Hmem].
    split; [done|]. intros y. rewrite Hmem, elem_of_add, elem_of_cons.
    naive_solver.
Qed.

(** The first loop of [getRecalcOrder]: the union of the affected cells. *)
Lemma recalc_affected_spec (g : Graph) (changed : list string) : ∀ acc,
  NoDup acc →
  ∃ affected,
    foldl (λ acc k,
             affected ← acc;
             deps ← getAffectedCells g k;
             Some (foldl (λ s d, JSSet.add d s) affected deps))
          (Some acc) changed = Some affected
    ∧ NoDup affected
    ∧ ∀ y, y ∈ affected
           ↔ y ∈ acc ∨ ∃ k, k ∈ changed ∧ tc (dependent_of g) k y.
Proof.
  induction changed as [|k changed IH]; intros acc Hnd; cbn [foldl].
  - exists acc. split_and!; [done..|]. intros y. split; [auto|].
    intros [?|(k & Hk & _)]; [done|]. by apply elem_of_nil in Hk.
  - destruct (getAffectedCells_closure g k) as (r & -> & _ & Hr). simpl.
    destruct (fold_add_spec r acc Hnd) as [Hnd' Hmem].
    destruct (IH _ Hnd') as (affected & -> & Hnd'' & Hmem').
    exists affected. split_and!; [done..|]. intros y.
    rewrite Hmem', Hmem, Hr. split.
    + intros [[?|?]|(k' & ? & ?)]; [by left|right..].
      * exists k. split; [by apply elem_of_cons; left|done].
      * exists k'. split; [by apply elem_of_cons; right|done].
    + intros [?|(k' & [->|?]%elem_of_cons & ?)]; eauto.
Qed.

Lemma tc_dependent_of_node (g : Graph) k y :
  edge_symmetric g → tc (dependent_of g) k y → is_Some (g !! y).
Proof.
  intros Hsym Htc. induction Htc as [x y Hxy|x z y _ _ IH]; [|done].
  apply Hsym in Hxy as (n & Hn & _). by eexists.
Qed.

Lemma depends_within_perm (g : Graph) (l1 l2 : list string) a b :
  l1 ≡ₚ l2 → depends_within g l1 a b ↔ depends_within g l2 a b.
Proof. intros Hperm. unfold depends_within. by rewrite Hperm. Qed.

Lemma tc_depends_within_perm (g : Graph) (l1 l2 : list string) x y :
  l1 ≡ₚ l2 → tc (depends_within g l1) x y → tc (depends_within g l2) x y.
Proof.
  intros Hperm Htc.
  induction Htc as [x y Hxy|x z y Hxz _ IH].
  - apply tc_once. by apply (depends_within_perm g l1 l2).
  - eapply tc_l; [|done]. by apply (depends_within_perm g l1 l2).
Qed.

(** X10. In every reachable graph, [getRecalcOrder(changedKeys)] returns
    the cells that depend, directly or not, on one of the changed keys:
    each exactly once and no other cell.  Unless these cells hold a
    dependency cycle among themselves, each of them is listed after the
    cells of the list it depends on. *)
Theorem getRecalcOrder_lists_dependents (g : Graph) (changedKeys : list string) :
  reachable g →
  ∃ order,
    getRecalcOrder g changedKeys = Some order
    ∧ NoDup order
    ∧ (∀ y, y ∈ order ↔ ∃ k, k ∈ changedKeys ∧ tc (dependent_of g) k y)
    ∧ ((¬ ∃ x, tc (depends_within g order) x x) →
       ∀ a b, depends_within g order a b → listed_before order b a).
Proof.
  intros Hreach.
  pose proof (reachable_symmetric g Hreach) as Hsym.
  pose proof (reachable_sets_nodup g Hreach) as Hwf.
  unfold getRecalcOrder.
  destruct (recalc_affected_spec g changedKeys JSSet.empty)
    as (affected & -> & Hnd & Hmem); [apply NoDup_nil_2|].
  assert (∀ y, y ∈ affected ↔ ∃ k, k ∈ changedKeys ∧ tc (dependent_of g) k y)
    as Hmem'.
  { intros y. rewrite Hmem. unfold JSSet.empty. rewrite elem_of_nil.
    naive_solver. }
  simpl.
  destruct (getTopologicalOrder_spec g affected Hsym Hwf Hnd)
    as (res & -> & Hord & Hcyc).
  { intros y (k & _ & Htc)%Hmem'. by eapply tc_dependent_of_node. }
  simpl. destruct res as [order|].
  - destruct (Hord order eq_refl) as [Hperm Hbefore].
    exists order. split_and!; [done| | |].
    + by rewrite Hperm.
    + intros y. by rewrite Hperm.
    + intros _ a b Hab. apply Hbefore. by rewrite <- (depends_within_perm g _ _ a b Hperm).
  - exists affected. split_and!; [done..|].
    intros Hacyc. exfalso. apply Hacyc. by apply Hcyc.
Qed.

Lemma getRecalcOrder_lists_dependents_example :
  let g := updateCell "r0c3" ["r0c2"]
             (updateCell "r0c2" ["r0c0"] (updateCell "r0c0" ["r0c1"] ∅)) in
  getRecalcOrder g ["r0c1"] = Some ["r0c0"; "r0c2"; "r0c3"]
  ∧ ∃ order,
      getRecalcOrder g ["r0c1"] = Some order
      ∧ NoDup order
      ∧ (∀ y, y ∈ order ↔ ∃ k, k ∈ ["r0c1"] ∧ tc (dependent_of g) k y)
      ∧ ((¬ ∃ x, tc (depends_within g order) x x) →
         ∀ a b, depends_within g order a b → listed_before order b a).
Proof.
  cbv zeta. split; [vm_compute; reflexivity|].
  apply getRecalcOrder_lists_dependents.
  do 3 apply reachable_updateCell. apply reachable_new.
Defined.

End GraphOperations.

(** ** The dependency graph: cycle detection *)
Section GraphCycles.
Import Graph.
Local Open Scope list_scope.

Lemma delete_add_fresh x (s : list string) :
  x ∉ s → JSSet.delete x (JSSet.add x s) = s.
Proof.
  intros Hx. unfold JSSet.add, JSSet.has, JSSet.delete.
  rewrite bool_decide_eq_false_2 by done.
  rewrite filter_app, (filter_cons_False _ x) by (by intros ?).
  rewrite filter_nil, app_nil_r.
  induction s as [|y s IH]; [done|].
  apply not_elem_of_cons in Hx as [Hne Hx].
  rewrite filter_cons_True by done. by rewrite IH.
Qed.

Section Search.
Variable g : Graph.

(** A dependency cycle can be reached from [u]. *)
Definition reaches_cycle (u : string) : Prop :=
  ∃ x, rtc (depends_on g) u x ∧ tc (depends_on g) x x.

Lemma reaches_cycle_step u v :
  depends_on g u v → reaches_cycle v → reaches_cycle u.
Proof. intros Huv (x & Hvx & Hxx). exists x. split; [by eapply rtc_l|done]. Qed.

Lemma no_cycle_step u :
  (∀ v, depends_on g u v → ¬ reaches_cycle v) → ¬ reaches_cycle u.
Proof.
  intros Hdeps (x & Hux & Hxx).
  apply rtc_inv in Hux as [->|(v & Huv & Hvx)].
  - inversion Hxx as [? ? Huv|? z ? Huz Hzv]; subst.
    + apply (Hdeps x Huv). exists x. split; [done|by apply tc_once].
    + apply (Hdeps z Huz). exists x. split; [by apply tc_rtc|done].
  - apply (Hdeps v Huv). by exists x.
Qed.

(** The cells [dfs] has returned from lie on no cycle and reach none. *)
Definition finished_ok (visited recursionStack : list string) : Prop :=
  ∀ u, u ∈ visited → u ∉ recursionStack → ¬ reaches_cycle u.

(** What a call [dfs(current)] guarantees when it returns. *)
Definition dfs_post (current : string) (visited recursionStack : list string)
    (r : bool * list string * list string) : Prop :=
  match r with
  | (true, _, _) => reaches_cycle current
  | (false, visited', recursionStack') =>
      recursionStack' = recursionStack
      ∧ visited ⊆ visited'
      ∧ current ∈ visited'
      ∧ finished_ok visited' recursionStack
  end.

Definition dfs_ok
    (rec : string → list string → list string → option (bool * list string * list string))
    : Prop :=
  ∀ current visited recursionStack r,
    rec current visited recursionStack = Some r →
    current ∉ visited →
    recursionStack ⊆ visited →
    finished_ok visited recursionStack →
    (∀ s, s ∈ recursionStack → tc (depends_on g) s current) →
    dfs_post current visited recursionStack r.

Lemma dfs_loop_ok rec (c : string) (deps : list string) :
  dfs_ok rec →
  ∀ visited recursionStack r,
    dfs_loop rec deps visited recursionStack = Some r →
    recursionStack ⊆ visited →
    finished_ok visited recursionStack →
    (∀ s, s ∈ recursionStack → s = c ∨ tc (depends_on g) s c) →
    (∀ d, d ∈ deps → depends_on g c d) →
    match r with
    | (true, _, _) => reaches_cycle c
    | (false, visited', recursionStack') =>
        recursionStack' = recursionStack
        ∧ visited ⊆ visited'
        ∧ finished_ok visited' recursionStack
        ∧ ∀ d, d ∈ deps → d ∈ visited' ∧ d ∉ recursionStack
    end.
Proof.
  intros Hrec. induction deps as [|dep deps IH];
    intros visited stack r Hr Hsub Hfin Hstack Hdeps; cbn [dfs_loop] in Hr.
  - simplify_eq. split_and!; [done..|]. intros d Hd. by apply elem_of_nil in Hd.
  - assert (depends_on g c dep) as Hdep by (apply Hdeps, elem_of_cons; by left).
    assert (∀ d, d ∈ deps → depends_on g c d) as Hdeps'
      by (intros d Hd; apply Hdeps, elem_of_cons; by right).
    unfold JSSet.has in Hr.
    destruct (decide (dep ∈ visited)) as [Hvis|Hvis].
    + rewrite (bool_decide_eq_true_2 _ Hvis) in Hr. cbn [negb] in Hr.
      destruct (decide (dep ∈ stack)) as [Hst|Hst].
      * rewrite (bool_decide_eq_true_2 _ Hst) in Hr. simplify_eq.
        destruct (Hstack dep Hst) as [->|Htc].
        -- exists c. split; [done|by apply tc_once].
        -- exists dep. split; [by apply rtc_once|]. by eapply tc_r.
      * rewrite (bool_decide_eq_false_2 _ Hst) in Hr.
        specialize (IH _ _ _ Hr Hsub Hfin Hstack Hdeps').
        destruct r as [[[] visited'] stack']; [done|].
        destruct IH as (-> & Hsub' & Hfin' & Hall).
        split_and!; [done..|]. intros d [->|Hd]%elem_of_cons; [|by apply Hall].
        split; [by apply Hsub'|done].
    + rewrite (bool_decide_eq_false_2 _ Hvis) in Hr. cbn [negb] in Hr.
      destruct (rec dep visited stack) as [[[b v1] s1]|] eqn:Hcall; [|done].
      assert (dfs_post dep visited stack (b, v1, s1)) as Hpost.
      { apply Hrec; try done. intros s Hs.
        destruct (Hstack s Hs) as [->|Htc]; [by apply tc_once|by eapply tc_r]. }
      destruct b.
      * simplify_eq. by apply (reaches_cycle_step c dep).
      * destruct Hpost as (-> & Hsub1 & Hin1 & Hfin1).
        assert (stack ⊆ v1) as Hsub2 by (intros x Hx; by apply Hsub1, Hsub).
        specialize (IH _ _ _ Hr Hsub2 Hfin1 Hstack Hdeps').
        destruct r as [[[] visited'] stack']; [done|].
        destruct IH as (-> & Hsub' & Hfin' & Hall).
        split_and!; [done| |done|].
        -- intros x Hx. by apply Hsub', Hsub1.
        -- intros d [->|Hd]%elem_of_cons; [|by apply Hall].
           split; [by apply Hsub'|]. intros Hst. by apply Hvis, Hsub.
Qed.

Lemma dfs_dfs_ok fuel : dfs_ok (dfs fuel g).
Proof.
  induction fuel as [|fuel IH];
    intros current visited stack r Hr Hfresh Hsub Hfin Hstack; [done|].
  cbn [dfs] in Hr.
  set (deps := match g !! current with
               | Some node => dependencies node | None => [] end) in Hr.
  assert (∀ d, depends_on g current d ↔ d ∈ deps) as Hedges.
  { intros d. unfold depends_on, deps. destruct (g !! current) as [node|].
    - split; [by intros (n & [= <-] & ?)|]. intros Hd. by exists node.
    - split; [by intros (n & ? & _)|]. intros Hd. by apply elem_of_nil in Hd. }
  destruct (dfs_loop (dfs fuel g) deps (JSSet.add current visited)
              (JSSet.add current stack)) as [[[b v1] s1]|] eqn:Hloop; [|done].
  assert (current ∉ stack) as Hfresh' by (intros Hin; by apply Hfresh, Hsub).
  assert (JSSet.add current stack ⊆ JSSet.add current visited) as P1.
  { intros x [->|Hx]%elem_of_add; apply elem_of_add; [by left|right].
    by apply Hsub. }
  assert (finished_ok (JSSet.add current visited) (JSSet.add current stack)) as P2.
  { intros u [->|Hu]%elem_of_add Hnot.
    - exfalso. apply Hnot, elem_of_add. by left.
    - apply Hfin; [done|]. intros Hin. apply Hnot, elem_of_add. by right. }
  assert (∀ s, s ∈ JSSet.add current stack →
               s = current ∨ tc (depends_on g) s current) as P3.
  { intros s [->|Hs]%elem_of_add; [by left|right]. by apply Hstack. }
  assert (∀ d, d ∈ deps → depends_on g current d) as P4.
  { intros d Hd. by apply Hedges. }
  pose proof (dfs_loop_ok (dfs fuel g) current deps IH _ _ _ Hloop P1 P2 P3 P4)
    as Hpost.
  destruct b; simplify_eq; [done|].
  destruct Hpost as (-> & Hsub1 & Hfin1 & Hall).
  split_and!.
  - by apply delete_add_fresh.
  - intros x Hx. apply Hsub1, elem_of_add. by right.
  - apply Hsub1, elem_of_add. by left.
  - intros u Hu Hnot. destruct (decide (u = current)) as [->|Hne].
    + apply no_cycle_step. intros v Hv%Hedges.
      destruct (Hall v Hv) as [Hv1 Hv2]. by apply Hfin1.
    + apply Hfin1; [done|]. intros [->|Hin]%elem_of_add; done.
Qed.

(** *** Termination: the fuel of [hasCycle] is enough *)

Variable universe : gset string.
Hypothesis Hclosed : ∀ a b, depends_on g a b → b ∈ universe.

Definition unvisited (visited : list string) : nat :=
  size (universe ∖ list_to_set visited).

Lemma unvisited_add current visited :
  current ∈ universe → current ∉ visited →
  (unvisited (JSSet.add current visited) < unvisited visited)%nat.
Proof.
  intros Hin Hfresh. unfold unvisited. apply subset_size.
  apply strict_spec_alt. split.
  - intros x. rewrite !elem_of_difference, !elem_of_list_to_set, elem_of_add.
    naive_solver.
  - intros Heq. assert (current ∈ universe ∖ list_to_set visited) as Hc.
    { apply elem_of_difference. by rewrite elem_of_list_to_set. }
    rewrite <- Heq in Hc. apply elem_of_difference in Hc as [_ Hc].
    apply Hc. rewrite elem_of_list_to_set, elem_of_add. by left.
Qed.

Lemma unvisited_mono (v1 v2 : list string) :
  v1 ⊆ v2 → (unvisited v2 ≤ unvisited v1)%nat.
Proof.
  intros Hsub. unfold unvisited. apply subseteq_size.
  intros x. rewrite !elem_of_difference, !elem_of_list_to_set. naive_solver.
Qed.

Definition terminates
    (rec : string → list string → list string → option (bool * list string * list string))
    (bound : nat) : Prop :=
  ∀ current visited recursionStack,
    current ∈ universe → current ∉ visited →
    (unvisited visited ≤ bound)%nat →
    ∃ b visited' recursionStack',
      rec current visited recursionStack = Some (b, visited', recursionStack')
      ∧ visited ⊆ visited'.

Lemma dfs_loop_terminates rec bound (deps : list string) :
  terminates rec bound →
  ∀ visited recursionStack,
    (∀ d, d ∈ deps → d ∈ universe) →
    (unvisited visited ≤ bound)%nat →
    ∃ b visited' recursionStack',
      dfs_loop rec deps visited recursionStack = Some (b, visited', recursionStack')
      ∧ visited ⊆ visited'.
Proof.
  intros Hrec. induction deps as [|dep deps IH];
    intros visited stack Hdeps Hbound; cbn [dfs_loop].
  - by eexists _, _, _.
  - assert (∀ d, d ∈ deps → d ∈ universe) as Hdeps'
      by (intros d Hd; apply Hdeps, elem_of_cons; by right).
    unfold JSSet.has.
    destruct (decide (dep ∈ visited)) as [Hvis|Hvis].
    + rewrite (bool_decide_eq_true_2 _ Hvis). cbn [negb].
      case_bool_decide; [by eexists _, _, _|]. by apply IH.
    + rewrite (bool_decide_eq_false_2 _ Hvis). cbn [negb].
      destruct (Hrec dep visited stack) as (b & v1 & s1 & -> & Hsub);
        [apply Hdeps, elem_of_cons; by left|done..|].
      destruct b; [by eexists _, _, _|].
      destruct (IH v1 s1 Hdeps') as (b & v2 & s2 & -> & Hsub').
      { pose proof (unvisited_mono _ _ Hsub). lia. }
      eexists _, _, _. split; [done|]. intros x Hx. by apply Hsub', Hsub.
Qed.

Lemma dfs_terminates fuel : terminates (dfs fuel g) fuel.
Proof.
  induction fuel as [|fuel IH]; intros current visited stack Hin Hfresh Hbound.
  - exfalso. pose proof (unvisited_add current visited Hin Hfresh). lia.
  - cbn [dfs].
    pose proof (unvisited_add current visited Hin Hfresh) as Hlt.
    destruct (dfs_loop_terminates (dfs fuel g) fuel
                (match g !! current with
                 | Some node => dependencies node | None => [] end) IH
                (JSSet.add current visited) (JSSet.add current stack))
      as (b & v1 & s1 & -> & Hsub).
    { intros d Hd. apply (Hclosed current). unfold depends_on.
      destruct (g !! current) as [node|]; [by exists node|].
      by apply elem_of_nil in Hd. }
    { lia. }
    assert (visited ⊆ v1) as Hsub'.
    { intros x Hx. apply Hsub, elem_of_add. by right. }
    destruct b; by eexists _, _, _.
Qed.

End Search.

Lemma search_keys_closed (g : Graph) (key : string) a b :
  depends_on g a b → b ∈ search_keys g key.
Proof.
  intros (n & Hn & Hb). unfold search_keys. apply elem_of_union. right.
  apply elem_of_union_list. exists (list_to_set (dependencies n)).
  split; [|by apply elem_of_list_to_set].
  apply list_elem_of_fmap. exists (a, n). split; [done|].
  by apply elem_of_map_to_list.
Qed.

Lemma hasCycle_spec (g : Graph) (key : string) :
  ∃ b, hasCycle g key = Some b ∧ (b = true ↔ reaches_cycle g key).
Proof.
  unfold hasCycle.
  destruct (dfs_terminates g (search_keys g key) (search_keys_closed g key)
              (S (size (search_keys g key))) key JSSet.empty JSSet.empty)
    as (b & v & s & Hdfs & _).
  { unfold search_keys. set_solver. }
  { apply not_elem_of_nil. }
  { unfold unvisited. etrans; [apply subseteq_size|]; [|by apply Nat.le_succ_diag_r].
    intros x. rewrite elem_of_difference. naive_solver. }
  rewrite Hdfs. simpl. exists b. split; [done|].
  assert (dfs_post g key JSSet.empty JSSet.empty (b, v, s)) as Hpost.
  { apply (dfs_dfs_ok g _ key JSSet.empty JSSet.empty _ Hdfs).
    - apply not_elem_of_nil.
    - done.
    - intros u Hu. by apply elem_of_nil in Hu.
    - intros x Hx. by apply elem_of_nil in Hx. }
  destruct b; simpl in Hpost; [done|].
  destruct Hpost as (_ & _ & Hin & Hfin).
  split; [done|]. intros Hcycle. exfalso.
  apply (Hfin key Hin); [apply not_elem_of_nil|done].
Qed.

(** X11. [hasCycle(key)] always returns, and it returns [true] exactly
    when a dependency cycle can be reached from [key] by following
    dependencies: [key] lies on a cycle, or depends (directly or not) on a
    cell that does.  It holds for every graph, reachable or not. *)
Theorem hasCycle_detects_reachable_cycle (g : Graph) (key : string) :
  ∃ b, hasCycle g key = Some b
       ∧ (b = true
          ↔ ∃ x, rtc (depends_on g) key x ∧ tc (depends_on g) x x).
Proof. apply hasCycle_spec. Qed.

(** The cycle tests of the repository, replayed. *)
Example test_detects_direct_cycles :
  hasCycle (updateCell "r0c0" ["r0c0"] ∅) "r0c0" = Some true.
Proof. vm_compute. reflexivity. Qed.

Example test_detects_indirect_cycles :
  let g := updateCell "r0c2" ["r0c0"]
             (updateCell "r0c1" ["r0c2"] (updateCell "r0c0" ["r0c1"] ∅)) in
  hasCycle g "r0c0" = Some true ∧ hasCycle g "r0c1" = Some true
  ∧ hasCycle g "r0c2" = Some true.
Proof. vm_compute. auto. Qed.

Example test_no_cycles_in_acyclic_graph :
  let g := updateCell "r0c3" ["r0c2"]
             (updateCell "r0c1" ["r0c2"] (updateCell "r0c0" ["r0c1"] ∅)) in
  hasCycle g "r0c0" = Some false ∧ hasCycle g "r0c1" = Some false
  ∧ hasCycle g "r0c2" = Some false.
Proof. vm_compute. auto. Qed.

(** A cell that only depends on a cycle is reported too. *)
Example hasCycle_downstream_of_cycle :
  hasCycle (updateCell "r0c0" ["r0c1"] (updateCell "r0c1" ["r0c1"] ∅)) "r0c0"
  = Some true.
Proof. vm_compute. reflexivity. Qed.

End GraphCycles.

(** ** The evaluator: recorded references, aggregates and ranges *)
Section EvaluatorMore.
Import Chars A1 Sheet Evaluator.
Context {num : Type} `{NT : Natives num}.
Implicit Types (g getCellValue : CellGetter (num := num)).
Local Open Scope list_scope.

Local Ltac unfold_M :=
  unfold mbind, M_bind, bind, mret, M_ret, ret, throw, diverge, addRef, getCell in *.

(** *** The used references form a set, and hold what the formula names *)

(** [m] changes the used references only by adding to them: it keeps
    every property that [usedRefs.add] keeps. *)
Definition only_adds {A} (m : M A) : Prop :=
  ∀ (I : list string → Prop),
    (∀ ref refs, I refs → I (JSSet.add ref refs)) →
    ∀ refs, I refs → I (m refs).2.

Lemma only_adds_ret {A} (a : A) : only_adds (ret a).
Proof. by intros I HI refs Hrefs. Qed.

Lemma only_adds_throw {A} e : only_adds (@throw A e).
Proof. by intros I HI refs Hrefs. Qed.

Lemma only_adds_diverge {A} : only_adds (@diverge A).
Proof. by intros I HI refs Hrefs. Qed.

Lemma only_adds_bind {A B} (m : M A) (k : A → M B) :
  only_adds m → (∀ a, only_adds (k a)) → only_adds (bind m k).
Proof.
  intros Hm Hk I HI refs Hrefs. unfold bind.
  specialize (Hm I HI refs Hrefs).
  destruct (m refs) as [[a|e|] refs1]; simpl in *; [by apply Hk|done|done].
Qed.

Lemma only_adds_addRef ref : only_adds (addRef ref).
Proof. intros I HI refs Hrefs. by apply HI. Qed.

Lemma only_adds_getCell g ref : only_adds (getCell g ref).
Proof. by intros I HI refs Hrefs. Qed.

Lemma only_adds_toNumber v : only_adds (toNumber v).
Proof.
  destruct v; simpl; try apply only_adds_ret; try apply only_adds_throw.
  destruct (num_isNaN _); [apply only_adds_throw|apply only_adds_ret].
Qed.

Lemma only_adds_apply_operator op a b : only_adds (apply_operator op a b).
Proof.
  unfold apply_operator.
  repeat (destruct (_ =? _)%string; [try apply only_adds_ret|]);
    try apply only_adds_throw.
  destruct (num_is_zero b); [apply only_adds_throw|apply only_adds_ret].
Qed.

Lemma only_adds_apply_function name values : only_adds (apply_function name values).
Proof.
  unfold apply_function.
  repeat (destruct (_ =? _)%string; [apply only_adds_ret|]). apply only_adds_throw.
Qed.

Lemma only_adds_range_cols g row maxCol fuel : ∀ col values,
  only_adds (range_cols fuel g row col maxCol values).
Proof.
  induction fuel as [|fuel IH]; intros col values; cbn [range_cols].
  - apply only_adds_diverge.
  - destruct (col <=? maxCol)%Z; [|apply only_adds_ret].
    apply only_adds_bind; [apply only_adds_addRef|intros _].
    apply only_adds_bind; [apply only_adds_getCell|intros v]. apply IH.
Qed.

Lemma only_adds_range_rows g maxRow minCol maxCol fuel : ∀ row values,
  only_adds (range_rows fuel g row maxRow minCol maxCol values).
Proof.
  induction fuel as [|fuel IH]; intros row values; cbn [range_rows].
  - apply only_adds_diverge.
  - destruct (row <=? maxRow)%Z; [|apply only_adds_ret].
    apply only_adds_bind; [apply only_adds_range_cols|intros vs]. apply IH.
Qed.

Lemma only_adds_evaluate_range g start end_ : only_adds (evaluate_range g start end_).
Proof.
  unfold evaluate_range.
  apply only_adds_bind; [apply only_adds_addRef|intros _].
  apply only_adds_bind; [apply only_adds_addRef|intros _].
  destruct (a1ToAddress (strip_dollars start)),
    (a1ToAddress (strip_dollars end_)); try apply only_adds_throw.
  apply only_adds_bind; [apply only_adds_range_rows|intros; apply only_adds_ret].
Qed.

Lemma only_adds_collect_loop g args :
  Forall (λ node, only_adds (evaluate g node)) args →
  ∀ values, only_adds (collect_loop g args values).
Proof.
  induction 1 as [|arg args Harg _ IH]; intros values; cbn [collect_loop].
  - apply only_adds_ret.
  - apply only_adds_bind; [done|]. intros v. apply IH.
Qed.

Lemma only_adds_evaluate g node : only_adds (evaluate g node).
Proof.
  induction node as [v|s|ref|start end_|op l r IHl IHr|op e _|name args IH]
    using ASTNode_nested_ind.
  - apply only_adds_ret.
  - apply only_adds_ret.
  - cbn [evaluate].
    apply only_adds_bind; [apply only_adds_addRef|intros _].
    apply only_adds_bind; [apply only_adds_getCell|intros [x|]]; apply only_adds_ret.
  - apply only_adds_evaluate_range.
  - cbn [evaluate].
    apply only_adds_bind; [done|intros vl].
    apply only_adds_bind; [done|intros vr].
    apply only_adds_bind; [apply only_adds_toNumber|intros a].
    apply only_adds_bind; [apply only_adds_toNumber|intros b].
    apply only_adds_bind; [apply only_adds_apply_operator|intros n].
    apply only_adds_ret.
  - apply only_adds_throw.
  - intros I HI refs Hrefs. rewrite evaluate_FunctionCall. revert I HI refs Hrefs.
    apply only_adds_bind; [|intros; apply only_adds_ret].
    apply only_adds_bind; [|intros; apply only_adds_apply_function].
    by apply only_adds_collect_loop.
Qed.

(** The references a formula names. *)
Fixpoint references (node : ASTNode num) : list string :=
  match node with
  | CellRef cellRef => [cellRef]
  | RangeRef start end_ => [start; end_]
  | BinaryOp _ left_ right_ => references left_ ++ references right_
  | UnaryOp _ operand => references operand
  | FunctionCall _ args =>
      (fix all (l : list (ASTNode num)) : list string :=
         match l with
         | [] => []
         | arg :: l => references arg ++ all l
         end) args
  | _ => []
  end.

Lemma returned_refs {A} (m : M A) refs x :
  only_adds m → x ∈ refs → x ∈ (m refs).2.
Proof. intros Hm Hx. by apply (Hm (λ refs, x ∈ refs)); [intros; apply elem_of_add; right|]. Qed.

Lemma evaluate_records_references g node :
  ∀ refs v refs',
    evaluate g node refs = (Ret v, refs') →
    ∀ x, x ∈ references node → x ∈ refs'.
Proof.
  induction node as [n|s|ref|start end_|op l r IHl IHr|op e _|name args IH]
    using ASTNode_nested_ind; intros refs v refs' Heval x Hx.
  - by apply elem_of_nil in Hx.
  - by apply elem_of_nil in Hx.
  - apply list_elem_of_singleton in Hx as ->.
    cbn [evaluate] in Heval. unfold_M.
    destruct (g ref) as [[?|]| |]; simplify_eq; apply elem_of_add; by left.
  - cbn [evaluate] in Heval. unfold evaluate_range in Heval.
    assert (x ∈ JSSet.add end_ (JSSet.add start refs)) as Hin.
    { rewrite !elem_of_add. cbn [references] in Hx.
      apply elem_of_cons in Hx as [->|Hx]; [by right; left|].
      apply list_elem_of_singleton in Hx as ->. by left. }
    unfold_M.
    destruct (a1ToAddress (strip_dollars start)),
      (a1ToAddress (strip_dollars end_)); try done.
    match type of Heval with
    | context [range_rows ?f ?g ?a ?b ?c ?d ?vs ?r] =>
        pose proof (returned_refs (range_rows f g a b c d vs) r x
                      (only_adds_range_rows g b c d f a vs) Hin) as Hloop;
        destruct (range_rows f g a b c d vs r) as [[?|?|] ?]
    end; by simplify_eq.
  - cbn [evaluate references] in *. unfold_M.
    destruct (evaluate g l refs) as [[vl|?|] refs1] eqn:Hl; [|done|done].
    destruct (evaluate g r refs1) as [[vr|?|] refs2] eqn:Hr; [|done|done].
    assert (x ∈ refs2) as Hin.
    { apply elem_of_app in Hx as [Hx|Hx].
      - pose proof (IHl _ _ _ Hl x Hx) as H1.
        pose proof (returned_refs (evaluate g r) refs1 x (only_adds_evaluate g r) H1)
          as H2. by rewrite Hr in H2.
      - by apply (IHr _ _ _ Hr). }
    pose proof (returned_refs (toNumber vl) refs2 x (only_adds_toNumber vl) Hin) as Ha.
    destruct (toNumber vl refs2) as [[a|?|] refs3]; [|done|done]. simpl in Ha.
    pose proof (returned_refs (toNumber vr) refs3 x (only_adds_toNumber vr) Ha) as Hb.
    destruct (toNumber vr refs3) as [[b|?|] refs4]; [|done|done]. simpl in Hb.
    pose proof (returned_refs (apply_operator op a b) refs4 x
                  (only_adds_apply_operator op a b) Hb) as Hn.
    destruct (apply_operator op a b refs4) as [[?|?|] refs5]; by simplify_eq.
  - done.
  - rewrite evaluate_FunctionCall in Heval.
    unfold evaluateFunction, collectNumericValues in Heval. unfold_M.
    destruct (collect_loop g args [] refs) as [[values|?|] refs1] eqn:Hloop;
      [|done|done].
    assert (x ∈ refs1) as Hin.
    { clear Heval. cbn [references] in Hx. revert Hloop Hx.
      generalize (@nil num). revert refs.
      induction IH as [|arg args Harg _ IHargs]; intros refs values0 Hloop Hx.
      - by apply elem_of_nil in Hx.
      - cbn [collect_loop] in Hloop. unfold_M.
        destruct (evaluate g arg refs) as [[va|?|] refs0] eqn:Harg'; [|done|done].
        apply elem_of_app in Hx as [Hx|Hx].
        + pose proof (Harg _ _ _ Harg' x Hx) as H1.
          pose proof (returned_refs (collect_loop g args (push_numeric va values0))
                        refs0 x) as H2.
          rewrite Hloop in H2. apply H2; [|done].
          apply only_adds_collect_loop. apply Forall_forall.
          intros ? _. apply only_adds_evaluate.
        + by eapply IHargs. }
    pose proof (returned_refs (apply_function name values) refs1 x
                  (only_adds_apply_function name values) Hin) as Hn.
    destruct (apply_function name values refs1) as [[?|?|] ?]; by simplify_eq.
Qed.

(** X12. The used references of [evaluateFormula] never list a reference
    twice; and when the evaluation ends without an error, every reference
    the formula names (each cell reference and both ends of each range,
    wherever they stand in the formula) is among them. *)
Theorem usedRefs_hold_the_references (ast : ASTNode num) (getCellValue : CellGetter)
    (result : EvalResult num) :
  evaluateFormula ast getCellValue = Some result →
  NoDup (usedRefs result)
  ∧ (error result = None →
     ∀ x, x ∈ references ast → x ∈ usedRefs result).
Proof.
  unfold evaluateFormula.
  pose proof (only_adds_evaluate getCellValue ast NoDup NoDup_add JSSet.empty
                NoDup_nil_2) as Hnd.
  pose proof (evaluate_records_references getCellValue ast JSSet.empty) as Hrefs.
  destruct (evaluate getCellValue ast JSSet.empty) as [[[n|s|l]|[msg|]|] refs];
    intros Hresult; simplify_eq; simpl in *; (split; [done|]); try done;
    intros _ x Hx; by eapply Hrefs.
Qed.

(** *** Aggregates of nothing, and division by zero *)


(** X14. A division whose right operand coerces to a number equal to zero
    fails with [#DIV/0!], whatever the left operand is worth (also for
    0/0); both operands have been evaluated and coerced by then, so the
    references of both are recorded. *)
Theorem division_by_zero (getCellValue : CellGetter) (l r : ASTNode num)
    (refs refs1 refs2 : list string) (vl vr : jsval) (a b : num) :
  evaluate getCellValue l refs = (Ret vl, refs1) →
  evaluate getCellValue r refs1 = (Ret vr, refs2) →
  toNumber vl refs2 = (Ret a, refs2) →
  toNumber vr refs2 = (Ret b, refs2) →
  num_is_zero b = true →
  evaluate getCellValue (BinaryOp "/" l r) refs
  = (Throw (EvalError "#DIV/0!"), refs2)
  ∧ (refs = JSSet.empty →
     evaluateFormula (BinaryOp "/" l r) getCellValue
     = Some {| value := None; text := None; error := Some "#DIV/0!";
               usedRefs := refs2 |}).
Proof.
  intros Hl Hr Ha Hb Hzero.
  assert (evaluate getCellValue (BinaryOp "/" l r) refs
          = (Throw (EvalError "#DIV/0!"), refs2)) as Heval.
  { cbn [evaluate]. unfold mbind, M_bind, bind. rewrite Hl, Hr, Ha, Hb.
    unfold apply_operator. simpl. by rewrite Hzero. }
  split; [done|]. intros ->. unfold evaluateFormula. by rewrite Heval.
Qed.

(** *** Ranges within the columns A to Z *)

(** Up to column Z the evaluator names a cell as [addressToA1] does. *)
Lemma addressToRef_addressToA1 (addr : CellAddress) :
  (0 ≤ col addr < 26)%Z → addressToRef addr = addressToA1 addr.
Proof.
  intros Hcol. unfold addressToRef, addressToA1. f_equal.
  unfold colToLetter.
  destruct (Z.to_nat (col addr + 1)) as [|k] eqn:Hk; [lia|].
  cbn [colToLetter_loop].
  destruct (Z.ltb_spec 0 (col addr + 1)); [|lia].
  replace (col addr + 1 - 1)%Z with (col addr) by lia.
  rewrite Z.div_small by lia. rewrite colToLetter_loop_zero.
  by rewrite Z.rem_small by lia.
Qed.

Lemma range_loop_total (cells : string → option (scalar (num := num)))
    (l : list CellAddress) :
  ∀ values refs,
    range_loop (λ ref, Ret (cells ref)) l values refs
    = (Ret (values ++ omap (λ a, cells (addressToRef a)) l),
       foldl (λ s ref, JSSet.add ref s) refs (addressToRef <$> l)).
Proof.
  induction l as [|addr l IH]; intros values refs; cbn [range_loop].
  - unfold_M. simpl. by rewrite app_nil_r.
  - unfold_M. rewrite IH. simpl.
    destruct (cells (addressToRef addr)) as [x|]; [|done].
    by rewrite <- app_assoc.
Qed.

(** X15. For a range whose two corners parse and lie in columns A to Z
    and in rows below [2^53], against a lookup that does not throw, the
    evaluation returns, and visits the cells that [getRangeCells] lists
    for the two corners, row by row, under the names [addressToA1] gives
    them: the value is the sequence of the values of the cells that hold
    one, and the used references are the two corner texts followed by the
    name of every cell of the rectangle. *)
Theorem range_in_columns_A_to_Z (cells : string → option (scalar (num := num)))
    (start end_ : string) (startAddr endAddr : CellAddress) (refs : list string) :
  a1ToAddress (strip_dollars start) = Some startAddr →
  a1ToAddress (strip_dollars end_) = Some endAddr →
  (col startAddr < 26)%Z → (col endAddr < 26)%Z →
  (row startAddr < 2 ^ 53)%Z → (row endAddr < 2 ^ 53)%Z →
  ∃ rangeCells,
    getRangeCells startAddr endAddr = Some rangeCells
    ∧ evaluate (λ ref, Ret (cells ref)) (RangeRef start end_) refs
      = (Ret (VArr (omap (λ a, cells (addressToA1 a)) rangeCells)),
         foldl (λ s ref, JSSet.add ref s)
           (JSSet.add end_ (JSSet.add start refs))
           (addressToA1 <$> rangeCells)).
Proof.
  intros Hstart Hend Hc1 Hc2 Hr1 Hr2.
  destruct (a1ToAddress_nonneg _ _ Hstart) as [Hs1 Hs2].
  destruct (a1ToAddress_nonneg _ _ Hend) as [He1 He2].
  exists (rectangle startAddr endAddr). split.
  { apply getRangeCells_bounded; unfold index_ok; lia. }
  cbn [evaluate].
  rewrite (evaluate_range_bounded _ start end_ startAddr endAddr);
    [|done|done|unfold corner_ok; lia|unfold corner_ok; lia].
  unfold bind. rewrite range_loop_total. cbn [app]. unfold ret.
  change (range_cells (Z.min (row startAddr) (row endAddr))
            (Z.max (row startAddr) (row endAddr))
            (Z.min (col startAddr) (col endAddr))
            (Z.max (col startAddr) (col endAddr)))
    with (rectangle startAddr endAddr).
  assert (Forall (λ a, addressToRef a = addressToA1 a)
            (rectangle startAddr endAddr)) as Hnames.
  { apply Forall_forall. intros [c r] Hin.
    apply elem_of_rectangle in Hin as [_ Hc].
    apply addressToRef_addressToA1. simpl. lia. }
  f_equal.
  - do 2 f_equal. induction Hnames as [|a l Ha _ IH]; [done|].
    cbn [omap list_omap]. by rewrite Ha, IH.
  - f_equal. induction Hnames as [|a l Ha _ IH]; [done|].
    cbn [fmap list_fmap]. rewrite Ha. f_equal. apply IH.
Qed.

End EvaluatorMore.

(** ** The evaluator on concrete sheets, continued *)
Section EvaluatorMoreExamples.
Import Chars A1 Sheet Evaluator.
Local Open Scope list_scope.
#[local] Existing Instance Double.natives.

Lemma usedRefs_hold_the_references_example :
  let g := sheet_of [("A1", SNum (num_lit 1)); ("B2", SNum (num_lit 5))] in
  let ast := BinaryOp "+" (CellRef "A1") (FunctionCall "SUM" [RangeRef "B1" "B2"]) in
  let result := {| value := Some (num_lit 6); text := Some "6"; error := None;
                   usedRefs := ["A1"; "B1"; "B2"] |} in
  evaluateFormula ast g = Some result
  ∧ NoDup (usedRefs result)
  ∧ "B2" ∈ usedRefs result.
Proof.
  cbv zeta. split; [vm_compute; reflexivity|].
  match goal with
  | |- NoDup (usedRefs ?r) ∧ _ =>
      pose proof (usedRefs_hold_the_references
                    (BinaryOp "+" (CellRef "A1")
                       (FunctionCall "SUM" [RangeRef "B1" "B2"]))
                    (sheet_of [("A1", SNum (num_lit 1)); ("B2", SNum (num_lit 5))])
                    r) as [Hnd Hin]
  end.
  - vm_compute. reflexivity.
  - split; [exact Hnd|]. apply Hin; [reflexivity|].
    cbn [references]. apply elem_of_app. right.
    apply elem_of_cons. right. apply elem_of_cons. by left.
Defined.


Lemma division_by_zero_example :
  evaluateFormula (BinaryOp "/" (CellRef "A1") (CellRef "B1"))
    (sheet_of [("A1", SNum (num_lit 0))])
  = Some {| value := None; text := None; error := Some "#DIV/0!";
            usedRefs := ["A1"; "B1"] |}.
Proof.
  refine (proj2 (division_by_zero (sheet_of [("A1", SNum (num_lit 0))])
                   (CellRef "A1") (CellRef "B1") [] ["A1"] ["A1"; "B1"]
                   (VNum (num_lit 0)) (VNum PrimFloat.zero)
                   (num_lit 0) PrimFloat.zero _ _ _ _ _) eq_refl);
    vm_compute; reflexivity.
Defined.

Lemma range_in_columns_A_to_Z_example :
  let cells := λ ref : string,
    if (ref =? "A1")%string then Some (SNum (num_lit 1))
    else if (ref =? "B2")%string then Some (SStr "x")
    else None in
  evaluate (λ ref, Ret (cells ref)) (RangeRef "$B$2" "a1") []
  = (Ret (VArr [SNum (num_lit 1); SStr "x"]),
     ["$B$2"; "a1"; "A1"; "B1"; "A2"; "B2"]).
Proof.
  cbv zeta.
  destruct (range_in_columns_A_to_Z
              (λ ref : string,
                 if (ref =? "A1")%string then Some (SNum (num_lit 1))
                 else if (ref =? "B2")%string then Some (SStr "x")
                 else None)
              "$B$2" "a1"
              {| col := 1; row := 1 |} {| col := 0; row := 0 |} [])
    as (rangeCells & Hcells & Heval);
    [reflexivity|reflexivity|simpl; lia..|].
  vm_compute in Hcells. injection Hcells as <-.
  etrans; [exact Heval|]. vm_compute. reflexivity.
Defined.

End EvaluatorMoreExamples.

(** ** The reference adjuster: successive fills *)
Section FillMore.
Import Chars A1 Sheet Parser Fill.
Context {num : Type} `{NT : Natives num}.
Local Open Scope list_scope.





End FillMore.

(** ** Successive fills on a concrete formula *)
Section FillMoreExamples.
Import Chars A1 Sheet Parser Fill.
Local Open Scope list_scope.
#[local] Existing Instance Double.natives.


End FillMoreExamples.

(** ** The tokenizer and the parser: termination and the shape of the
    token list *)
Section ParserMore.
Import Chars Sheet Parser.
Context {num : Type} `{NT : Natives num}.
Local Open Scope list_scope.
Local Open Scope nat_scope.

(** *** What the readers consume *)

Lemma span_eq p (s a b : string) : span p s = (a, b) → s = a +:+ b.
Proof.
  revert a b. induction s as [|c s IH]; intros a b; simpl.
  - by intros [= <- <-].
  - destruct (p c); [|by intros [= <- <-]].
    destruct (span p s) as [a' b']. intros [= <- <-].
    rewrite append_String. f_equal. by apply IH.
Qed.

Lemma number_run_eq (s v rest : string) : ∀ hasDecimal,
  number_run hasDecimal s = (v, rest) → s = v +:+ rest.
Proof.
  revert v rest. induction s as [|c s IH]; intros v rest hasDecimal; simpl.
  - by intros [= <- <-].
  - destruct (is_digit c).
    + destruct (number_run hasDecimal s) as [v' rest'] eqn:Hrun.
      intros [= <- <-]. rewrite append_String. f_equal. by eapply IH.
    + destruct (Ascii.eqb c "." && negb hasDecimal).
      * destruct (number_run true s) as [v' rest'] eqn:Hrun.
        intros [= <- <-]. rewrite append_String. f_equal. by eapply IH.
      * by intros [= <- <-].
Qed.

Lemma readNumber_eq (c : ascii) (s v rest : string) :
  is_digit c || Ascii.eqb c "-" = true →
  readNumber (String c s) = (v, rest) →
  String c s = v +:+ rest ∧ v ≠ "".
Proof.
  intros Hc. unfold readNumber. destruct (Ascii.eqb c "-") eqn:Hminus.
  - destruct (number_run false s) as [v' rest'] eqn:Hrun. intros [= <- <-].
    rewrite append_String. split; [|done]. f_equal. by eapply number_run_eq.
  - rewrite orb_false_r in Hc. simpl. rewrite Hc.
    destruct (number_run false s) as [v' rest'] eqn:Hrun. intros [= <- <-].
    rewrite append_String. split; [|done]. f_equal. by eapply number_run_eq.
Qed.

Lemma string_run_eq (s v rest : string) :
  string_run s = Some (v, rest) → s = v +:+ String quote rest.
Proof.
  revert v rest. induction s as [|c s IH]; intros v rest; simpl; [done|].
  destruct (Ascii.eqb_spec c quote) as [->|_].
  - by intros [= <- <-].
  - destruct (string_run s) as [[v' rest']|]; simpl; [|done].
    intros [= <- <-]. rewrite append_String. f_equal. by apply IH.
Qed.

Lemma match_cell_ref_eq (input v rest : string) :
  match_cell_ref input = Some (v, rest) → input = v +:+ rest ∧ v ≠ "".
Proof.
  unfold match_cell_ref.
  set (o1 := match input with
             | String c s' => if Ascii.eqb c "$" then ("$", s') else ("", input)
             | EmptyString => ("", input)
             end).
  assert (input = o1.1 +:+ o1.2) as H1.
  { unfold o1. destruct input as [|c s]; [done|].
    destruct (Ascii.eqb_spec c "$") as [->|_]; done. }
  destruct o1 as [d1 s1]. simpl in H1.
  destruct (span is_letter s1) as [letters s2] eqn:Hletters.
  apply span_eq in Hletters.
  set (o2 := match s2 with
             | String c s' => if Ascii.eqb c "$" then ("$", s') else ("", s2)
             | EmptyString => ("", s2)
             end).
  assert (s2 = o2.1 +:+ o2.2) as H2.
  { unfold o2. destruct s2 as [|c s]; [done|].
    destruct (Ascii.eqb_spec c "$") as [->|_]; done. }
  destruct o2 as [d2 s3]. simpl in H2.
  destruct (span is_digit s3) as [digits s4] eqn:Hdigits.
  apply span_eq in Hdigits.
  destruct (Nat.eqb_spec (String.length letters) 0) as [|Hlen]; [done|].
  destruct (String.length digits =? 0); [done|]. simpl.
  intros [= <- <-]. split.
  - rewrite H1, Hletters, H2, Hdigits. by rewrite !append_assoc.
  - intros Hempty. apply Hlen.
    apply (f_equal String.length) in Hempty.
    rewrite !length_append in Hempty. simpl in Hempty. lia.
Qed.

(** The characters of a formula that holds no [$]. *)
Definition no_dollar (s : string) : bool :=
  all_chars (λ c, negb (Ascii.eqb c "$")) s.

Lemma no_dollar_suffix (s v rest : string) :
  s = v +:+ rest → no_dollar s = true → no_dollar rest = true.
Proof.
  intros ->. unfold no_dollar. rewrite all_chars_app.
  by intros [_ ?]%andb_prop.
Qed.

Lemma length_suffix (s v rest : string) :
  s = v +:+ rest → v ≠ "" → String.length rest < String.length s.
Proof.
  intros -> Hv. rewrite length_append. destruct v; [done|]. simpl. lia.
Qed.

Lemma push_token_None t r : push_token t r = None → r = None.
Proof. by destruct r as [[?|?]|]. Qed.

(** *** Termination of the tokenizer *)

Lemma tokenize_loop_None fuel : ∀ input pos,
  tokenize_loop fuel input pos = None →
  no_dollar input = true →
  fuel ≤ String.length input.
Proof.
  induction fuel as [|fuel IH]; intros input pos Hnone Hnd; [lia|].
  cbn [tokenize_loop] in Hnone.
  destruct input as [|char rest]; [done|].
  pose proof Hnd as [Hchar Hrest]%andb_prop.
  apply negb_true_iff in Hchar. rewrite Hchar in Hnone. cbn [orb] in Hnone.
  cbn [String.length].
  destruct (is_space char).
  { specialize (IH _ _ Hnone Hrest). lia. }
  destruct (is_digit char || Ascii.eqb char "-" && _) eqn:Hnum.
  { destruct (readNumber (String char rest)) as [v rest'] eqn:Hread.
    apply push_token_None in Hnone.
    apply readNumber_eq in Hread as [Heq Hv].
    2: { apply orb_prop in Hnum as [->|[-> _]%andb_prop]; [done|].
         apply orb_true_r. }
    pose proof (length_suffix _ _ _ Heq Hv) as Hlen. simpl in Hlen.
    specialize (IH _ _ Hnone (no_dollar_suffix _ _ _ Heq Hnd)). lia. }
  destruct (Ascii.eqb char quote).
  { destruct (string_run rest) as [[v rest']|] eqn:Hrun; [|done].
    apply push_token_None in Hnone. apply string_run_eq in Hrun.
    assert (rest = (v +:+ String quote "") +:+ rest') as Heq
      by (by rewrite append_assoc).
    pose proof (length_suffix _ _ _ Heq) as Hlen.
    specialize (IH _ _ Hnone (no_dollar_suffix _ _ _ Heq Hrest)).
    assert (v +:+ String quote "" ≠ "") by (by destruct v).
    specialize (Hlen ltac:(done)). lia. }
  destruct (includes "+-*/^" (String char "")).
  { apply push_token_None in Hnone. specialize (IH _ _ Hnone Hrest). lia. }
  destruct (Ascii.eqb char "(").
  { apply push_token_None in Hnone. specialize (IH _ _ Hnone Hrest). lia. }
  destruct (Ascii.eqb char ")").
  { apply push_token_None in Hnone. specialize (IH _ _ Hnone Hrest). lia. }
  destruct (Ascii.eqb char ",").
  { apply push_token_None in Hnone. specialize (IH _ _ Hnone Hrest). lia. }
  destruct (Ascii.eqb char ":").
  { apply push_token_None in Hnone. specialize (IH _ _ Hnone Hrest). lia. }
  destruct (is_letter char) eqn:Hletter; [|done].
  destruct (readIdentifierOrCellRef (String char rest)) as [[t v] rest'] eqn:Hread.
  apply push_token_None in Hnone.
  assert (String char rest = v +:+ rest' ∧ v ≠ "") as [Heq Hv].
  { unfold readIdentifierOrCellRef in Hread.
    destruct (match_cell_ref (String char rest)) as [[v0 rest0]|] eqn:Hmatch.
    - injection Hread as <- <- <-. by apply match_cell_ref_eq.
    - destruct (span is_ident_char (String char rest)) as [v0 rest0] eqn:Hspan.
      injection Hread as <- <- <-. split; [by apply span_eq in Hspan|].
      simpl in Hspan. unfold is_ident_char in Hspan at 1.
      rewrite Hletter in Hspan. simpl in Hspan.
      destruct (span is_ident_char rest). by injection Hspan as <- <-. }
  pose proof (length_suffix _ _ _ Heq Hv) as Hlen. simpl in Hlen.
  specialize (IH _ _ Hnone (no_dollar_suffix _ _ _ Heq Hnd)). lia.
Qed.

Lemma all_chars_trim_start p (s : string) :
  all_chars p s = true → all_chars p (trim_start s) = true.
Proof.
  induction s as [|c s IH]; [done|]. simpl. intros Hs.
  destruct (is_space c); [|done]. apply andb_prop in Hs as [_ Hs]. by apply IH.
Qed.

Lemma all_chars_trim_end p (s : string) :
  all_chars p s = true → all_chars p (trim_end s) = true.
Proof.
  induction s as [|c s IH]; [done|]. simpl. intros [Hc Hs]%andb_prop.
  specialize (IH Hs). destruct (trim_end s) as [|c' t].
  - destruct (is_space c); [done|]. simpl. by rewrite Hc.
  - simpl in *. by rewrite Hc, IH.
Qed.

Lemma no_dollar_trim (s : string) : no_dollar s = true → no_dollar (trim s) = true.
Proof. intros Hs. by apply all_chars_trim_end, all_chars_trim_start. Qed.

Lemma tokenize_terminates (input : string) :
  no_dollar input = true → ∃ r, tokenize input = Some r.
Proof.
  intros Hnd. unfold tokenize.
  destruct (tokenize_loop _ _ _) as [r|] eqn:Hloop; [by eexists|].
  apply tokenize_loop_None in Hloop; [lia|by apply no_dollar_trim].
Qed.

(** *** The parser never needs more fuel than [parse] gives it *)

Lemma parse_terminates (toks : list Token) :
  ends_with_EOF toks → parse (num := num) toks ≠ PFuel.
Proof.
  intros (ts & eof & -> & Heof & Hts). unfold parse.
  destruct (parser_all_ok ts eof Heof (4 * length (ts ++ [eof]) + 4))
    as (Hexpr & _).
  destruct (Hexpr 0 ltac:(lia)) as [Hfuel _].
  destruct (parseExpression (ts ++ [eof]) _ 0) as [ast pos'|e|] eqn:Hparse.
  - by case_bool_decide.
  - done.
  - exfalso. apply Hfuel; [|done]. rewrite length_app. simpl. lia.
Qed.

(** A [$] that starts no cell reference is read as an empty identifier
    and the loop does not move on: it never returns, whatever the fuel. *)
Lemma tokenize_loop_stuck fuel : ∀ rest pos,
  match_cell_ref (String "$" rest) = None →
  tokenize_loop fuel (String "$" rest) pos = None.
Proof.
  induction fuel as [|fuel IH]; intros rest pos Hmatch; [done|].
  cbn [tokenize_loop].
  change (is_space "$") with false. change (is_digit "$") with false.
  change (Ascii.eqb "$" "-") with false. cbn [orb andb].
  change (Ascii.eqb "$" quote) with false.
  change (includes "+-*/^" "$") with false.
  change (Ascii.eqb "$" "(") with false. change (Ascii.eqb "$" ")") with false.
  change (Ascii.eqb "$" ",") with false. change (Ascii.eqb "$" ":") with false.
  change (Ascii.eqb "$" "$") with true. cbn [orb].
  unfold readIdentifierOrCellRef. rewrite Hmatch.
  change (span is_ident_char (String "$" rest)) with ("", String "$" rest).
  cbv iota beta. by rewrite IH.
Qed.

(** *** The positions of the tokens *)

Lemma tokenize_loop_positions fuel : ∀ input pos toks,
  tokenize_loop fuel input pos = Some (inr toks) →
  Forall (λ t, pos ≤ tok_pos t) toks
  ∧ StronglySorted (λ a b, tok_pos a < tok_pos b) toks.
Proof.
  assert (∀ ty v pos toks' pos',
            pos < pos' →
            Forall (λ t', pos' ≤ tok_pos t') toks'
            ∧ StronglySorted (λ a b, tok_pos a < tok_pos b) toks' →
            Forall (λ t', pos ≤ tok_pos t') (mkToken ty v pos :: toks')
            ∧ StronglySorted (λ a b, tok_pos a < tok_pos b)
                (mkToken ty v pos :: toks'))
    as Hcons.
  { intros ty v pos toks' pos' Hlt [Hall Hsorted]. split.
    - constructor; [done|]. eapply Forall_impl; [done|]. simpl. lia.
    - constructor; [done|]. eapply Forall_impl; [done|]. simpl. lia. }
  induction fuel as [|fuel IH]; intros input pos toks Htok; [done|].
  cbn [tokenize_loop] in Htok.
  destruct input as [|char rest].
  { simplify_eq. split; repeat constructor. }
  destruct (is_space char).
  { destruct (IH _ _ _ Htok) as [Hall Hsorted]. split; [|done].
    eapply Forall_impl; [done|]. simpl. lia. }
  destruct (is_digit char || Ascii.eqb char "-" && _) eqn:Hnum.
  { destruct (readNumber (String char rest)) as [v rest'] eqn:Hread.
    apply push_token_inr in Htok as (toks' & Htok & ->).
    apply readNumber_eq in Hread as [_ Hv].
    2: { apply orb_prop in Hnum as [->|[-> _]%andb_prop]; [done|].
         apply orb_true_r. }
    apply (Hcons _ _ _ _ (pos + String.length v)); [|by eapply IH].
    destruct v; [done|]. simpl. lia. }
  destruct (Ascii.eqb char quote).
  { destruct (string_run rest) as [[v rest']|] eqn:Hrun; [|done].
    apply push_token_inr in Htok as (toks' & Htok & ->).
    apply (Hcons _ _ _ _ (pos + String.length v + 2)); [lia|by eapply IH]. }
  destruct (includes "+-*/^" (String char "")).
  { apply push_token_inr in Htok as (toks' & Htok & ->).
    apply (Hcons _ _ _ _ (S pos)); [lia|by eapply IH]. }
  destruct (Ascii.eqb char "(").
  { apply push_token_inr in Htok as (toks' & Htok & ->).
    apply (Hcons _ _ _ _ (S pos)); [lia|by eapply IH]. }
  destruct (Ascii.eqb char ")").
  { apply push_token_inr in Htok as (toks' & Htok & ->).
    apply (Hcons _ _ _ _ (S pos)); [lia|by eapply IH]. }
  destruct (Ascii.eqb char ",").
  { apply push_token_inr in Htok as (toks' & Htok & ->).
    apply (Hcons _ _ _ _ (S pos)); [lia|by eapply IH]. }
  destruct (Ascii.eqb char ":").
  { apply push_token_inr in Htok as (toks' & Htok & ->).
    apply (Hcons _ _ _ _ (S pos)); [lia|by eapply IH]. }
  destruct (Ascii.eqb char "$" || is_letter char) eqn:Hident; [|done].
  destruct (readIdentifierOrCellRef (String char rest)) as [[t v] rest'] eqn:Hread.
  apply push_token_inr in Htok as (toks' & Htok & ->).
  apply (Hcons _ _ _ _ (pos + String.length v)); [|by eapply IH].
  enough (v ≠ "") by (destruct v; [done|simpl; lia]).
  unfold readIdentifierOrCellRef in Hread.
  destruct (match_cell_ref (String char rest)) as [[v0 rest0]|] eqn:Hmatch.
  { injection Hread as <- <- <-. by apply match_cell_ref_eq in Hmatch as [_ ?]. }
  destruct (span is_ident_char (String char rest)) as [v0 rest0] eqn:Hspan.
  injection Hread as <- <- <-.
  destruct (Ascii.eqb_spec char "$") as [->|_].
  - exfalso. change (span is_ident_char (String "$" rest))
      with ("", String "$" rest) in Hspan.
    injection Hspan as <- <-.
    by rewrite (tokenize_loop_stuck fuel rest _ Hmatch) in Htok.
  - simpl in Hident, Hspan. unfold is_ident_char in Hspan at 1.
    rewrite Hident in Hspan. simpl in Hspan.
    destruct (span is_ident_char rest). by injection Hspan as <- <-.
Qed.

(** X17. [parseFormula] terminates on every formula that holds no [$]: it
    returns a syntax tree or throws a [ParseError].  The loop of the
    tokenizer consumes at least one character in each iteration and the
    recursive descent of the parser consumes the tokens; only a [$] that
    starts no cell reference, read as an empty identifier, is not
    consumed, and then the loop never ends. *)
Theorem parseFormula_terminates (formula : string) :
  (no_dollar formula = true → ∃ r, parseFormula (num := num) formula = Some r)
  ∧ (∀ fuel rest pos,
       match_cell_ref (String "$" rest) = None →
       tokenize_loop fuel (String "$" rest) pos = None).
Proof.
  split; [|intros fuel rest pos; apply tokenize_loop_stuck].
  intros Hnd. unfold parseFormula.
  assert (no_dollar (cleanFormula formula) = true) as Hclean.
  { unfold cleanFormula. pose proof (no_dollar_trim formula Hnd) as Htrim.
    destruct (trim formula) as [|c rest]; [done|].
    destruct (Ascii.eqb c "="); [|done].
    by apply andb_prop in Htrim as [_ ?]. }
  destruct (tokenize_terminates _ Hclean) as [[e|toks] Htok]; rewrite Htok;
    [by eexists|].
  pose proof (parse_terminates toks (tokenize_ends_with_EOF _ _ Htok)) as Hparse.
  destruct (parse toks) as [ast pos'|e|]; [by eexists..|done].
Qed.

(** X18. The token list [tokenize] returns ends with its only [EOF]
    token, and the tokens stand in the order of the input: their
    positions are strictly increasing. *)
Theorem tokenize_token_list (input : string) (toks : list Token) :
  tokenize input = Some (inr toks) →
  (∃ ts eof, toks = ts ++ [eof] ∧ tok_type eof = EOF
             ∧ Forall (λ t, tok_type t ≠ EOF) ts)
  ∧ StronglySorted (λ a b, tok_pos a < tok_pos b) toks.
Proof.
  intros Htok. split.
  - by apply (tokenize_ends_with_EOF input).
  - by apply (tokenize_loop_positions _ _ _ _ Htok).
Qed.

End ParserMore.

(** ** The tokenizer and the parser on concrete formulas, continued *)
Section ParserMoreExamples.
Import Chars Sheet Parser.
#[local] Existing Instance Double.natives.
Local Open Scope list_scope.
Local Open Scope nat_scope.

Lemma parseFormula_terminates_example :
  (∃ r, parseFormula (num := float) "=SUM(A1:B2) * (3 + " = Some r)
  ∧ tokenize_loop 1000 "$+1" 0 = None.
Proof.
  split.
  - apply (proj1 (parseFormula_terminates (num := float) "=SUM(A1:B2) * (3 + ")).
    reflexivity.
  - apply (proj2 (parseFormula_terminates (num := float) "")). reflexivity.
Defined.

Lemma tokenize_token_list_example :
  (∃ ts eof,
     [mkToken CELL_REF "A1" 0; mkToken OPERATOR "+" 3; mkToken NUMBER "2" 7;
      mkToken EOF "" 8] = ts ++ [eof]
     ∧ tok_type eof = EOF ∧ Forall (λ t, tok_type t ≠ EOF) ts)
  ∧ StronglySorted (λ a b, tok_pos a < tok_pos b)
      [mkToken CELL_REF "A1" 0; mkToken OPERATOR "+" 3; mkToken NUMBER "2" 7;
       mkToken EOF "" 8].
Proof.
  apply (tokenize_token_list "  A1 +   2 "). vm_compute. reflexivity.
Defined.

End ParserMoreExamples.

(** ** The formula engine: what a reference reads, and cycles *)
Section EngineProps.
Import Chars A1 Sheet Evaluator Parser Graph Engine.
Context {num : Type} `{NT : Natives num}.
Local Open Scope list_scope.

Lemma strip_dollars_idemp (s : string) :
  strip_dollars (strip_dollars s) = strip_dollars s.
Proof.
  induction s as [|c s IH]; [done|]. simpl.
  destruct (Ascii.eqb c "$") eqn:Hc; [done|]. simpl. by rewrite Hc, IH.
Qed.

(** X19. A reference reads as an empty cell, and so evaluates to the
    number 0, when the cell it names holds an error, is of kind [empty],
    or is a formula without a numeric value (a formula whose result is a
    text): the error or the text of the cell referred to does not reach
    the formula that refers to it.  The [$] markers of the reference play
    no part in the lookup. *)
Theorem reference_to_error_reads_zero (cells : gmap string (Cell num))
    (ref : string) (addr : CellAddress) (cell : Cell num) :
  a1ToAddress (strip_dollars ref) = Some addr →
  cells !! cellKey addr = Some cell →
  kind cell = KError ∨ kind cell = KEmpty
  ∨ (kind cell = KFormula ∧ cell_value cell = None) →
  getCellValue cells ref = Ret None
  ∧ getCellValue cells (strip_dollars ref) = getCellValue cells ref
  ∧ evaluateFormula (CellRef ref) (getCellValue cells)
    = Some {| value := Some num_zero; text := Some (num_toString num_zero);
              error := None; usedRefs := [ref] |}.
Proof.
  intros Haddr Hcell Hkind.
  assert (getCellValue cells ref = Ret None) as Hget.
  { unfold getCellValue. rewrite Haddr, Hcell.
    destruct Hkind as [Hk|[Hk|[Hk Hv]]]; rewrite Hk; [done|done|].
    rewrite Hv. by destruct (truthy (raw cell)). }
  split_and!.
  - done.
  - unfold getCellValue. by rewrite strip_dollars_idemp.
  - unfold evaluateFormula. cbn [evaluate].
    unfold mbind, M_bind, bind, addRef, getCell. by rewrite Hget.
Qed.

(** The cell [processCell] returns for a formula on a cycle. *)
Definition cycle_cell (trimmed : string) : Cell num :=
  {| kind := KError; display := "#CYCLE!"; cell_value := None;
     raw := Some trimmed; cell_error := Some "#CYCLE!" |}.

Lemma processCell_formula (cells : gmap string (Cell num)) (g : Graph)
    (raw_ : string) (addr : CellAddress) (ast : ASTNode num)
    (result : EvalResult num) :
  starts_with (λ c, Ascii.eqb c "=") (trim raw_) = true →
  parseFormula (trim raw_) = Some (inr ast) →
  evaluateFormula ast (getCellValue cells) = Some result →
  let g' := updateCell (cellKey addr) (usedKeys (usedRefs result)) g in
  ∃ cell,
    processCell cells g raw_ addr = Some (cell, g')
    ∧ (reaches_cycle g' (cellKey addr) → cell = cycle_cell (trim raw_))
    ∧ (¬ reaches_cycle g' (cellKey addr) →
       raw cell = Some (trim raw_)
       ∧ cell_error cell = (if truthy (error result) then error result else None)
       ∧ cell_value cell = (if truthy (error result) then None else value result)
       ∧ kind cell = (if truthy (error result) then KError else KFormula)).
Proof.
  intros Heq Hparse Heval. cbv zeta. unfold processCell.
  destruct (trim raw_) as [|c rest] eqn:Htrim; [done|].
  simpl in Heq. rewrite Heq, Hparse, Heval. cbn [mbind option_bind].
  destruct (hasCycle_spec
              (updateCell (cellKey addr) (usedKeys (usedRefs result)) g)
              (cellKey addr)) as (b & -> & Hb).
  destruct b.
  - eexists. split; [done|]. split; [done|].
    intros Hno. exfalso. by apply Hno, Hb.
  - destruct (truthy (error result)) eqn:Herr.
    + eexists. split; [done|]. split; [|done].
      intros Hyes. by apply Hb in Hyes.
    + eexists. split; [done|]. split; [|done].
      intros Hyes. by apply Hb in Hyes.
Qed.

(** X20. For a formula that parses and whose ranges have their corners
    below row and column [2^53], the evaluation returns, [processCell]
    records the keys of its used references as the dependencies of the
    cell, and then returns the [#CYCLE!] error cell exactly when a
    dependency cycle can be reached from the cell in the updated graph;
    otherwise the cell carries the result of the evaluation (its error,
    or its value as a formula cell). *)
Theorem processCell_reports_cycles (cells : gmap string (Cell num)) (g : Graph)
    (raw_ : string) (addr : CellAddress) (ast : ASTNode num) :
  starts_with (λ c, Ascii.eqb c "=") (trim raw_) = true →
  parseFormula (trim raw_) = Some (inr ast) →
  ranges_bounded ast →
  ∃ result cell,
    let g' := updateCell (cellKey addr) (usedKeys (usedRefs result)) g in
    evaluateFormula ast (getCellValue cells) = Some result
    ∧ processCell cells g raw_ addr = Some (cell, g')
    ∧ (∀ b, depends_on g' (cellKey addr) b ↔ b ∈ usedKeys (usedRefs result))
    ∧ ((∃ x, rtc (depends_on g') (cellKey addr) x ∧ tc (depends_on g') x x) →
       cell = cycle_cell (trim raw_))
    ∧ ((¬ ∃ x, rtc (depends_on g') (cellKey addr) x ∧ tc (depends_on g') x x) →
       raw cell = Some (trim raw_)
       ∧ cell_error cell = (if truthy (error result) then error result else None)
       ∧ cell_value cell = (if truthy (error result) then None else value result)
       ∧ kind cell = (if truthy (error result) then KError else KFormula)).
Proof.
  intros Heq Hparse Hb.
  destruct (evaluateFormula_returns ast (getCellValue cells)) as [result Heval];
    [done|done|].
  destruct (processCell_formula cells g raw_ addr ast result Heq Hparse Heval)
    as (cell & Hcell & Hyes & Hno).
  exists result, cell. cbv zeta. split_and!; [done|done| |done|done].
  intros b. apply updateCell_depends_on_self.
Qed.

(** X21. A formula that consults its own cell is reported as [#CYCLE!]:
    for a formula that parses and whose ranges have their corners below
    row and column [2^53], the evaluation returns, and when one of its
    used references names the address of the cell being processed,
    [processCell] returns the [#CYCLE!] error cell, whatever the other
    cells hold and whatever the evaluation returned. *)
Theorem self_reference_is_a_cycle (cells : gmap string (Cell num)) (g : Graph)
    (raw_ : string) (addr : CellAddress) (ast : ASTNode num) :
  starts_with (λ c, Ascii.eqb c "=") (trim raw_) = true →
  parseFormula (trim raw_) = Some (inr ast) →
  ranges_bounded ast →
  ∃ result,
    evaluateFormula ast (getCellValue cells) = Some result
    ∧ ∀ ref,
        ref ∈ usedRefs result →
        a1ToAddress (strip_dollars ref) = Some addr →
        processCell cells g raw_ addr
        = Some (cycle_cell (trim raw_),
                updateCell (cellKey addr) (usedKeys (usedRefs result)) g).
Proof.
  intros Heq Hparse Hb.
  destruct (evaluateFormula_returns ast (getCellValue cells)) as [result Heval];
    [done|done|].
  exists result. split; [done|]. intros ref Hin Haddr.
  destruct (processCell_formula cells g raw_ addr ast result Heq Hparse Heval)
    as (cell & -> & Hyes & _).
  rewrite Hyes; [done|].
  exists (cellKey addr). split; [done|]. apply tc_once.
  apply updateCell_depends_on_self. unfold usedKeys.
  apply list_elem_of_fmap. exists ref. by rewrite Haddr.
Qed.

End EngineProps.

(** ** The formula engine on a concrete sheet *)
Section EngineExamples.
Import Chars A1 Sheet Evaluator Parser Graph Engine.
Local Open Scope list_scope.
#[local] Existing Instance Double.natives.

(** A sheet whose cell A1 holds a division by zero. *)
Definition broken_sheet : gmap string (Cell float) :=
  {[ "r0c0" := {| kind := KError; display := "#DIV/0!"; cell_value := None;
                  raw := Some "=1/0"; cell_error := Some "#DIV/0!" |} ]}.

Lemma reference_to_error_reads_zero_example :
  getCellValue broken_sheet "$A$1" = Ret None
  ∧ getCellValue broken_sheet (strip_dollars "$A$1") = getCellValue broken_sheet "$A$1"
  ∧ evaluateFormula (CellRef "$A$1") (getCellValue broken_sheet)
    = Some {| value := Some PrimFloat.zero; text := Some "0"; error := None;
              usedRefs := ["$A$1"] |}.
Proof.
  refine (reference_to_error_reads_zero broken_sheet "$A$1"
            {| col := 0; row := 0 |} _ eq_refl eq_refl _).
  by left.
Defined.

Lemma processCell_reports_cycles_example :
  processCell broken_sheet ∅ " =A1 + 2 " {| col := 1; row := 0 |}
  = Some ({| kind := KFormula; display := "2"; cell_value := Some (num_lit 2);
             raw := Some "=A1 + 2"; cell_error := None |},
          updateCell "r0c1" ["r0c0"] ∅)
  ∧ ∃ cell,
      processCell broken_sheet ∅ " =A1 + 2 " {| col := 1; row := 0 |}
      = Some (cell, updateCell "r0c1" ["r0c0"] ∅)
      ∧ (∀ b, depends_on (updateCell "r0c1" ["r0c0"] ∅) "r0c1" b ↔ b ∈ ["r0c0"]).
Proof.
  split; [vm_compute; reflexivity|].
  destruct (processCell_reports_cycles broken_sheet ∅ " =A1 + 2 "
              {| col := 1; row := 0 |}
              (BinaryOp "+" (CellRef "A1") (Number (num_lit 2))))
    as (result & cell & Heval & Hcell & Hdeps & _);
    [reflexivity|vm_compute; reflexivity|by simpl|].
  vm_compute in Heval. injection Heval as <-.
  exists cell. split; [exact Hcell|exact Hdeps].
Defined.

Lemma self_reference_is_a_cycle_example :
  processCell broken_sheet ∅ "=SUM(a1:B2)" {| col := 1; row := 0 |}
  = Some (cycle_cell "=SUM(a1:B2)",
          updateCell "r0c1" ["r0c0"; "r1c1"; "r0c1"; "r1c0"] ∅).
Proof.
  destruct (self_reference_is_a_cycle broken_sheet ∅ "=SUM(a1:B2)"
              {| col := 1; row := 0 |}
              (FunctionCall "SUM" [RangeRef "a1" "B2"]))
    as (result & Heval & Hcycle);
    [reflexivity|vm_compute; reflexivity| |].
  - cbn [ranges_bounded]. split; [|exact I].
    intros startAddr endAddr Hs He. vm_compute in Hs, He.
    injection Hs as <-. injection He as <-. by vm_compute.
  - vm_compute in Heval. injection Heval as <-.
    etrans; [apply (Hcycle "B1"); [|reflexivity]|].
    + cbn [usedRefs]. apply elem_of_cons. right. apply elem_of_cons. right.
      apply elem_of_cons. right. apply elem_of_cons. by left.
    + vm_compute. reflexivity.
Defined.

End EngineExamples.

(** ** The fill handle: the values of the target cells *)
Section FillValues.
Import Chars A1 Sheet Parser Fill.
Context {num : Type} `{NT : Natives num}.
Local Open Scope list_scope.








Lemma set_fresh {V} (k : string) (v : V) (m : list (string * V)) :
  k ∉ m.*1 → JSMap.set k v m = m ++ [(k, v)].
Proof.
  induction m as [|[k' v'] m IH]; [done|]. simpl.
  intros [Hne Hk]%not_elem_of_cons.
  destruct (String.eqb_spec k' k) as [->|_]; [done|]. by rewrite IH.
Qed.





End FillValues.

(** ** The fill handle on a concrete source *)
Section FillValuesExamples.
Import Chars A1 Sheet Parser Fill.
Local Open Scope list_scope.
#[local] Existing Instance Double.natives.


End FillValuesExamples.

(** ** The clipboard: pasting what was copied *)
Section ClipboardProps.
Import Chars A1 Engine Clipboard.
Context {num : Type}.
Local Open Scope list_scope.

(** A loop that sets at most one entry per element of [l], under keys
    that are all different, returns these entries in the order of [l]. *)
Lemma entries_loop_spec {A V} (l : list A) (entry : A → option (string * V))
    (step : list (string * V) → A → list (string * V)) :
  (∀ m x, step m x = match entry x with
                     | Some (k, v) => JSMap.set k v m
                     | None => m
                     end) →
  (∀ x y k v v', x ∈ l → y ∈ l →
     entry x = Some (k, v) → entry y = Some (k, v') → x = y) →
  NoDup l →
  foldl step JSMap.empty l = omap entry l.
Proof.
  intros Hstep Hinj Hnd.
  enough (∀ done rest,
            l = done ++ rest →
            foldl step (omap entry done) rest = omap entry l) as Hgen
    by (apply (Hgen [] l); done).
  intros done rest. revert done.
  induction rest as [|x rest IH]; intros done Hl; cbn [foldl].
  - by rewrite Hl, app_nil_r.
  - assert (step (omap entry done) x = omap entry (done ++ [x])) as ->.
    { rewrite Hstep, omap_app. cbn [omap list_omap].
      destruct (entry x) as [[k v]|] eqn:Hx; [|by rewrite app_nil_r].
      apply set_fresh. intros ((k' & v') & Hk & Hin)%list_elem_of_fmap.
      simpl in Hk. subst k'.
      apply list_elem_of_omap in Hin as (y & Hy & Hentry).
      rewrite Hl in Hnd. apply NoDup_app in Hnd as (_ & Hdisj & _).
      apply (Hdisj y Hy).
      rewrite (Hinj x y k v v'); [set_solver|rewrite Hl; set_solver..|done|done]. }
    apply IH. by rewrite Hl, <- app_assoc.
Qed.

Lemma NoDup_omap_inj {A B} (f : A → option B) (l : list A) :
  (∀ x y z, x ∈ l → y ∈ l → f x = Some z → f y = Some z → x = y) →
  NoDup l → NoDup (omap f l).
Proof.
  intros Hinj Hnd. induction Hnd as [|x l Hx Hnd IH]; [constructor|].
  cbn [omap list_omap].
  assert (NoDup (omap f l)) as IH'.
  { apply IH. intros a b z Ha Hb. apply Hinj; by right. }
  destruct (f x) as [z|] eqn:Hfx; [|done].
  constructor; [|done].
  intros (y & Hy & Hfy)%list_elem_of_omap. apply Hx.
  rewrite (Hinj x y z); [done|by left|by right|done|done].
Qed.

Lemma omap_omap {A B C} (f : A → option B) (g : B → option C) (l : list A) :
  omap g (omap f l) = omap (λ x, f x ≫= g) l.
Proof.
  induction l as [|x l IH]; [done|]. cbn [omap list_omap].
  destruct (f x) as [y|]; simpl; [|done].
  change (list_omap B C g (omap f l)) with (omap g (omap f l)).
  destruct (g y); by rewrite IH.
Qed.

Lemma omap_ext_in {A B} (f g : A → option B) (l : list A) :
  (∀ x, x ∈ l → f x = g x) → omap f l = omap g l.
Proof.
  induction l as [|x l IH]; intros Hfg; [done|]. cbn [omap list_omap].
  rewrite (Hfg x) by (by left). rewrite IH; [done|].
  intros y Hy. apply Hfg. by right.
Qed.

Lemma cellKey_inj (a b : CellAddress) :
  (0 ≤ col a < 2 ^ 53)%Z → (0 ≤ row a < 2 ^ 53)%Z →
  (0 ≤ col b < 2 ^ 53)%Z → (0 ≤ row b < 2 ^ 53)%Z →
  cellKey a = cellKey b → a = b.
Proof.
  intros ? ? ? ? Heq. apply (f_equal keyToAddress) in Heq.
  rewrite !keyToAddress_cellKey in Heq by done. by injection Heq.
Qed.

(** Where [pasteCells] puts the cell copied from [addr]. *)
Definition pasted_at (anchor focus target addr : CellAddress) : CellAddress :=
  {| row := row addr + (row target - Z.min (row anchor) (row focus));
     col := col addr + (col target - Z.min (col anchor) (col focus)) |}.

(** X23. Pasting what was copied moves the block: for a selection and a
    target with non-negative rows and columns, [pasteCells] of
    [copyCells] returns, for every cell of the selected rectangle that
    holds a non-empty raw content and in the order of [getRangeCells],
    one entry with that raw content under the key of the cell moved by
    the distance from the top-left corner of the selection to the target;
    cells without raw content give no entry. *)
Theorem paste_of_copy (sheet : gmap string (Cell num))
    (anchor focus target : CellAddress) :
  (0 ≤ row anchor < 2 ^ 52)%Z → (0 ≤ col anchor < 2 ^ 52)%Z →
  (0 ≤ row focus < 2 ^ 52)%Z → (0 ≤ col focus < 2 ^ 52)%Z →
  (0 ≤ row target < 2 ^ 52)%Z → (0 ≤ col target < 2 ^ 52)%Z →
  ∃ clipboardData rangeCells,
    copyCells sheet anchor focus = Some clipboardData
    ∧ getRangeCells anchor focus = Some rangeCells
    ∧ pasteCells clipboardData target
      = omap (λ addr,
                cell ← sheet !! cellKey addr;
                match raw cell with
                | Some (String c r) =>
                    Some (cellKey (pasted_at anchor focus target addr), String c r)
                | _ => None
                end)
             rangeCells.
Proof.
  intros Har Hac Hfr Hfc Htr Htc.
  assert (2 ^ 52 < 2 ^ 53)%Z as Hpow by done.
  assert (2 ^ 52 + 2 ^ 52 = 2 ^ 53)%Z as Hsum by done.
  assert (getRangeCells
            {| row := Z.min (row anchor) (row focus);
               col := Z.min (col anchor) (col focus) |}
            {| row := Z.max (row anchor) (row focus);
               col := Z.max (col anchor) (col focus) |}
          = Some (rectangle anchor focus)) as Hrange.
  { rewrite getRangeCells_bounded by (unfold index_ok; simpl; lia).
    f_equal. unfold rectangle. simpl.
    replace (Z.min (Z.min (row anchor) (row focus)) (Z.max (row anchor) (row focus)))
      with (Z.min (row anchor) (row focus)) by lia.
    replace (Z.max (Z.min (row anchor) (row focus)) (Z.max (row anchor) (row focus)))
      with (Z.max (row anchor) (row focus)) by lia.
    replace (Z.min (Z.min (col anchor) (col focus)) (Z.max (col anchor) (col focus)))
      with (Z.min (col anchor) (col focus)) by lia.
    replace (Z.max (Z.min (col anchor) (col focus)) (Z.max (col anchor) (col focus)))
      with (Z.max (col anchor) (col focus)) by lia.
    done. }
  unfold copyCells. rewrite Hrange. cbn [mbind option_bind].
  eexists _, (rectangle anchor focus). split; [done|].
  split; [apply getRangeCells_bounded; unfold index_ok; lia|].
  unfold pasteCells. cbn [cells range startRow startCol].
  assert (∀ addr, addr ∈ rectangle anchor focus →
                  (0 ≤ col addr < 2 ^ 52)%Z ∧ (0 ≤ row addr < 2 ^ 52)%Z
                  ∧ (Z.min (row anchor) (row focus) ≤ row addr)%Z
                  ∧ (Z.min (col anchor) (col focus) ≤ col addr)%Z) as Hrect.
  { intros [c r] Hin. apply elem_of_rectangle in Hin. simpl. lia. }
  pose proof (NoDup_rectangle anchor focus) as Hnd.
  rewrite (entries_loop_spec (rectangle anchor focus)
             (λ addr, (λ cell, (cellKey addr, cell)) <$> sheet !! cellKey addr)).
  2: { intros m addr. by destruct (sheet !! cellKey addr). }
  2: { intros x y k v v' Hx Hy Hkx Hky.
       destruct (sheet !! cellKey x), (sheet !! cellKey y); try done.
       simpl in Hkx, Hky. injection Hkx as Hkx _. injection Hky as Hky _.
       destruct (Hrect x Hx) as (? & ? & _), (Hrect y Hy) as (? & ? & _).
       apply cellKey_inj; [lia..|congruence]. }
  2: done.
  set (entry := λ e : string * Cell num,
         match keyToAddress e.1 with
         | None => None
         | Some orig =>
             match raw e.2 with
             | Some (String c r) =>
                 Some ("r" +:+ int_to_string
                                 (row orig + (row target - Z.min (row anchor) (row focus)))
                       +:+ "c" +:+ int_to_string
                                     (col orig + (col target - Z.min (col anchor) (col focus))),
                       String c r)
             | _ => None
             end
         end).
  assert (∀ addr cell, addr ∈ rectangle anchor focus →
            entry (cellKey addr, cell)
            = match raw cell with
              | Some (String c r) =>
                  Some (cellKey (pasted_at anchor focus target addr), String c r)
              | _ => None
              end) as Hentry.
  { intros addr cell Hin. destruct (Hrect addr Hin) as (? & ? & _).
    unfold entry. cbn [fst snd]. rewrite keyToAddress_cellKey by lia.
    by destruct (raw cell) as [[|??]|]. }
  rewrite (entries_loop_spec _ entry).
  - rewrite omap_omap. apply omap_ext_in. intros addr Hin.
    destruct (sheet !! cellKey addr) as [cell|]; [|done]. simpl.
    by apply Hentry.
  - intros m e. unfold entry. destruct (keyToAddress e.1); [|done].
    by destruct (raw e.2) as [[|??]|].
  - intros x y k v v' Hx Hy Hkx Hky.
    apply list_elem_of_omap in Hx as (ax & Hax & Hx).
    apply list_elem_of_omap in Hy as (ay & Hay & Hy).
    destruct (sheet !! cellKey ax) as [cx|] eqn:Hcx; [|done].
    destruct (sheet !! cellKey ay) as [cy|] eqn:Hcy; [|done].
    simpl in Hx, Hy. injection Hx as <-. injection Hy as <-.
    rewrite Hentry in Hkx, Hky by done.
    destruct (raw cx) as [[|??]|]; [done| |done].
    destruct (raw cy) as [[|??]|]; [done| |done].
    injection Hkx as Hkx _. injection Hky as Hky _.
    destruct (Hrect ax Hax) as (? & ? & ? & ?), (Hrect ay Hay) as (? & ? & ? & ?).
    assert (pasted_at anchor focus target ax = pasted_at anchor focus target ay)
      as Hsame.
    { apply cellKey_inj; [simpl; lia..|congruence]. }
    assert (ax = ay) as ->.
    { destruct ax, ay. unfold pasted_at in Hsame. simpl in *.
      injection Hsame as ? ?. f_equal; lia. }
    congruence.
  - apply NoDup_omap_inj; [|done].
    intros x y z Hx Hy Hzx Hzy.
    destruct (sheet !! cellKey x), (sheet !! cellKey y); try done.
    simpl in Hzx, Hzy. destruct z as [k v].
    injection Hzx as Hzx _. injection Hzy as Hzy _.
    destruct (Hrect x Hx) as (? & ? & _), (Hrect y Hy) as (? & ? & _).
    apply cellKey_inj; [lia..|congruence].
Qed.

End ClipboardProps.

(** ** The clipboard on a concrete sheet *)
Section ClipboardExamples.
Import Chars A1 Engine Clipboard.
Local Open Scope list_scope.

Definition small_sheet : gmap string (Cell float) :=
  {[ "r0c0" := {| kind := KText; display := "a"; cell_value := None;
                  raw := Some "a"; cell_error := None |};
     "r0c1" := {| kind := KEmpty; display := ""; cell_value := None;
                  raw := None; cell_error := None |};
     "r1c1" := {| kind := KNumber; display := "2";
                  cell_value := Some (Double.of_Z 2);
                  raw := Some "2"; cell_error := None |} ]}.

Lemma paste_of_copy_example :
  ∃ clipboardData,
    copyCells small_sheet {| col := 1; row := 1 |} {| col := 0; row := 0 |}
    = Some clipboardData
    ∧ pasteCells clipboardData {| col := 2; row := 5 |}
      = [("r5c2", "a"); ("r6c3", "2")].
Proof.
  destruct (paste_of_copy small_sheet {| col := 1; row := 1 |}
              {| col := 0; row := 0 |} {| col := 2; row := 5 |})
    as (clipboardData & rangeCells & Hcopy & Hcells & Hpaste); [simpl; lia..|].
  exists clipboardData. split; [exact Hcopy|].
  vm_compute in Hcells. injection Hcells as <-.
  etrans; [exact Hpaste|]. vm_compute. reflexivity.
Defined.

End ClipboardExamples.

(** ** The dependency graph: the path of [findCycle] *)
Section GraphFindCycle.
Import Graph.
Local Open Scope list_scope.

Section Shape.
Variable g : Graph.

(** What a search adds to [visited], and that a search that returns
    [false] leaves the recursion stack as it found it. *)
Definition dfs_shape
    (rec : string → list string → list string → option (bool * list string * list string))
    : Prop :=
  ∀ c visited stack b visited' stack',
    rec c visited stack = Some (b, visited', stack') →
    c ∉ visited → stack ⊆ visited → NoDup visited →
    (∃ new, visited' = visited ++ c :: new
            ∧ ∀ x, x ∈ new → tc (depends_on g) c x)
    ∧ NoDup visited'
    ∧ (b = false → stack' = stack).

Lemma dfs_loop_shape rec (c : string) (deps : list string) :
  dfs_shape rec →
  ∀ visited stack b visited' stack',
    dfs_loop rec deps visited stack = Some (b, visited', stack') →
    stack ⊆ visited → NoDup visited →
    (∀ d, d ∈ deps → depends_on g c d) →
    (∃ new, visited' = visited ++ new ∧ ∀ x, x ∈ new → tc (depends_on g) c x)
    ∧ NoDup visited'
    ∧ (b = false → stack' = stack).
Proof.
  intros Hrec. induction deps as [|dep deps IH];
    intros visited stack b visited' stack' Hloop Hsub Hnd Hdeps;
    cbn [dfs_loop] in Hloop.
  - simplify_eq. split_and!; [|done..]. exists []. rewrite app_nil_r.
    split; [done|]. intros x Hx. by apply elem_of_nil in Hx.
  - assert (depends_on g c dep) as Hdep by (apply Hdeps, elem_of_cons; by left).
    assert (∀ d, d ∈ deps → depends_on g c d) as Hdeps'
      by (intros d Hd; apply Hdeps, elem_of_cons; by right).
    unfold JSSet.has in Hloop.
    destruct (decide (dep ∈ visited)) as [Hvis|Hvis].
    + rewrite (bool_decide_eq_true_2 _ Hvis) in Hloop. cbn [negb] in Hloop.
      case_bool_decide.
      * simplify_eq. split_and!; [|done..]. exists []. rewrite app_nil_r.
        split; [done|]. intros x Hx. by apply elem_of_nil in Hx.
      * by eapply IH.
    + rewrite (bool_decide_eq_false_2 _ Hvis) in Hloop. cbn [negb] in Hloop.
      destruct (rec dep visited stack) as [[[b1 v1] s1]|] eqn:Hcall; [|done].
      destruct (Hrec _ _ _ _ _ _ Hcall Hvis Hsub Hnd)
        as ((new1 & -> & Hnew1) & Hnd1 & Hstack1).
      assert (∀ x, x ∈ dep :: new1 → tc (depends_on g) c x) as Hnew1'.
      { intros x [->|Hx]%elem_of_cons; [by apply tc_once|].
        eapply tc_l; [done|]. by apply Hnew1. }
      destruct b1.
      * simplify_eq. split_and!; [|done..]. by exists (dep :: new1).
      * rewrite (Hstack1 eq_refl) in Hloop.
        destruct (IH _ _ _ _ _ Hloop) as ((new2 & -> & Hnew2) & Hnd2 & Hstack2);
          [|done|done|].
        { intros x Hx. apply elem_of_app. left. by apply Hsub. }
        split_and!; [|done..]. exists ((dep :: new1) ++ new2).
        split; [by rewrite <- app_assoc|].
        intros x [Hx|Hx]%elem_of_app; [by apply Hnew1'|by apply Hnew2].
Qed.

Lemma add_fresh c (s : list string) : c ∉ s → JSSet.add c s = s ++ [c].
Proof.
  intros Hc. unfold JSSet.add, JSSet.has. by rewrite bool_decide_eq_false_2.
Qed.

Lemma dfs_dfs_shape fuel : dfs_shape (dfs fuel g).
Proof.
  induction fuel as [|fuel IH];
    intros c visited stack b visited' stack' Hdfs Hfresh Hsub Hnd; [done|].
  cbn [dfs] in Hdfs.
  set (deps := match g !! c with
               | Some node => dependencies node | None => [] end) in Hdfs.
  assert (∀ d, d ∈ deps → depends_on g c d) as Hedges.
  { intros d Hd. unfold depends_on, deps in *.
    destruct (g !! c) as [node|]; [by exists node|by apply elem_of_nil in Hd]. }
  assert (c ∉ stack) as Hfresh' by (intros Hin; by apply Hfresh, Hsub).
  rewrite (add_fresh c visited Hfresh) in Hdfs.
  destruct (dfs_loop (dfs fuel g) deps (visited ++ [c]) (JSSet.add c stack))
    as [[[b1 v1] s1]|] eqn:Hloop; [|done].
  destruct (dfs_loop_shape (dfs fuel g) c deps IH _ _ _ _ _ Hloop)
    as ((new & -> & Hnew) & Hnd1 & Hstack1); [| |done|].
  { intros x [->|Hx]%elem_of_add; apply elem_of_app; [right|left].
    - by apply list_elem_of_singleton.
    - by apply Hsub. }
  { apply NoDup_app. split_and!; [done| |apply NoDup_singleton].
    intros x Hx ->%list_elem_of_singleton. done. }
  assert ((visited ++ [c]) ++ new = visited ++ c :: new) as Heq
    by (by rewrite <- app_assoc).
  destruct b1; simplify_eq.
  - split_and!; [by exists new|done|done].
  - split_and!; [by exists new|done|].
    intros _. rewrite (Hstack1 eq_refl). by apply delete_add_fresh.
Qed.

(** *** [findCycle] runs the search of [hasCycle] *)

Definition with_path (r : bool * list string * list string)
    : bool * list string * list string * list string :=
  (r.1.1, r.1.2, r.2, r.1.2).

Definition simulates
    (find : string → list string → list string → list string
            → option (bool * list string * list string * list string))
    (rec : string → list string → list string → option (bool * list string * list string))
    : Prop :=
  ∀ c visited stack,
    c ∉ visited → stack ⊆ visited → NoDup visited →
    find c visited stack visited = with_path <$> rec c visited stack.

Lemma find_loop_simulates find rec (deps : list string) :
  simulates find rec → dfs_shape rec →
  ∀ visited stack,
    stack ⊆ visited → NoDup visited →
    find_loop find deps visited stack visited
    = with_path <$> dfs_loop rec deps visited stack.
Proof.
  intros Hsim Hshape. induction deps as [|dep deps IH];
    intros visited stack Hsub Hnd; cbn [find_loop dfs_loop]; [done|].
  unfold JSSet.has.
  destruct (decide (dep ∈ visited)) as [Hvis|Hvis].
  - rewrite (bool_decide_eq_true_2 _ Hvis). cbn [negb].
    case_bool_decide; [done|]. by apply IH.
  - rewrite (bool_decide_eq_false_2 _ Hvis). cbn [negb].
    rewrite Hsim by done.
    destruct (rec dep visited stack) as [[[b1 v1] s1]|] eqn:Hcall; [|done].
    destruct (Hshape _ _ _ _ _ _ Hcall Hvis Hsub Hnd)
      as ((new1 & Hv1 & _) & Hnd1 & Hstack1).
    destruct b1; [done|]. simpl. rewrite (Hstack1 eq_refl). apply IH; [|done].
    intros x Hx. rewrite Hv1. apply elem_of_app. left. by apply Hsub.
Qed.

Lemma find_dfs_simulates fuel : simulates (find_dfs fuel g) (dfs fuel g).
Proof.
  induction fuel as [|fuel IH]; intros c visited stack Hfresh Hsub Hnd; [done|].
  cbn [find_dfs dfs].
  assert (c ∉ stack) as Hfresh' by (intros Hin; by apply Hfresh, Hsub).
  rewrite (add_fresh c visited Hfresh), (add_fresh c stack Hfresh').
  assert (stack ++ [c] ⊆ visited ++ [c]) as Hsub1.
  { intros x [Hx|Hx]%elem_of_app; apply elem_of_app; [left|right]; [|done].
    by apply Hsub. }
  assert (NoDup (visited ++ [c])) as Hnd1.
  { apply NoDup_app. split_and!; [done| |apply NoDup_singleton].
    intros x Hx ->%list_elem_of_singleton. done. }
  rewrite (find_loop_simulates _ _ _ IH (dfs_dfs_shape fuel)) by done.
  destruct (dfs_loop (dfs fuel g) _ (visited ++ [c]) (stack ++ [c]))
    as [[[b1 v1] s1]|] eqn:Hloop; [|done].
  destruct b1; [done|]. simpl. unfold with_path. simpl.
  destruct (dfs_loop_shape (dfs fuel g) c _ (dfs_dfs_shape fuel) _ _ _ _ _ Hloop)
    as (_ & _ & Hstack1); [done|done| |].
  { intros d Hd. unfold depends_on.
    destruct (g !! c) as [node|]; [by exists node|by apply elem_of_nil in Hd]. }
  rewrite (Hstack1 eq_refl), removelast_last.
  rewrite <- (add_fresh c stack Hfresh'). by rewrite delete_add_fresh.
Qed.

End Shape.

Lemma findCycle_spec (g : Graph) (key : string) :
  ∃ res, findCycle g key = Some res
    ∧ (res = None ↔ ¬ reaches_cycle g key)
    ∧ ∀ path, res = Some path →
        NoDup path
        ∧ ∃ rest, path = key :: rest ∧ ∀ x, x ∈ rest → tc (depends_on g) key x.
Proof.
  destruct (hasCycle_spec g key) as (b & Hhas & Hb).
  unfold findCycle, hasCycle in *.
  rewrite (find_dfs_simulates g _ key JSSet.empty []);
    [|apply not_elem_of_nil|done|apply NoDup_nil_2].
  unfold JSSet.empty in *.
  destruct (dfs (S (size (search_keys g key))) g key [] [])
    as [[[b' v] s]|] eqn:Hdfs; [|done].
  cbn [mbind option_bind fst snd] in Hhas. injection Hhas as ->.
  unfold with_path. cbn [fmap option_fmap option_map mbind option_bind fst snd].
  destruct (dfs_dfs_shape g _ _ _ _ _ _ _ Hdfs)
    as ((new & Hv & Hnew) & Hnd & _);
    [apply not_elem_of_nil|done|apply NoDup_nil_2|].
  destruct b.
  - eexists. split; [done|]. split.
    + split; [done|]. intros Hno. exfalso. by apply Hno, Hb.
    + intros path [= <-]. split; [done|]. by exists new.
  - eexists. split; [done|]. split; [|done].
    split; [|done]. intros _ Hyes. by apply Hb in Hyes.
Qed.

(** X24. [findCycle(key)] always returns; it returns [null] exactly when
    no dependency cycle can be reached from [key], that is when
    [hasCycle(key)] is [false].  Otherwise it returns the cells the search
    visited until it met the cycle: the list starts with [key], holds no
    cell twice, and all its other cells are cells [key] depends on,
    directly or not. *)
Theorem findCycle_returns_visited_cells (g : Graph) (key : string) :
  ∃ res, findCycle g key = Some res
    ∧ (res = None ↔ hasCycle g key = Some false)
    ∧ (res = None
       ↔ ¬ ∃ x, rtc (depends_on g) key x ∧ tc (depends_on g) x x)
    ∧ ∀ path, res = Some path →
        NoDup path
        ∧ ∃ rest, path = key :: rest ∧ ∀ x, x ∈ rest → tc (depends_on g) key x.
Proof.
  destruct (findCycle_spec g key) as (res & Hres & Hnone & Hpath).
  destruct (hasCycle_spec g key) as (b & Hhas & Hb).
  exists res. split_and!; [done| |done|done].
  rewrite Hnone, Hhas. split.
  - intros Hno. destruct b; [|done]. exfalso. by apply Hno, Hb.
  - intros [= ->] Hyes. by apply Hb in Hyes.
Qed.

Example findCycle_examples :
  findCycle (updateCell "r0c2" ["r0c0"]
               (updateCell "r0c1" ["r0c2"] (updateCell "r0c0" ["r0c1"] ∅)))
    "r0c0"
  = Some (Some ["r0c0"; "r0c1"; "r0c2"])
  ∧ findCycle (updateCell "r0c0" ["r0c3"; "r0c1"]
                 (updateCell "r0c1" ["r0c1"] ∅)) "r0c0"
    = Some (Some ["r0c0"; "r0c3"; "r0c1"])
  ∧ findCycle (updateCell "r0c0" ["r0c1"] ∅) "r0c0" = Some None.
Proof. vm_compute. auto. Qed.

End GraphFindCycle.

(** ** The dependency graph: [getAllCyclicCells] *)
Section GraphCyclicCells.
Import Graph.

Lemma cyclic_fold_spec (g : Graph) (keys : list string) :
  ∀ acc : gset string,
    ∃ cyclic,
      foldl (λ cyclic key,
               cyclic ← cyclic;
               b ← hasCycle g key;
               Some (if b : bool then {[ key ]} ∪ cyclic else cyclic))
            (Some acc) keys = Some cyclic
      ∧ ∀ k, k ∈ cyclic ↔ k ∈ acc ∨ (k ∈ keys ∧ reaches_cycle g k).
Proof.
  induction keys as [|key keys IH]; intros acc; cbn [foldl].
  - exists acc. split; [done|]. intros k. split; [by left|].
    intros [?|[Hk _]]; [done|]. by apply elem_of_nil in Hk.
  - destruct (hasCycle_spec g key) as (b & Hhas & Hb).
    cbn [mbind option_bind]. rewrite Hhas. cbn [mbind option_bind].
    destruct (IH (if b then {[ key ]} ∪ acc else acc)) as (cyclic & -> & Hcyc).
    exists cyclic. split; [done|]. intros k. rewrite Hcyc, elem_of_cons.
    destruct b.
    + assert (reaches_cycle g key) as Hkey by (by apply Hb).
      rewrite elem_of_union, elem_of_singleton. split.
      * intros [[->|?]|[? ?]]; [right; split; [by left|done]|by left|].
        right. split; [by right|done].
      * intros [?|[[->|?] ?]]; [left; by right|left; by left|by right].
    + assert (¬ reaches_cycle g key) as Hkey.
      { intros Hyes. by apply Hb in Hyes. }
      split.
      * intros [?|[? ?]]; [by left|]. right. split; [by right|done].
      * intros [?|[[->|?] ?]]; [by left|done|by right].
Qed.

Lemma getAllCyclicCells_spec (g : Graph) :
  ∃ cyclic, getAllCyclicCells g = Some cyclic
    ∧ ∀ k, k ∈ cyclic ↔ is_Some (g !! k) ∧ reaches_cycle g k.
Proof.
  unfold getAllCyclicCells.
  destruct (cyclic_fold_spec g (map_to_list g).*1 ∅) as (cyclic & -> & Hcyc).
  exists cyclic. split; [done|]. intros k. rewrite Hcyc.
  assert (k ∈ (map_to_list g).*1 ↔ is_Some (g !! k)) as ->.
  { rewrite list_elem_of_fmap. split.
    - intros ([k' node] & -> & Hin). apply elem_of_map_to_list in Hin.
      by exists node.
    - intros [node Hnode]. exists (k, node). split; [done|].
      by apply elem_of_map_to_list. }
  split; [|by right]. intros [Hk|?]; [|done]. by apply elem_of_empty in Hk.
Qed.

(** X25. [getAllCyclicCells()] always returns, and a cell is in the
    returned set exactly when the graph holds a node for it and
    [hasCycle] is [true] for it, that is when a dependency cycle can be
    reached from it.  So every cell that lies on a cycle is reported, and
    so is every cell of the graph that depends, directly or not, on such
    a cell. *)
Theorem getAllCyclicCells_reports (g : Graph) :
  ∃ cyclic, getAllCyclicCells g = Some cyclic
    ∧ (∀ k, k ∈ cyclic ↔ is_Some (g !! k) ∧ hasCycle g k = Some true)
    ∧ (∀ k, tc (depends_on g) k k → k ∈ cyclic)
    ∧ (∀ k x, is_Some (g !! k) → rtc (depends_on g) k x →
              tc (depends_on g) x x → k ∈ cyclic)
    ∧ (∀ k, k ∈ cyclic → ∃ x, rtc (depends_on g) k x ∧ tc (depends_on g) x x).
Proof.
  destruct (getAllCyclicCells_spec g) as (cyclic & Hget & Hcyc).
  exists cyclic. split; [done|]. split_and!.
  - intros k. rewrite Hcyc.
    destruct (hasCycle_spec g k) as (b & -> & Hb). split.
    + intros [? Hk]. split; [done|]. f_equal. by apply Hb.
    + intros [? [= ->]]. split; [done|]. by apply Hb.
  - intros k Hk. apply Hcyc. split; [|by exists k].
    assert (∃ y, depends_on g k y) as (y & node & Hnode & _)
      by (inversion Hk; subst; eauto).
    by exists node.
  - intros k x Hnode Hreach Hloop. apply Hcyc. split; [done|]. by exists x.
  - intros k Hk. apply Hcyc in Hk. by destruct Hk as [_ Hk].
Qed.

Example getAllCyclicCells_example :
  getAllCyclicCells
    (updateCell "r0c3" ["r0c0"]
       (updateCell "r0c4" ["r0c5"]
          (updateCell "r0c1" ["r0c0"] (updateCell "r0c0" ["r0c1"] ∅))))
  = Some {[ "r0c0"; "r0c1"; "r0c3" ]}.
Proof. vm_compute. reflexivity. Qed.

End GraphCyclicCells.
